(** * ANSI-aware visible-width slicer (Bun.sliceAnsi)

    A shallow embedding of [src/bun.js/bindings/sliceAnsi.cpp] and of the
    helpers it uses from [ANSIHelpers.h], with the properties of the
    specification stated over it.

    Conventions of the embedding:
    - a code unit ([Latin1Character] or [UChar]) is a [Z]; a character span
      is a [list Z]; a [WTF::String] / [StringBuilder] content is a [list Z];
    - a pointer into the input is a [Z] offset from [data];
    - [size_t] is a [Z] with the wrap-around at [2^64] written out where the
      source adds or subtracts;
    - the Zig exports ([Bun__codepointWidth], [Bun__graphemeBreak],
      [Bun__isEmojiPresentation], [Bun__visibleWidthExcludeANSI_*]) are
      section variables. *)

From Stdlib Require Import ZArith List Bool Lia.
Import ListNotations.
Open Scope Z_scope.

(** ** Machine integers *)

Definition SIZE_MAX : Z := 2 ^ 64 - 1.
Definition wrap64 (x : Z) : Z := x mod 2 ^ 64.
Definition wrap32 (x : Z) : Z := x mod 2 ^ 32.
Definition wrap16 (x : Z) : Z := x mod 2 ^ 16.
Definition wrap8 (x : Z) : Z := x mod 2 ^ 8.

Arguments wrap64 x : simpl never.
Arguments wrap32 x : simpl never.
Arguments wrap16 x : simpl never.
Arguments wrap8 x : simpl never.

(** ** Grapheme-aware visible width (struct GraphemeWidthState) *)

Module Grapheme.

Record GraphemeWidthState := mkGraphemeWidthState {
  firstCp : Z;
  lastCp : Z;
  nonEmojiWidth : Z;      (* uint16_t *)
  baseWidth : Z;          (* uint8_t *)
  count : Z;              (* uint8_t *)
  emojiBase : bool;
  keycap : bool;
  regionalIndicator : bool;
  skinTone : bool;
  zwj : bool;
  vs15 : bool;
  vs16 : bool
}.

(** The default member initialisers of the struct. *)
Definition init : GraphemeWidthState :=
  mkGraphemeWidthState 0 0 0 0 0 false false false false false false false.

Section WithOracles.

Variable Bun__codepointWidth : Z -> bool -> Z.
Variable Bun__isEmojiPresentation : Z -> bool.

Definition reset (cp : Z) (ambiguousIsWide : bool) : GraphemeWidthState :=
  let w := Bun__codepointWidth cp ambiguousIsWide in
  {| firstCp := cp;
     lastCp := cp;
     count := 1;
     keycap := (cp =? 0x20E3);
     regionalIndicator := (0x1F1E6 <=? cp) && (cp <=? 0x1F1FF);
     skinTone := (0x1F3FB <=? cp) && (cp <=? 0x1F3FF);
     zwj := (cp =? 0x200D);
     vs15 := false;
     vs16 := false;
     baseWidth := w;
     nonEmojiWidth := w;
     emojiBase := Bun__isEmojiPresentation cp |}.

Definition add (gs : GraphemeWidthState) (cp : Z) (ambiguousIsWide : bool)
  : GraphemeWidthState :=
  let w := Bun__codepointWidth cp ambiguousIsWide in
  {| firstCp := firstCp gs;
     lastCp := cp;
     count := if count gs <? 255 then wrap8 (count gs + 1) else count gs;
     keycap := keycap gs || (cp =? 0x20E3);
     regionalIndicator :=
       regionalIndicator gs || ((0x1F1E6 <=? cp) && (cp <=? 0x1F1FF));
     skinTone := skinTone gs || ((0x1F3FB <=? cp) && (cp <=? 0x1F3FF));
     zwj := zwj gs || (cp =? 0x200D);
     vs15 := vs15 gs || (cp =? 0xFE0E);
     vs16 := vs16 gs || (cp =? 0xFE0F);
     baseWidth := baseWidth gs;
     nonEmojiWidth :=
       if 0 <? w then
         let newWidth := wrap16 (nonEmojiWidth gs + w) in
         if newWidth <? 1023 then newWidth else 1023
       else nonEmojiWidth gs;
     emojiBase := emojiBase gs |}.

Definition width (gs : GraphemeWidthState) : Z :=
  if count gs =? 0 then 0
  else if regionalIndicator gs && (2 <=? count gs) then 2
  else if keycap gs then 2
  else if regionalIndicator gs then 1
  else if emojiBase gs && (skinTone gs || zwj gs) then 2
  else if vs15 gs || vs16 gs then
    if baseWidth gs =? 2 then 2
    else if vs16 gs then
      if ((0x30 <=? firstCp gs) && (firstCp gs <=? 0x39))
         || (firstCp gs =? 0x23) || (firstCp gs =? 0x2A) then 1
      else if firstCp gs <? 0x80 then 1
      else 2
    else 1
  else wrap8 (nonEmojiWidth gs).

(** A cluster as the walks build it: [reset] on the codepoint that starts it,
    [add] on every codepoint that joins it. *)
Definition cluster (cp : Z) (joined : list Z) (ambiguousIsWide : bool)
  : GraphemeWidthState :=
  fold_left (fun gs c => add gs c ambiguousIsWide) joined
            (reset cp ambiguousIsWide).

(** States that any sequence of [reset] and [add] calls can produce. *)
Inductive reachable : GraphemeWidthState -> Prop :=
| reach_init : reachable init
| reach_reset gs cp a : reachable gs -> reachable (reset cp a)
| reach_add gs cp a : reachable gs -> reachable (add gs cp a).

(** The bounds of the two saturating counters. *)
Definition bounded (gs : GraphemeWidthState) : Prop :=
  0 <= nonEmojiWidth gs <= 1023 /\ 0 <= count gs <= 255.

(** No special rule of [width] applies: the accumulated width is returned. *)
Definition fallback (gs : GraphemeWidthState) : bool :=
  negb (count gs =? 0) && negb (regionalIndicator gs) && negb (keycap gs)
  && negb (emojiBase gs && (skinTone gs || zwj gs))
  && negb (vs15 gs || vs16 gs).

(** Sum of the oracle widths of the codepoints of a cluster. *)
Definition sumWidths (cps : list Z) (a : bool) : Z :=
  fold_right (fun c acc => Bun__codepointWidth c a + acc) 0 cps.

End WithOracles.

End Grapheme.

(** ** Strings and spans *)

(** Content equality of two [WTF::String]s. *)
Definition String_eqb (a b : list Z) : bool :=
  if list_eq_dec Z.eq_dec a b then true else false.

(** The code units in [[a, b)] of a span (empty when [b <= a]). *)
Definition subspan (l : list Z) (a b : Z) : list Z :=
  firstn (Z.to_nat (b - a)) (skipn (Z.to_nat a) l).

Definition len (l : list Z) : Z := Z.of_nat (length l).

(** [String::number] on a [uint32_t]: the decimal digits, most significant
    first.  Ten digits are enough for any 32-bit value. *)
Fixpoint number_digits (fuel : nat) (n : Z) (acc : list Z) : list Z :=
  match fuel with
  | O => acc
  | S f =>
      let acc' := (48 + n mod 10) :: acc in
      if n <? 10 then acc' else number_digits f (n / 10) acc'
  end.

Definition String_number (n : Z) : list Z := number_digits 10 n [].

(** ** SGR helpers of ANSIHelpers.h and the style tracker *)

Module Sgr.

Definition sgrCloseCode (openCode : Z) : Z :=
  if (openCode =? 1) || (openCode =? 2) then 22
  else if openCode =? 3 then 23
  else if openCode =? 4 then 24
  else if (openCode =? 5) || (openCode =? 6) then 25
  else if openCode =? 7 then 27
  else if openCode =? 8 then 28
  else if openCode =? 9 then 29
  else if ((30 <=? openCode) && (openCode <=? 38))
          || ((90 <=? openCode) && (openCode <=? 97)) then 39
  else if ((40 <=? openCode) && (openCode <=? 48))
          || ((100 <=? openCode) && (openCode <=? 107)) then 49
  else if openCode =? 53 then 55
  else 0.

Definition isSgrEndCode (code : Z) : bool :=
  existsb (Z.eqb code) [0; 22; 23; 24; 25; 27; 28; 29; 39; 49; 55].

Record Entry := mkEntry {
  endCode : list Z;    (* e.g. ESC [ 3 9 m *)
  openCode : list Z    (* e.g. ESC [ 3 1 m *)
}.

(** [SgrStyleState::entries], a vector kept in insertion order. *)
Definition SgrStyleState := list Entry.

Definition applyReset (entries : SgrStyleState) : SgrStyleState := [].

(** [Vector::removeAllMatching]: the entries that do not match stay, in
    their order. *)
Definition removeAllMatching (f : Entry -> bool) (entries : SgrStyleState)
  : SgrStyleState :=
  filter (fun e => negb (f e)) entries.

Definition applyEnd (endCodeStr : list Z) (entries : SgrStyleState)
  : SgrStyleState :=
  removeAllMatching (fun e => String_eqb (endCode e) endCodeStr) entries.

Definition applyStart (openCodeStr endCodeStr : list Z)
  (entries : SgrStyleState) : SgrStyleState :=
  removeAllMatching (fun e => String_eqb (endCode e) endCodeStr) entries
  ++ [mkEntry endCodeStr openCodeStr].

Definition emitOpenCodes (entries : SgrStyleState) (result : list Z) : list Z :=
  fold_left (fun r e => r ++ openCode e) entries result.

Definition emitCloseCodes (entries : SgrStyleState) (result : list Z) : list Z :=
  fold_left (fun r e => r ++ endCode e) (rev entries) result.

Definition isEmpty (entries : SgrStyleState) : bool :=
  match entries with [] => true | _ => false end.

(** A call on the tracker, and a run of calls from the empty state. *)
Inductive StyleOp :=
| OpStart (openCodeStr endCodeStr : list Z)
| OpEnd (endCodeStr : list Z)
| OpReset.

Definition applyOp (entries : SgrStyleState) (op : StyleOp) : SgrStyleState :=
  match op with
  | OpStart o e => applyStart o e entries
  | OpEnd e => applyEnd e entries
  | OpReset => applyReset entries
  end.

Definition runOps (ops : list StyleOp) : SgrStyleState :=
  fold_left applyOp ops [].

(** The entries that the [applyStart] calls of a run append, in call
    order. *)
Fixpoint inserted (ops : list StyleOp) : list Entry :=
  match ops with
  | [] => []
  | OpStart o e :: rest => mkEntry e o :: inserted rest
  | _ :: rest => inserted rest
  end.

(** [Subseq a b]: [a] is [b] with some elements left out, the others in
    the order they have in [b]. *)
Inductive Subseq {A : Type} : list A -> list A -> Prop :=
| Subseq_nil : Subseq [] []
| Subseq_skip x a b : Subseq a b -> Subseq a (x :: b)
| Subseq_keep x a b : Subseq a b -> Subseq (x :: a) (x :: b).

Definition csiPrefix (isC1 : bool) : list Z :=
  if isC1 then [0x9b] else [0x1b; 0x5b].

Definition makeSgrCode (isC1 : bool) (code : Z) : list Z :=
  csiPrefix isC1 ++ String_number code ++ [0x6d].

Fixpoint joinCodes (codes : list Z) : list Z :=
  match codes with
  | [] => []
  | [c] => String_number c
  | c :: rest => String_number c ++ [0x3b] ++ joinCodes rest
  end.

Definition makeSgrCodeMulti (isC1 : bool) (codes : list Z) : list Z :=
  csiPrefix isC1 ++ joinCodes codes ++ [0x6d].

(** *** SGR parameter parsing *)

Definition kMax : Z := 32.

Record SgrParams := mkSgrParams {
  data : list Z;        (* data[0 .. count) *)
  overflow : bool;
  hasColon : bool
}.

Definition params_size (ps : SgrParams) : Z := len (data ps).

Definition params_empty : SgrParams := mkSgrParams [] false false.

Definition push (out : SgrParams) (v : Z) : SgrParams :=
  mkSgrParams (data out ++ [v]) (overflow out) (hasColon out).

Definition set_overflow (out : SgrParams) : SgrParams :=
  mkSgrParams (data out) true (hasColon out).

Definition set_hasColon (out : SgrParams) : SgrParams :=
  mkSgrParams (data out) (overflow out) true.

(** The code after the [for] loop: the last parameter. *)
Definition parseSgrParams_last (out : SgrParams) (current : Z)
  (hasDigit : bool) : SgrParams :=
  if hasDigit || (params_size out =? 0) then
    if kMax <=? params_size out then set_overflow out
    else push out current
  else out.

(** The [for] loop over [[paramStart, paramEnd)], one code unit a step. *)
Fixpoint parseSgrParams_loop (l : list Z) (out : SgrParams) (current : Z)
  (hasDigit : bool) : SgrParams :=
  match l with
  | [] => parseSgrParams_last out current hasDigit
  | c :: l' =>
      if (0x30 <=? c) && (c <=? 0x39) then
        let current' :=
          if current <? 100000 then wrap32 (current * 10 + (c - 0x30))
          else current in
        parseSgrParams_loop l' out current' true
      else if (c =? 0x3b) || (c =? 0x3a) then
        let out1 := if c =? 0x3a then set_hasColon out else out in
        if kMax <=? params_size out1 then set_overflow out1
        else parseSgrParams_loop l' (push out1 (if hasDigit then current else 0))
                                 0 false
      else parseSgrParams_last out current hasDigit
  end.

Definition parseSgrParams (l : list Z) : SgrParams :=
  parseSgrParams_loop l params_empty 0 false.

(** The range of a parsed parameter. *)
Definition paramOk (v : Z) : Prop := 0 <= v <= 999999.

Definition resetCode : list Z := [0x1b; 0x5b; 0x30; 0x6d].

(** The [while (i < params.size())] loop of [applySgrToState], on the
    parameters from index [i] on. *)
Fixpoint applySgrParams (isC1 : bool) (ps : list Z) (state : SgrStyleState)
  {struct ps} : SgrStyleState :=
  match ps with
  | [] => state
  | code :: rest =>
      if code =? 0 then applySgrParams isC1 rest (applyReset state)
      else if (code =? 38) || (code =? 48) then
        let defaultClose := if code =? 38 then 39 else 49 in
        let endStr := makeSgrCode false defaultClose in
        let alone :=
          applySgrParams isC1 rest
            (applyStart (makeSgrCode isC1 code) endStr state) in
        match rest with
        | colorType :: r2 =>
            match r2 with
            | n :: r3 =>
                if colorType =? 5 then
                  applySgrParams isC1 r3
                    (applyStart (makeSgrCodeMulti isC1 [code; 5; n]) endStr state)
                else
                  match r3 with
                  | g :: b :: r5 =>
                      if colorType =? 2 then
                        applySgrParams isC1 r5
                          (applyStart
                             (makeSgrCodeMulti isC1 [code; 2; n; g; b])
                             endStr state)
                      else alone
                  | _ => alone
                  end
            | [] => alone
            end
        | [] => alone
        end
      else if isSgrEndCode code then
        applySgrParams isC1 rest (applyEnd (makeSgrCode false code) state)
      else
        let closeCode := sgrCloseCode code in
        if negb (closeCode =? 0) then
          applySgrParams isC1 rest
            (applyStart (makeSgrCode isC1 code) (makeSgrCode false closeCode)
                        state)
        else
          applySgrParams isC1 rest
            (applyStart (makeSgrCode isC1 code) resetCode state)
  end.

(** [applySgrToState(state, seqStart, seqEnd)] on the code units [seq] of
    the token. *)
Definition applySgrToState (state : SgrStyleState) (seq : list Z)
  : SgrStyleState :=
  let isC1 := match seq with c :: _ => c =? 0x9b | [] => false end in
  let paramStart := if isC1 then 1 else 2 in
  let paramEnd := len seq - 1 in
  let params := parseSgrParams (subspan seq paramStart paramEnd) in
  let hasColon := hasColon params || overflow params in
  if hasColon then
    let firstParam := match data params with [] => 0 | v :: _ => v end in
    let closeCode := sgrCloseCode firstParam in
    let endStr :=
      if negb (closeCode =? 0) then makeSgrCode false closeCode
      else resetCode in
    applyStart seq endStr state
  else if params_size params =? 0 then applyReset state
  else applySgrParams isC1 (data params) state.

(** The [for] loop of [shouldIncludeSgrAfterEnd] on the parameters from
    index [i] on, with the two flags it keeps. *)
Fixpoint shouldInclude_loop (ps : list Z) (activeStyles : SgrStyleState)
  (hasStartFragment hasClosingEffect : bool) {struct ps} : bool :=
  match ps with
  | [] => hasClosingEffect && negb hasStartFragment
  | code :: rest =>
      if code =? 0 then
        shouldInclude_loop rest activeStyles hasStartFragment
          (if negb (isEmpty activeStyles) then true else hasClosingEffect)
      else if isSgrEndCode code then
        let endStr := makeSgrCode false code in
        shouldInclude_loop rest activeStyles hasStartFragment
          (if existsb (fun e => String_eqb (endCode e) endStr) activeStyles
           then true else hasClosingEffect)
      else if (code =? 38) || (code =? 48) then
        match rest with
        | colorType :: r2 =>
            match r2 with
            | _ :: r3 =>
                if colorType =? 5 then
                  shouldInclude_loop r3 activeStyles true hasClosingEffect
                else
                  match r3 with
                  | _ :: _ :: r5 =>
                      if colorType =? 2 then
                        shouldInclude_loop r5 activeStyles true hasClosingEffect
                      else
                        shouldInclude_loop rest activeStyles true
                                           hasClosingEffect
                  | _ =>
                      shouldInclude_loop rest activeStyles true hasClosingEffect
                  end
            | [] => shouldInclude_loop rest activeStyles true hasClosingEffect
            end
        | [] => shouldInclude_loop rest activeStyles true hasClosingEffect
        end
      else shouldInclude_loop rest activeStyles true hasClosingEffect
  end.

Definition shouldIncludeSgrAfterEnd (params : SgrParams)
  (activeStyles : SgrStyleState) : bool :=
  shouldInclude_loop (data params) activeStyles false false.

(** A parameter with closing effect: the reset [0] while a style is
    active, or an end code that is the recorded close of an active style. *)
Definition closesActive (activeStyles : SgrStyleState) (code : Z) : bool :=
  if code =? 0 then negb (isEmpty activeStyles)
  else isSgrEndCode code
       && existsb (fun e => String_eqb (endCode e) (makeSgrCode false code))
                  activeStyles.

End Sgr.

(** ** ANSI tokenizer *)

Module Ansi.

Definition isEscapeCharacter (c : Z) : bool :=
  existsb (Z.eqb c) [0x1b; 0x9b; 0x9d; 0x90; 0x98; 0x9e; 0x9f].

(** [findEscapeCharacter(start, end)] on the code units of [[start, end)]:
    the offset of the first unit that the exact match of the vector loop, or
    the scalar tail, accepts (an introducer or 0x9c); [None] is [nullptr]. *)
Fixpoint findEscapeCharacter (l : list Z) : option Z :=
  match l with
  | [] => None
  | c :: l' =>
      if isEscapeCharacter c || (c =? 0x9c) then Some 0
      else match findEscapeCharacter l' with
           | Some i => Some (i + 1)
           | None => None
           end
  end.

(** [firstNonAsciiPrintable]: the index of the first lane outside
    [[0x20, 0x7E]], by the wrapping subtraction of the source; the size of
    the span when there is none.  [laneBits] is 8 or 16. *)
Fixpoint firstNonAsciiPrintable (laneBits : Z) (l : list Z) : Z :=
  match l with
  | [] => 0
  | c :: l' =>
      if (c - 0x20) mod 2 ^ laneBits >? 0x5E then 0
      else 1 + firstNonAsciiPrintable laneBits l'
  end.

(** [decodeUTF16], that is ICU's [U16_NEXT], on the units from [p] on:
    the codepoint and the number of units read. *)
Definition decodeUTF16 (l : list Z) : Z * Z :=
  match l with
  | [] => (0, 0)
  | c :: l' =>
      if Z.land c 0xfffffc00 =? 0xd800 then
        match l' with
        | c2 :: _ =>
            if Z.land c2 0xfffffc00 =? 0xdc00 then
              (Z.shiftl c 10 + c2 - (Z.shiftl 0xd800 10 + 0xdc00 - 0x10000), 2)
            else (c, 1)
        | [] => (c, 1)
        end
      else (c, 1)
  end.

(** A parameter or intermediate byte of a CSI sequence. *)
Definition csiInterior (c : Z) : bool := (0x20 <=? c) && (c <=? 0x3F).

(** A byte in one of the three ranges of a CSI sequence. *)
Definition csiValid (c : Z) : bool := (0x20 <=? c) && (c <=? 0x7E).

Inductive TokenType := Character | SgrTok | Hyperlink | Control.

Definition TokenType_eqb (a b : TokenType) : bool :=
  match a, b with
  | Character, Character | SgrTok, SgrTok
  | Hyperlink, Hyperlink | Control, Control => true
  | _, _ => false
  end.

(** *** parseCsi *)

Record CsiResult := mkCsi {
  csiEnd : Z;
  csiIsSgr : bool;
  csiIsCanonicalSgr : bool
}.

(** The [while (it < end)] loop; [l] holds the units from [it] on. *)
Fixpoint parseCsi_scan (l : list Z) (it : Z) (isCanonicalSgr : bool)
  : CsiResult :=
  match l with
  | [] => mkCsi it false isCanonicalSgr
  | c :: l' =>
      if (0x40 <=? c) && (c <=? 0x7E) then
        mkCsi (it + 1) ((c =? 0x6d) && isCanonicalSgr) isCanonicalSgr
      else if (0x30 <=? c) && (c <=? 0x3F) then
        parseCsi_scan l' (it + 1)
          (if negb ((0x30 <=? c) && (c <=? 0x39))
              && negb (c =? 0x3b) && negb (c =? 0x3a)
           then false else isCanonicalSgr)
      else if (0x20 <=? c) && (c <=? 0x2F) then
        parseCsi_scan l' (it + 1) false
      else mkCsi it false isCanonicalSgr
  end.

Definition parseCsi (l : list Z) : option CsiResult :=
  match l with
  | [] => None
  | c :: l1 =>
      if c =? 0x1b then
        match l1 with
        | c1 :: l2 =>
            if c1 =? 0x5b then Some (parseCsi_scan l2 2 true) else None
        | [] => None
        end
      else if c =? 0x9b then Some (parseCsi_scan l1 1 true)
      else None
  end.

(** *** parseHyperlink *)

Record HyperlinkResult := mkHl {
  hlEnd : Z;
  hlIsOpen : bool;
  hlCodeBuilder : list Z;
  hlClosePrefix : list Z;
  hlTerminator : list Z
}.

(** The scan for the semicolon that ends the params; [l] holds the units
    from [p] on.  Gives [uriStart] and the units from there on. *)
Fixpoint findUriStart (l : list Z) (p : Z) : option (Z * list Z) :=
  match l with
  | [] => None
  | c :: l' => if c =? 0x3b then Some (p + 1, l') else findUriStart l' (p + 1)
  end.

Inductive Terminator := BEL | ESC_ST | C1_ST.

(** The scan for the terminator; [l] holds the units from [p] on. *)
Fixpoint findTerminator (l : list Z) (p : Z) : option (Z * Terminator) :=
  match l with
  | [] => None
  | c :: l' =>
      if c =? 0x07 then Some (p, BEL)
      else if (c =? 0x1b)
              && match l' with c1 :: _ => c1 =? 0x5c | [] => false end
      then Some (p, ESC_ST)
      else if c =? 0x9c then Some (p, C1_ST)
      else findTerminator l' (p + 1)
  end.

Definition closePrefixOf (isEscOsc : bool) : list Z :=
  if isEscOsc then [0x1b; 0x5d; 0x38; 0x3b; 0x3b]
  else [0x9d; 0x38; 0x3b; 0x3b].

Definition parseHyperlink_body (l : list Z) (isEscOsc : bool) (it : Z)
  (rest : list Z) : option HyperlinkResult :=
  match findUriStart rest it with
  | None => None
  | Some (uriStart, uri) =>
      match findTerminator uri uriStart with
      | None => None
      | Some (p, t) =>
          let stop := match t with ESC_ST => p + 2 | _ => p + 1 end in
          Some (mkHl stop (uriStart <? p) (subspan l 0 stop)
                     (closePrefixOf isEscOsc)
                     match t with
                     | BEL => [0x07]
                     | ESC_ST => [0x1b; 0x5c]
                     | C1_ST => [0x9c]
                     end)
      end
  end.

Definition parseHyperlink (l : list Z) : option HyperlinkResult :=
  match l with
  | c0 :: c1 :: c2 :: l3 =>
      match l3 with
      | c3 :: l4 =>
          if (c0 =? 0x1b) && (c1 =? 0x5d) && (c2 =? 0x38) && (c3 =? 0x3b)
          then parseHyperlink_body l true 4 l4
          else if (c0 =? 0x9d) && (c1 =? 0x38) && (c2 =? 0x3b)
          then parseHyperlink_body l false 3 l3
          else None
      | [] =>
          if (c0 =? 0x9d) && (c1 =? 0x38) && (c2 =? 0x3b)
          then parseHyperlink_body l false 3 l3
          else None
      end
  | _ => None
  end.

(** *** parseControlString *)

(** The [while (it < end)] loop under [needST]; [l] holds the units from
    [it] on. *)
Fixpoint scanST (l : list Z) (it : Z) (supportsBel : bool) : option Z :=
  match l with
  | [] => None
  | c :: l' =>
      if supportsBel && (c =? 0x07) then Some (it + 1)
      else if (c =? 0x1b)
              && match l' with c1 :: _ => c1 =? 0x5c | [] => false end
      then Some (it + 2)
      else if c =? 0x9c then Some (it + 1)
      else scanST l' (it + 1) supportsBel
  end.

Definition parseControlString (l : list Z) : option Z :=
  match l with
  | [] => None
  | c :: l1 =>
      if c =? 0x1b then
        match l1 with
        | [] => None
        | next :: l2 =>
            if next =? 0x5d then scanST l2 2 true
            else if (next =? 0x50) || (next =? 0x58)
                    || (next =? 0x5e) || (next =? 0x5f)
            then scanST l2 2 false
            else if next =? 0x5c then Some 2
            else None
        end
      else if c =? 0x9d then scanST l1 1 true
      else if (c =? 0x90) || (c =? 0x98) || (c =? 0x9e) || (c =? 0x9f)
      then scanST l1 1 false
      else if c =? 0x9c then Some 1
      else None
  end.

(** *** tryParseAnsi *)

(** What the walk reads of a successful [tryParseAnsi]: the end pointer (an
    offset from [start]) and the out-parameters. *)
Record Token := mkToken {
  tokType : TokenType;
  tokEnd : Z;
  tokHlOpen : bool;
  tokHlCode : list Z;
  tokHlClosePrefix : list Z;
  tokHlTerminator : list Z
}.

Definition tryCsi (l : list Z) (c : Z) : option Token :=
  if (c =? 0x1b) || (c =? 0x9b) then
    match parseCsi l with
    | Some r =>
        Some (mkToken (if csiIsSgr r then SgrTok else Control) (csiEnd r)
                      false [] [] [])
    | None => None
    end
  else None.

Definition tryControl (l : list Z) (c : Z) : option Token :=
  if (c =? 0x1b) || (c =? 0x9d) || (c =? 0x90) || (c =? 0x98)
     || (c =? 0x9e) || (c =? 0x9f) || (c =? 0x9c)
  then
    match parseControlString l with
    | Some e => Some (mkToken Control e false [] [] [])
    | None => tryCsi l c
    end
  else tryCsi l c.

(** [l] holds the units of [[start, end)]; [None] is [nullptr]. *)
Definition tryParseAnsi (l : list Z) : option Token :=
  match l with
  | [] => None
  | c :: _ =>
      if (c =? 0x1b) || (c =? 0x9d) then
        match parseHyperlink l with
        | Some h =>
            Some (mkToken Hyperlink (hlEnd h) (hlIsOpen h) (hlCodeBuilder h)
                          (hlClosePrefix h) (hlTerminator h))
        | None => tryControl l c
        end
      else tryControl l c
  end.

End Ansi.

(** ** Integer-valued doubles

    [startD] and [endD] come from [toIntegerOrInfinity]: an integer or an
    infinity, never NaN and never a fraction.  The comparisons and the two
    additions the slicer does on them are exact on such values. *)

Module Num.

Inductive JSNumber := Finite (z : Z) | PosInf | NegInf.

Definition isfinite (d : JSNumber) : bool :=
  match d with Finite _ => true | _ => false end.

Definition lt (a b : JSNumber) : bool :=
  match a, b with
  | NegInf, NegInf => false
  | NegInf, _ => true
  | Finite x, Finite y => x <? y
  | Finite _, PosInf => true
  | Finite _, NegInf => false
  | PosInf, _ => false
  end.

Definition le (a b : JSNumber) : bool := negb (lt b a).

Definition eq0 (a : JSNumber) : bool :=
  match a with Finite z => z =? 0 | _ => false end.

(** [static_cast<double>(n) + d] for a [size_t] or literal [n]. *)
Definition add (n : Z) (d : JSNumber) : JSNumber :=
  match d with Finite z => Finite (n + z) | _ => d end.

(** [static_cast<size_t>(d)]; the source casts only a value it has checked
    to be finite and in range. *)
Definition to_size (d : JSNumber) : Z :=
  match d with Finite z => z | _ => 0 end.

End Num.

(** ** The slice engine *)

Module Slice.

Import Grapheme Sgr Ansi Num.

(** A [WTF::String]: the null string or a string with content. *)
Inductive WTFString := Null | Str (s : list Z).

(** Outcome of a modelled computation: a value, an out-of-range access to a
    [Vector] (a crash in the source), or a loop that was given too few
    iterations by the model. *)
Inductive Res (A : Type) := Ok (a : A) | Crash | OutOfFuel.
Arguments Ok {A} a.
Arguments Crash {A}.
Arguments OutOfFuel {A}.

Definition bind {A B : Type} (r : Res A) (f : A -> Res B) : Res B :=
  match r with
  | Ok a => f a
  | Crash => Crash
  | OutOfFuel => OutOfFuel
  end.

Notation "x <- r ;; k" := (bind r (fun x => k))
  (at level 61, r at next level, right associativity).

Record SliceBounds := mkBounds {
  b_start : Z;
  b_end : Z;
  b_cutStart : bool;
  b_cutEnd : bool;
  b_empty : bool
}.

Definition resolveSliceBounds (startD endD : JSNumber) (totalW : Z)
  : SliceBounds :=
  let from := if lt startD (Finite 0) then add totalW startD else startD in
  let to := if lt endD (Finite 0) then add totalW endD else endD in
  let from := if lt from (Finite 0) then Finite 0 else from in
  let to := if lt (Finite totalW) to then Finite totalW else to in
  if negb (lt from to) then mkBounds 0 0 false false true
  else
    let s := to_size from in
    let e := to_size to in
    mkBounds s e (0 <? s) (e <? totalW) false.

(** An entry of the pending-ANSI buffer. *)
Record Pending := mkPending {
  pa_start : Z;
  pa_end : Z;
  pa_type : TokenType;
  pa_hlOpen : bool
}.

(** The result of the ellipsis budget resolution at the head of
    [emitSliceStreaming]. *)
Record EllipsisPlan := mkPlan {
  e_start : Z;
  e_end : Z;
  e_needStartEllipsis : bool;
  e_needEndEllipsis : bool;
  e_ellipsisEndBudget : Z
}.

(** [None] is the early return of the ellipsis alone. *)
Definition resolveEllipsis (start end_ ellipsisWidth : Z)
  (cutStartForEllipsis cutEndKnown cutEndHint : bool) : option EllipsisPlan :=
  let endUnbounded := end_ =? SIZE_MAX in
  if 0 <? ellipsisWidth then
    let needStartEllipsis :=
      cutStartForEllipsis
      && (ellipsisWidth <? (if endUnbounded then wrap64 (SIZE_MAX - start)
                            else wrap64 (end_ - start))) in
    let start1 :=
      if needStartEllipsis then wrap64 (start + ellipsisWidth) else start in
    let plan :=
      if cutEndKnown && cutEndHint && (ellipsisWidth <? wrap64 (end_ - start1))
      then mkPlan start1 (wrap64 (end_ - ellipsisWidth)) needStartEllipsis true 0
      else if negb cutEndKnown && negb endUnbounded
              && (ellipsisWidth <? wrap64 (end_ - start1))
      then mkPlan start1 (wrap64 (end_ - ellipsisWidth)) needStartEllipsis true
                  ellipsisWidth
      else mkPlan start1 end_ needStartEllipsis false 0 in
    if cutEndKnown && (cutStartForEllipsis || cutEndHint)
       && negb (e_needStartEllipsis plan) && negb (e_needEndEllipsis plan)
    then None
    else Some plan
  else Some (mkPlan start end_ false false 0).

Record Walk := mkWalk {
  p : Z;
  position : Z;
  include : bool;
  prevVisCp : Z;
  hasPrev : bool;
  breakState : Z;
  gs : GraphemeWidthState;
  activeStyles : SgrStyleState;
  activeHyperlink : bool;
  activeHyperlinkClosePrefix : list Z;
  activeHyperlinkTerminator : list Z;
  activeHyperlinkCode : list Z;
  pending : list Pending;
  pendingHl : list (list Z * list Z * list Z);
  result : list Z;
  specZone : list Z;
  inSpecZone : bool;
  sawCutEnd : bool
}.

Definition set_p (v : Z) (w : Walk) : Walk :=
    mkWalk v (position w) (include w) (prevVisCp w) (hasPrev w) (breakState w)
    (gs w) (activeStyles w) (activeHyperlink w) (activeHyperlinkClosePrefix w)
    (activeHyperlinkTerminator w) (activeHyperlinkCode w) (pending w)
    (pendingHl w) (result w) (specZone w) (inSpecZone w) (sawCutEnd w).
Definition set_position (v : Z) (w : Walk) : Walk :=
    mkWalk (p w) v (include w) (prevVisCp w) (hasPrev w) (breakState w) (gs w)
    (activeStyles w) (activeHyperlink w) (activeHyperlinkClosePrefix w)
    (activeHyperlinkTerminator w) (activeHyperlinkCode w) (pending w)
    (pendingHl w) (result w) (specZone w) (inSpecZone w) (sawCutEnd w).
Definition set_include (v : bool) (w : Walk) : Walk :=
    mkWalk (p w) (position w) v (prevVisCp w) (hasPrev w) (breakState w) (gs
    w) (activeStyles w) (activeHyperlink w) (activeHyperlinkClosePrefix w)
    (activeHyperlinkTerminator w) (activeHyperlinkCode w) (pending w)
    (pendingHl w) (result w) (specZone w) (inSpecZone w) (sawCutEnd w).
Definition set_prevVisCp (v : Z) (w : Walk) : Walk :=
    mkWalk (p w) (position w) (include w) v (hasPrev w) (breakState w) (gs w)
    (activeStyles w) (activeHyperlink w) (activeHyperlinkClosePrefix w)
    (activeHyperlinkTerminator w) (activeHyperlinkCode w) (pending w)
    (pendingHl w) (result w) (specZone w) (inSpecZone w) (sawCutEnd w).
Definition set_hasPrev (v : bool) (w : Walk) : Walk :=
    mkWalk (p w) (position w) (include w) (prevVisCp w) v (breakState w) (gs
    w) (activeStyles w) (activeHyperlink w) (activeHyperlinkClosePrefix w)
    (activeHyperlinkTerminator w) (activeHyperlinkCode w) (pending w)
    (pendingHl w) (result w) (specZone w) (inSpecZone w) (sawCutEnd w).
Definition set_breakState (v : Z) (w : Walk) : Walk :=
    mkWalk (p w) (position w) (include w) (prevVisCp w) (hasPrev w) v (gs w)
    (activeStyles w) (activeHyperlink w) (activeHyperlinkClosePrefix w)
    (activeHyperlinkTerminator w) (activeHyperlinkCode w) (pending w)
    (pendingHl w) (result w) (specZone w) (inSpecZone w) (sawCutEnd w).
Definition set_gs (v : GraphemeWidthState) (w : Walk) : Walk :=
    mkWalk (p w) (position w) (include w) (prevVisCp w) (hasPrev w)
    (breakState w) v (activeStyles w) (activeHyperlink w)
    (activeHyperlinkClosePrefix w) (activeHyperlinkTerminator w)
    (activeHyperlinkCode w) (pending w) (pendingHl w) (result w) (specZone w)
    (inSpecZone w) (sawCutEnd w).
Definition set_activeStyles (v : SgrStyleState) (w : Walk) : Walk :=
    mkWalk (p w) (position w) (include w) (prevVisCp w) (hasPrev w)
    (breakState w) (gs w) v (activeHyperlink w) (activeHyperlinkClosePrefix w)
    (activeHyperlinkTerminator w) (activeHyperlinkCode w) (pending w)
    (pendingHl w) (result w) (specZone w) (inSpecZone w) (sawCutEnd w).
Definition set_activeHyperlink (v : bool) (w : Walk) : Walk :=
    mkWalk (p w) (position w) (include w) (prevVisCp w) (hasPrev w)
    (breakState w) (gs w) (activeStyles w) v (activeHyperlinkClosePrefix w)
    (activeHyperlinkTerminator w) (activeHyperlinkCode w) (pending w)
    (pendingHl w) (result w) (specZone w) (inSpecZone w) (sawCutEnd w).
Definition set_activeHyperlinkClosePrefix (v : list Z) (w : Walk) : Walk :=
    mkWalk (p w) (position w) (include w) (prevVisCp w) (hasPrev w)
    (breakState w) (gs w) (activeStyles w) (activeHyperlink w) v
    (activeHyperlinkTerminator w) (activeHyperlinkCode w) (pending w)
    (pendingHl w) (result w) (specZone w) (inSpecZone w) (sawCutEnd w).
Definition set_activeHyperlinkTerminator (v : list Z) (w : Walk) : Walk :=
    mkWalk (p w) (position w) (include w) (prevVisCp w) (hasPrev w)
    (breakState w) (gs w) (activeStyles w) (activeHyperlink w)
    (activeHyperlinkClosePrefix w) v (activeHyperlinkCode w) (pending w)
    (pendingHl w) (result w) (specZone w) (inSpecZone w) (sawCutEnd w).
Definition set_activeHyperlinkCode (v : list Z) (w : Walk) : Walk :=
    mkWalk (p w) (position w) (include w) (prevVisCp w) (hasPrev w)
    (breakState w) (gs w) (activeStyles w) (activeHyperlink w)
    (activeHyperlinkClosePrefix w) (activeHyperlinkTerminator w) v (pending w)
    (pendingHl w) (result w) (specZone w) (inSpecZone w) (sawCutEnd w).
Definition set_pending (v : list Pending) (w : Walk) : Walk :=
    mkWalk (p w) (position w) (include w) (prevVisCp w) (hasPrev w)
    (breakState w) (gs w) (activeStyles w) (activeHyperlink w)
    (activeHyperlinkClosePrefix w) (activeHyperlinkTerminator w)
    (activeHyperlinkCode w) v (pendingHl w) (result w) (specZone w)
    (inSpecZone w) (sawCutEnd w).
Definition set_pendingHl (v : list (list Z * list Z * list Z)) (w : Walk) : Walk :=
    mkWalk (p w) (position w) (include w) (prevVisCp w) (hasPrev w)
    (breakState w) (gs w) (activeStyles w) (activeHyperlink w)
    (activeHyperlinkClosePrefix w) (activeHyperlinkTerminator w)
    (activeHyperlinkCode w) (pending w) v (result w) (specZone w) (inSpecZone
    w) (sawCutEnd w).
Definition set_result (v : list Z) (w : Walk) : Walk :=
    mkWalk (p w) (position w) (include w) (prevVisCp w) (hasPrev w)
    (breakState w) (gs w) (activeStyles w) (activeHyperlink w)
    (activeHyperlinkClosePrefix w) (activeHyperlinkTerminator w)
    (activeHyperlinkCode w) (pending w) (pendingHl w) v (specZone w)
    (inSpecZone w) (sawCutEnd w).
Definition set_specZone (v : list Z) (w : Walk) : Walk :=
    mkWalk (p w) (position w) (include w) (prevVisCp w) (hasPrev w)
    (breakState w) (gs w) (activeStyles w) (activeHyperlink w)
    (activeHyperlinkClosePrefix w) (activeHyperlinkTerminator w)
    (activeHyperlinkCode w) (pending w) (pendingHl w) (result w) v (inSpecZone
    w) (sawCutEnd w).
Definition set_inSpecZone (v : bool) (w : Walk) : Walk :=
    mkWalk (p w) (position w) (include w) (prevVisCp w) (hasPrev w)
    (breakState w) (gs w) (activeStyles w) (activeHyperlink w)
    (activeHyperlinkClosePrefix w) (activeHyperlinkTerminator w)
    (activeHyperlinkCode w) (pending w) (pendingHl w) (result w) (specZone w)
    v (sawCutEnd w).
Definition set_sawCutEnd (v : bool) (w : Walk) : Walk :=
    mkWalk (p w) (position w) (include w) (prevVisCp w) (hasPrev w)
    (breakState w) (gs w) (activeStyles w) (activeHyperlink w)
    (activeHyperlinkClosePrefix w) (activeHyperlinkTerminator w)
    (activeHyperlinkCode w) (pending w) (pendingHl w) (result w) (specZone w)
    (inSpecZone w) v.

(** The hyperlink entries of the pending buffer: each has its captured
    parse state in [pendingHl], at the index of its rank. *)
Definition countHl (pas : list Pending) : nat :=
  length (filter (fun pa => TokenType_eqb (pa_type pa) Hyperlink) pas).

Definition pendingOK (w : Walk) : Prop :=
  countHl (pending w) = length (pendingHl w).

(** The locals of [emitSliceStreaming] that the walk only reads. *)
Record Env := mkEnv {
  input : list Z;
  start : Z;                 (* after the start-ellipsis budget *)
  end_ : Z;                  (* after the end-ellipsis budget *)
  endUnbounded : bool;
  specEnd : Z;
  ellipsis : list Z;
  needStartEllipsis : bool;
  ellipsisEndBudget : Z;
  ambiguousIsWide : bool
}.

Definition dataEnd (E : Env) : Z := len (input E).

(** The code units from pointer [q] to the end of the input. *)
Definition from (E : Env) (q : Z) : list Z := skipn (Z.to_nat q) (input E).

Section Engine.

Variable Bun__codepointWidth : Z -> bool -> Z.
Variable Bun__isEmojiPresentation : Z -> bool.
(** [Bun__graphemeBreak(cp1, cp2, &state)]: the answer and the new state. *)
Variable Bun__graphemeBreak : Z -> Z -> Z -> bool * Z.
(** [sizeof(Char) == 2]: the UTF-16 instance of the templates. *)
Variable is16 : bool.

Abbreviation gs_reset := (Grapheme.reset Bun__codepointWidth Bun__isEmojiPresentation).
Abbreviation gs_add := (Grapheme.add Bun__codepointWidth).

Definition laneBits : Z := if is16 then 16 else 8.

(** The decode of one codepoint at [p]: the codepoint and [charLen]. *)
Definition decodeAt (l : list Z) : Z * Z :=
  if is16 then decodeUTF16 l
  else (wrap8 (hd 0 l), 1).

(** The break decision shared by the two walks: the decision and the
    break state after it. *)
Definition shouldBreakAt (hasPrev : bool) (prevCp cp breakState : Z)
  : bool * Z :=
  if negb hasPrev then (true, breakState)
  else if (prevCp =? 0x0D) && (cp =? 0x0A) then (false, breakState)
  else if (prevCp =? 0x0D) || (prevCp =? 0x0A) || (cp =? 0x0D) || (cp =? 0x0A)
  then (true, 0)
  else Bun__graphemeBreak prevCp cp breakState.

(** *** computeTotalWidth *)

Record WidthWalk := mkWidthWalk {
  tw_p : Z;
  tw_totalW : Z;
  tw_prevCp : Z;
  tw_hasPrev : bool;
  tw_breakState : Z;
  tw_gs : GraphemeWidthState
}.

(** One iteration of the [while (p < dataEnd)] loop. *)
Definition totalWidth_iter (inp : list Z) (amb : bool) (s : WidthWalk)
  : WidthWalk :=
  let l := skipn (Z.to_nat (tw_p s)) inp in
  let c := hd 0 l in
  match (if isEscapeCharacter c || (c =? 0x9c) then tryParseAnsi l else None)
  with
  | Some tok =>
      mkWidthWalk (tw_p s + tokEnd tok) (tw_totalW s) (tw_prevCp s)
                  (tw_hasPrev s) (tw_breakState s) (tw_gs s)
  | None =>
      let '(cp, charLen) := decodeAt l in
      let '(shouldBreak, bs) :=
        shouldBreakAt (tw_hasPrev s) (tw_prevCp s) cp (tw_breakState s) in
      if shouldBreak then
        mkWidthWalk (tw_p s + charLen)
          (if tw_hasPrev s then wrap64 (tw_totalW s + width (tw_gs s))
           else tw_totalW s)
          cp true bs (gs_reset cp amb)
      else
        mkWidthWalk (tw_p s + charLen) (tw_totalW s) cp true bs
                    (gs_add (tw_gs s) cp amb)
  end.

Fixpoint totalWidth_loop (fuel : nat) (inp : list Z) (amb : bool)
  (s : WidthWalk) : Res WidthWalk :=
  if tw_p s <? len inp then
    match fuel with
    | O => OutOfFuel
    | S f => totalWidth_loop f inp amb (totalWidth_iter inp amb s)
    end
  else Ok s.

Definition computeTotalWidth (fuel : nat) (inp : list Z) (asciiPrefix : Z)
  (amb : bool) : Res Z :=
  let totalW := if 0 <? asciiPrefix then asciiPrefix - 1 else 0 in
  let s0 :=
    if 0 <? asciiPrefix then
      let prevCp := nth (Z.to_nat (asciiPrefix - 1)) inp 0 in
      mkWidthWalk asciiPrefix totalW prevCp true 0 (gs_reset prevCp amb)
    else mkWidthWalk asciiPrefix totalW 0 false 0 Grapheme.init in
  s <- totalWidth_loop fuel inp amb s0 ;;
  Ok (if tw_hasPrev s then wrap64 (tw_totalW s + width (tw_gs s))
      else tw_totalW s).

(** *** emitSliceStreaming *)

Section Walk.

Variable E : Env.

Definition span (a b : Z) : list Z := subspan (input E) a b.

Definition append_result (s : list Z) (w : Walk) : Walk :=
  set_result (result w ++ s) w.

Definition append_specZone (s : list Z) (w : Walk) : Walk :=
  set_specZone (specZone w ++ s) w.

Definition clearPending (w : Walk) : Walk :=
  set_pendingHl [] (set_pending [] w).

(** The parameters of a pending SGR token, parsed from the input as the
    close-only branch of [flushPending] does. *)
Definition pendingSgrParams (pa : Pending) : SgrParams :=
  let ps := if hd 0 (span (pa_start pa) (pa_end pa)) =? 0x9b
            then pa_start pa + 1 else pa_start pa + 2 in
  parseSgrParams (span ps (pa_end pa - 1)).

(** The close-only filter on an SGR token past the end: [true] when neither
    of the two [break]s is taken, so that the token is applied and
    emitted. *)
Definition closeOnlySgr (pa : Pending) (activeStyles : SgrStyleState) : bool :=
  let params := pendingSgrParams pa in
  if overflow params || hasColon params then false
  else shouldIncludeSgrAfterEnd params activeStyles.

(** The [for (auto& pa : pending)] loop of the [flushPending] lambda. *)
Fixpoint flushPending_loop (filterCloseOnly : bool) (pas : list Pending)
  (hlIdx : nat) (w : Walk) : Res Walk :=
  match pas with
  | [] => Ok w
  | pa :: rest =>
      let seq := span (pa_start pa) (pa_end pa) in
      match pa_type pa with
      | SgrTok =>
          if filterCloseOnly && negb (closeOnlySgr pa (activeStyles w))
          then flushPending_loop filterCloseOnly rest hlIdx w
          else
            flushPending_loop filterCloseOnly rest hlIdx
              (append_result seq
                 (set_activeStyles (applySgrToState (activeStyles w) seq) w))
      | Hyperlink =>
          let isClose := negb (pa_hlOpen pa) in
          if filterCloseOnly && (negb isClose || negb (activeHyperlink w)) then
            flushPending_loop filterCloseOnly rest (S hlIdx) w
          else if pa_hlOpen pa then
            match nth_error (pendingHl w) hlIdx with
            | None => Crash
            | Some (code, cp, term) =>
                flushPending_loop filterCloseOnly rest (S hlIdx)
                  (append_result seq
                     (set_activeHyperlinkTerminator term
                        (set_activeHyperlinkClosePrefix cp
                           (set_activeHyperlinkCode code
                              (set_activeHyperlink true w)))))
            end
          else
            flushPending_loop filterCloseOnly rest (S hlIdx)
              (append_result seq (set_activeHyperlink false w))
      | Control =>
          if negb filterCloseOnly then
            flushPending_loop filterCloseOnly rest hlIdx (append_result seq w)
          else flushPending_loop filterCloseOnly rest hlIdx w
      | Character => flushPending_loop filterCloseOnly rest hlIdx w
      end
  end.

Definition flushPending (filterCloseOnly : bool) (w : Walk) : Res Walk :=
  w' <- flushPending_loop filterCloseOnly (pending w) 0 w ;;
  Ok (clearPending w').

(** The transition of [include] to true: opens, start ellipsis, hyperlink. *)
Definition enterWindow (w : Walk) : Walk :=
  let w := set_include true w in
  let w := set_result (emitOpenCodes (activeStyles w) (result w)) w in
  let w := if needStartEllipsis E then append_result (ellipsis E) w else w in
  if activeHyperlink w then append_result (activeHyperlinkCode w) w else w.

(** [position += gs.width()] when a cluster is pending. *)
Definition commitWidth (w : Walk) : Walk :=
  if hasPrev w then set_position (wrap64 (position w + width (gs w))) w else w.

(** The [processVisibleCp] lambda: the state after the call and its
    return value ([false]: stop, past the end). *)
Definition processVisibleCp (cp charLen : Z) (w : Walk) : Res (Walk * bool) :=
  let '(shouldBreak, bs) :=
    shouldBreakAt (hasPrev w) (prevVisCp w) cp (breakState w) in
  let w := set_breakState bs w in
  let unit := span (p w) (p w + charLen) in
  let advance (w : Walk) :=
    set_p (p w + charLen) (set_hasPrev true (set_prevVisCp cp w)) in
  if shouldBreak then
    let w := commitWidth w in
    if negb (endUnbounded E) && (specEnd E <=? position w) then
      w' <- flushPending true (set_sawCutEnd true w) ;;
      Ok (w', false)
    else
      let w :=
        if negb (include w) && (start E <=? position w) then enterWindow w
        else w in
      w1 <- (if include w then
               w' <- flushPending false w ;;
               Ok (if negb (endUnbounded E) && (end_ E <=? position w')
                      && (0 <? ellipsisEndBudget E)
                   then append_specZone unit (set_inSpecZone true w')
                   else append_result unit w')
             else Ok (clearPending w)) ;;
      Ok (advance (set_gs (gs_reset cp (ambiguousIsWide E)) w1), true)
  else
    w1 <- (if include w then
             w' <- flushPending false w ;;
             Ok (if inSpecZone w' then append_specZone unit w'
                 else append_result unit w')
           else Ok (clearPending w)) ;;
    Ok (advance (set_gs (gs_add (gs w1) cp (ambiguousIsWide E)) w1), true).

(** How an iteration of the main loop ends: at its closing brace or a
    [continue] ([Next]), or at [break] or [goto walkDone] ([Stop]). *)
Inductive Flow := Next (w : Walk) | Stop (w : Walk).

(** The bulk processing of [bulkN] printable ASCII units. *)
Definition bulkPhase (bulkN : Z) (w : Walk) : Res Flow :=
  if 0 <? bulkN then
    let cut := hasPrev w in
    let w := if hasPrev w then set_hasPrev false (commitWidth w) else w in
    if cut && negb (endUnbounded E) && (specEnd E <=? position w) then
      w' <- flushPending true (set_sawCutEnd true w) ;;
      Ok (Stop w')
    else
      let '(w, bulkN) :=
        if negb (include w) && (position w <? start E) then
          let skipN := Z.min (wrap64 (start E - position w)) bulkN in
          (set_position (wrap64 (position w + skipN)) (set_p (p w + skipN) w),
           bulkN - skipN)
        else (w, bulkN) in
      let w :=
        if (0 <? bulkN) && negb (include w) && (start E <=? position w)
        then enterWindow w else w in
      if (0 <? bulkN) && include w then
        w <- flushPending false w ;;
        let emitN :=
          if endUnbounded E then bulkN
          else Z.min (if position w <? specEnd E
                      then wrap64 (specEnd E - position w) else 0) bulkN in
        let '(w, bulkN) :=
          if 0 <? emitN then
            let w :=
              if (0 <? ellipsisEndBudget E) && (position w <? end_ E)
                 && negb (endUnbounded E)
              then
                let toMain := Z.min (wrap64 (end_ E - position w)) emitN in
                let w := append_result (span (p w) (p w + toMain)) w in
                if toMain <? emitN then
                  append_specZone (span (p w + toMain) (p w + emitN))
                                  (set_inSpecZone true w)
                else w
              else if inSpecZone w
                      || (negb (endUnbounded E) && (end_ E <=? position w))
              then append_specZone (span (p w) (p w + emitN))
                                   (set_inSpecZone true w)
              else append_result (span (p w) (p w + emitN)) w in
            (set_position (wrap64 (position w + emitN)) (set_p (p w + emitN) w),
             bulkN - emitN)
          else (w, bulkN) in
        if negb (endUnbounded E) && (specEnd E <=? position w) then
          Ok (Stop (set_sawCutEnd true w))
        else
          Ok (Next (set_position (wrap64 (position w + bulkN))
                                 (set_p (p w + bulkN) w)))
      else
        Ok (Next (set_position (wrap64 (position w + bulkN))
                               (set_p (p w + bulkN) w)))
  else Ok (Next w).

(** The [while (p < runEnd)] loop over the tail of the run. *)
Fixpoint perCharLoop (fuel : nat) (runEnd : Z) (w : Walk) : Res Flow :=
  if p w <? runEnd then
    match fuel with
    | O => OutOfFuel
    | S f =>
        let '(cp, charLen) := decodeAt (from E (p w)) in
        r <- processVisibleCp cp charLen w ;;
        if snd r then perCharLoop f runEnd (fst r) else Ok (Stop (fst r))
    end
  else Ok (Next w).

(** The end of an iteration: the unit at [p] matched the escape mask, or
    the scan horizon was reached. *)
Definition escapePhase (w : Walk) : Res Flow :=
  let l := from E (p w) in
  let c := hd 0 l in
  match (if isEscapeCharacter c || (c =? 0x9c) then tryParseAnsi l else None)
  with
  | Some tok =>
      let after := p w + tokEnd tok in
      let w :=
        if negb (include w) then
          match tokType tok with
          | SgrTok =>
              set_activeStyles
                (applySgrToState (activeStyles w) (span (p w) after)) w
          | Hyperlink =>
              if tokHlOpen tok then
                set_activeHyperlinkTerminator (tokHlTerminator tok)
                  (set_activeHyperlinkClosePrefix (tokHlClosePrefix tok)
                     (set_activeHyperlinkCode (tokHlCode tok)
                        (set_activeHyperlink true w)))
              else set_activeHyperlink false w
          | _ => w
          end
        else
          let w :=
            set_pending
              (pending w ++ [mkPending (p w) after (tokType tok) (tokHlOpen tok)])
              w in
          if TokenType_eqb (tokType tok) Hyperlink then
            set_pendingHl
              (pendingHl w
               ++ [(tokHlCode tok, tokHlClosePrefix tok, tokHlTerminator tok)])
              w
          else w in
      Ok (Next (set_p after w))
  | None =>
      let '(cp, charLen) := decodeAt l in
      r <- processVisibleCp cp charLen w ;;
      Ok (if snd r then Next (fst r) else Stop (fst r))
  end.

(** One iteration of the main [while (p < dataEnd)] loop. *)
Definition walk_iter (fuel : nat) (w : Walk) : Res Flow :=
  let scanEnd :=
    if endUnbounded E then dataEnd E
    else
      let budget :=
        wrap64 ((if position w <? specEnd E
                 then wrap64 (specEnd E - position w) else 0) + 4) in
      if dataEnd E - p w <=? budget then dataEnd E else p w + budget in
  let runEnd :=
    match findEscapeCharacter (span (p w) scanEnd) with
    | Some i => p w + i
    | None => scanEnd
    end in
  let asciiLen := firstNonAsciiPrintable laneBits (span (p w) runEnd) in
  let bulkN := if 1 <? asciiLen then asciiLen - 1 else 0 in
  f1 <- bulkPhase bulkN w ;;
  match f1 with
  | Stop w => Ok (Stop w)
  | Next w =>
      f2 <- perCharLoop fuel runEnd w ;;
      match f2 with
      | Stop w => Ok (Stop w)
      | Next w =>
          if dataEnd E <=? p w then Ok (Stop w)
          else escapePhase w
      end
  end.

(** The main loop; each iteration may use [fuel] iterations of the inner
    loop. *)
Fixpoint walk (fuel : nat) (w : Walk) : Res Walk :=
  if p w <? dataEnd E then
    match fuel with
    | O => OutOfFuel
    | S f =>
        r <- walk_iter (S f) w ;;
        match r with
        | Stop w' => Ok w'
        | Next w' => walk f w'
        end
    end
  else Ok w.

(** The code after the [walkDone] label. *)
Definition finishWalk (needEndEllipsis : bool) (w : Walk) : Res WTFString :=
  w <- (if negb (sawCutEnd w) then
          let w := commitWidth w in
          let trailingPastEnd :=
            negb (endUnbounded E) && (specEnd E <=? position w) in
          if include w then flushPending trailingPastEnd w else Ok w
        else Ok w) ;;
  if negb (include w) then Ok (Str [])
  else
    let '(res, needEndEllipsis) :=
      if 0 <? ellipsisEndBudget E then
        if sawCutEnd w then (result w, needEndEllipsis)
        else (result w ++ specZone w, false)
      else (result w, needEndEllipsis) in
    let res :=
      if activeHyperlink w then
        res ++ activeHyperlinkClosePrefix w ++ activeHyperlinkTerminator w
      else res in
    let res := if needEndEllipsis then res ++ ellipsis E else res in
    Ok (Str (emitCloseCodes (activeStyles w) res)).

End Walk.

(** The state of the locals when the main loop is entered. *)
Definition initialWalk (position0 : Z) : Walk :=
  mkWalk position0 position0 false 0 false 0 Grapheme.init [] false [] [] []
         [] [] [] [] false false.

Definition emitSliceStreaming (fuel : nat) (inp : list Z) (asciiPrefix : Z)
  (start end_ : Z) (ellipsis : list Z) (ellipsisWidth : Z)
  (cutStartForEllipsis cutEndKnown cutEndHint ambiguousIsWide : bool)
  : Res WTFString :=
  match resolveEllipsis start end_ ellipsisWidth cutStartForEllipsis
                        cutEndKnown cutEndHint with
  | None => Ok (Str ellipsis)
  | Some plan =>
      let specEnd :=
        if 0 <? e_ellipsisEndBudget plan
        then wrap64 (e_end plan + e_ellipsisEndBudget plan)
        else e_end plan in
      let E := mkEnv inp (e_start plan) (e_end plan) (end_ =? SIZE_MAX)
                     specEnd ellipsis (e_needStartEllipsis plan)
                     (e_ellipsisEndBudget plan) ambiguousIsWide in
      let ffEnd := if 0 <? asciiPrefix then asciiPrefix - 1 else 0 in
      let ffTo := Z.min (e_start plan) ffEnd in
      w <- walk E fuel (initialWalk ffTo) ;;
      finishWalk E (e_needEndEllipsis plan) w
  end.

(** *** sliceAnsiImpl *)

(** What the printable-ASCII fast path does once the bounds are resolved:
    return the null string, return the ellipsis alone, or return the
    substring [[st, en)] with the ellipsis on the sides that have it. *)
Inductive AsciiDecision :=
| AsciiIdentity
| AsciiEllipsisAlone
| AsciiSlice (st en : Z) (doStart doEnd : bool).

Definition asciiDecide (b : SliceBounds) (cutEnd : bool) (ellipsisWidth : Z)
  : AsciiDecision :=
  if negb (b_cutStart b) && negb cutEnd then AsciiIdentity
  else
    let st := b_start b in
    let en := b_end b in
    if 0 <? ellipsisWidth then
      let doStart := b_cutStart b && (ellipsisWidth <? wrap64 (en - st)) in
      let st := if doStart then wrap64 (st + ellipsisWidth) else st in
      let doEnd := cutEnd && (ellipsisWidth <? wrap64 (en - st)) in
      let en := if doEnd then wrap64 (en - ellipsisWidth) else en in
      if negb doStart && negb doEnd then AsciiEllipsisAlone
      else AsciiSlice st en doStart doEnd
    else AsciiSlice st en false false.

(** The string each decision returns ([makeString] concatenates). *)
Definition asciiRender (inp ellipsis : list Z) (d : AsciiDecision)
  : WTFString :=
  match d with
  | AsciiIdentity => Null
  | AsciiEllipsisAlone => Str ellipsis
  | AsciiSlice st en doStart doEnd =>
      let content := subspan inp st en in
      if doStart && doEnd then Str (ellipsis ++ content ++ ellipsis)
      else if doStart then Str (ellipsis ++ content)
      else if doEnd then Str (content ++ ellipsis)
      else Str content
  end.

Definition sliceAnsiImpl (fuel : nat) (inp : list Z) (startD endD : JSNumber)
  (ellipsis : list Z) (ellipsisWidth : Z) (ambiguousIsWide : bool)
  : Res WTFString :=
  match inp with
  | [] => Ok (Str [])
  | _ :: _ =>
      if eq0 startD && negb (isfinite endD) && lt (Finite 0) endD
         && (ellipsisWidth =? 0)
      then Ok Null
      else
        let size := len inp in
        let prefixScanLen :=
          if le (Finite 0) startD && le (Finite 0) endD && isfinite endD then
            let cap := add 2 endD in
            if lt cap (Finite size) then to_size cap else size
          else size in
        let asciiPrefix :=
          firstNonAsciiPrintable laneBits (subspan inp 0 prefixScanLen) in
        let wholeStringAscii :=
          (prefixScanLen =? size) && (asciiPrefix =? size) in
        let sliceInsidePrefix :=
          le (Finite 0) startD && le (Finite 0) endD
          && lt endD (Finite asciiPrefix) in
        if wholeStringAscii || sliceInsidePrefix then
          let totalW := if wholeStringAscii then size else asciiPrefix in
          let b := resolveSliceBounds startD endD totalW in
          if b_empty b then Ok (Str [])
          else
            let cutEnd := if wholeStringAscii then b_cutEnd b else true in
            Ok (asciiRender inp ellipsis (asciiDecide b cutEnd ellipsisWidth))
        else if le (Finite 0) startD && negb (lt endD (Finite 0)) then
          if negb (isfinite startD) || lt (Finite (size * 2)) startD
          then Ok (Str [])
          else
            let start := to_size startD in
            if negb (isfinite endD) || lt (Finite (size * 2)) endD then
              emitSliceStreaming fuel inp asciiPrefix start SIZE_MAX ellipsis
                ellipsisWidth (0 <? start) true false ambiguousIsWide
            else
              let end_ := to_size endD in
              if end_ <=? start then Ok (Str [])
              else
                emitSliceStreaming fuel inp asciiPrefix start end_ ellipsis
                  ellipsisWidth (0 <? start) false false ambiguousIsWide
        else
          totalW <- computeTotalWidth fuel inp asciiPrefix ambiguousIsWide ;;
          let b := resolveSliceBounds startD endD totalW in
          if b_empty b then Ok (Str [])
          else
            emitSliceStreaming fuel inp asciiPrefix (b_start b) (b_end b)
              ellipsis ellipsisWidth (0 <? b_start b) true (b_cutEnd b)
              ambiguousIsWide
  end.

End Engine.

(** *** The host function

    The coercions of the call frame are outside the slicer: the arguments
    arrive here as the values the binding computes from them, that is the
    input string, the two indices ([None] for [undefined]), the ellipsis
    string if one was given, and the ambiguous-width flag. *)

Record JSString := mkJSString {
  js_is8Bit : bool;
  js_units : list Z
}.

(** What the host function returns: the input [JSString] itself, the empty
    string of the VM, or a new string. *)
Inductive JSValue := InputJSString | EmptyJSString | NewJSString (s : list Z).

(** The code units of the string the caller receives. *)
Definition rendered (jsString : JSString) (v : JSValue) : list Z :=
  match v with
  | InputJSString => js_units jsString
  | EmptyJSString => []
  | NewJSString s => s
  end.

Section Binding.

Variable Bun__codepointWidth : Z -> bool -> Z.
Variable Bun__isEmojiPresentation : Z -> bool.
Variable Bun__graphemeBreak : Z -> Z -> Z -> bool * Z.
Variable Bun__visibleWidthExcludeANSI_latin1 : list Z -> Z.
Variable Bun__visibleWidthExcludeANSI_utf16 : list Z -> bool -> Z.

Definition jsFunctionBunSliceAnsi (fuel : nat) (jsString : JSString)
  (startValue endValue : option JSNumber) (ellipsisJS : option JSString)
  (ambiguousIsWide : bool) : Res JSValue :=
  match js_units jsString with
  | [] => Ok EmptyJSString
  | _ :: _ =>
      let startD := match startValue with Some d => d | None => Finite 0 end in
      let endD := match endValue with Some d => d | None => PosInf end in
      let ellipsis :=
        match ellipsisJS with Some e => js_units e | None => [] end in
      let ellipsisWidth :=
        match ellipsisJS with
        | Some e =>
            match js_units e with
            | [] => 0
            | _ :: _ =>
                if js_is8Bit e
                then Bun__visibleWidthExcludeANSI_latin1 (js_units e)
                else Bun__visibleWidthExcludeANSI_utf16 (js_units e)
                                                        ambiguousIsWide
            end
        | None => 0
        end in
      result <- sliceAnsiImpl Bun__codepointWidth Bun__isEmojiPresentation
                  Bun__graphemeBreak (negb (js_is8Bit jsString)) fuel
                  (js_units jsString) startD endD ellipsis ellipsisWidth
                  ambiguousIsWide ;;
      match result with
      | Null => Ok InputJSString
      | Str [] => Ok EmptyJSString
      | Str s => Ok (NewJSString s)
      end
  end.

End Binding.

End Slice.

(** ** consumeANSI (ANSIHelpers.h) *)

Module Consume.

Inductive State :=
| start
| gotEsc
| ignoreNextChar
| inCsi
| inOsc
| inOscGotEsc
| needSt
| needStGotEsc.

(** One turn of the [switch (state)]: the next state, or [None] for the
    [return it] of the start state. *)
Definition step (state : State) (c : Z) : option State :=
  match state with
  | start =>
      if c =? 0x1b then Some gotEsc
      else if c =? 0x9b then Some inCsi
      else if c =? 0x9d then Some inOsc
      else if (c =? 0x90) || (c =? 0x98) || (c =? 0x9e) || (c =? 0x9f)
      then Some needSt
      else None
  | gotEsc =>
      if c =? 0x5b then Some inCsi
      else if (c =? 0x20) || (c =? 0x23) || (c =? 0x25) || (c =? 0x28)
              || (c =? 0x29) || (c =? 0x2a) || (c =? 0x2b) || (c =? 0x2e)
              || (c =? 0x2f)
      then Some ignoreNextChar
      else if c =? 0x5d then Some inOsc
      else if (c =? 0x50) || (c =? 0x58) || (c =? 0x5e) || (c =? 0x5f)
      then Some needSt
      else Some start
  | ignoreNextChar => Some start
  | inCsi => if (0x40 <=? c) && (c <=? 0x7e) then Some start else Some inCsi
  | inOsc =>
      if c =? 0x1b then Some inOscGotEsc
      else if (c =? 0x9c) || (c =? 0x07) then Some start
      else Some inOsc
  | inOscGotEsc => if c =? 0x5c then Some start else Some inOsc
  | needSt =>
      if c =? 0x1b then Some needStGotEsc
      else if c =? 0x9c then Some start
      else Some needSt
  | needStGotEsc => if c =? 0x5c then Some start else Some needSt
  end.

(** The [for] loop; [l] holds the units from [it] on.  At the end of the
    input the loop returns [end] whatever the state. *)
Fixpoint consumeANSI_loop (l : list Z) (it : Z) (state : State) : Z :=
  match l with
  | [] => it
  | c :: l' =>
      match step state c with
      | None => it
      | Some state' => consumeANSI_loop l' (it + 1) state'
      end
  end.

(** The state after the units of [l], from [state]; [None] when the loop
    returns inside [l]. *)
Fixpoint run (l : list Z) (state : State) : option State :=
  match l with
  | [] => Some state
  | c :: l' =>
      match step state c with
      | None => None
      | Some state' => run l' state'
      end
  end.

(** [consumeANSI(start, end)] on the units of [[start, end)]: the offset of
    the first unit after the escape sequences. *)
Definition consumeANSI (l : list Z) : Z := consumeANSI_loop l 0 start.

End Consume.

(** ** Shapes of code units and sequences, for the statements *)

Module Shape.

(** A unit in [[0x20, 0x7E]]. *)
Definition printable (c : Z) : bool := (0x20 <=? c) && (c <=? 0x7E).

(** A unit of a lane of [bits] bits. *)
Definition inLane (bits c : Z) : bool := (0 <=? c) && (c <? 2 ^ bits).

(** A unit that the escape scan stops at: an introducer or 0x9c. *)
Definition introducer (c : Z) : bool :=
  Ansi.isEscapeCharacter c || (c =? 0x9c).

(** A parameter byte that SGR allows: a digit, a semicolon or a colon. *)
Definition sgrParamByte (c : Z) : bool :=
  ((0x30 <=? c) && (c <=? 0x39)) || (c =? 0x3b) || (c =? 0x3a).

(** A final byte of a CSI sequence. *)
Definition csiFinal (c : Z) : bool := (0x40 <=? c) && (c <=? 0x7E).

(** A unit that is no part of a string terminator: not BEL, ESC or 0x9c. *)
Definition plain (c : Z) : bool :=
  negb (c =? 0x07) && negb (c =? 0x1b) && negb (c =? 0x9c).

(** A unit that is no part of ST: not ESC and not 0x9c. *)
Definition noST (c : Z) : bool := negb (c =? 0x1b) && negb (c =? 0x9c).

(** The introducers of the strings that ST ends, BEL does not: DCS, SOS,
    PM and APC, as ESC P, ESC X, ESC ^, ESC _ or as one C1 unit. *)
Definition stStringIntro (intro : list Z) : Prop :=
  In intro [[0x1b; 0x50]; [0x1b; 0x58]; [0x1b; 0x5e]; [0x1b; 0x5f];
            [0x90]; [0x98]; [0x9e]; [0x9f]].

(** The introducers of OSC: ESC ] or the C1 unit 0x9d. *)
Definition oscIntro (intro : list Z) : Prop :=
  intro = [0x1b; 0x5d] \/ intro = [0x9d].

(** The introducers of CSI: ESC [ or the C1 unit 0x9b. *)
Definition csiIntro (intro : list Z) : Prop :=
  intro = [0x1b; 0x5b] \/ intro = [0x9b].

(** The byte sequences of the three string terminators. *)
Definition terminatorBytes (t : Ansi.Terminator) : list Z :=
  match t with
  | Ansi.BEL => [0x07]
  | Ansi.ESC_ST => [0x1b; 0x5c]
  | Ansi.C1_ST => [0x9c]
  end.

(** A unit other than the semicolon. *)
Definition noSemicolon (c : Z) : bool := negb (c =? 0x3b).

(** The head of an OSC 8 hyperlink, up to the semicolon after the 8. *)
Definition hyperlinkIntro (isEscOsc : bool) : list Z :=
  if isEscOsc then [0x1b; 0x5d; 0x38; 0x3b] else [0x9d; 0x38; 0x3b].

(** A CSI sequence: introducer, parameter and intermediate bytes, final
    byte. *)
Inductive CsiSequence : list Z -> Prop :=
| csi_sequence (intro body : list Z) (final : Z) :
    csiIntro intro -> forallb Ansi.csiInterior body = true ->
    csiFinal final = true ->
    CsiSequence (intro ++ body ++ [final]).

(** A DCS, SOS, PM or APC string that ST ends. *)
Inductive StString : list Z -> Prop :=
| st_string (intro body st : list Z) :
    stStringIntro intro -> forallb noST body = true ->
    st = [0x1b; 0x5c] \/ st = [0x9c] ->
    StString (intro ++ body ++ st).

(** An OSC string that BEL or ST ends. *)
Inductive OscString : list Z -> Prop :=
| osc_string (intro body : list Z) (t : Ansi.Terminator) :
    oscIntro intro -> forallb plain body = true ->
    OscString (intro ++ body ++ terminatorBytes t).

(** The index resolution of [String.prototype.slice] on [n] units: a
    negative index counts from the end, and the result is clamped to
    [[0, n]]. *)
Definition jsRelativeIndex (d : Num.JSNumber) (n : Z) : Z :=
  match d with
  | Num.NegInf => 0
  | Num.PosInf => n
  | Num.Finite z => if z <? 0 then Z.max (n + z) 0 else Z.min z n
  end.

(** The code units of a result, the null string standing for the input. *)
Definition unitsOf (inp : list Z) (r : Slice.WTFString) : list Z :=
  match r with
  | Slice.Null => inp
  | Slice.Str s => s
  end.

(** The code units of a pending token. *)
Definition pendingUnits (E : Slice.Env) (pa : Slice.Pending) : list Z :=
  Slice.span E (Slice.pa_start pa) (Slice.pa_end pa).

(** A pending entry that is a token, not a Character. *)
Definition isToken (pa : Slice.Pending) : bool :=
  negb (Ansi.TokenType_eqb (Slice.pa_type pa) Ansi.Character).

Definition isSgrPending (pa : Slice.Pending) : bool :=
  Ansi.TokenType_eqb (Slice.pa_type pa) Ansi.SgrTok.

(** A pending token that can only close: an SGR token or a hyperlink
    close. *)
Definition closingPending (pa : Slice.Pending) : Prop :=
  Slice.pa_type pa = Ansi.SgrTok
  \/ (Slice.pa_type pa = Ansi.Hyperlink /\ Slice.pa_hlOpen pa = false).

(** A pending token whose units lie inside the input. *)
Definition pendingInside (E : Slice.Env) (pa : Slice.Pending) : Prop :=
  0 <= Slice.pa_start pa /\ Slice.pa_end pa <= Slice.dataEnd E.

(** The state an iteration of the main loop ends in. *)
Definition stateOf (f : Slice.Flow) : Slice.Walk :=
  match f with
  | Slice.Next w => w
  | Slice.Stop w => w
  end.

(** The pending buffer holds tokens of the input: each entry lies inside
    the input and none is a Character. *)
Definition pendingTokens (E : Slice.Env) (w : Slice.Walk) : Prop :=
  Forall (pendingInside E) (Slice.pending w)
  /\ Forall (fun pa => isToken pa = true) (Slice.pending w).

(** The open code of an entry, applied to a tracker, starts the entry
    again. *)
Definition reopens (e : Sgr.Entry) : Prop :=
  forall s, Sgr.applySgrToState s (Sgr.openCode e)
            = Sgr.applyStart (Sgr.openCode e) (Sgr.endCode e) s.

(** The locals of [computeTotalWidth] when its loop is entered, the first
    [asciiPrefix] units taken as one column each. *)
Definition widthSeed (W : Z -> bool -> Z) (EP : Z -> bool) (inp : list Z)
  (asciiPrefix : Z) (amb : bool) : Slice.WidthWalk :=
  if 0 <? asciiPrefix then
    let prevCp := nth (Z.to_nat (asciiPrefix - 1)) inp 0 in
    Slice.mkWidthWalk asciiPrefix (asciiPrefix - 1) prevCp true 0
                      (Grapheme.reset W EP prevCp amb)
  else Slice.mkWidthWalk asciiPrefix 0 0 false 0 Grapheme.init.

(** What a run of the flush loop leaves as it was: all but the output,
    the style state and the hyperlink state; the output only grows. *)
Definition flushFrame (w w' : Slice.Walk) : Prop :=
  Slice.p w' = Slice.p w
  /\ Slice.position w' = Slice.position w
  /\ Slice.include w' = Slice.include w
  /\ Slice.prevVisCp w' = Slice.prevVisCp w
  /\ Slice.hasPrev w' = Slice.hasPrev w
  /\ Slice.breakState w' = Slice.breakState w
  /\ Slice.gs w' = Slice.gs w
  /\ Slice.pending w' = Slice.pending w
  /\ Slice.pendingHl w' = Slice.pendingHl w
  /\ Slice.specZone w' = Slice.specZone w
  /\ Slice.inSpecZone w' = Slice.inSpecZone w
  /\ Slice.sawCutEnd w' = Slice.sawCutEnd w
  /\ exists s, Slice.result w' = Slice.result w ++ s.

(** The columns of the output that the start ellipsis takes. *)
Definition ellipsisBase (E : Slice.Env) : Z :=
  if Slice.needStartEllipsis E then len (Slice.ellipsis E) else 0.

(** Inside the window the walk has written more than the start ellipsis,
    or it has written the start ellipsis and a unit to the speculative
    zone. *)
Definition hasContent (E : Slice.Env) (w : Slice.Walk) : Prop :=
  Slice.include w = true ->
  ellipsisBase E < len (Slice.result w)
  \/ (ellipsisBase E <= len (Slice.result w)
      /\ Slice.needStartEllipsis E = true
      /\ 0 < Slice.ellipsisEndBudget E
      /\ Slice.specZone w <> []).

(** Before the window the position is before its start, or at most at its
    start with no cluster open. *)
Definition beforeWindow (E : Slice.Env) (w : Slice.Walk) : Prop :=
  Slice.include w = false ->
  Slice.position w < Slice.start E
  \/ (Slice.hasPrev w = false /\ Slice.position w <= Slice.start E).

(** What the main loop of the walk keeps. *)
Definition walkInv (E : Slice.Env) (w : Slice.Walk) : Prop :=
  0 <= Slice.position w <= SIZE_MAX
  /\ beforeWindow E w
  /\ (Slice.inSpecZone w = true -> 0 < Slice.ellipsisEndBudget E)
  /\ hasContent E w.

(** The locals that the ellipsis budget resolution leaves for a window
    that is not empty. *)
Definition plannedEnv (E : Slice.Env) : Prop :=
  0 <= Slice.start E <= SIZE_MAX
  /\ (Slice.endUnbounded E = false ->
      Slice.start E < Slice.end_ E /\ Slice.end_ E <= Slice.specEnd E
      /\ Slice.specEnd E <= SIZE_MAX)
  /\ (0 < Slice.ellipsisEndBudget E -> Slice.endUnbounded E = false)
  /\ (Slice.ellipsisEndBudget E <= 0 -> Slice.specEnd E = Slice.end_ E)
  /\ (Slice.needStartEllipsis E = false ->
      0 < Slice.ellipsisEndBudget E -> Slice.start E = 0).

(** What an iteration of the main loop ends in: a state that the loop
    goes on from, or a last state. *)
Definition flowInv (E : Slice.Env) (flow : Slice.Flow) : Prop :=
  match flow with
  | Slice.Next w' => walkInv E w'
  | Slice.Stop w' => hasContent E w'
  end.

(** A decimal digit. *)
Definition digit (c : Z) : bool := (0x30 <=? c) && (c <=? 0x39).

(** A regional indicator, U+1F1E6 to U+1F1FF. *)
Definition regional (cp : Z) : bool := (0x1F1E6 <=? cp) && (cp <=? 0x1F1FF).

(** The close code of an entry is the 7-bit sequence of an end code. *)
Definition closesWithEndCode (e : Sgr.Entry) : Prop :=
  exists code, Sgr.isSgrEndCode code = true
               /\ Sgr.endCode e = Sgr.makeSgrCode false code.

End Shape.

(** ** Stand-in oracles

    Simple instances of the Zig exports, for running the model on ASCII
    text with escape sequences: controls have width 0 and everything else
    width 1, nothing is an emoji, and only U+0301 joins the codepoint
    before it. *)

Module Toy.

Definition codepointWidth (cp : Z) (_ : bool) : Z :=
  if (cp <? 0x20) || ((0x7f <=? cp) && (cp <? 0xa0)) then 0 else 1.

Definition isEmojiPresentation (_ : Z) : bool := false.

Definition graphemeBreak (_ cp2 state : Z) : bool * Z :=
  (negb (cp2 =? 0x301), state).

Definition visibleWidth_latin1 (l : list Z) : Z := len l.

Definition visibleWidth_utf16 (l : list Z) (_ : bool) : Z := len l.

(** The Latin-1 slicer on these oracles. *)
Definition slice (inp : list Z) (startD endD : Num.JSNumber)
  (ellipsis : list Z) (ellipsisWidth : Z) : Slice.Res Slice.WTFString :=
  Slice.sliceAnsiImpl codepointWidth isEmojiPresentation graphemeBreak false
    (length inp) inp startD endD ellipsis ellipsisWidth false.

End Toy.

(** * Properties *)

(** ** The scenarios of the specification, run on the model *)

Module Scenarios.

Import Num Slice.

(** ESC[31m hello ESC[39m " world", columns [0, 5). *)
Example red_hello :
  Toy.slice [0x1b; 0x5b; 0x33; 0x31; 0x6d; 0x68; 0x65; 0x6c; 0x6c; 0x6f;
             0x1b; 0x5b; 0x33; 0x39; 0x6d; 0x20; 0x77; 0x6f; 0x72; 0x6c; 0x64]
            (Finite 0) (Finite 5) [] 0
  = Ok (Str [0x1b; 0x5b; 0x33; 0x31; 0x6d; 0x68; 0x65; 0x6c; 0x6c; 0x6f;
             0x1b; 0x5b; 0x33; 0x39; 0x6d]).
Proof. vm_compute. reflexivity. Qed.

(** "hello" ESC[31m " world" ESC[39m, columns [6, 11): the open is
    replayed at the window entry. *)
Example red_world :
  Toy.slice [0x68; 0x65; 0x6c; 0x6c; 0x6f; 0x1b; 0x5b; 0x33; 0x31; 0x6d;
             0x20; 0x77; 0x6f; 0x72; 0x6c; 0x64; 0x1b; 0x5b; 0x33; 0x39; 0x6d]
            (Finite 6) (Finite 11) [] 0
  = Ok (Str [0x1b; 0x5b; 0x33; 0x31; 0x6d; 0x77; 0x6f; 0x72; 0x6c; 0x64;
             0x1b; 0x5b; 0x33; 0x39; 0x6d]).
Proof. vm_compute. reflexivity. Qed.

(** "abcdef", columns [1, 5) with a one-column ellipsis: both cuts. *)
Example both_ellipses :
  Toy.slice [0x61; 0x62; 0x63; 0x64; 0x65; 0x66] (Finite 1) (Finite 5)
            [0x2e] 1
  = Ok (Str [0x2e; 0x63; 0x64; 0x2e]).
Proof. vm_compute. reflexivity. Qed.

(** An OSC 8 hyperlink around "link", columns [0, 4): closed at the exit. *)
Example hyperlink_closed :
  Toy.slice [0x1b; 0x5d; 0x38; 0x3b; 0x3b; 0x75; 0x3a; 0x78; 0x07;
             0x6c; 0x69; 0x6e; 0x6b;
             0x1b; 0x5d; 0x38; 0x3b; 0x3b; 0x07; 0x20; 0x74]
            (Finite 0) (Finite 4) [] 0
  = Ok (Str [0x1b; 0x5d; 0x38; 0x3b; 0x3b; 0x75; 0x3a; 0x78; 0x07;
             0x6c; 0x69; 0x6e; 0x6b; 0x1b; 0x5d; 0x38; 0x3b; 0x3b; 0x07]).
Proof. vm_compute. reflexivity. Qed.

(** "AB" ESC[31m "CD" with no close in the input, columns [0, 4): the
    close is synthesized. *)
Example synthesized_close :
  Toy.slice [0x41; 0x42; 0x1b; 0x5b; 0x33; 0x31; 0x6d; 0x43; 0x44]
            (Finite 0) (Finite 4) [] 0
  = Ok (Str [0x41; 0x42; 0x1b; 0x5b; 0x33; 0x31; 0x6d; 0x43; 0x44;
             0x1b; 0x5b; 0x33; 0x39; 0x6d]).
Proof. vm_compute. reflexivity. Qed.

(** ESC[38;2;255;0;0m R ESC[39m, columns [0, 1): truecolor kept whole. *)
Example truecolor :
  Toy.slice [0x1b; 0x5b; 0x33; 0x38; 0x3b; 0x32; 0x3b; 0x32; 0x35; 0x35;
             0x3b; 0x30; 0x3b; 0x30; 0x6d; 0x52; 0x1b; 0x5b; 0x33; 0x39; 0x6d]
            (Finite 0) (Finite 1) [] 0
  = Ok (Str [0x1b; 0x5b; 0x33; 0x38; 0x3b; 0x32; 0x3b; 0x32; 0x35; 0x35;
             0x3b; 0x30; 0x3b; 0x30; 0x6d; 0x52; 0x1b; 0x5b; 0x33; 0x39; 0x6d]).
Proof. vm_compute. reflexivity. Qed.

End Scenarios.

(** ** Spans *)

Module SpanFacts.

Lemma len_nonneg : forall l, 0 <= len l.
Proof. intros l. unfold len. lia. Qed.

Lemma len_nil : len [] = 0.
Proof. reflexivity. Qed.

Lemma len_cons : forall (c : Z) l, len (c :: l) = 1 + len l.
Proof. intros c l. unfold len. simpl length. lia. Qed.

Lemma len_app : forall a b : list Z, len (a ++ b) = len a + len b.
Proof. intros a b. unfold len. rewrite length_app. lia. Qed.

Lemma len_skipn : forall l q,
  0 <= q <= len l -> len (skipn (Z.to_nat q) l) = len l - q.
Proof. intros l q H. unfold len in *. rewrite length_skipn. lia. Qed.

Lemma len_subspan : forall l a b,
  0 <= len (subspan l a b) <= Z.max 0 (b - a).
Proof.
  intros l a b. unfold subspan, len. rewrite length_firstn. lia.
Qed.

End SpanFacts.


(** ** The grapheme width accumulator *)

Module GraphemeFacts.

Import Grapheme.

Section WithOracles.

Variable W : Z -> bool -> Z.
Variable EP : Z -> bool.

Lemma wrap16_small : forall x, 0 <= x < 2 ^ 16 -> wrap16 x = x.
Proof. intros x H. unfold wrap16. apply Z.mod_small. exact H. Qed.

Lemma wrap8_small : forall x, 0 <= x < 2 ^ 8 -> wrap8 x = x.
Proof. intros x H. unfold wrap8. apply Z.mod_small. exact H. Qed.

Lemma wrap8_range : forall x, 0 <= wrap8 x <= 255.
Proof.
  intros x. unfold wrap8.
  pose proof (Z.mod_pos_bound x (2 ^ 8) ltac:(lia)). lia.
Qed.

Section ByteWidths.

Hypothesis W_u8 : forall cp a, 0 <= W cp a <= 255.

Lemma bounded_init : bounded init.
Proof. unfold bounded, init; simpl; lia. Qed.

Lemma bounded_reset : forall cp a, bounded (reset W EP cp a).
Proof.
  intros cp a. unfold bounded, reset; simpl.
  pose proof (W_u8 cp a). lia.
Qed.

Lemma bounded_add : forall gs cp a, bounded gs -> bounded (add W gs cp a).
Proof.
  intros gs cp a [Hw Hc]. pose proof (W_u8 cp a) as Hr.
  unfold bounded, add; simpl. split.
  - destruct (0 <? W cp a) eqn:Hpos; [|lia].
    rewrite wrap16_small by lia.
    destruct (nonEmojiWidth gs + W cp a <? 1023) eqn:Hlt; lia.
  - destruct (count gs <? 255) eqn:Hlt; [|lia].
    apply Z.ltb_lt in Hlt. rewrite wrap8_small by lia. lia.
Qed.

Lemma reachable_bounded : forall gs, reachable W EP gs -> bounded gs.
Proof.
  induction 1.
  - apply bounded_init.
  - apply bounded_reset.
  - apply bounded_add; assumption.
Qed.

End ByteWidths.

End WithOracles.

(** C8: in every state that [reset] and [add] can produce, [nonEmojiWidth]
    is at most 1023 and [count] at most 255; a further [add] computes its
    16-bit sum and its 8-bit increment without wrap-around, and leaves a
    saturated counter at its bound. *)
Theorem counters_saturate :
  forall (W : Z -> bool -> Z) (EP : Z -> bool),
    (forall cp a, 0 <= W cp a <= 255) ->
    forall gs, reachable W EP gs ->
      (0 <= nonEmojiWidth gs <= 1023 /\ 0 <= count gs <= 255)
      /\ (forall cp a,
             wrap16 (nonEmojiWidth gs + W cp a) = nonEmojiWidth gs + W cp a
             /\ (count gs < 255 -> wrap8 (count gs + 1) = count gs + 1)
             /\ 0 <= nonEmojiWidth (add W gs cp a) <= 1023
             /\ 0 <= count (add W gs cp a) <= 255
             /\ (count gs = 255 -> count (add W gs cp a) = 255)
             /\ (nonEmojiWidth gs = 1023 ->
                 nonEmojiWidth (add W gs cp a) = 1023)).
Proof.
  intros W EP HW gs Hgs.
  pose proof (reachable_bounded W EP HW gs Hgs) as [Hw Hc].
  split; [split; assumption|].
  intros cp a. pose proof (HW cp a) as Hr.
  destruct (bounded_add W HW gs cp a (conj Hw Hc)) as [Hw' Hc'].
  repeat split; try lia.
  - apply wrap16_small; lia.
  - intros Hlt. apply wrap8_small; lia.
  - intros Heq. unfold add; simpl. rewrite Heq. reflexivity.
  - intros Heq. unfold add; simpl. rewrite Heq.
    destruct (0 <? W cp a); [|reflexivity].
    rewrite wrap16_small by lia.
    destruct (1023 + W cp a <? 1023) eqn:Hlt; [|reflexivity].
    apply Z.ltb_lt in Hlt. lia.
Qed.

Lemma counters_saturate_witness :
  let W := fun (_ : Z) (_ : bool) => 1 in
  let EP := fun _ : Z => false in
  let gs := add W (reset W EP 0x61 false) 0x301 false in
  (0 <= nonEmojiWidth gs <= 1023 /\ 0 <= count gs <= 255)
  /\ wrap16 (nonEmojiWidth gs + W 0x302 false)
     = nonEmojiWidth gs + W 0x302 false
  /\ 0 <= nonEmojiWidth (add W gs 0x302 false) <= 1023
  /\ 0 <= count (add W gs 0x302 false) <= 255.
Proof.
  intros W EP gs.
  assert (HW : forall cp a, 0 <= W cp a <= 255) by (intros; unfold W; lia).
  assert (Hgs : reachable W EP gs).
  { unfold gs. apply reach_add. apply (reach_reset W EP init).
    apply reach_init. }
  destruct (counters_saturate W EP HW gs Hgs) as [H1 H2].
  destruct (H2 0x302 false) as (Ha & _ & Hb & Hc & _).
  split; [exact H1|]. split; [exact Ha|]. split; [exact Hb|exact Hc].
Defined.


Section ClusterWidth.

Variable W : Z -> bool -> Z.
Variable EP : Z -> bool.
Hypothesis W_012 : forall cp a, W cp a = 0 \/ W cp a = 1 \/ W cp a = 2.

Lemma special_rule_width : forall gs,
  fallback gs = false -> 0 <= width gs <= 2.
Proof.
  intros gs. unfold fallback, width.
  destruct (count gs =? 0); [simpl; lia|].
  destruct (regionalIndicator gs); simpl.
  - destruct (2 <=? count gs); [lia|]. destruct (keycap gs); lia.
  - destruct (keycap gs); simpl; [lia|].
    destruct (emojiBase gs && (skinTone gs || zwj gs)); simpl; [lia|].
    destruct (vs15 gs || vs16 gs); simpl; [|discriminate].
    intros _.
    repeat match goal with
           | |- context [if ?b then _ else _] => destruct b
           end; lia.
Qed.

Lemma fallback_width : forall gs,
  fallback gs = true -> width gs = wrap8 (nonEmojiWidth gs).
Proof.
  intros gs. unfold fallback, width.
  destruct (count gs =? 0); [discriminate|].
  destruct (regionalIndicator gs); [discriminate|].
  destruct (keycap gs); [discriminate|].
  destruct (emojiBase gs && (skinTone gs || zwj gs)); [discriminate|].
  destruct (vs15 gs || vs16 gs); [discriminate|].
  reflexivity.
Qed.

Lemma width_u8 : forall gs, 0 <= width gs <= 255.
Proof.
  intros gs. destruct (fallback gs) eqn:Hf.
  - rewrite (fallback_width gs Hf). apply wrap8_range.
  - pose proof (special_rule_width gs Hf). lia.
Qed.

(** The accumulated width is the saturated sum of the codepoint widths. *)
Lemma nonEmojiWidth_fold : forall joined gs a s,
  0 <= s ->
  nonEmojiWidth gs = Z.min s 1023 ->
  nonEmojiWidth (fold_left (fun g c => add W g c a) joined gs)
  = Z.min (s + sumWidths W joined a) 1023.
Proof.
  induction joined as [|c joined IH]; intros gs a s Hs Hgs; simpl.
  - rewrite Z.add_0_r. exact Hgs.
  - rewrite (IH (add W gs c a) a (s + W c a)).
    + f_equal. lia.
    + destruct (W_012 c a) as [H|[H|H]]; lia.
    + unfold add; simpl. rewrite Hgs.
      destruct (W_012 c a) as [H|[H|H]]; rewrite H; simpl.
      * lia.
      * rewrite wrap16_small by lia.
        destruct (Z.min s 1023 + 1 <? 1023) eqn:Hlt;
          [apply Z.ltb_lt in Hlt | apply Z.ltb_ge in Hlt]; lia.
      * rewrite wrap16_small by lia.
        destruct (Z.min s 1023 + 2 <? 1023) eqn:Hlt;
          [apply Z.ltb_lt in Hlt | apply Z.ltb_ge in Hlt]; lia.
Qed.

Lemma nonEmojiWidth_cluster : forall cp joined a,
  nonEmojiWidth (cluster W EP cp joined a)
  = Z.min (sumWidths W (cp :: joined) a) 1023.
Proof.
  intros cp joined a. unfold cluster.
  rewrite (nonEmojiWidth_fold joined _ a (W cp a)).
  - reflexivity.
  - destruct (W_012 cp a) as [H|[H|H]]; lia.
  - simpl. destruct (W_012 cp a) as [H|[H|H]]; lia.
Qed.

Lemma sumWidths_nonneg : forall l a, 0 <= sumWidths W l a.
Proof.
  induction l as [|c l IH]; intros a; simpl; [lia|].
  specialize (IH a). destruct (W_012 c a) as [H|[H|H]]; lia.
Qed.

End ClusterWidth.

(** C3 (as the code has it): with an oracle that gives 0, 1 or 2 to every
    codepoint, the width of a cluster fits eight bits; it is 0, 1 or 2
    whenever a special rule decides it (regional indicator, keycap, emoji
    base with skin tone or ZWJ, variation selector), whenever the cluster
    is one codepoint, and whenever the widths of its codepoints sum to at
    most 2; when no special rule applies it is the sum of the widths of its
    codepoints, as long as that sum fits eight bits. *)
Theorem cluster_width :
  forall (W : Z -> bool -> Z) (EP : Z -> bool),
    (forall cp a, W cp a = 0 \/ W cp a = 1 \/ W cp a = 2) ->
    forall cp joined a,
      let gs := cluster W EP cp joined a in
      0 <= width gs <= 255
      /\ (fallback gs = false -> 0 <= width gs <= 2)
      /\ (joined = [] -> 0 <= width gs <= 2)
      /\ (sumWidths W (cp :: joined) a <= 2 -> 0 <= width gs <= 2)
      /\ (fallback gs = true -> sumWidths W (cp :: joined) a <= 255 ->
          width gs = sumWidths W (cp :: joined) a).
Proof.
  intros W EP HW cp joined a gs.
  assert (Hsum : sumWidths W (cp :: joined) a <= 2 -> 0 <= width gs <= 2).
  { intros Hle. destruct (fallback gs) eqn:Hf.
    - rewrite (fallback_width gs Hf). unfold gs.
      rewrite (nonEmojiWidth_cluster W EP HW).
      pose proof (sumWidths_nonneg W HW (cp :: joined) a).
      rewrite Z.min_l by lia. rewrite wrap8_small by lia. lia.
    - apply special_rule_width; assumption. }
  split; [apply width_u8|].
  split; [apply special_rule_width|].
  split; [|split; [exact Hsum|]].
  - intros ->. apply Hsum. simpl.
    destruct (HW cp a) as [H|[H|H]]; lia.
  - intros Hf Hle. rewrite (fallback_width gs Hf). unfold gs.
    rewrite (nonEmojiWidth_cluster W EP HW).
    pose proof (sumWidths_nonneg W HW (cp :: joined) a).
    rewrite Z.min_l by lia. apply wrap8_small. lia.
Qed.

Lemma cluster_width_witness :
  let W := fun (cp : Z) (_ : bool) => if cp =? 0x94D then 0 else 1 in
  let EP := fun _ : Z => false in
  let gs := cluster W EP 0x915 [0x94D; 0x937] false in
  0 <= width gs <= 255
  /\ 0 <= width gs <= 2
  /\ width gs = sumWidths W [0x915; 0x94D; 0x937] false.
Proof.
  intros W EP gs.
  assert (HW : forall cp a, W cp a = 0 \/ W cp a = 1 \/ W cp a = 2)
    by (intros cp a; unfold W; destruct (cp =? 0x94D); lia).
  destruct (cluster_width W EP HW 0x915 [0x94D; 0x937] false)
    as (H1 & _ & _ & H2 & H3).
  split; [exact H1|]. split.
  - apply H2. vm_compute. discriminate.
  - apply H3; [reflexivity|]. vm_compute. discriminate.
Defined.

(** The bound 2 of C3 does not hold: three codepoints of width 1 that
    join (the Devanagari conjunct KA, VIRAMA, SSA, VIRAMA, MA) make a
    cluster of width 3. *)
Lemma cluster_width_exceeds_two :
  let W := fun (cp : Z) (_ : bool) => if cp =? 0x94D then 0 else 1 in
  let EP := fun _ : Z => false in
  (forall cp a, W cp a = 0 \/ W cp a = 1 \/ W cp a = 2)
  /\ width (cluster W EP 0x915 [0x94D; 0x937; 0x94D; 0x92E] false) = 3.
Proof.
  intros W EP. split.
  - intros cp a. unfold W. destruct (cp =? 0x94D); lia.
  - reflexivity.
Qed.

End GraphemeFacts.

(** ** The SGR parameter parser and the style tracker *)

Module SgrFacts.

Import Sgr.

Lemma wrap32_small : forall x, 0 <= x < 2 ^ 32 -> wrap32 x = x.
Proof. intros x H. unfold wrap32. apply Z.mod_small. exact H. Qed.

Lemma parseSgrParams_last_ok : forall out current hasDigit,
  Forall paramOk (data out) -> paramOk current ->
  Forall paramOk (data (parseSgrParams_last out current hasDigit)).
Proof.
  intros out current hasDigit Hout Hcur. unfold parseSgrParams_last.
  destruct (hasDigit || (params_size out =? 0)); [|assumption].
  destruct (kMax <=? params_size out); simpl; [assumption|].
  apply Forall_app. split; [assumption|]. constructor; [assumption|constructor].
Qed.

Lemma parseSgrParams_loop_ok : forall l out current hasDigit,
  Forall paramOk (data out) -> paramOk current ->
  Forall paramOk (data (parseSgrParams_loop l out current hasDigit)).
Proof.
  induction l as [|c l IH]; intros out current hasDigit Hout Hcur; simpl.
  - apply parseSgrParams_last_ok; assumption.
  - destruct ((0x30 <=? c) && (c <=? 0x39)) eqn:Hdigit.
    + apply andb_true_iff in Hdigit. destruct Hdigit as [Hlo Hhi].
      apply Z.leb_le in Hlo. apply Z.leb_le in Hhi.
      apply IH; [assumption|].
      unfold paramOk in *.
      destruct (current <? 100000) eqn:Hlt; [|assumption].
      apply Z.ltb_lt in Hlt. rewrite wrap32_small by lia. lia.
    + destruct ((c =? 0x3b) || (c =? 0x3a)).
      * assert (Hout1 : Forall paramOk
                          (data (if c =? 0x3a then set_hasColon out else out)))
          by (destruct (c =? 0x3a); assumption).
        destruct (kMax <=? params_size
                    (if c =? 0x3a then set_hasColon out else out)).
        -- simpl. assumption.
        -- apply IH; [|unfold paramOk; lia].
           simpl. apply Forall_app. split; [assumption|].
           constructor; [|constructor].
           destruct hasDigit; [assumption|unfold paramOk; lia].
      * apply parseSgrParams_last_ok; assumption.
Qed.

(** C9: every parameter that [parseSgrParams] gives is at most 999999,
    whatever the code units and however many digits; and the 32-bit
    multiply-and-add that a digit triggers, done only below 100000, is
    exact. *)
Theorem parseSgrParams_clamped :
  forall l : list Z,
    Forall (fun v => 0 <= v <= 999999) (data (parseSgrParams l))
    /\ (forall current c,
           0 <= current < 100000 -> 0x30 <= c <= 0x39 ->
           wrap32 (current * 10 + (c - 0x30)) = current * 10 + (c - 0x30)
           /\ current * 10 + (c - 0x30) <= 999999).
Proof.
  intros l. split.
  - apply (parseSgrParams_loop_ok l params_empty 0 false).
    + constructor.
    + unfold paramOk; lia.
  - intros current c Hcur Hc. split; [apply wrap32_small|]; lia.
Qed.

Lemma parseSgrParams_clamped_witness :
  Forall (fun v => 0 <= v <= 999999)
         (data (parseSgrParams [0x39; 0x39; 0x39; 0x39; 0x39; 0x39; 0x39;
                                0x39; 0x39; 0x39; 0x39; 0x3b; 0x31]))
  /\ wrap32 (99999 * 10 + (0x39 - 0x30)) = 99999 * 10 + (0x39 - 0x30)
  /\ 99999 * 10 + (0x39 - 0x30) <= 999999.
Proof.
  destruct (parseSgrParams_clamped
              [0x39; 0x39; 0x39; 0x39; 0x39; 0x39; 0x39; 0x39; 0x39; 0x39;
               0x39; 0x3b; 0x31]) as [H1 H2].
  split; [exact H1|]. apply H2; lia.
Defined.

(** ** The style container *)

Lemma Subseq_refl : forall (A : Type) (l : list A), Subseq l l.
Proof.
  induction l; [apply Subseq_nil | apply Subseq_keep; assumption].
Qed.

Lemma Subseq_filter : forall (A : Type) (f : A -> bool) (a b : list A),
  Subseq a b -> Subseq (filter f a) b.
Proof.
  induction 1; simpl.
  - apply Subseq_nil.
  - apply Subseq_skip; assumption.
  - destruct (f x); [apply Subseq_keep | apply Subseq_skip]; assumption.
Qed.

Lemma Subseq_app : forall (A : Type) (a b c d : list A),
  Subseq a b -> Subseq c d -> Subseq (a ++ c) (b ++ d).
Proof.
  induction 1; intros Hcd; simpl.
  - assumption.
  - apply Subseq_skip; auto.
  - apply Subseq_keep; auto.
Qed.

Lemma Subseq_nil_l : forall (A : Type) (l : list A), Subseq [] l.
Proof.
  induction l; [apply Subseq_nil | apply Subseq_skip; assumption].
Qed.

Lemma String_eqb_eq : forall a b, String_eqb a b = true <-> a = b.
Proof.
  intros a b. unfold String_eqb.
  destruct (list_eq_dec Z.eq_dec a b); split; congruence.
Qed.

Lemma inserted_app : forall a b, inserted (a ++ b) = inserted a ++ inserted b.
Proof.
  induction a as [|op a IH]; intros b; simpl; [reflexivity|].
  destruct op; simpl; rewrite IH; reflexivity.
Qed.

Lemma runOps_snoc : forall ops op,
  runOps (ops ++ [op]) = applyOp (runOps ops) op.
Proof. intros ops op. unfold runOps. rewrite fold_left_app. reflexivity. Qed.

Lemma NoDup_map_filter : forall (f : Entry -> bool) (l : list Entry),
  NoDup (map endCode l) -> NoDup (map endCode (filter f l)).
Proof.
  induction l as [|x l IH]; simpl; intros H; [constructor|].
  inversion H as [|? ? Hnot Hnd]; subst.
  destruct (f x); simpl; [|auto].
  constructor; [|auto].
  intros Hin. apply Hnot.
  apply in_map_iff in Hin. destruct Hin as [y [Hy Hiny]].
  apply filter_In in Hiny. apply in_map_iff. exists y. tauto.
Qed.

Lemma NoDup_snoc : forall (A : Type) (l : list A) (x : A),
  NoDup l -> ~ In x l -> NoDup (l ++ [x]).
Proof.
  induction l as [|y l IH]; intros x Hnd Hnot; simpl.
  - constructor; [intros []|constructor].
  - inversion Hnd as [|? ? Hy Hl]; subst. constructor.
    + intros Hin. apply in_app_or in Hin. destruct Hin as [Hin|[->|[]]].
      * contradiction.
      * apply Hnot. left. reflexivity.
    + apply IH; [assumption|]. intros Hin. apply Hnot. right. assumption.
Qed.

Lemma applyStart_NoDup : forall o e st,
  NoDup (map endCode st) -> NoDup (map endCode (applyStart o e st)).
Proof.
  intros o e st H. unfold applyStart, removeAllMatching.
  rewrite map_app. simpl. apply NoDup_snoc.
  - apply NoDup_map_filter; assumption.
  - intros Hin. apply in_map_iff in Hin. destruct Hin as [y [Hy Hiny]].
    apply filter_In in Hiny. destruct Hiny as [_ Hneg].
    apply negb_true_iff in Hneg.
    assert (String_eqb (endCode y) e = true) by (apply String_eqb_eq; exact Hy).
    congruence.
Qed.

Lemma runOps_NoDup : forall ops, NoDup (map endCode (runOps ops)).
Proof.
  induction ops as [|op ops IH] using rev_ind.
  - constructor.
  - rewrite runOps_snoc. destruct op; simpl.
    + apply applyStart_NoDup; assumption.
    + apply NoDup_map_filter; assumption.
    + constructor.
Qed.

Lemma runOps_Subseq : forall ops, Subseq (runOps ops) (inserted ops).
Proof.
  induction ops as [|op ops IH] using rev_ind.
  - apply Subseq_nil.
  - rewrite runOps_snoc, inserted_app. destruct op; simpl.
    + apply Subseq_app; [apply Subseq_filter; assumption|apply Subseq_refl].
    + rewrite app_nil_r. apply Subseq_filter; assumption.
    + apply Subseq_nil_l.
Qed.

(** C7: after any run of tracker calls from the empty state, no two entries
    have the same close code, and the entries are among the started ones in
    the order of their starts; a start whose close code an entry already
    has drops that entry, keeps the others as they are, and puts the new
    entry last. *)
Theorem style_container_invariant :
  forall ops : list StyleOp,
    let st := runOps ops in
    NoDup (map endCode st)
    /\ Subseq st (inserted ops)
    /\ (forall o e,
           let st' := applyStart o e st in
           last st' (mkEntry [] []) = mkEntry e o
           /\ (forall x, In x st' -> endCode x = e -> x = mkEntry e o)
           /\ filter (fun x => negb (String_eqb (endCode x) e)) st'
              = filter (fun x => negb (String_eqb (endCode x) e)) st
           /\ NoDup (map endCode st')).
Proof.
  intros ops st.
  split; [apply runOps_NoDup|]. split; [apply runOps_Subseq|].
  intros o e st'. unfold st', applyStart, removeAllMatching.
  split; [apply last_last|]. split; [|split].
  - intros x Hin Hx. apply in_app_or in Hin. destruct Hin as [Hin|Hin].
    + apply filter_In in Hin. destruct Hin as [_ Hneg].
      apply negb_true_iff in Hneg.
      assert (String_eqb (endCode x) e = true) by (apply String_eqb_eq; exact Hx).
      congruence.
    + destruct Hin as [<-|[]]. reflexivity.
  - rewrite filter_app. simpl.
    assert (Hee : String_eqb e e = true) by (apply String_eqb_eq; reflexivity).
    rewrite Hee. simpl. rewrite app_nil_r.
    induction st as [|x l IH]; simpl; [reflexivity|].
    destruct (negb (String_eqb (endCode x) e)) eqn:Hx; simpl.
    + rewrite Hx. f_equal. exact IH.
    + exact IH.
  - apply (applyStart_NoDup o e st). apply runOps_NoDup.
Qed.

Lemma style_container_invariant_witness :
  let red := [0x1b; 0x5b; 0x33; 0x31; 0x6d] in
  let blue := [0x1b; 0x5b; 0x33; 0x34; 0x6d] in
  let bold := [0x1b; 0x5b; 0x31; 0x6d] in
  let fgClose := [0x1b; 0x5b; 0x33; 0x39; 0x6d] in
  let boldClose := [0x1b; 0x5b; 0x32; 0x32; 0x6d] in
  let ops := [OpStart red fgClose; OpStart bold boldClose] in
  NoDup (map endCode (runOps ops))
  /\ Subseq (runOps ops) (inserted ops)
  /\ applyStart blue fgClose (runOps ops)
     = [mkEntry boldClose bold; mkEntry fgClose blue]
  /\ last (applyStart blue fgClose (runOps ops)) (mkEntry [] [])
     = mkEntry fgClose blue
  /\ NoDup (map endCode (applyStart blue fgClose (runOps ops))).
Proof.
  intros red blue bold fgClose boldClose ops.
  destruct (style_container_invariant ops) as (H1 & H2 & H3).
  destruct (H3 blue fgClose) as (H4 & _ & _ & H5).
  split; [exact H1|]. split; [exact H2|]. split; [reflexivity|].
  split; [exact H4|exact H5].
Defined.

End SgrFacts.

(** ** The close-only filter *)

Module FilterFacts.

Import Sgr Ansi Slice.

(** Once a start fragment was seen the filter rejects the sequence. *)
Lemma shouldInclude_started : forall n ps act hce,
  (length ps <= n)%nat -> shouldInclude_loop ps act true hce = false.
Proof.
  induction n as [|n IH]; intros ps act hce Hlen.
  - destruct ps; [|simpl in Hlen; lia]. simpl. apply andb_false_r.
  - destruct ps as [|code rest]; [apply andb_false_r|].
    cbn [shouldInclude_loop]. cbn [length] in Hlen.
    repeat match goal with
           | |- shouldInclude_loop _ _ true _ = false =>
               apply IH; cbn [length] in *; lia
           | |- context [if ?b then _ else _] => destruct b
           | |- context [match ?l with [] => _ | _ :: _ => _ end] =>
               destruct l; cbn [length] in *
           end.
Qed.

Lemma isSgrEndCode_0 : isSgrEndCode 0 = true.
Proof. reflexivity. Qed.

Lemma isSgrEndCode_not_ext : forall code,
  (code =? 38) || (code =? 48) = true -> isSgrEndCode code = false.
Proof.
  intros code H. apply orb_true_iff in H.
  destruct H as [H|H]; apply Z.eqb_eq in H; subst; reflexivity.
Qed.

(** The two flags of the loop, read off the parameters. *)
Lemma shouldInclude_loop_spec : forall ps act hce,
  shouldInclude_loop ps act false hce
  = (hce || existsb (closesActive act) ps) && forallb isSgrEndCode ps.
Proof.
  induction ps as [|code rest IH]; intros act hce.
  - simpl. rewrite orb_false_r, andb_true_r. reflexivity.
  - cbn [shouldInclude_loop existsb forallb]. unfold closesActive at 1.
    destruct (code =? 0) eqn:H0.
    + apply Z.eqb_eq in H0. subst code. rewrite IH, isSgrEndCode_0.
      destruct (isEmpty act), hce; reflexivity.
    + destruct (isSgrEndCode code) eqn:Hend.
      * rewrite IH.
        destruct (existsb
                    (fun e => String_eqb (endCode e) (makeSgrCode false code))
                    act), hce; reflexivity.
      * rewrite andb_false_r.
        repeat match goal with
               | |- shouldInclude_loop ?l _ true _ = false =>
                   apply (shouldInclude_started (length l)); lia
               | |- context [if ?b then _ else _] => destruct b
               | |- context [match ?l with [] => _ | _ :: _ => _ end] =>
                   destruct l
               end.
Qed.

Lemma shouldInclude_iff : forall params act,
  shouldIncludeSgrAfterEnd params act = true
  <-> Forall (fun c => isSgrEndCode c = true) (data params)
      /\ Exists (fun c => closesActive act c = true) (data params).
Proof.
  intros params act. unfold shouldIncludeSgrAfterEnd.
  rewrite shouldInclude_loop_spec. simpl.
  rewrite andb_true_iff, forallb_forall, existsb_exists, Forall_forall,
    Exists_exists.
  tauto.
Qed.

(** A run of the flush loop changes the output, the styles and the
    hyperlink state only, and the output by appending. *)
Lemma flushPending_loop_frame : forall E f pas hlIdx w w',
  flushPending_loop E f pas hlIdx w = Ok w' -> Shape.flushFrame w w'.
Proof.
  intros E f pas.
  assert (Hrefl : forall w, Shape.flushFrame w w).
  { intros w. unfold Shape.flushFrame. repeat split.
    exists []. symmetry. apply app_nil_r. }
  assert (Hstep : forall w w1 w' seq,
             Shape.flushFrame w1 w' ->
             p w1 = p w -> position w1 = position w ->
             include w1 = include w -> prevVisCp w1 = prevVisCp w ->
             hasPrev w1 = hasPrev w -> breakState w1 = breakState w ->
             gs w1 = gs w -> pending w1 = pending w ->
             pendingHl w1 = pendingHl w -> specZone w1 = specZone w ->
             inSpecZone w1 = inSpecZone w -> sawCutEnd w1 = sawCutEnd w ->
             result w1 = result w ++ seq ->
             Shape.flushFrame w w').
  { intros w w1 w' seq (H1 & H2 & H3 & H4 & H5 & H6 & H7 & H8 & H9 & H10
                        & H11 & H12 & (t & H13)).
    intros. unfold Shape.flushFrame.
    repeat (split; [congruence|]).
    exists (seq ++ t). rewrite app_assoc. congruence. }
  induction pas as [|pa rest IH]; intros hlIdx w w' H.
  - cbn [flushPending_loop] in H. injection H as <-. apply Hrefl.
  - cbn [flushPending_loop] in H.
    destruct (pa_type pa).
    + apply (IH _ _ _ H).
    + destruct (f && negb (closeOnlySgr E pa (activeStyles w)));
        [apply (IH _ _ _ H)|].
      apply IH in H. eapply Hstep; [exact H|..]; reflexivity.
    + destruct (f && (negb (negb (pa_hlOpen pa)) || negb (activeHyperlink w)));
        [apply (IH _ _ _ H)|].
      destruct (pa_hlOpen pa).
      * destruct (nth_error (pendingHl w) hlIdx) as [[[code cp] term]|];
          [|discriminate].
        apply IH in H. eapply Hstep; [exact H|..]; reflexivity.
      * apply IH in H. eapply Hstep; [exact H|..]; reflexivity.
    + destruct (negb f); [|apply (IH _ _ _ H)].
      apply IH in H. eapply Hstep; [exact H|..]; reflexivity.
Qed.

(** C4 (as the code has it): an SGR sequence of the pending buffer that
    the flush meets in its close-only mode is emitted exactly when its
    parameters carry no colon and did not overflow, every parameter is an
    end code (the reset 0 included, so no parameter is a start fragment),
    and at least one parameter has closing effect: it is 0 while a style is
    active, or the recorded close of an active style.  A token that passes
    is applied and appended to the result; one that fails leaves the state
    as it was.  The flush in its other mode emits the sequence whatever its
    parameters.  The walk flushes close-only where a cluster break, in
    [processVisibleCp] or before a bulk run when a cluster is open, finds
    the position at or past [specEnd], the end being bounded; at the end of
    the input, when it has not stopped before and is inside the window, it
    flushes close-only exactly when the end is bounded and the position,
    the last cluster counted, is at or past [specEnd]. *)
Theorem close_only_filter :
  forall (E : Env) (s e : Z) (hl : bool) (act : SgrStyleState),
    let pa := mkPending s e SgrTok hl in
    let params := pendingSgrParams E pa in
    (closeOnlySgr E pa act = true
     <-> overflow params = false /\ hasColon params = false
         /\ Forall (fun c => isSgrEndCode c = true) (data params)
         /\ Exists (fun c => closesActive act c = true) (data params))
    /\ (forall rest hlIdx w,
           flushPending_loop E true (pa :: rest) hlIdx w
           = flushPending_loop E true rest hlIdx
               (if closeOnlySgr E pa (activeStyles w)
                then append_result (span E s e)
                       (set_activeStyles
                          (applySgrToState (activeStyles w) (span E s e)) w)
                else w))
    /\ (forall rest hlIdx w,
           flushPending_loop E false (pa :: rest) hlIdx w
           = flushPending_loop E false rest hlIdx
               (append_result (span E s e)
                  (set_activeStyles
                     (applySgrToState (activeStyles w) (span E s e)) w)))
    /\ (forall W EP GB cp charLen w bs,
           shouldBreakAt GB (hasPrev w) (prevVisCp w) cp (breakState w)
           = (true, bs) ->
           let w0 := commitWidth (set_breakState bs w) in
           endUnbounded E = false -> specEnd E <= position w0 ->
           processVisibleCp W EP GB E cp charLen w
           = (w' <- flushPending E true (set_sawCutEnd true w0) ;;
              Ok (w', false)))
    /\ (forall bulkN w,
           0 < bulkN -> hasPrev w = true ->
           let w0 := set_hasPrev false (commitWidth w) in
           endUnbounded E = false -> specEnd E <= position w0 ->
           bulkPhase E bulkN w
           = (w' <- flushPending E true (set_sawCutEnd true w0) ;;
              Ok (Stop w')))
    /\ (forall needEndEllipsis w,
           sawCutEnd w = false -> include w = true ->
           let w0 := commitWidth w in
           finishWalk E needEndEllipsis w
           = (w' <- flushPending E
                      (negb (endUnbounded E) && (specEnd E <=? position w0))
                      w0 ;;
              finishWalk E needEndEllipsis (set_hasPrev false w'))).
Proof.
  intros E s e hl act pa params. split; [|split; [|split; [|split; [|split]]]].
  - unfold closeOnlySgr. fold params.
    destruct (overflow params) eqn:Ho; simpl.
    + split; [discriminate|]. intros [H _]. discriminate.
    + destruct (hasColon params) eqn:Hc.
      * split; [discriminate|]. intros [_ [H _]]. discriminate.
      * rewrite shouldInclude_iff. tauto.
  - intros rest hlIdx w. simpl.
    destruct (closeOnlySgr E pa (activeStyles w)); reflexivity.
  - intros rest hlIdx w. reflexivity.
  - intros W EP GB cp charLen w bs Hbreak w0 Hunb Hpast.
    unfold processVisibleCp. rewrite Hbreak. fold w0.
    rewrite Hunb. apply Z.leb_le in Hpast. rewrite Hpast. reflexivity.
  - intros bulkN w Hn Hprev w0 Hunb Hpast.
    unfold bulkPhase. apply Z.ltb_lt in Hn. rewrite Hn, Hprev. fold w0.
    rewrite Hunb. apply Z.leb_le in Hpast. rewrite Hpast. reflexivity.
  - intros nee w Hsaw Hinc w0.
    assert (Hinc0 : include w0 = true).
    { unfold w0, commitWidth. destruct (hasPrev w); exact Hinc. }
    assert (Hsaw0 : sawCutEnd w0 = false).
    { unfold w0, commitWidth. destruct (hasPrev w); exact Hsaw. }
    unfold finishWalk at 1. rewrite Hsaw. cbn [negb]. fold w0.
    rewrite Hinc0. unfold flushPending.
    destruct (flushPending_loop E
                (negb (endUnbounded E) && (specEnd E <=? position w0))
                (pending w0) 0 w0) as [w1| |] eqn:Hloop; try reflexivity.
    apply flushPending_loop_frame in Hloop.
    destruct Hloop as (_ & _ & Hi & _ & _ & _ & _ & _ & _ & _ & _ & Hc & _).
    rewrite Hinc0 in Hi. rewrite Hsaw0 in Hc.
    cbn [bind]. unfold finishWalk, commitWidth, flushPending, clearPending.
    cbn [sawCutEnd hasPrev include pending set_hasPrev set_pending
         set_pendingHl negb flushPending_loop bind result specZone
         activeHyperlink activeHyperlinkClosePrefix
         activeHyperlinkTerminator activeStyles].
    rewrite Hi, Hc. cbn [negb bind].
    cbn [sawCutEnd hasPrev include pending set_hasPrev set_pending
         set_pendingHl negb flushPending_loop bind result specZone
         activeHyperlink activeHyperlinkClosePrefix
         activeHyperlinkTerminator activeStyles].
    rewrite Hi, ?Hc. reflexivity.
Qed.

(** Not every parameter has to close an active style, as C4 has it: with
    red foreground as the only active style, the sequence ESC [ 39 ; 49 m
    is emitted although 49 is not the close of an active style. *)
Lemma close_only_filter_not_every_parameter :
  let inp := [0x1b; 0x5b; 0x33; 0x39; 0x3b; 0x34; 0x39; 0x6d] in
  let E := mkEnv inp 0 1 false 1 [] false 0 false in
  let pa := mkPending 0 8 SgrTok false in
  let act := [mkEntry [0x1b; 0x5b; 0x33; 0x39; 0x6d]
                      [0x1b; 0x5b; 0x33; 0x31; 0x6d]] in
  data (pendingSgrParams E pa) = [39; 49]
  /\ closeOnlySgr E pa act = true
  /\ forallb (closesActive act) (data (pendingSgrParams E pa)) = false.
Proof. repeat split. Qed.

(** Nor does every sequence after the last cluster of the output meet the
    filter.  With the end cut found lazily, "ab" ESC[31m "cde" sliced at
    [0, 3) with a one-column ellipsis flushes ESC[31m unfiltered when "c"
    comes, at column 2, inside the requested window; "c" is then dropped
    for the ellipsis, and the start code follows the last cluster "b". *)
Lemma lazy_cut_emits_start_code :
  Toy.slice [0x61; 0x62; 0x1b; 0x5b; 0x33; 0x31; 0x6d; 0x63; 0x64; 0x65]
            (Num.Finite 0) (Num.Finite 3) [0x2e] 1
  = Ok (Str [0x61; 0x62; 0x1b; 0x5b; 0x33; 0x31; 0x6d; 0x2e;
             0x1b; 0x5b; 0x33; 0x39; 0x6d]).
Proof. vm_compute. reflexivity. Qed.

End FilterFacts.

(** ** The tokenizer *)

Module TokenizerBounds.

Import Ansi SpanFacts.

Lemma parseCsi_scan_bounds : forall l it canon,
  it <= csiEnd (parseCsi_scan l it canon) <= it + len l.
Proof.
  induction l as [|c l IH]; intros it canon; cbn [parseCsi_scan].
  - rewrite len_nil. cbn [csiEnd]. lia.
  - rewrite len_cons. pose proof (len_nonneg l).
    destruct ((0x40 <=? c) && (c <=? 0x7E)); [cbn [csiEnd]; lia|].
    destruct ((0x30 <=? c) && (c <=? 0x3F)).
    + match goal with
      | |- context [parseCsi_scan l ?i ?k] => specialize (IH i k)
      end. lia.
    + destruct ((0x20 <=? c) && (c <=? 0x2F)).
      * specialize (IH (it + 1) false). lia.
      * cbn [csiEnd]. lia.
Qed.

Lemma parseCsi_bounds : forall l r,
  parseCsi l = Some r -> 1 <= csiEnd r <= len l.
Proof.
  intros l r. unfold parseCsi.
  destruct l as [|c l1]; [discriminate|].
  destruct (c =? 0x1b).
  - destruct l1 as [|c1 l2]; [discriminate|].
    destruct (c1 =? 0x5b); [|discriminate].
    intros H. injection H as <-.
    pose proof (parseCsi_scan_bounds l2 2 true). rewrite !len_cons. lia.
  - destruct (c =? 0x9b); [|discriminate].
    intros H. injection H as <-.
    pose proof (parseCsi_scan_bounds l1 1 true). rewrite len_cons. lia.
Qed.

Lemma findUriStart_bounds : forall l q u rest,
  findUriStart l q = Some (u, rest) -> q < u /\ u + len rest = q + len l.
Proof.
  induction l as [|c l IH]; intros q u rest; cbn [findUriStart].
  - discriminate.
  - rewrite len_cons. destruct (c =? 0x3b).
    + intros H. injection H as <- <-. lia.
    + intros H. apply IH in H. lia.
Qed.

Lemma findTerminator_bounds : forall l q r t,
  findTerminator l q = Some (r, t) ->
  q <= r /\ (match t with ESC_ST => r + 2 | _ => r + 1 end) <= q + len l.
Proof.
  induction l as [|c l IH]; intros q r t; cbn [findTerminator].
  - discriminate.
  - rewrite len_cons. pose proof (len_nonneg l).
    destruct (c =? 0x07).
    { intros H0. injection H0 as <- <-. lia. }
    destruct ((c =? 0x1b)
              && match l with c1 :: _ => c1 =? 0x5c | [] => false end) eqn:He.
    { intros H0. injection H0 as <- <-.
      apply andb_true_iff in He. destruct He as [_ He].
      destruct l as [|c1 l']; [discriminate|]. rewrite len_cons.
      pose proof (len_nonneg l'). lia. }
    destruct (c =? 0x9c).
    { intros H0. injection H0 as <- <-. lia. }
    intros H0. apply IH in H0. destruct t; lia.
Qed.

Lemma parseHyperlink_body_bounds : forall l isEscOsc it rest h,
  0 < it -> it + len rest = len l ->
  parseHyperlink_body l isEscOsc it rest = Some h ->
  1 <= hlEnd h <= len l.
Proof.
  intros l isEscOsc it rest h Hit Hlen. unfold parseHyperlink_body.
  destruct (findUriStart rest it) as [[u uri]|] eqn:Hu; [|discriminate].
  apply findUriStart_bounds in Hu.
  destruct (findTerminator uri u) as [[r t]|] eqn:Ht; [|discriminate].
  apply findTerminator_bounds in Ht.
  intros H. injection H as <-. cbn [hlEnd]. destruct t; lia.
Qed.

Lemma parseHyperlink_bounds : forall l h,
  parseHyperlink l = Some h -> 1 <= hlEnd h <= len l.
Proof.
  intros l h. unfold parseHyperlink.
  destruct l as [|c0 [|c1 [|c2 l3]]]; try discriminate.
  destruct l3 as [|c3 l4].
  - destruct ((c0 =? 0x9d) && (c1 =? 0x38) && (c2 =? 0x3b)); [|discriminate].
    apply parseHyperlink_body_bounds; [lia|]. rewrite !len_cons. lia.
  - destruct ((c0 =? 0x1b) && (c1 =? 0x5d) && (c2 =? 0x38) && (c3 =? 0x3b)).
    + apply parseHyperlink_body_bounds; [lia|]. rewrite !len_cons. lia.
    + destruct ((c0 =? 0x9d) && (c1 =? 0x38) && (c2 =? 0x3b)); [|discriminate].
      apply parseHyperlink_body_bounds; [lia|]. rewrite !len_cons. lia.
Qed.

Lemma scanST_bounds : forall l it bel e,
  scanST l it bel = Some e -> it < e <= it + len l.
Proof.
  induction l as [|c l IH]; intros it bel e; cbn [scanST].
  - discriminate.
  - rewrite len_cons. pose proof (len_nonneg l).
    destruct (bel && (c =? 0x07)).
    { intros H0. injection H0 as <-. lia. }
    destruct ((c =? 0x1b)
              && match l with c1 :: _ => c1 =? 0x5c | [] => false end) eqn:He.
    { intros H0. injection H0 as <-.
      apply andb_true_iff in He. destruct He as [_ He].
      destruct l as [|c1 l']; [discriminate|]. rewrite len_cons.
      pose proof (len_nonneg l'). lia. }
    destruct (c =? 0x9c).
    { intros H0. injection H0 as <-. lia. }
    intros H0. apply IH in H0. lia.
Qed.

Lemma parseControlString_bounds : forall l e,
  parseControlString l = Some e -> 1 <= e <= len l.
Proof.
  intros l e. unfold parseControlString.
  destruct l as [|c l1]; [discriminate|]. rewrite len_cons.
  pose proof (len_nonneg l1).
  destruct (c =? 0x1b).
  - destruct l1 as [|next l2]; [discriminate|]. rewrite len_cons.
    pose proof (len_nonneg l2).
    destruct (next =? 0x5d); [intros H1; apply scanST_bounds in H1; lia|].
    destruct ((next =? 0x50) || (next =? 0x58) || (next =? 0x5e)
              || (next =? 0x5f));
      [intros H1; apply scanST_bounds in H1; lia|].
    destruct (next =? 0x5c); [|discriminate].
    intros H1. injection H1 as <-. lia.
  - destruct (c =? 0x9d); [intros H1; apply scanST_bounds in H1; lia|].
    destruct ((c =? 0x90) || (c =? 0x98) || (c =? 0x9e) || (c =? 0x9f));
      [intros H1; apply scanST_bounds in H1; lia|].
    destruct (c =? 0x9c); [|discriminate].
    intros H1. injection H1 as <-. lia.
Qed.

Lemma tryCsi_bounds : forall l c tok,
  tryCsi l c = Some tok -> 1 <= tokEnd tok <= len l.
Proof.
  intros l c tok. unfold tryCsi.
  destruct ((c =? 0x1b) || (c =? 0x9b)); [|discriminate].
  destruct (parseCsi l) as [r|] eqn:Hr; [|discriminate].
  apply parseCsi_bounds in Hr.
  intros H. injection H as <-. cbn [tokEnd]. exact Hr.
Qed.

Lemma tryControl_bounds : forall l c tok,
  tryControl l c = Some tok -> 1 <= tokEnd tok <= len l.
Proof.
  intros l c tok. unfold tryControl.
  destruct ((c =? 0x1b) || (c =? 0x9d) || (c =? 0x90) || (c =? 0x98)
            || (c =? 0x9e) || (c =? 0x9f) || (c =? 0x9c)).
  - destruct (parseControlString l) as [e|] eqn:He.
    + apply parseControlString_bounds in He.
      intros H. injection H as <-. cbn [tokEnd]. exact He.
    + apply tryCsi_bounds.
  - apply tryCsi_bounds.
Qed.

(** A recognised sequence is not empty and ends inside the input. *)
Lemma tryParseAnsi_bounds : forall l tok,
  tryParseAnsi l = Some tok -> 1 <= tokEnd tok <= len l.
Proof.
  intros l tok. unfold tryParseAnsi.
  destruct l as [|c l1]; [discriminate|].
  destruct ((c =? 0x1b) || (c =? 0x9d)).
  - destruct (parseHyperlink (c :: l1)) as [h|] eqn:Hh.
    + apply parseHyperlink_bounds in Hh.
      intros H. injection H as <-. cbn [tokEnd]. exact Hh.
    + apply tryControl_bounds.
  - apply tryControl_bounds.
Qed.

Lemma decodeUTF16_bounds : forall c l cp n,
  decodeUTF16 (c :: l) = (cp, n) -> 1 <= n <= len (c :: l).
Proof.
  intros c l cp n. unfold decodeUTF16. rewrite len_cons.
  pose proof (len_nonneg l).
  destruct (Z.land c 0xfffffc00 =? 0xd800).
  - destruct l as [|c2 l'].
    + intros H0. injection H0 as _ <-. lia.
    + rewrite len_cons in *. pose proof (len_nonneg l').
      destruct (Z.land c2 0xfffffc00 =? 0xdc00);
        intros H1; injection H1 as _ <-; lia.
  - intros H0. injection H0 as _ <-. lia.
Qed.

Lemma findEscapeCharacter_bounds : forall l i,
  findEscapeCharacter l = Some i -> 0 <= i < len l.
Proof.
  induction l as [|c l IH]; intros i; cbn [findEscapeCharacter].
  - discriminate.
  - rewrite len_cons. pose proof (len_nonneg l).
    destruct (isEscapeCharacter c || (c =? 0x9c)).
    + intros H0. injection H0 as <-. lia.
    + destruct (findEscapeCharacter l) as [j|]; [|discriminate].
      specialize (IH j eq_refl). intros H0. injection H0 as <-. lia.
Qed.

Lemma firstNonAsciiPrintable_bounds : forall bits l,
  0 <= firstNonAsciiPrintable bits l <= len l.
Proof.
  induction l as [|c l IH]; cbn [firstNonAsciiPrintable].
  - rewrite len_nil. lia.
  - rewrite len_cons. destruct ((c - 0x20) mod 2 ^ bits >? 0x5E); lia.
Qed.

End TokenizerBounds.

Module TokenizerFacts.

Import Sgr Ansi Slice SpanFacts.

Lemma parseCsi_scan_malformed : forall body bad rest it canon,
  forallb csiInterior body = true ->
  csiValid bad = false ->
  exists canon',
    parseCsi_scan (body ++ bad :: rest) it canon
    = mkCsi (it + len body) false canon'.
Proof.
  induction body as [|c body IH]; intros bad rest it canon Hbody Hbad.
  - exists canon. cbn [app parseCsi_scan]. unfold csiValid in Hbad.
    apply andb_false_iff in Hbad.
    assert (H1 : (0x40 <=? bad) && (bad <=? 0x7E) = false).
    { apply andb_false_iff. destruct Hbad as [H|H];
        [apply Z.leb_gt in H; left; apply Z.leb_gt; lia | right; exact H]. }
    assert (H2 : (0x30 <=? bad) && (bad <=? 0x3F) = false).
    { apply andb_false_iff. destruct Hbad as [H|H];
        [apply Z.leb_gt in H; left; apply Z.leb_gt; lia
        | apply Z.leb_gt in H; right; apply Z.leb_gt; lia]. }
    assert (H3 : (0x20 <=? bad) && (bad <=? 0x2F) = false).
    { apply andb_false_iff. destruct Hbad as [H|H];
        [left; exact H | apply Z.leb_gt in H; right; apply Z.leb_gt; lia]. }
    rewrite H1, H2, H3. unfold len. simpl. rewrite Z.add_0_r. reflexivity.
  - cbn [forallb] in Hbody. apply andb_true_iff in Hbody.
    destruct Hbody as [Hc Hbody]. unfold csiInterior in Hc.
    apply andb_true_iff in Hc. destruct Hc as [Hlo Hhi].
    apply Z.leb_le in Hlo. apply Z.leb_le in Hhi.
    cbn [app parseCsi_scan].
    assert (H1 : (0x40 <=? c) && (c <=? 0x7E) = false).
    { apply andb_false_iff. left. apply Z.leb_gt. lia. }
    rewrite H1. rewrite len_cons.
    destruct ((0x30 <=? c) && (c <=? 0x3F)) eqn:H2.
    + destruct (IH bad rest (it + 1)
                  (if negb ((0x30 <=? c) && (c <=? 0x39))
                      && negb (c =? 0x3b) && negb (c =? 0x3a)
                   then false else canon) Hbody Hbad) as [canon' Hc'].
      exists canon'. rewrite Hc'. f_equal. lia.
    + assert (H3 : (0x20 <=? c) && (c <=? 0x2F) = true).
      { apply andb_false_iff in H2. apply andb_true_iff.
        split; [apply Z.leb_le; lia|].
        destruct H2 as [H|H]; apply Z.leb_gt in H; apply Z.leb_le; lia. }
      rewrite H3.
      destruct (IH bad rest (it + 1) false Hbody Hbad) as [canon' Hc'].
      exists canon'. rewrite Hc'. f_equal. lia.
Qed.

Lemma parseHyperlink_csi : forall t, parseHyperlink (0x1b :: 0x5b :: t) = None.
Proof. intros [|c2 [|c3 l4]]; reflexivity. Qed.

Lemma parseHyperlink_c1_csi : forall t, parseHyperlink (0x9b :: t) = None.
Proof. intros [|c1 [|c2 [|c3 l4]]]; reflexivity. Qed.

(** C5 (as the code has it): when a byte outside the three ranges follows
    the introducer and a run of parameter and intermediate bytes,
    [parseCsi] returns the cursor at that byte, and [tryParseAnsi] reports
    the bytes before it as a Control token that ends there; the walk then
    moves its cursor to that byte, over the introducer and the run, as over
    a control of no width: the column, the cluster state and the output
    stay as they were, and inside the window the token joins the pending
    buffer.  The cursor moves by the length of the introducer and the run,
    which is one unit only for the introducer 0x9b with an empty run. *)
Theorem malformed_csi_is_control :
  forall (intro body rest : list Z) (bad : Z),
    intro = [0x1b; 0x5b] \/ intro = [0x9b] ->
    forallb csiInterior body = true ->
    csiValid bad = false ->
    let l := intro ++ body ++ bad :: rest in
    let n := len intro + len body in
    (exists r, parseCsi l = Some r /\ csiEnd r = n /\ csiIsSgr r = false)
    /\ tryParseAnsi l = Some (mkToken Control n false [] [] [])
    /\ (n = 1 <-> intro = [0x9b] /\ body = [])
    /\ (forall W EP GB is16 (E : Env) (w : Walk),
           from E (p w) = l ->
           exists w', escapePhase W EP GB is16 E w = Ok (Next w')
                      /\ p w' = p w + n
                      /\ position w' = position w
                      /\ hasPrev w' = hasPrev w
                      /\ prevVisCp w' = prevVisCp w
                      /\ gs w' = gs w
                      /\ result w' = result w
                      /\ specZone w' = specZone w
                      /\ pending w'
                         = if include w
                           then pending w
                                ++ [mkPending (p w) (p w + n) Control false]
                           else pending w).
Proof.
  intros intro body rest bad Hintro Hbody Hbad l n.
  assert (Hcsi : exists canon, parseCsi l = Some (mkCsi n false canon)).
  { destruct Hintro as [-> | ->]; unfold l, n; cbn [app parseCsi];
      rewrite ?Z.eqb_refl.
    - destruct (parseCsi_scan_malformed body bad rest 2 true Hbody Hbad)
        as [canon Hc].
      exists canon. rewrite Hc. reflexivity.
    - change (0x9b =? 0x1b) with false. cbn iota.
      destruct (parseCsi_scan_malformed body bad rest 1 true Hbody Hbad)
        as [canon Hc].
      exists canon. rewrite Hc. reflexivity. }
  destruct Hcsi as [canon Hcsi].
  assert (Htok : tryParseAnsi l = Some (mkToken Control n false [] [] [])).
  { destruct Hintro as [-> | ->]; unfold l, n in *; cbn [app] in *.
    - unfold tryParseAnsi. change ((0x1b =? 0x1b) || (0x1b =? 0x9d)) with true.
      cbn iota. rewrite parseHyperlink_csi.
      unfold tryControl, tryCsi. cbn [parseControlString].
      change (0x1b =? 0x1b) with true. cbn iota.
      change (0x5b =? 0x5d) with false. cbn iota.
      change ((0x5b =? 0x50) || (0x5b =? 0x58) || (0x5b =? 0x5e)
              || (0x5b =? 0x5f)) with false. cbn iota.
      change (0x5b =? 0x5c) with false. cbn iota.
      cbn [orb]. rewrite Hcsi. reflexivity.
    - unfold tryParseAnsi. change ((0x9b =? 0x1b) || (0x9b =? 0x9d)) with false.
      cbn iota. unfold tryControl, tryCsi.
      change ((0x9b =? 0x1b) || (0x9b =? 0x9d) || (0x9b =? 0x90)
              || (0x9b =? 0x98) || (0x9b =? 0x9e) || (0x9b =? 0x9f)
              || (0x9b =? 0x9c)) with false. cbn iota.
      change ((0x9b =? 0x1b) || (0x9b =? 0x9b)) with true. cbn iota.
      rewrite Hcsi. reflexivity. }
  split; [|split; [|split]].
  - eexists. split; [exact Hcsi|]. split; reflexivity.
  - exact Htok.
  - unfold n. pose proof (len_nonneg body) as Hb.
    destruct Hintro as [-> | ->].
    + change (len [0x1b; 0x5b]) with 2. split; [lia|].
      intros [H _]. discriminate.
    + change (len [0x9b]) with 1. split.
      * intros H. split; [reflexivity|].
        destruct body as [|c body']; [reflexivity|].
        rewrite len_cons in H. pose proof (len_nonneg body'). lia.
      * intros [_ ->]. reflexivity.
  - intros W EP GB is16 E w Hfrom. unfold escapePhase. rewrite Hfrom.
    assert (Hesc : isEscapeCharacter (hd 0 l) || (hd 0 l =? 0x9c) = true)
      by (destruct Hintro as [-> | ->]; reflexivity).
    rewrite Hesc, Htok. cbn [tokEnd tokType tokHlOpen TokenType_eqb].
    eexists. split; [reflexivity|].
    destruct (include w); cbn [negb]; repeat split; reflexivity.
Qed.

Lemma malformed_csi_is_control_witness :
  let l := [0x1b; 0x5b] ++ [0x33; 0x31] ++ 0x07 :: [0x41] in
  let n := len [0x1b; 0x5b] + len [0x33; 0x31] in
  let E := mkEnv l 0 SIZE_MAX true SIZE_MAX [] false 0 false in
  let w := initialWalk 0 in
  (exists r, parseCsi l = Some r /\ csiEnd r = n /\ csiIsSgr r = false)
  /\ tryParseAnsi l = Some (mkToken Control n false [] [] [])
  /\ (exists w', escapePhase (fun _ _ => 1) (fun _ => false)
                   (fun _ _ s => (true, s)) false E w
                 = Ok (Next w')
                 /\ p w' = p w + n
                 /\ position w' = position w
                 /\ hasPrev w' = hasPrev w
                 /\ prevVisCp w' = prevVisCp w
                 /\ gs w' = gs w
                 /\ result w' = result w
                 /\ specZone w' = specZone w
                 /\ pending w'
                    = if include w
                      then pending w
                           ++ [mkPending (p w) (p w + n) Control false]
                      else pending w).
Proof.
  intros l n E w.
  destruct (malformed_csi_is_control [0x1b; 0x5b] [0x33; 0x31] [0x41] 0x07)
    as (H1 & H2 & _ & H4).
  - left. reflexivity.
  - reflexivity.
  - reflexivity.
  - split; [exact H1|]. split; [exact H2|].
    apply (H4 (fun _ _ => 1) (fun _ => false) (fun _ _ s => (true, s))
              false E w).
    reflexivity.
Defined.

(** The failed parse of C5 does not happen: on ESC [ 3 1 BEL A the
    tokenizer recognises the four units before BEL as a Control token, and
    the walk moves its cursor to 4, not to 1. *)
Lemma malformed_csi_not_a_failed_parse :
  let inp := [0x1b; 0x5b; 0x33; 0x31; 0x07; 0x41] in
  let E := mkEnv inp 0 SIZE_MAX true SIZE_MAX [] false 0 false in
  tryParseAnsi inp <> None
  /\ tryParseAnsi inp = Some (mkToken Control 4 false [] [] [])
  /\ match escapePhase (fun _ _ => 1) (fun _ => false)
             (fun _ _ s => (true, s)) false E (initialWalk 0) with
     | Ok (Next w') => p w' = 4 /\ p w' <> 1
     | _ => False
     end.
Proof.
  cbv zeta. split; [|split].
  - discriminate.
  - reflexivity.
  - vm_compute. split; [reflexivity|discriminate].
Qed.

End TokenizerFacts.

(** ** Ellipsis budgets *)

Module BoundsFacts.

Import Sgr Ansi Num Slice.

Lemma window_unbounded : forall start end_,
  (if end_ =? SIZE_MAX then wrap64 (SIZE_MAX - start)
   else wrap64 (end_ - start)) = wrap64 (end_ - start).
Proof.
  intros start end_. destruct (end_ =? SIZE_MAX) eqn:H; [|reflexivity].
  apply Z.eqb_eq in H. rewrite H. reflexivity.
Qed.

(** The budget resolution of the streaming path takes its early return
    exactly when the ellipsis has a width, the end cut is known, a side is
    cut, and the ellipsis does not fit the window. *)
Lemma resolveEllipsis_none_iff :
  forall start end_ ellipsisWidth cutStart cutEndKnown cutEndHint,
    let window := if end_ =? SIZE_MAX then wrap64 (SIZE_MAX - start)
                  else wrap64 (end_ - start) in
    resolveEllipsis start end_ ellipsisWidth cutStart cutEndKnown cutEndHint
    = None
    <-> 0 < ellipsisWidth /\ cutEndKnown = true
        /\ (cutStart = true \/ cutEndHint = true)
        /\ window <= ellipsisWidth.
Proof.
  intros start end_ W cutStart cutEndKnown cutEndHint window.
  unfold resolveEllipsis, window. rewrite window_unbounded.
  destruct (0 <? W) eqn:HW;
    [apply Z.ltb_lt in HW | apply Z.ltb_ge in HW].
  2:{ split; [discriminate|]. intros [H _]. lia. }
  destruct (W <? wrap64 (end_ - start)) eqn:Hfit;
    destruct cutStart, cutEndKnown, cutEndHint;
    cbn [andb orb negb]; rewrite ?Hfit;
    try destruct (W <? wrap64 (end_ - wrap64 (start + W)));
    try destruct (end_ =? SIZE_MAX);
    cbn [andb orb negb e_needStartEllipsis e_needEndEllipsis];
    try apply Z.ltb_lt in Hfit; try apply Z.ltb_ge in Hfit;
    (split;
     [ try discriminate; intros _; repeat split; auto; lia
     | try reflexivity; intros (_ & H1 & H2 & H3);
       try discriminate; try lia; destruct H2; discriminate ]).
Qed.

(** The printable-ASCII path decides for the ellipsis alone exactly when
    the ellipsis has a width, a side is cut, and the ellipsis does not fit
    the window. *)
Lemma asciiDecide_alone_iff :
  forall b cutEnd ellipsisWidth,
    asciiDecide b cutEnd ellipsisWidth = AsciiEllipsisAlone
    <-> 0 < ellipsisWidth
        /\ (b_cutStart b = true \/ cutEnd = true)
        /\ wrap64 (b_end b - b_start b) <= ellipsisWidth.
Proof.
  intros b cutEnd W. unfold asciiDecide.
  destruct (0 <? W) eqn:HW;
    [apply Z.ltb_lt in HW | apply Z.ltb_ge in HW].
  2:{ destruct (negb (b_cutStart b) && negb cutEnd);
        (split; [discriminate|]); intros [H _]; lia. }
  destruct (W <? wrap64 (b_end b - b_start b)) eqn:Hfit;
    destruct (b_cutStart b), cutEnd;
    cbn [andb orb negb]; rewrite ?Hfit;
    try destruct (W <? wrap64 (b_end b - wrap64 (b_start b + W)));
    cbn [andb orb negb];
    try apply Z.ltb_lt in Hfit; try apply Z.ltb_ge in Hfit;
    (split;
     [ try discriminate; intros _; repeat split; auto; lia
     | try reflexivity; intros (_ & H2 & H3);
       try lia; destruct H2; discriminate ]).
Qed.

End BoundsFacts.

(** ** The walk *)

Module WalkFacts.

Import Grapheme Sgr Ansi Num Slice SpanFacts TokenizerBounds.

(** Projections of updated walk states. *)
Ltac walk_simpl :=
  cbn [p position include prevVisCp hasPrev breakState gs activeStyles
    activeHyperlink activeHyperlinkClosePrefix activeHyperlinkTerminator
    activeHyperlinkCode pending pendingHl result specZone inSpecZone
    sawCutEnd set_p set_position set_include set_prevVisCp set_hasPrev
    set_breakState set_gs set_activeStyles set_activeHyperlink
    set_activeHyperlinkClosePrefix set_activeHyperlinkTerminator
    set_activeHyperlinkCode set_pending set_pendingHl set_result
    set_specZone set_inSpecZone set_sawCutEnd append_result append_specZone
    clearPending] in *.

Lemma countHl_cons : forall pa pas,
  countHl (pa :: pas)
  = ((if TokenType_eqb (pa_type pa) Hyperlink then 1 else 0) + countHl pas)%nat.
Proof.
  intros pa pas. unfold countHl. cbn [filter].
  destruct (TokenType_eqb (pa_type pa) Hyperlink); reflexivity.
Qed.

Lemma countHl_app : forall a b, countHl (a ++ b) = (countHl a + countHl b)%nat.
Proof.
  intros a b. unfold countHl. rewrite filter_app, length_app. reflexivity.
Qed.

Section Engine.

Variable W : Z -> bool -> Z.
Variable EP : Z -> bool.
Variable GB : Z -> Z -> Z -> bool * Z.
Variable is16 : bool.
Variable E : Env.

(** Inside the input there is a unit at the cursor, and the units from
    the cursor on are those up to [dataEnd]. *)
Lemma from_cons : forall q,
  0 <= q < dataEnd E ->
  exists c l, from E q = c :: l /\ len (c :: l) = dataEnd E - q.
Proof.
  intros q Hq. unfold from.
  pose proof (len_skipn (input E) q) as Hl. unfold dataEnd in *.
  destruct (skipn (Z.to_nat q) (input E)) as [|c l] eqn:Hs.
  - rewrite len_nil in Hl. lia.
  - exists c, l. split; [reflexivity|]. apply Hl. lia.
Qed.

Lemma decodeAt_bounds : forall c l cp n,
  decodeAt is16 (c :: l) = (cp, n) -> 1 <= n <= len (c :: l).
Proof.
  intros c l cp n. unfold decodeAt. destruct is16.
  - apply decodeUTF16_bounds.
  - intros H. injection H as _ <-. rewrite len_cons.
    pose proof (len_nonneg l). lia.
Qed.

(** With the parse state of every pending hyperlink at hand, the flush
    reads [pendingHl] inside its bounds; it leaves the cursor alone. *)
Lemma flushPending_loop_ok : forall filterCloseOnly pas hlIdx w,
  (hlIdx + countHl pas <= length (pendingHl w))%nat ->
  exists w', flushPending_loop E filterCloseOnly pas hlIdx w = Ok w'
             /\ p w' = p w /\ pendingHl w' = pendingHl w.
Proof.
  intros f pas. induction pas as [|pa rest IH]; intros hlIdx w Hidx.
  - exists w. repeat split.
  - rewrite countHl_cons in Hidx. cbn [flushPending_loop].
    destruct (pa_type pa) eqn:Hty; cbn [TokenType_eqb] in Hidx.
    + apply IH. lia.
    + destruct (f && negb (closeOnlySgr E pa (activeStyles w))).
      * apply IH. lia.
      * match goal with
        | |- context [flushPending_loop E f rest hlIdx ?w1] =>
            destruct (IH hlIdx w1) as [w' [Hw' [Hp Hh]]];
            [walk_simpl; lia|]
        end.
        exists w'. walk_simpl. auto.
    + destruct (f && (negb (negb (pa_hlOpen pa)) || negb (activeHyperlink w))).
      * apply IH. lia.
      * destruct (pa_hlOpen pa).
        -- destruct (nth_error (pendingHl w) hlIdx) as [[[code cp] term]|] eqn:Hn.
           ++ match goal with
              | |- context [flushPending_loop E f rest (S hlIdx) ?w1] =>
                  destruct (IH (S hlIdx) w1) as [w' [Hw' [Hp Hh]]];
                  [walk_simpl; lia|]
              end.
              exists w'. walk_simpl. auto.
           ++ apply nth_error_None in Hn. lia.
        -- match goal with
           | |- context [flushPending_loop E f rest (S hlIdx) ?w1] =>
               destruct (IH (S hlIdx) w1) as [w' [Hw' [Hp Hh]]];
               [walk_simpl; lia|]
           end.
           exists w'. walk_simpl. auto.
    + destruct (negb f).
      * match goal with
        | |- context [flushPending_loop E f rest hlIdx ?w1] =>
            destruct (IH hlIdx w1) as [w' [Hw' [Hp Hh]]];
            [walk_simpl; lia|]
        end.
        exists w'. walk_simpl. auto.
      * apply IH. lia.
Qed.

Lemma flushPending_ok : forall filterCloseOnly w,
  pendingOK w ->
  exists w', flushPending E filterCloseOnly w = Ok w'
             /\ p w' = p w /\ pending w' = [] /\ pendingHl w' = [].
Proof.
  intros f w Hok. unfold flushPending.
  destruct (flushPending_loop_ok f (pending w) 0 w) as [w' [Hw' [Hp _]]].
  - unfold pendingOK in Hok. lia.
  - rewrite Hw'. cbn [bind]. eexists. split; [reflexivity|].
    walk_simpl. auto.
Qed.

Lemma commitWidth_same : forall w,
  p (commitWidth w) = p w /\ pending (commitWidth w) = pending w
  /\ pendingHl (commitWidth w) = pendingHl w.
Proof. intros w. unfold commitWidth. destruct (hasPrev w); repeat split. Qed.

Lemma enterWindow_same : forall w,
  p (enterWindow E w) = p w /\ pending (enterWindow E w) = pending w
  /\ pendingHl (enterWindow E w) = pendingHl w.
Proof.
  intros w. unfold enterWindow.
  destruct (needStartEllipsis E); walk_simpl;
    destruct (activeHyperlink w); repeat split.
Qed.

Lemma p_commitWidth : forall w, p (commitWidth w) = p w.
Proof. intros w. apply commitWidth_same. Qed.

Lemma pending_commitWidth : forall w, pending (commitWidth w) = pending w.
Proof. intros w. apply commitWidth_same. Qed.

Lemma pendingHl_commitWidth : forall w,
  pendingHl (commitWidth w) = pendingHl w.
Proof. intros w. apply commitWidth_same. Qed.

Lemma p_enterWindow : forall w, p (enterWindow E w) = p w.
Proof. intros w. apply enterWindow_same. Qed.

Lemma pending_enterWindow : forall w,
  pending (enterWindow E w) = pending w.
Proof. intros w. apply enterWindow_same. Qed.

Lemma pendingHl_enterWindow : forall w,
  pendingHl (enterWindow E w) = pendingHl w.
Proof. intros w. apply enterWindow_same. Qed.

Lemma pendingOK_same : forall w w',
  pending w' = pending w -> pendingHl w' = pendingHl w ->
  pendingOK w -> pendingOK w'.
Proof. intros w w' H1 H2. unfold pendingOK. rewrite H1, H2. auto. Qed.

(** [processVisibleCp] returns; it leaves the pending buffer empty, and
    moves the cursor by [charLen] unless it signals the stop. *)
Lemma processVisibleCp_ok : forall cp charLen w,
  pendingOK w ->
  exists w' b, processVisibleCp W EP GB E cp charLen w = Ok (w', b)
               /\ pendingOK w'
               /\ p w' = (if b then p w + charLen else p w).
Proof.
  intros cp n w Hok. unfold processVisibleCp.
  destruct (shouldBreakAt GB (hasPrev w) (prevVisCp w) cp (breakState w))
    as [sb bs].
  set (w0 := set_breakState bs w).
  assert (Hok0 : pendingOK w0) by exact Hok.
  assert (Hp0 : p w0 = p w) by reflexivity.
  clearbody w0. destruct sb.
  - destruct (commitWidth_same w0) as [Hp1 [Hpe1 Hph1]].
    assert (Hok1 : pendingOK (commitWidth w0))
      by (apply (pendingOK_same w0); assumption).
    set (w1 := commitWidth w0) in *. clearbody w1.
    destruct (negb (endUnbounded E) && (specEnd E <=? position w1)).
    + destruct (flushPending_ok true (set_sawCutEnd true w1) Hok1)
        as [w' [Hw' [Hp [Hpe Hph]]]].
      rewrite Hw'. cbn [bind]. exists w', false. split; [reflexivity|].
      split; [unfold pendingOK; rewrite Hpe, Hph; reflexivity|].
      rewrite Hp. walk_simpl. congruence.
    + set (w2 := if negb (include w1) && (start E <=? position w1)
                 then enterWindow E w1 else w1).
      assert (Hw2 : p w2 = p w1 /\ pendingOK w2).
      { unfold w2.
        destruct (negb (include w1) && (start E <=? position w1));
          [|split; [reflexivity|assumption]].
        destruct (enterWindow_same w1) as [H1 [H2 H3]].
        split; [assumption|]. apply (pendingOK_same w1); assumption. }
      destruct Hw2 as [Hp2 Hok2]. clearbody w2.
      destruct (include w2).
      * destruct (flushPending_ok false w2 Hok2) as [w' [Hw' [Hp [Hpe Hph]]]].
        rewrite Hw'. cbn [bind].
        eexists _, true. split; [reflexivity|].
        destruct (negb (endUnbounded E) && (end_ E <=? position w')
                  && (0 <? ellipsisEndBudget E));
          walk_simpl; (split; [unfold pendingOK; walk_simpl;
                               rewrite Hpe, Hph; reflexivity|]);
          congruence.
      * cbn [bind]. eexists _, true. split; [reflexivity|].
        walk_simpl. split; [reflexivity|]. congruence.
  - destruct (include w0).
    + destruct (flushPending_ok false w0 Hok0) as [w' [Hw' [Hp [Hpe Hph]]]].
      rewrite Hw'. cbn [bind].
      eexists _, true. split; [reflexivity|].
      destruct (inSpecZone w');
        walk_simpl; (split; [unfold pendingOK; walk_simpl;
                             rewrite Hpe, Hph; reflexivity|]);
        congruence.
    + cbn [bind]. eexists _, true. split; [reflexivity|].
      walk_simpl. split; [reflexivity|]. congruence.
Qed.

Lemma wrap64_nonneg : forall x, 0 <= wrap64 x.
Proof.
  intros x. unfold wrap64.
  pose proof (Z.mod_pos_bound x (2 ^ 64) ltac:(lia)). lia.
Qed.

(** The bulk phase returns; when it goes on, the cursor has moved over the
    [bulkN] units. *)
Lemma bulkPhase_ok : forall bulkN w,
  pendingOK w -> 0 <= bulkN ->
  exists flow, bulkPhase E bulkN w = Ok flow
               /\ match flow with
                  | Next w' => p w' = p w + bulkN /\ pendingOK w'
                  | Stop w' => pendingOK w'
                  end.
Proof.
  intros bulkN w Hok Hn. unfold bulkPhase.
  destruct (0 <? bulkN) eqn:Hpos.
  2:{ apply Z.ltb_ge in Hpos. exists (Next w). split; [reflexivity|].
      split; [lia|assumption]. }
  apply Z.ltb_lt in Hpos.
  set (w1 := if hasPrev w then set_hasPrev false (commitWidth w) else w).
  assert (H1 : p w1 = p w /\ pendingOK w1).
  { unfold w1. destruct (hasPrev w); [|split; [reflexivity|assumption]].
    walk_simpl. rewrite p_commitWidth. split; [reflexivity|].
    unfold pendingOK. walk_simpl.
    rewrite pending_commitWidth, pendingHl_commitWidth. exact Hok. }
  destruct H1 as [Hp1 Hok1]. clearbody w1.
  destruct (hasPrev w && negb (endUnbounded E) && (specEnd E <=? position w1)).
  { destruct (flushPending_ok true (set_sawCutEnd true w1) Hok1)
      as [w' [Hw' [Hp [Hpe Hph]]]].
    rewrite Hw'. cbn [bind]. eexists. split; [reflexivity|].
    unfold pendingOK. rewrite Hpe, Hph. reflexivity. }
  set (skipN := Z.min (wrap64 (start E - position w1)) bulkN).
  assert (Hskip : 0 <= skipN <= bulkN).
  { unfold skipN. pose proof (wrap64_nonneg (start E - position w1)). lia. }
  clearbody skipN.
  set (st2 := if negb (include w1) && (position w1 <? start E)
              then (set_position (wrap64 (position w1 + skipN))
                                 (set_p (p w1 + skipN) w1), bulkN - skipN)
              else (w1, bulkN)).
  assert (H2 : p (fst st2) + snd st2 = p w + bulkN /\ 0 <= snd st2
               /\ pendingOK (fst st2)).
  { unfold st2. destruct (negb (include w1) && (position w1 <? start E));
      cbn [fst snd]; walk_simpl.
    - split; [lia|]. split; [lia|]. exact Hok1.
    - split; [lia|]. split; [lia|]. exact Hok1. }
  destruct st2 as [w2 bulkN2]. cbn [fst snd] in H2.
  destruct H2 as [Hp2 [Hn2 Hok2]].
  set (w3 := if (0 <? bulkN2) && negb (include w2) && (start E <=? position w2)
             then enterWindow E w2 else w2).
  assert (H3 : p w3 = p w2 /\ pendingOK w3).
  { unfold w3.
    destruct ((0 <? bulkN2) && negb (include w2) && (start E <=? position w2));
      [|split; [reflexivity|assumption]].
    rewrite p_enterWindow. split; [reflexivity|].
    unfold pendingOK. rewrite pending_enterWindow, pendingHl_enterWindow.
    exact Hok2. }
  destruct H3 as [Hp3 Hok3]. clearbody w3.
  destruct ((0 <? bulkN2) && include w3).
  2:{ eexists. split; [reflexivity|]. walk_simpl. split; [lia|]. exact Hok3. }
  destruct (flushPending_ok false w3 Hok3) as [w4 [Hw4 [Hp4 [Hpe4 Hph4]]]].
  rewrite Hw4. cbn [bind].
  assert (Hok4 : pendingOK w4)
    by (unfold pendingOK; rewrite Hpe4, Hph4; reflexivity).
  set (emitN := if endUnbounded E then bulkN2
                else Z.min (if position w4 <? specEnd E
                            then wrap64 (specEnd E - position w4) else 0)
                           bulkN2).
  assert (Hemit : 0 <= emitN <= bulkN2).
  { unfold emitN. destruct (endUnbounded E); [lia|].
    destruct (position w4 <? specEnd E); [|lia].
    pose proof (wrap64_nonneg (specEnd E - position w4)). lia. }
  clearbody emitN.
  match goal with
  | |- context [let '(w, bulkN) := ?c in _] => set (st5 := c)
  end.
  assert (H5 : p (fst st5) + snd st5 = p w + bulkN /\ 0 <= snd st5
               /\ pendingOK (fst st5)).
  { unfold st5. destruct (0 <? emitN); cbn [fst snd].
    - walk_simpl.
      assert (Hw : forall w', p w' = p w4 -> pending w' = pending w4 ->
                              pendingHl w' = pendingHl w4 ->
                              p w' + emitN + (bulkN2 - emitN) = p w + bulkN
                              /\ 0 <= bulkN2 - emitN
                              /\ countHl (pending w') = length (pendingHl w')).
      { intros w' Ha Hb Hc. rewrite Ha, Hb, Hc. split; [lia|].
        split; [lia|]. exact Hok4. }
      unfold pendingOK. walk_simpl.
      destruct ((0 <? ellipsisEndBudget E) && (position w4 <? end_ E)
                && negb (endUnbounded E)).
      + destruct (Z.min (wrap64 (end_ E - position w4)) emitN <? emitN);
          apply Hw; reflexivity.
      + destruct (inSpecZone w4
                  || negb (endUnbounded E) && (end_ E <=? position w4));
          apply Hw; reflexivity.
    - split; [lia|]. split; [lia|]. exact Hok4. }
  destruct st5 as [w5 bulkN3]. cbn [fst snd] in H5.
  destruct H5 as [Hp5 [Hn5 Hok5]].
  destruct (negb (endUnbounded E) && (specEnd E <=? position w5)).
  - eexists. split; [reflexivity|]. exact Hok5.
  - eexists. split; [reflexivity|]. walk_simpl. split; [lia|]. exact Hok5.
Qed.

(** The per-unit loop returns when it is given an iteration for each unit
    up to [runEnd]; the cursor does not move back and stays inside the
    input. *)
Lemma perCharLoop_ok : forall fuel runEnd w,
  pendingOK w -> 0 <= p w <= dataEnd E -> runEnd <= dataEnd E ->
  runEnd - p w <= Z.of_nat fuel ->
  exists flow, perCharLoop W EP GB is16 E fuel runEnd w = Ok flow
               /\ match flow with
                  | Next w' => p w <= p w' <= dataEnd E /\ pendingOK w'
                  | Stop w' => pendingOK w'
                  end.
Proof.
  induction fuel as [|fuel IH]; intros runEnd w Hok Hp0 Hrun Hfuel;
    cbn [perCharLoop]; destruct (p w <? runEnd) eqn:Hlt;
    try (apply Z.ltb_lt in Hlt); try (apply Z.ltb_ge in Hlt).
  - lia.
  - exists (Next w). split; [reflexivity|]. split; [lia|assumption].
  - destruct (from_cons (p w)) as [c [l [Hfrom Hlen]]]; [lia|]. rewrite Hfrom.
    destruct (decodeAt is16 (c :: l)) as [cp n] eqn:Hdec.
    apply decodeAt_bounds in Hdec.
    destruct (processVisibleCp_ok cp n w Hok) as [w' [b [Hw' [Hok' Hp']]]].
    rewrite Hw'. cbn [bind fst snd]. destruct b.
    + destruct (IH runEnd w' Hok') as [flow [Hflow Hres]]; try lia.
      exists flow. split; [exact Hflow|].
      destruct flow; [|assumption]. split; [lia|tauto].
    + eexists. split; [reflexivity|]. assumption.
  - exists (Next w). split; [reflexivity|]. split; [lia|assumption].
Qed.

(** After the run, the walk either consumes a recognised sequence or
    treats the unit at the cursor as a visible codepoint: the cursor moves
    forward, not past the end of the input. *)
Lemma escapePhase_ok : forall w,
  0 <= p w < dataEnd E -> pendingOK w ->
  exists flow, escapePhase W EP GB is16 E w = Ok flow
               /\ match flow with
                  | Next w' => p w < p w' <= dataEnd E /\ pendingOK w'
                  | Stop w' => pendingOK w'
                  end.
Proof.
  intros w Hp Hok. unfold escapePhase.
  destruct (from_cons (p w) Hp) as [c [l [Hfrom Hlen]]]. rewrite Hfrom.
  cbn [hd].
  destruct (if isEscapeCharacter c || (c =? 0x9c)
            then tryParseAnsi (c :: l) else None) as [tok|] eqn:Htok.
  - assert (Hend : 1 <= tokEnd tok <= len (c :: l)).
    { destruct (isEscapeCharacter c || (c =? 0x9c)); [|discriminate].
      apply tryParseAnsi_bounds in Htok. lia. }
    eexists. split; [reflexivity|]. walk_simpl. split; [lia|].
    unfold pendingOK. destruct (include w); cbn [negb].
    + walk_simpl. destruct (TokenType_eqb (tokType tok) Hyperlink) eqn:Hty;
        walk_simpl; rewrite countHl_app, ?length_app; unfold pendingOK in Hok;
        rewrite Hok; unfold countHl; cbn [filter pa_type length];
        rewrite Hty; cbn [length]; lia.
    + destruct (tokType tok); try exact Hok.
      destruct (tokHlOpen tok); exact Hok.
  - destruct (decodeAt is16 (c :: l)) as [cp n] eqn:Hdec.
    apply decodeAt_bounds in Hdec.
    destruct (processVisibleCp_ok cp n w Hok) as [w' [b [Hw' [Hok' Hp']]]].
    rewrite Hw'. cbn [bind fst snd]. eexists. split; [reflexivity|].
    destruct b; [split; [lia|assumption]|assumption].
Qed.

(** The step of the main loop: an iteration returns, and when the loop
    goes on the cursor has moved forward inside the input. *)
Lemma walk_iter_ok : forall fuel w,
  0 <= p w < dataEnd E -> pendingOK w ->
  dataEnd E - p w <= Z.of_nat fuel ->
  exists flow, walk_iter W EP GB is16 E fuel w = Ok flow
               /\ match flow with
                  | Next w' => p w < p w' <= dataEnd E /\ pendingOK w'
                  | Stop w' => pendingOK w'
                  end.
Proof.
  intros fuel w Hp Hok Hfuel. unfold walk_iter.
  set (scanEnd := if endUnbounded E then dataEnd E else _).
  assert (Hscan : scanEnd <= dataEnd E).
  { unfold scanEnd. destruct (endUnbounded E); [lia|].
    match goal with
    | |- context [dataEnd E - p w <=? ?b] =>
        destruct (dataEnd E - p w <=? b) eqn:Hb;
        [lia | apply Z.leb_gt in Hb; lia]
    end. }
  clearbody scanEnd.
  set (runEnd := match findEscapeCharacter (span E (p w) scanEnd) with
                 | Some i => p w + i
                 | None => scanEnd
                 end).
  assert (Hrun : runEnd <= dataEnd E).
  { unfold runEnd.
    destruct (findEscapeCharacter (span E (p w) scanEnd)) as [i|] eqn:Hi;
      [|assumption].
    apply findEscapeCharacter_bounds in Hi.
    pose proof (len_subspan (input E) (p w) scanEnd) as Hl.
    unfold span in Hi. lia. }
  clearbody runEnd.
  set (asciiLen := firstNonAsciiPrintable (laneBits is16) (span E (p w) runEnd)).
  assert (Hascii : 0 <= asciiLen <= Z.max 0 (runEnd - p w)).
  { pose proof (firstNonAsciiPrintable_bounds (laneBits is16)
                  (span E (p w) runEnd)) as Ha.
    pose proof (len_subspan (input E) (p w) runEnd) as Hl.
    unfold asciiLen, span in *. lia. }
  clearbody asciiLen.
  set (bulkN := if 1 <? asciiLen then asciiLen - 1 else 0).
  assert (Hbulk : 0 <= bulkN /\ p w + bulkN <= dataEnd E).
  { unfold bulkN. destruct (1 <? asciiLen) eqn:Ha; [|lia].
    apply Z.ltb_lt in Ha. lia. }
  clearbody bulkN. destruct Hbulk as [Hbulk Hbulk'].
  destruct (bulkPhase_ok bulkN w Hok Hbulk) as [f1 [Hf1 Hres1]].
  rewrite Hf1. cbn [bind]. destruct f1 as [w1|w1].
  2:{ eexists. split; [reflexivity|]. assumption. }
  destruct Hres1 as [Hp1 Hok1].
  destruct (perCharLoop_ok fuel runEnd w1 Hok1) as [f2 [Hf2 Hres2]]; try lia.
  rewrite Hf2. cbn [bind]. destruct f2 as [w2|w2].
  2:{ eexists. split; [reflexivity|]. assumption. }
  destruct Hres2 as [Hp2 Hok2].
  destruct (dataEnd E <=? p w2) eqn:Hend.
  - eexists. split; [reflexivity|]. assumption.
  - apply Z.leb_gt in Hend.
    destruct (escapePhase_ok w2) as [f3 [Hf3 Hres3]]; [lia|assumption|].
    exists f3. split; [exact Hf3|].
    destruct f3; [|assumption]. split; [lia|tauto].
Qed.

(** The main loop returns when it is given an iteration for each unit of
    the input that is left. *)
Lemma walk_ok : forall fuel w,
  0 <= p w -> pendingOK w -> dataEnd E - p w <= Z.of_nat fuel ->
  exists w', walk W EP GB is16 E fuel w = Ok w' /\ pendingOK w'.
Proof.
  induction fuel as [|fuel IH]; intros w Hp Hok Hfuel;
    cbn [walk]; destruct (p w <? dataEnd E) eqn:Hlt;
    try (apply Z.ltb_lt in Hlt); try (apply Z.ltb_ge in Hlt).
  - lia.
  - exists w. split; [reflexivity|assumption].
  - destruct (walk_iter_ok (S fuel) w) as [flow [Hflow Hres]];
      [lia|assumption|lia|].
    rewrite Hflow. cbn [bind]. destruct flow as [w'|w'].
    + destruct Hres as [Hp' Hok']. apply IH; [lia|assumption|lia].
    + exists w'. split; [reflexivity|assumption].
  - exists w. split; [reflexivity|assumption].
Qed.

Lemma finishWalk_ok : forall needEndEllipsis w,
  pendingOK w -> exists s, finishWalk E needEndEllipsis w = Ok s.
Proof.
  intros ne w Hok. unfold finishWalk.
  assert (H1 : exists w1,
             (if negb (sawCutEnd w)
              then if include (commitWidth w)
                   then flushPending E
                          (negb (endUnbounded E)
                           && (specEnd E <=? position (commitWidth w)))
                          (commitWidth w)
                   else Ok (commitWidth w)
              else Ok w) = Ok w1).
  { destruct (negb (sawCutEnd w)); [|eexists; reflexivity].
    destruct (include (commitWidth w)); [|eexists; reflexivity].
    match goal with
    | |- context [flushPending E ?f ?w0] =>
        destruct (flushPending_ok f w0) as [w1 [Hw1 _]]
    end.
    - unfold pendingOK. rewrite pending_commitWidth, pendingHl_commitWidth.
      exact Hok.
    - exists w1. exact Hw1. }
  destruct H1 as [w1 Hw1]. cbv zeta. rewrite Hw1. cbn [bind].
  destruct (negb (include w1)); [eexists; reflexivity|].
  destruct (0 <? ellipsisEndBudget E); [destruct (sawCutEnd w1)|];
    eexists; reflexivity.
Qed.

End Engine.

End WalkFacts.

(** ** Totality *)

Module TotalityFacts.

Import Grapheme Sgr Ansi Num Slice SpanFacts TokenizerBounds WalkFacts.

Section Engine.

Variable W : Z -> bool -> Z.
Variable EP : Z -> bool.
Variable GB : Z -> Z -> Z -> bool * Z.
Variable is16 : bool.

Lemma totalWidth_iter_advances : forall inp amb s,
  0 <= tw_p s < len inp ->
  tw_p s < tw_p (totalWidth_iter W EP GB is16 inp amb s).
Proof.
  intros inp amb s Hp. unfold totalWidth_iter.
  destruct (from_cons (mkEnv inp 0 0 false 0 [] false 0 false) (tw_p s) Hp)
    as [c [l [Hfrom _]]].
  unfold from in Hfrom. cbn [input] in Hfrom. rewrite Hfrom. cbn [hd].
  destruct (if isEscapeCharacter c || (c =? 0x9c)
            then tryParseAnsi (c :: l) else None) as [tok|] eqn:Htok.
  - assert (Hend : 1 <= tokEnd tok).
    { destruct (isEscapeCharacter c || (c =? 0x9c)); [|discriminate].
      apply tryParseAnsi_bounds in Htok. lia. }
    cbn [tw_p]. lia.
  - destruct (decodeAt is16 (c :: l)) as [cp n] eqn:Hdec.
    apply decodeAt_bounds in Hdec.
    destruct (shouldBreakAt GB (tw_hasPrev s) (tw_prevCp s) cp
                            (tw_breakState s)) as [sb bs].
    destruct sb; cbn [tw_p]; lia.
Qed.

Lemma totalWidth_loop_ok : forall fuel inp amb s,
  0 <= tw_p s -> len inp - tw_p s <= Z.of_nat fuel ->
  exists s', totalWidth_loop W EP GB is16 fuel inp amb s = Ok s'.
Proof.
  induction fuel as [|fuel IH]; intros inp amb s Hp Hfuel;
    cbn [totalWidth_loop]; destruct (tw_p s <? len inp) eqn:Hlt;
    try (apply Z.ltb_lt in Hlt); try (apply Z.ltb_ge in Hlt).
  - lia.
  - eexists. reflexivity.
  - pose proof (totalWidth_iter_advances inp amb s ltac:(lia)).
    apply IH; lia.
  - eexists. reflexivity.
Qed.

Lemma computeTotalWidth_ok : forall fuel inp asciiPrefix amb,
  0 <= asciiPrefix -> len inp <= Z.of_nat fuel ->
  exists t, computeTotalWidth W EP GB is16 fuel inp asciiPrefix amb = Ok t.
Proof.
  intros fuel inp asciiPrefix amb Ha Hfuel. unfold computeTotalWidth.
  match goal with
  | |- context [totalWidth_loop W EP GB is16 fuel inp amb ?s0] =>
      destruct (totalWidth_loop_ok fuel inp amb s0) as [s' Hs']
  end.
  - destruct (0 <? asciiPrefix); cbn [tw_p]; lia.
  - destruct (0 <? asciiPrefix); cbn [tw_p]; lia.
  - rewrite Hs'. cbn [bind]. eexists. reflexivity.
Qed.

Lemma resolveEllipsis_start : forall start end_ ew cs ck ch plan,
  0 <= start ->
  resolveEllipsis start end_ ew cs ck ch = Some plan -> 0 <= e_start plan.
Proof.
  intros start end_ ew cs ck ch plan Hs. unfold resolveEllipsis.
  pose proof (wrap64_nonneg (start + ew)) as Hw.
  destruct (0 <? ew).
  2:{ intros H. injection H as <-. exact Hs. }
  match goal with
  | |- context [if ?c then wrap64 (start + ew) else start] =>
      destruct c
  end;
    repeat match goal with
           | |- context [if ?c then mkPlan _ _ _ _ _ else _] => destruct c
           end;
    cbn [e_needStartEllipsis e_needEndEllipsis];
    match goal with
    | |- (if ?c then None else _) = _ -> _ => destruct c
    end;
    try discriminate; intros H; injection H as <-; cbn [e_start]; lia.
Qed.

Lemma emitSliceStreaming_ok :
  forall fuel inp asciiPrefix start end_ ellipsis ew cs ck ch amb,
    0 <= start -> 0 <= asciiPrefix -> len inp <= Z.of_nat fuel ->
    exists s, emitSliceStreaming W EP GB is16 fuel inp asciiPrefix start end_
                                 ellipsis ew cs ck ch amb = Ok s.
Proof.
  intros fuel inp asciiPrefix start end_ ellipsis ew cs ck ch amb Hs Ha Hfuel.
  unfold emitSliceStreaming.
  destruct (resolveEllipsis start end_ ew cs ck ch) as [plan|] eqn:Hplan;
    [|eexists; reflexivity].
  apply resolveEllipsis_start in Hplan; [|assumption].
  cbv zeta.
  match goal with
  | |- context [walk W EP GB is16 ?E fuel ?w0] =>
      destruct (walk_ok W EP GB is16 E fuel w0) as [w' [Hw' Hok']]
  end.
  - cbn [initialWalk p].
    destruct (0 <? asciiPrefix) eqn:Hq; [apply Z.ltb_lt in Hq|]; lia.
  - reflexivity.
  - cbn [initialWalk p]. unfold dataEnd. cbn [input].
    destruct (0 <? asciiPrefix) eqn:Hq; [apply Z.ltb_lt in Hq|]; lia.
  - rewrite Hw'. cbn [bind]. apply finishWalk_ok. exact Hok'.
Qed.

Lemma resolveSliceBounds_start : forall startD endD totalW,
  0 <= b_start (resolveSliceBounds startD endD totalW).
Proof.
  intros startD endD totalW. unfold resolveSliceBounds.
  match goal with
  | |- context [if negb (lt ?f ?t) then _ else _] =>
      destruct (negb (lt f t)); [cbn [b_start]; lia|];
      cbn [b_start]; assert (Hf : lt f (Finite 0) = false)
  end.
  - match goal with
    | |- lt (if lt ?a (Finite 0) then _ else _) _ = false =>
        destruct (lt a (Finite 0)) eqn:Hlt; [reflexivity|exact Hlt]
    end.
  - match goal with
    | |- 0 <= to_size ?f => destruct f as [z| |]; cbn [to_size]; try lia
    end.
    cbn [lt] in Hf. apply Z.ltb_ge in Hf. exact Hf.
Qed.

Lemma sliceAnsiImpl_ok :
  forall fuel inp startD endD ellipsis ew amb,
    len inp <= Z.of_nat fuel ->
    exists s, sliceAnsiImpl W EP GB is16 fuel inp startD endD ellipsis ew amb
              = Ok s.
Proof.
  intros fuel inp startD endD ellipsis ew amb Hfuel. unfold sliceAnsiImpl.
  destruct inp as [|c rest]; [eexists; reflexivity|].
  set (inp := c :: rest) in *.
  destruct (eq0 startD && negb (isfinite endD) && lt (Finite 0) endD
            && (ew =? 0)); [eexists; reflexivity|].
  cbv zeta.
  match goal with
  | |- context [firstNonAsciiPrintable ?b ?l] =>
      pose proof (firstNonAsciiPrintable_bounds b l) as Hap;
      set (asciiPrefix := firstNonAsciiPrintable b l) in *
  end.
  clearbody asciiPrefix.
  match goal with
  | |- context [if ?c then _ else _] => destruct c
  end.
  { repeat match goal with
           | |- context [if ?c then _ else _] => destruct c
           end; eexists; reflexivity. }
  destruct (le (Finite 0) startD && negb (lt endD (Finite 0))) eqn:Hnn.
  - destruct (negb (isfinite startD) || lt (Finite (len inp * 2)) startD);
      [eexists; reflexivity|].
    assert (Hs : 0 <= to_size startD).
    { apply andb_true_iff in Hnn. destruct Hnn as [Hle _].
      destruct startD as [z| |]; cbn [to_size]; try lia.
      unfold le in Hle. cbn [lt] in Hle.
      apply negb_true_iff, Z.ltb_ge in Hle. exact Hle. }
    destruct (negb (isfinite endD) || lt (Finite (len inp * 2)) endD).
    + apply emitSliceStreaming_ok; lia.
    + destruct (to_size endD <=? to_size startD); [eexists; reflexivity|].
      apply emitSliceStreaming_ok; lia.
  - destruct (computeTotalWidth_ok fuel inp asciiPrefix amb) as [t Ht];
      [lia|assumption|].
    rewrite Ht. cbn [bind].
    destruct (b_empty (resolveSliceBounds startD endD t));
      [eexists; reflexivity|].
    apply emitSliceStreaming_ok;
      [apply resolveSliceBounds_start|lia|assumption].
Qed.

End Engine.

(** C2: the slicing core is total.  For either code-unit width, any input
    and any indices, ellipsis and flags, [sliceAnsiImpl] returns a string
    or the null string, with no out-of-range access, once the loops of the
    model are given one iteration for each unit of the input, and the host
    function returns a value.  In every iteration of the main loop, from a
    state with the cursor inside the input and the parse state of each
    pending hyperlink recorded, the iteration ends, and if the loop goes on
    the cursor has moved forward and is still inside the input. *)
Theorem slicer_total :
  forall W EP GB (is16 : bool) (fuel : nat) (inp : list Z) startD endD
         (ellipsis : list Z) (ellipsisWidth : Z) (amb : bool),
    (length inp <= fuel)%nat ->
    (exists s, sliceAnsiImpl W EP GB is16 fuel inp startD endD ellipsis
                             ellipsisWidth amb = Ok s)
    /\ (forall L8 L16 is8Bit startValue endValue ellipsisJS,
           exists v, jsFunctionBunSliceAnsi W EP GB L8 L16 fuel
                       (mkJSString is8Bit inp) startValue endValue ellipsisJS
                       amb = Ok v)
    /\ (forall (E : Env) (w : Walk),
           input E = inp -> 0 <= p w < dataEnd E -> pendingOK w ->
           exists flow,
             walk_iter W EP GB is16 E fuel w = Ok flow
             /\ match flow with
                | Next w' => p w < p w' <= dataEnd E /\ pendingOK w'
                | Stop w' => pendingOK w'
                end).
Proof.
  intros W EP GB is16 fuel inp startD endD ellipsis ew amb Hfuel.
  assert (Hlen : len inp <= Z.of_nat fuel) by (unfold len; lia).
  split; [|split].
  - apply sliceAnsiImpl_ok. exact Hlen.
  - intros L8 L16 is8Bit startValue endValue ellipsisJS.
    unfold jsFunctionBunSliceAnsi. cbn [js_units js_is8Bit].
    destruct inp as [|c rest]; [eexists; reflexivity|].
    match goal with
    | |- context [sliceAnsiImpl W EP GB ?b fuel ?i ?sD ?eD ?el ?w amb] =>
        destruct (sliceAnsiImpl_ok W EP GB b fuel i sD eD el w amb Hlen)
          as [s Hs]
    end.
    rewrite Hs. cbn [bind].
    destruct s as [|[|x xs]]; eexists; reflexivity.
  - intros E w Hin Hp Hok.
    apply walk_iter_ok; [assumption|assumption|].
    unfold dataEnd. rewrite Hin. lia.
Qed.

Lemma slicer_total_witness :
  let W := fun (cp : Z) (_ : bool) => if cp <? 0x20 then 0 else 1 in
  let EP := fun _ : Z => false in
  let GB := fun (_ b s : Z) => (negb (b =? 0x301), s) in
  let L8 := fun l : list Z => len l in
  let L16 := fun (l : list Z) (_ : bool) => len l in
  let inp := [0x1b; 0x5b; 0x33; 0x31; 0x6d; 0x68; 0x69; 0x1b; 0x5b; 0x6d] in
  let E := mkEnv inp 0 1 false 1 [] false 0 false in
  (exists s, sliceAnsiImpl W EP GB false 10 inp (Finite 0) (Finite 1)
                           [] 0 false = Ok s)
  /\ (exists v, jsFunctionBunSliceAnsi W EP GB L8 L16 10
                  (mkJSString true inp) (Some (Finite 0)) (Some (Finite 1))
                  None false = Ok v)
  /\ (exists flow,
         walk_iter W EP GB false E 10 (initialWalk 0) = Ok flow
         /\ match flow with
            | Next w' =>
                p (initialWalk 0) < p w' <= dataEnd E /\ pendingOK w'
            | Stop w' => pendingOK w'
            end).
Proof.
  intros W EP GB L8 L16 inp E.
  destruct (slicer_total W EP GB false 10 inp (Finite 0) (Finite 1) [] 0 false)
    as (H1 & H2 & H3).
  - simpl. lia.
  - split; [exact H1|]. split.
    + apply (H2 L8 L16 true (Some (Finite 0)) (Some (Finite 1)) None).
    + apply (H3 E (initialWalk 0)).
      * reflexivity.
      * unfold dataEnd, len. simpl. lia.
      * reflexivity.
Defined.

End TotalityFacts.

(** ** The entry points *)

Module EntryFacts.

Import Sgr Ansi Num Slice.


(** C1 (as the code has it): on a non-empty input, [slice(s, 0, +inf)]
    with no ellipsis, or with any ellipsis of width 0, returns the null
    string; the host function, called with no ellipsis or with an ellipsis
    string that is empty or that the width oracle gives width 0, then
    returns the input string itself, and for every input, the empty one
    included, the string the caller receives has the code units of the
    input. *)
Theorem identity_slice :
  forall W EP GB L8 L16 (is16 : bool) (fuel : nat) (amb : bool),
    (forall c rest ellipsis,
        sliceAnsiImpl W EP GB is16 fuel (c :: rest) (Finite 0) PosInf
                      ellipsis 0 amb = Ok Null)
    /\ (forall jsString startValue endValue ellipsisJS,
           (startValue = None \/ startValue = Some (Finite 0)) ->
           (endValue = None \/ endValue = Some PosInf) ->
           (forall e, ellipsisJS = Some e ->
                      js_units e = []
                      \/ (if js_is8Bit e then L8 (js_units e)
                          else L16 (js_units e) amb) = 0) ->
           let v := match js_units jsString with
                    | [] => EmptyJSString
                    | _ :: _ => InputJSString
                    end in
           jsFunctionBunSliceAnsi W EP GB L8 L16 fuel jsString
                                  startValue endValue ellipsisJS amb = Ok v
           /\ rendered jsString v = js_units jsString).
Proof.
  intros W EP GB L8 L16 is16 fuel amb. split.
  - intros c rest ellipsis. reflexivity.
  - intros jsString startValue endValue ellipsisJS Hs He Hw v.
    unfold v, jsFunctionBunSliceAnsi.
    destruct (js_units jsString) as [|c rest] eqn:Hu.
    + split; reflexivity.
    + assert (Hew : match ellipsisJS with
                    | Some e =>
                        match js_units e with
                        | [] => 0
                        | _ :: _ =>
                            if js_is8Bit e then L8 (js_units e)
                            else L16 (js_units e) amb
                        end
                    | None => 0
                    end = 0).
      { destruct ellipsisJS as [e|]; [|reflexivity].
        destruct (Hw e eq_refl) as [H | H].
        - rewrite H. reflexivity.
        - destruct (js_units e); [reflexivity | exact H]. }
      rewrite Hew.
      destruct Hs as [-> | ->], He as [-> | ->];
        (split; [reflexivity | exact Hu]).
Qed.

Lemma identity_slice_witness :
  let W := fun (_ : Z) (_ : bool) => 1 in
  let EP := fun _ : Z => false in
  let GB := fun (_ _ s : Z) => (true, s) in
  let L8 := fun l : list Z => len (filter (fun c => 0x20 <=? c) l) in
  let L16 := fun (l : list Z) (_ : bool) => len l in
  let jsString := mkJSString true [0x1b; 0x5b; 0x33; 0x31; 0x6d; 0x41] in
  let bell := mkJSString true [0x07] in
  jsFunctionBunSliceAnsi W EP GB L8 L16 6 jsString (Some (Finite 0))
                         (Some PosInf) (Some bell) false = Ok InputJSString
  /\ rendered jsString InputJSString = js_units jsString.
Proof.
  intros W EP GB L8 L16 jsString bell.
  apply (identity_slice W EP GB L8 L16 false 6 false).
  - right. reflexivity.
  - right. reflexivity.
  - intros e He. injection He as <-. right. reflexivity.
Defined.

(** The identity signal of C1 is not given on the empty input: the slicer
    returns the empty string, not the null string. *)
Lemma identity_slice_empty_input_not_null :
  sliceAnsiImpl (fun _ _ => 1) (fun _ => false) (fun _ _ s => (true, s))
                false 0 [] (Finite 0) PosInf [] 0 false
  <> Ok Null.
Proof. discriminate. Qed.

(** C10: on the empty input the slicer returns the empty string, and the
    host function the empty string of the VM, whatever the indices, the
    ellipsis and its width, and the flags. *)
Theorem empty_input_empty_output :
  forall W EP GB L8 L16 (is16 : bool) (fuel : nat),
    (forall startD endD ellipsis ellipsisWidth amb,
        sliceAnsiImpl W EP GB is16 fuel [] startD endD ellipsis ellipsisWidth
                      amb = Ok (Str []))
    /\ (forall is8Bit startValue endValue ellipsisJS amb,
           jsFunctionBunSliceAnsi W EP GB L8 L16 fuel (mkJSString is8Bit [])
                                  startValue endValue ellipsisJS amb
           = Ok EmptyJSString
           /\ rendered (mkJSString is8Bit []) EmptyJSString = []).
Proof.
  intros. split; intros; [|split]; reflexivity.
Qed.

End EntryFacts.

(** * Further properties of the code *)

(** ** Cluster rules of the width accumulator *)

Module ClusterRules.

Import Grapheme Shape SpanFacts GraphemeFacts.

Section WithOracles.

Variable W : Z -> bool -> Z.
Variable EP : Z -> bool.

Lemma fold_add_keycap : forall joined gs a,
  keycap (fold_left (fun g c => add W g c a) joined gs)
  = keycap gs || existsb (fun c => c =? 0x20E3) joined.
Proof.
  induction joined as [|c joined IH]; intros gs a; simpl.
  - rewrite orb_false_r. reflexivity.
  - rewrite IH. cbn [add keycap]. rewrite orb_assoc. reflexivity.
Qed.

Lemma fold_add_regional : forall joined gs a,
  regionalIndicator (fold_left (fun g c => add W g c a) joined gs)
  = regionalIndicator gs || existsb regional joined.
Proof.
  induction joined as [|c joined IH]; intros gs a; simpl.
  - rewrite orb_false_r. reflexivity.
  - rewrite IH. cbn [add regionalIndicator]. rewrite orb_assoc. reflexivity.
Qed.

Lemma fold_add_count : forall joined gs a,
  1 <= count gs <= 255 ->
  count (fold_left (fun g c => add W g c a) joined gs)
  = Z.min (count gs + len joined) 255.
Proof.
  induction joined as [|c joined IH]; intros gs a Hc; cbn [fold_left].
  - rewrite len_nil. lia.
  - rewrite len_cons. pose proof (len_nonneg joined).
    assert (Hadd : count (add W gs c a) = Z.min (count gs + 1) 255).
    { cbn [add count]. destruct (count gs <? 255) eqn:Hlt;
        [apply Z.ltb_lt in Hlt | apply Z.ltb_ge in Hlt].
      - rewrite wrap8_small by lia. lia.
      - lia. }
    rewrite IH by lia. rewrite Hadd. lia.
Qed.

End WithOracles.

(** X1: the flags of a cluster are those of its codepoints, wherever they
    stand: a cluster that holds U+20E3 has width 2; a cluster of two or
    more codepoints that holds a regional indicator has width 2; a regional
    indicator alone has width 1.  None of this depends on the oracles. *)
Theorem rule_widths :
  forall (W : Z -> bool -> Z) (EP : Z -> bool) cp joined a,
    (existsb (fun c => c =? 0x20E3) (cp :: joined) = true ->
     width (cluster W EP cp joined a) = 2)
    /\ (existsb regional (cp :: joined) = true -> joined <> [] ->
        width (cluster W EP cp joined a) = 2)
    /\ (regional cp = true -> width (cluster W EP cp [] a) = 1).
Proof.
  intros W EP cp joined a.
  assert (Hk : keycap (cluster W EP cp joined a)
               = existsb (fun c => c =? 0x20E3) (cp :: joined)).
  { unfold cluster. rewrite fold_add_keycap. reflexivity. }
  assert (Hr : regionalIndicator (cluster W EP cp joined a)
               = existsb regional (cp :: joined)).
  { unfold cluster. rewrite fold_add_regional. reflexivity. }
  assert (Hc : count (cluster W EP cp joined a) = Z.min (1 + len joined) 255).
  { unfold cluster. rewrite fold_add_count; [reflexivity|]. simpl. lia. }
  pose proof (len_nonneg joined) as Hlen.
  split; [|split].
  - intros H. unfold width. rewrite Hk, H, Hc.
    destruct (Z.min (1 + len joined) 255 =? 0) eqn:H0;
      [apply Z.eqb_eq in H0; lia|].
    destruct (regionalIndicator (cluster W EP cp joined a)
              && (2 <=? Z.min (1 + len joined) 255)); reflexivity.
  - intros H Hne. unfold width. rewrite Hr, H, Hc.
    assert (Hj : 1 <= len joined).
    { destruct joined; [contradiction|]. rewrite len_cons.
      pose proof (len_nonneg joined). lia. }
    destruct (Z.min (1 + len joined) 255 =? 0) eqn:H0;
      [apply Z.eqb_eq in H0; lia|].
    assert (H2 : (2 <=? Z.min (1 + len joined) 255) = true)
      by (apply Z.leb_le; lia).
    rewrite H2. reflexivity.
  - intros H. unfold width, cluster. cbn [fold_left reset count keycap
      regionalIndicator]. unfold regional in H. rewrite H.
    assert (Hne : (cp =? 0x20E3) = false).
    { apply andb_true_iff in H. destruct H as [H _].
      apply Z.leb_le in H. apply Z.eqb_neq. lia. }
    rewrite Hne. reflexivity.
Qed.

Lemma rule_widths_witness :
  let W := fun (_ : Z) (_ : bool) => 1 in
  let EP := fun _ : Z => true in
  width (cluster W EP 0x31 [0xFE0F; 0x20E3] false) = 2
  /\ width (cluster W EP 0x1F1E9 [0x1F1EA] false) = 2
  /\ width (cluster W EP 0x1F1E9 [] false) = 1.
Proof.
  intros W EP.
  destruct (rule_widths W EP 0x31 [0xFE0F; 0x20E3] false) as (H1 & _ & _).
  destruct (rule_widths W EP 0x1F1E9 [0x1F1EA] false) as (_ & H2 & H3).
  split; [apply H1; reflexivity|].
  split; [apply H2; [reflexivity|discriminate] | apply H3; reflexivity].
Defined.

End ClusterRules.

(** ** The SGR tables, the parameter parser and the tracker *)

Module SgrMore.

Import Sgr Shape SpanFacts SgrFacts.

Lemma isSgrEndCode_cases : forall c,
  isSgrEndCode c = true ->
  In c [0; 22; 23; 24; 25; 27; 28; 29; 39; 49; 55].
Proof.
  intros c H. unfold isSgrEndCode in H. apply existsb_exists in H.
  destruct H as [x [Hin Hx]]. apply Z.eqb_eq in Hx. subst x. exact Hin.
Qed.

Lemma sgrCloseCode_is_end : forall c, isSgrEndCode (sgrCloseCode c) = true.
Proof.
  intros c. unfold sgrCloseCode.
  repeat match goal with
         | |- context [if ?b then _ else _] => destruct b
         end; reflexivity.
Qed.

(** X2: the two tables agree: the close code of any code is an end code
    (0, the full reset, for an unknown code), and no end code opens a
    style, so that an end code is never recorded as a start. *)
Theorem close_table_consistent :
  forall c : Z,
    isSgrEndCode (sgrCloseCode c) = true
    /\ (isSgrEndCode c = true -> sgrCloseCode c = 0)
    /\ (sgrCloseCode c <> 0 -> isSgrEndCode c = false).
Proof.
  intros c. split; [apply sgrCloseCode_is_end|].
  assert (H : isSgrEndCode c = true -> sgrCloseCode c = 0).
  { intros He. apply isSgrEndCode_cases in He. simpl in He.
    repeat (destruct He as [<-|He]; [reflexivity|]). contradiction. }
  split; [exact H|].
  intros Hne. destruct (isSgrEndCode c); [|reflexivity].
  exfalso. apply Hne. apply H. reflexivity.
Qed.

Lemma close_table_consistent_witness :
  isSgrEndCode (sgrCloseCode 31) = true
  /\ sgrCloseCode 39 = 0
  /\ isSgrEndCode 31 = false.
Proof.
  destruct (close_table_consistent 31) as (H1 & _ & H3).
  destruct (close_table_consistent 39) as (_ & H2 & _).
  split; [exact H1|]. split; [apply H2; reflexivity|].
  apply H3. discriminate.
Defined.

(** *** The parameter array *)

Lemma parseSgrParams_last_count : forall out current hasDigit,
  params_size out <= kMax ->
  (overflow out = true -> params_size out = kMax) ->
  let r := parseSgrParams_last out current hasDigit in
  1 <= params_size r <= kMax
  /\ (overflow r = true -> params_size r = kMax).
Proof.
  intros out current hasDigit Hle Hov. unfold parseSgrParams_last.
  pose proof (len_nonneg (data out)) as Hn. unfold params_size in *.
  destruct hasDigit; cbn [orb].
  - destruct (kMax <=? len (data out)) eqn:Hk;
      [apply Z.leb_le in Hk | apply Z.leb_gt in Hk]; cbn zeta.
    + cbn [set_overflow data overflow]. unfold kMax in *.
      split; [lia|intros _; lia].
    + cbn [push data overflow]. rewrite len_app. unfold kMax in *.
      change (len [current]) with 1. split; [lia|]. intros H.
      specialize (Hov H). lia.
  - destruct (len (data out) =? 0) eqn:H0;
      [apply Z.eqb_eq in H0 | apply Z.eqb_neq in H0].
    + destruct (kMax <=? len (data out)) eqn:Hk;
        [apply Z.leb_le in Hk; unfold kMax in *; lia|]. cbn zeta.
      cbn [push data overflow]. rewrite len_app.
      change (len [current]) with 1. unfold kMax in *. split; [lia|].
      intros H. specialize (Hov H). lia.
    + cbn zeta. split; [lia|exact Hov].
Qed.

Lemma parseSgrParams_loop_count : forall l out current hasDigit,
  params_size out <= kMax ->
  (overflow out = true -> params_size out = kMax) ->
  let r := parseSgrParams_loop l out current hasDigit in
  1 <= params_size r <= kMax
  /\ (overflow r = true -> params_size r = kMax).
Proof.
  induction l as [|c l IH]; intros out current hasDigit Hle Hov;
    cbn [parseSgrParams_loop].
  - apply parseSgrParams_last_count; assumption.
  - destruct ((0x30 <=? c) && (c <=? 0x39)); [apply IH; assumption|].
    destruct ((c =? 0x3b) || (c =? 0x3a));
      [|apply parseSgrParams_last_count; assumption].
    set (out1 := if c =? 0x3a then set_hasColon out else out).
    assert (H1 : data out1 = data out /\ overflow out1 = overflow out)
      by (unfold out1; destruct (c =? 0x3a); split; reflexivity).
    destruct H1 as [Hd Ho]. unfold params_size in *.
    destruct (kMax <=? len (data out1)) eqn:Hk;
      [apply Z.leb_le in Hk | apply Z.leb_gt in Hk].
    + cbn zeta. cbn [set_overflow data overflow]. rewrite Hd in Hk |- *.
      unfold kMax in *. split; [lia|intros _; lia].
    + apply IH.
      * cbn [push data]. rewrite len_app, Hd. rewrite Hd in Hk.
        change (len [if hasDigit then current else 0]) with 1. lia.
      * cbn [push overflow data]. rewrite Ho. intros H.
        specialize (Hov H). rewrite Hd in Hk. lia.
Qed.

(** X3: [parseSgrParams] fills between 1 and 32 slots of its array for
    any code units: it never writes past [kMax], it never gives an empty
    parameter list, and it reports overflow only with the array full. *)
Theorem parseSgrParams_count :
  forall l : list Z,
    1 <= params_size (parseSgrParams l) <= kMax
    /\ (overflow (parseSgrParams l) = true ->
        params_size (parseSgrParams l) = kMax).
Proof.
  intros l. unfold parseSgrParams.
  apply (parseSgrParams_loop_count l params_empty 0 false).
  - unfold params_size, kMax, len. simpl. lia.
  - discriminate.
Qed.

Lemma parseSgrParams_count_witness :
  1 <= params_size (parseSgrParams []) <= kMax
  /\ params_size (parseSgrParams (repeat 0x3b 40)) = kMax.
Proof.
  destruct (parseSgrParams_count []) as [H1 _].
  destruct (parseSgrParams_count (repeat 0x3b 40)) as [_ H2].
  split; [exact H1|]. apply H2. reflexivity.
Defined.

End SgrMore.

Module SgrRoundTrip.

Import Sgr Shape SpanFacts SgrFacts.

Lemma number_digits_app : forall fuel n acc,
  number_digits fuel n acc = number_digits fuel n [] ++ acc.
Proof.
  induction fuel as [|fuel IH]; intros n acc; cbn [number_digits].
  - reflexivity.
  - destruct (n <? 10); [reflexivity|].
    rewrite (IH (n / 10) ((48 + n mod 10) :: acc)).
    rewrite (IH (n / 10) [48 + n mod 10]).
    rewrite <- app_assoc. reflexivity.
Qed.

Lemma digit_of_mod : forall n,
  (0x30 <=? 48 + n mod 10) && (48 + n mod 10 <=? 0x39) = true.
Proof.
  intros n. pose proof (Z.mod_pos_bound n 10 ltac:(lia)).
  apply andb_true_iff. split; apply Z.leb_le; lia.
Qed.

(** The digits that [String::number] writes are read back as the number. *)
Lemma number_digits_parse : forall fuel n acc out hasDigit,
  0 <= n <= 999999 -> n < 10 ^ Z.of_nat (S fuel) ->
  parseSgrParams_loop (number_digits (S fuel) n acc) out 0 hasDigit
  = parseSgrParams_loop acc out n true.
Proof.
  induction fuel as [|fuel IH]; intros n acc out hasDigit Hn Hlt.
  - change (10 ^ Z.of_nat 1) with 10 in Hlt.
    cbn [number_digits]. assert (Hs : (n <? 10) = true) by (apply Z.ltb_lt; lia).
    rewrite Hs. rewrite Z.mod_small by lia.
    cbn [parseSgrParams_loop].
    assert (Hd : (0x30 <=? 48 + n) && (48 + n <=? 0x39) = true)
      by (apply andb_true_iff; split; apply Z.leb_le; lia).
    rewrite Hd. change (0 <? 100000) with true. cbn iota.
    replace (0 * 10 + (48 + n - 0x30)) with n by lia.
    rewrite wrap32_small by lia. reflexivity.
  - remember (S fuel) as f eqn:Hf. cbn [number_digits].
    destruct (n <? 10) eqn:Hs;
      [apply Z.ltb_lt in Hs | apply Z.ltb_ge in Hs].
    + rewrite Z.mod_small by lia. cbn [parseSgrParams_loop].
      assert (Hd : (0x30 <=? 48 + n) && (48 + n <=? 0x39) = true)
        by (apply andb_true_iff; split; apply Z.leb_le; lia).
      rewrite Hd. change (0 <? 100000) with true. cbn iota.
      replace (0 * 10 + (48 + n - 0x30)) with n by lia.
      rewrite wrap32_small by lia. reflexivity.
    + subst f.
      assert (Hq : 0 <= n / 10 <= 99999).
      { split; [apply Z.div_pos; lia|].
        assert (n / 10 < 100000) by (apply Z.div_lt_upper_bound; lia). lia. }
      rewrite (IH (n / 10) ((48 + n mod 10) :: acc) out hasDigit).
      * cbn [parseSgrParams_loop]. rewrite digit_of_mod.
        assert (Hl : (n / 10 <? 100000) = true) by (apply Z.ltb_lt; lia).
        rewrite Hl.
        replace (n / 10 * 10 + (48 + n mod 10 - 0x30)) with n
          by (pose proof (Z.div_mod n 10 ltac:(lia)); lia).
        rewrite wrap32_small by lia. reflexivity.
      * lia.
      * apply Z.div_lt_upper_bound; [lia|].
        rewrite Nat2Z.inj_succ, Z.pow_succ_r in Hlt by lia. exact Hlt.
Qed.

Lemma String_number_parse : forall n acc out hasDigit,
  0 <= n <= 999999 ->
  parseSgrParams_loop (String_number n ++ acc) out 0 hasDigit
  = parseSgrParams_loop acc out n true.
Proof.
  intros n acc out hasDigit Hn. unfold String_number.
  rewrite <- number_digits_app. apply number_digits_parse; [exact Hn|].
  change (10 ^ Z.of_nat 10) with 10000000000. lia.
Qed.

Lemma joinCodes_parse : forall codes out,
  codes <> [] ->
  Forall (fun c => 0 <= c <= 999999) codes ->
  params_size out + len codes <= kMax ->
  parseSgrParams_loop (joinCodes codes) out 0 false
  = mkSgrParams (data out ++ codes) (overflow out) (hasColon out).
Proof.
  induction codes as [|c rest IH]; intros out Hne Hok Hlen;
    [contradiction|].
  inversion Hok as [|? ? Hc Hrest]; subst.
  rewrite len_cons in Hlen. pose proof (len_nonneg rest) as Hr.
  unfold params_size, kMax in *.
  destruct rest as [|c' rest'].
  - cbn [joinCodes]. rewrite <- (app_nil_r (String_number c)).
    rewrite String_number_parse by exact Hc.
    cbn [parseSgrParams_loop]. unfold parseSgrParams_last. cbn [orb].
    unfold params_size, kMax.
    assert (Hk : (32 <=? len (data out)) = false) by (apply Z.leb_gt; lia).
    rewrite Hk. reflexivity.
  - change (joinCodes (c :: c' :: rest'))
      with (String_number c ++ [0x3b] ++ joinCodes (c' :: rest')).
    rewrite String_number_parse by exact Hc.
    cbn [app parseSgrParams_loop].
    change ((0x30 <=? 0x3b) && (0x3b <=? 0x39)) with false.
    change ((0x3b =? 0x3b) || (0x3b =? 0x3a)) with true.
    change (0x3b =? 0x3a) with false. cbn iota.
    unfold params_size, kMax.
    assert (Hk : (32 <=? len (data out)) = false) by (apply Z.leb_gt; lia).
    rewrite Hk. rewrite IH.
    + cbn [push data overflow hasColon]. rewrite <- app_assoc. reflexivity.
    + discriminate.
    + exact Hrest.
    + cbn [push data]. unfold params_size, kMax. rewrite len_app.
      change (len [c]) with 1. lia.
Qed.

Lemma subspan_middle : forall (a b c : list Z),
  subspan (a ++ b ++ c) (len a) (len (a ++ b ++ c) - len c) = b.
Proof.
  intros a b c. unfold subspan, len.
  rewrite !length_app.
  replace (Z.to_nat (Z.of_nat (length a))) with (length a) by lia.
  rewrite skipn_app, skipn_all, Nat.sub_diag. cbn [skipn app].
  replace (Z.to_nat
             (Z.of_nat (length a + (length b + length c))
              - Z.of_nat (length c) - Z.of_nat (length a)))
    with (length b + 0)%nat by lia.
  rewrite firstn_app_2. cbn [firstn]. apply app_nil_r.
Qed.

Lemma written_codes_round_trip :
  forall (isC1 : bool) (codes : list Z) (st : SgrStyleState),
    codes <> [] ->
    Forall (fun c => 0 <= c <= 999999) codes ->
    len codes <= kMax ->
    parseSgrParams (joinCodes codes) = mkSgrParams codes false false
    /\ applySgrToState st (makeSgrCodeMulti isC1 codes)
       = applySgrParams isC1 codes st.
Proof.
  intros isC1 codes st Hne Hok Hlen.
  assert (Hparse : parseSgrParams (joinCodes codes)
                   = mkSgrParams codes false false).
  { unfold parseSgrParams. rewrite joinCodes_parse; try assumption.
    reflexivity. }
  split; [exact Hparse|].
  unfold applySgrToState, makeSgrCodeMulti.
  assert (Hbody : subspan (csiPrefix isC1 ++ joinCodes codes ++ [0x6d])
                    (if match csiPrefix isC1 ++ joinCodes codes ++ [0x6d] with
                        | c :: _ => c =? 0x9b
                        | [] => false
                        end then 1 else 2)
                    (len (csiPrefix isC1 ++ joinCodes codes ++ [0x6d]) - 1)
                  = joinCodes codes).
  { destruct isC1.
    - change (match csiPrefix true ++ joinCodes codes ++ [0x6d] with
              | c :: _ => c =? 0x9b
              | [] => false
              end) with true.
      apply (subspan_middle (csiPrefix true) (joinCodes codes) [0x6d]).
    - change (match csiPrefix false ++ joinCodes codes ++ [0x6d] with
              | c :: _ => c =? 0x9b
              | [] => false
              end) with false.
      apply (subspan_middle (csiPrefix false) (joinCodes codes) [0x6d]). }
  cbv zeta. rewrite Hbody, Hparse. cbn [hasColon overflow orb data].
  unfold params_size. cbn [data].
  assert (H0 : (len codes =? 0) = false).
  { apply Z.eqb_neq. destruct codes; [contradiction|]. rewrite len_cons.
    pose proof (len_nonneg codes). lia. }
  rewrite H0. destruct isC1; reflexivity.
Qed.


(** X4: a sequence that [makeSgrCodeMulti] builds from 1 to 32 codes below
    1000000 is parsed back into these codes, with no colon and no overflow;
    applied to a state, it acts as its codes do. *)
Theorem sgr_code_round_trip :
  forall (isC1 : bool) (codes : list Z) (st : SgrStyleState),
    codes <> [] ->
    Forall (fun c => 0 <= c <= 999999) codes ->
    len codes <= kMax ->
    parseSgrParams (joinCodes codes) = mkSgrParams codes false false
    /\ applySgrToState st (makeSgrCodeMulti isC1 codes)
       = applySgrParams isC1 codes st.
Proof. exact written_codes_round_trip. Qed.

Lemma sgr_code_round_trip_witness :
  parseSgrParams (joinCodes [38; 2; 255; 0; 0])
  = mkSgrParams [38; 2; 255; 0; 0] false false
  /\ applySgrToState [] (makeSgrCodeMulti false [38; 2; 255; 0; 0])
     = applySgrParams false [38; 2; 255; 0; 0] [].
Proof.
  apply (sgr_code_round_trip false [38; 2; 255; 0; 0] []).
  - discriminate.
  - repeat constructor; lia.
  - unfold kMax, len. simpl. lia.
Defined.

End SgrRoundTrip.

Module TrackerInvariant.

Import Sgr Shape SpanFacts SgrFacts.

(** The invariant of the active-style container. *)
Lemma tracked_applyStart : forall o e st,
  NoDup (map endCode st) /\ Forall closesWithEndCode st ->
  (exists code, isSgrEndCode code = true /\ e = makeSgrCode false code) ->
  NoDup (map endCode (applyStart o e st))
  /\ Forall closesWithEndCode (applyStart o e st).
Proof.
  intros o e st [Hnd Hall] Hcode. split.
  - apply applyStart_NoDup. exact Hnd.
  - unfold applyStart, removeAllMatching. apply Forall_app. split.
    + apply Forall_forall. intros x Hx. apply filter_In in Hx.
      rewrite Forall_forall in Hall. apply Hall. tauto.
    + constructor; [exact Hcode|constructor].
Qed.

Lemma tracked_applyEnd : forall e st,
  NoDup (map endCode st) /\ Forall closesWithEndCode st ->
  NoDup (map endCode (applyEnd e st))
  /\ Forall closesWithEndCode (applyEnd e st).
Proof.
  intros e st [Hnd Hall]. unfold applyEnd, removeAllMatching. split.
  - apply NoDup_map_filter. exact Hnd.
  - apply Forall_forall. intros x Hx. apply filter_In in Hx.
    rewrite Forall_forall in Hall. apply Hall. tauto.
Qed.

Lemma tracked_nil :
  NoDup (map endCode []) /\ Forall closesWithEndCode [].
Proof. split; constructor. Qed.

Lemma end_39_49 : forall code : Z,
  exists c, isSgrEndCode c = true
            /\ makeSgrCode false (if code =? 38 then 39 else 49)
               = makeSgrCode false c.
Proof.
  intros code. exists (if code =? 38 then 39 else 49).
  destruct (code =? 38); split; reflexivity.
Qed.

Lemma end_close : forall code : Z,
  exists c, isSgrEndCode c = true
            /\ makeSgrCode false (sgrCloseCode code) = makeSgrCode false c.
Proof.
  intros code. exists (sgrCloseCode code).
  split; [|reflexivity].
  unfold sgrCloseCode.
  repeat match goal with
         | |- context [if ?b then _ else _] => destruct b
         end; reflexivity.
Qed.

Lemma end_reset :
  exists c, isSgrEndCode c = true /\ resetCode = makeSgrCode false c.
Proof. exists 0. split; reflexivity. Qed.

Lemma tracked_applySgrParams : forall n isC1 ps st,
  (length ps <= n)%nat ->
  NoDup (map endCode st) /\ Forall closesWithEndCode st ->
  NoDup (map endCode (applySgrParams isC1 ps st))
  /\ Forall closesWithEndCode (applySgrParams isC1 ps st).
Proof.
  induction n as [|n IH]; intros isC1 ps st Hlen Hst.
  - destruct ps; [exact Hst|simpl in Hlen; lia].
  - destruct ps as [|code rest]; [exact Hst|].
    cbn [length] in Hlen. cbn [applySgrParams].
    destruct (code =? 0).
    { apply IH; [lia|apply tracked_nil]. }
    destruct ((code =? 38) || (code =? 48)).
    { cbv zeta.
      destruct rest as [|colorType [|n0 r3]].
      - apply IH; [simpl in *; lia|].
        apply tracked_applyStart; [exact Hst|apply end_39_49].
      - apply IH; [simpl in *; lia|].
        apply tracked_applyStart; [exact Hst|apply end_39_49].
      - destruct (colorType =? 5).
        + apply IH; [simpl in *; lia|].
          apply tracked_applyStart; [exact Hst|apply end_39_49].
        + destruct r3 as [|g [|b r5]].
          * apply IH; [simpl in *; lia|].
            apply tracked_applyStart; [exact Hst|apply end_39_49].
          * apply IH; [simpl in *; lia|].
            apply tracked_applyStart; [exact Hst|apply end_39_49].
          * destruct (colorType =? 2).
            -- apply IH; [simpl in *; lia|].
               apply tracked_applyStart; [exact Hst|apply end_39_49].
            -- apply IH; [simpl in *; lia|].
               apply tracked_applyStart; [exact Hst|apply end_39_49]. }
    destruct (isSgrEndCode code).
    { apply IH; [lia|]. apply tracked_applyEnd. exact Hst. }
    cbv zeta. destruct (negb (sgrCloseCode code =? 0)).
    + apply IH; [lia|].
      apply tracked_applyStart; [exact Hst|apply end_close].
    + apply IH; [lia|].
      apply tracked_applyStart; [exact Hst|apply end_reset].
Qed.

Lemma tracked_applySgrToState : forall st seq,
  NoDup (map endCode st) /\ Forall closesWithEndCode st ->
  NoDup (map endCode (applySgrToState st seq))
  /\ Forall closesWithEndCode (applySgrToState st seq).
Proof.
  intros st seq Hst. unfold applySgrToState. cbv zeta.
  match goal with
  | |- context [parseSgrParams ?l] => generalize (parseSgrParams l)
  end.
  intros params.
  destruct (hasColon params || overflow params).
  - apply tracked_applyStart; [exact Hst|].
    destruct (negb
                (sgrCloseCode
                   match data params with [] => 0 | v :: _ => v end =? 0));
      [apply end_close|apply end_reset].
  - destruct (params_size params =? 0); [apply tracked_nil|].
    apply (tracked_applySgrParams (length (data params))); [lia|exact Hst].
Qed.

(** X5: whatever code units are handed to [applySgrToState], in whatever
    number, the tracker holds at most one entry per close code, every close
    code is the 7-bit sequence of one of the eleven end codes, and so at
    most eleven styles are active at a time. *)
Theorem tracker_invariant :
  forall seqs : list (list Z),
    let st := fold_left applySgrToState seqs [] in
    NoDup (map endCode st)
    /\ Forall closesWithEndCode st
    /\ (length st <= 11)%nat.
Proof.
  intros seqs st.
  assert (H : NoDup (map endCode st) /\ Forall closesWithEndCode st).
  { unfold st. clear st.
    induction seqs as [|seq seqs IH] using rev_ind.
    - apply tracked_nil.
    - rewrite fold_left_app. cbn [fold_left].
      apply tracked_applySgrToState. exact IH. }
  destruct H as [Hnd Hall]. split; [exact Hnd|]. split; [exact Hall|].
  rewrite <- (length_map endCode st).
  change 11%nat
    with (length (map (makeSgrCode false)
                      [0; 22; 23; 24; 25; 27; 28; 29; 39; 49; 55])).
  apply NoDup_incl_length; [exact Hnd|].
  intros x Hx. apply in_map_iff in Hx. destruct Hx as [e [He Hin]].
  rewrite Forall_forall in Hall. destruct (Hall e Hin) as [code [Hc Heq]].
  apply in_map_iff. exists code. split; [congruence|].
  unfold isSgrEndCode in Hc. apply existsb_exists in Hc.
  destruct Hc as [y [Hy Hxy]]. apply Z.eqb_eq in Hxy. subst y. exact Hy.
Qed.

End TrackerInvariant.

Module TokenShapes.

Import Sgr Ansi Shape SpanFacts TokenizerBounds TokenizerFacts.

(** *** CSI *)

Lemma parseCsi_scan_wellformed : forall body final rest it canon,
  forallb csiInterior body = true ->
  csiFinal final = true ->
  parseCsi_scan (body ++ final :: rest) it canon
  = mkCsi (it + len body + 1)
          ((final =? 0x6d) && (canon && forallb sgrParamByte body))
          (canon && forallb sgrParamByte body).
Proof.
  induction body as [|c body IH]; intros final rest it canon Hbody Hfinal.
  - cbn [app parseCsi_scan forallb]. unfold csiFinal in Hfinal.
    rewrite Hfinal, andb_true_r, len_nil.
    replace (it + 0 + 1) with (it + 1) by lia. reflexivity.
  - cbn [forallb] in Hbody. apply andb_true_iff in Hbody.
    destruct Hbody as [Hc Hbody]. unfold csiInterior in Hc.
    apply andb_true_iff in Hc. destruct Hc as [Hlo Hhi].
    apply Z.leb_le in Hlo. apply Z.leb_le in Hhi.
    cbn [app parseCsi_scan forallb].
    assert (H1 : (0x40 <=? c) && (c <=? 0x7E) = false).
    { apply andb_false_iff. left. apply Z.leb_gt. lia. }
    rewrite H1, len_cons.
    destruct ((0x30 <=? c) && (c <=? 0x3F)) eqn:H2.
    + rewrite (IH final rest (it + 1) _ Hbody Hfinal).
      assert (Hcanon :
                (if negb ((0x30 <=? c) && (c <=? 0x39))
                    && negb (c =? 0x3b) && negb (c =? 0x3a)
                 then false else canon)
                = canon && sgrParamByte c).
      { unfold sgrParamByte.
        destruct ((0x30 <=? c) && (c <=? 0x39)), (c =? 0x3b), (c =? 0x3a),
          canon; reflexivity. }
      rewrite Hcanon, <- andb_assoc.
      replace (it + 1 + len body + 1) with (it + (1 + len body) + 1) by lia.
      reflexivity.
    + assert (H3 : (0x20 <=? c) && (c <=? 0x2F) = true).
      { apply andb_false_iff in H2. apply andb_true_iff.
        split; [apply Z.leb_le; lia|].
        destruct H2 as [H|H]; apply Z.leb_gt in H; apply Z.leb_le; lia. }
      rewrite H3. rewrite (IH final rest (it + 1) false Hbody Hfinal).
      assert (Hs : sgrParamByte c = false).
      { unfold sgrParamByte. apply andb_true_iff in H3. destruct H3 as [_ H3].
        apply Z.leb_le in H3.
        assert (Ha : (0x30 <=? c) = false) by (apply Z.leb_gt; lia).
        assert (Hb : (c =? 0x3b) = false) by (apply Z.eqb_neq; lia).
        assert (Hd : (c =? 0x3a) = false) by (apply Z.eqb_neq; lia).
        rewrite Ha, Hb, Hd. reflexivity. }
      rewrite Hs. cbn [andb]. rewrite !andb_false_r.
      replace (it + 1 + len body + 1) with (it + (1 + len body) + 1) by lia.
      reflexivity.
Qed.

Lemma tryParseAnsi_csi : forall intro tl,
  csiIntro intro ->
  tryParseAnsi (intro ++ tl) = tryCsi (intro ++ tl) (hd 0 intro).
Proof.
  intros intro tl [-> | ->]; cbn [app hd].
  - unfold tryParseAnsi. change ((0x1b =? 0x1b) || (0x1b =? 0x9d)) with true.
    cbn iota. rewrite parseHyperlink_csi.
    unfold tryControl. cbn [parseControlString].
    change (0x1b =? 0x1b) with true. cbn iota.
    change (0x5b =? 0x5d) with false. cbn iota.
    change ((0x5b =? 0x50) || (0x5b =? 0x58) || (0x5b =? 0x5e)
            || (0x5b =? 0x5f)) with false. cbn iota.
    change (0x5b =? 0x5c) with false. cbn iota.
    cbn [orb]. reflexivity.
  - unfold tryParseAnsi. change ((0x9b =? 0x1b) || (0x9b =? 0x9d)) with false.
    cbn iota. unfold tryControl.
    change ((0x9b =? 0x1b) || (0x9b =? 0x9d) || (0x9b =? 0x90)
            || (0x9b =? 0x98) || (0x9b =? 0x9e) || (0x9b =? 0x9f)
            || (0x9b =? 0x9c)) with false. cbn iota. reflexivity.
Qed.

Lemma tryParseAnsi_wellformed : forall intro body final rest,
  csiIntro intro ->
  forallb csiInterior body = true ->
  csiFinal final = true ->
  tryParseAnsi (intro ++ body ++ final :: rest)
  = Some (mkToken (if (final =? 0x6d) && forallb sgrParamByte body
                   then SgrTok else Control)
                  (len intro + len body + 1) false [] [] []).
Proof.
  intros intro body final rest Hintro Hbody Hfinal.
  rewrite (tryParseAnsi_csi intro _ Hintro).
  destruct Hintro as [-> | ->]; cbn [app hd]; unfold tryCsi;
    cbn [parseCsi].
  - change ((0x1b =? 0x1b) || (0x1b =? 0x9b)) with true. cbn iota.
    change (0x1b =? 0x1b) with true. cbn iota.
    change (0x5b =? 0x5b) with true. cbn iota.
    rewrite (parseCsi_scan_wellformed body final rest 2 true Hbody Hfinal).
    cbn [csiIsSgr csiEnd andb]. reflexivity.
  - change ((0x9b =? 0x1b) || (0x9b =? 0x9b)) with true. cbn iota.
    change (0x9b =? 0x1b) with false. cbn iota.
    change (0x9b =? 0x9b) with true. cbn iota.
    rewrite (parseCsi_scan_wellformed body final rest 1 true Hbody Hfinal).
    cbn [csiIsSgr csiEnd andb]. reflexivity.
Qed.

(** X6: a CSI sequence, that is an introducer, parameter and intermediate
    bytes and a final byte, is recognised whole, whatever follows it; it is
    an SGR token exactly when the final byte is [m] and every byte before
    it is a digit, a semicolon or a colon, and an opaque Control token
    otherwise. *)
Theorem csi_classification :
  forall (intro body rest : list Z) (final : Z),
    csiIntro intro ->
    forallb csiInterior body = true ->
    csiFinal final = true ->
    exists tok,
      tryParseAnsi (intro ++ body ++ final :: rest) = Some tok
      /\ tokEnd tok = len (intro ++ body ++ [final])
      /\ (tokType tok = SgrTok
          <-> final = 0x6d /\ forallb sgrParamByte body = true)
      /\ (tokType tok = Control
          <-> ~ (final = 0x6d /\ forallb sgrParamByte body = true)).
Proof.
  intros intro body rest final Hintro Hbody Hfinal.
  eexists. split; [apply tryParseAnsi_wellformed; assumption|].
  cbn [tokEnd tokType]. split.
  - rewrite !len_app. change (len [final]) with 1. lia.
  - destruct (final =? 0x6d) eqn:Hm;
      [apply Z.eqb_eq in Hm | apply Z.eqb_neq in Hm];
      destruct (forallb sgrParamByte body); cbn [andb];
      (split; split); intros H;
      try reflexivity; try discriminate; try (split; [exact Hm|reflexivity]);
      try (intros [H1 H2]; first [contradiction | discriminate]);
      try (exfalso; apply H; split; [exact Hm|reflexivity]);
      try (destruct H as [H1 H2]; first [contradiction | discriminate]).
Qed.

Lemma csi_classification_witness :
  exists tok,
    tryParseAnsi ([0x1b; 0x5b] ++ [0x33; 0x31] ++ 0x6d :: [0x41]) = Some tok
    /\ tokEnd tok = len ([0x1b; 0x5b] ++ [0x33; 0x31] ++ [0x6d])
    /\ (tokType tok = SgrTok
        <-> 0x6d = 0x6d /\ forallb sgrParamByte [0x33; 0x31] = true)
    /\ (tokType tok = Control
        <-> ~ (0x6d = 0x6d /\ forallb sgrParamByte [0x33; 0x31] = true)).
Proof.
  apply (csi_classification [0x1b; 0x5b] [0x33; 0x31] [0x41] 0x6d).
  - left. reflexivity.
  - reflexivity.
  - reflexivity.
Defined.

(** *** The codes the tracker writes *)

Lemma number_digits_digits : forall fuel n acc,
  forallb digit acc = true -> forallb digit (number_digits fuel n acc) = true.
Proof.
  induction fuel as [|fuel IH]; intros n acc Hacc; cbn [number_digits].
  - exact Hacc.
  - assert (Hd : forallb digit ((48 + n mod 10) :: acc) = true).
    { cbn [forallb]. rewrite Hacc, andb_true_r. unfold digit.
      pose proof (Z.mod_pos_bound n 10 ltac:(lia)).
      apply andb_true_iff. split; apply Z.leb_le; lia. }
    destruct (n <? 10); [exact Hd|]. apply IH. exact Hd.
Qed.

Lemma digits_interior : forall l,
  forallb digit l = true ->
  forallb csiInterior l = true /\ forallb sgrParamByte l = true.
Proof.
  induction l as [|c l IH]; intros H; [split; reflexivity|].
  cbn [forallb] in *. apply andb_true_iff in H. destruct H as [Hc Hl].
  destruct (IH Hl) as [H1 H2]. rewrite H1, H2, !andb_true_r.
  unfold digit in Hc. unfold csiInterior, sgrParamByte. rewrite Hc.
  apply andb_true_iff in Hc. destruct Hc as [Ha Hb].
  apply Z.leb_le in Ha. apply Z.leb_le in Hb.
  split; [|reflexivity].
  apply andb_true_iff. split; apply Z.leb_le; lia.
Qed.

(** X7: every sequence that [makeSgrCode] writes, in either flavour and
    for any code, is recognised by the tokenizer as one SGR token that ends
    where the sequence ends: the opens and closes that the slicer puts in
    its output are tracked when the output is sliced again. *)
Theorem written_code_is_sgr :
  forall (isC1 : bool) (code : Z) (rest : list Z),
    tryParseAnsi (makeSgrCode isC1 code ++ rest)
    = Some (mkToken SgrTok (len (makeSgrCode isC1 code)) false [] [] []).
Proof.
  intros isC1 code rest. unfold makeSgrCode.
  assert (Hd : forallb digit (String_number code) = true)
    by (apply number_digits_digits; reflexivity).
  destruct (digits_interior _ Hd) as [Hi Hs].
  rewrite <- !app_assoc. cbn [app].
  rewrite (tryParseAnsi_wellformed (csiPrefix isC1) (String_number code)
             0x6d rest).
  - rewrite Hs. cbn [andb Z.eqb Pos.eqb]. f_equal. f_equal.
    rewrite !len_app. change (len [0x6d]) with 1. lia.
  - destruct isC1; [right|left]; reflexivity.
  - exact Hi.
  - reflexivity.
Qed.

End TokenShapes.

Module StringTokens.

Import Sgr Ansi Shape SpanFacts TokenizerBounds TokenizerFacts.

(** *** Control strings *)

Lemma noST_cases : forall c,
  noST c = true -> (c =? 0x1b) = false /\ (c =? 0x9c) = false.
Proof.
  intros c H. unfold noST in H. apply andb_true_iff in H.
  destruct H as [H1 H2]. apply negb_true_iff in H1.
  apply negb_true_iff in H2. split; assumption.
Qed.

Lemma plain_cases : forall c,
  plain c = true ->
  (c =? 0x07) = false /\ (c =? 0x1b) = false /\ (c =? 0x9c) = false.
Proof.
  intros c H. unfold plain in H. apply andb_true_iff in H.
  destruct H as [H H3]. apply andb_true_iff in H. destruct H as [H1 H2].
  apply negb_true_iff in H1. apply negb_true_iff in H2.
  apply negb_true_iff in H3. repeat split; assumption.
Qed.

Lemma plain_noST : forall l,
  forallb plain l = true -> forallb noST l = true.
Proof.
  induction l as [|c l IH]; intros H; [reflexivity|].
  cbn [forallb] in *. apply andb_true_iff in H. destruct H as [Hc Hl].
  rewrite (IH Hl), andb_true_r.
  destruct (plain_cases c Hc) as [_ [H1 H2]].
  unfold noST. rewrite H1, H2. reflexivity.
Qed.

(** A string terminator as [scanST] accepts it. *)
Lemma scanST_terminated : forall body st rest it bel,
  forallb noST body = true ->
  (bel = true -> forallb plain body = true) ->
  st = [0x1b; 0x5c] \/ st = [0x9c] \/ (bel = true /\ st = [0x07]) ->
  scanST (body ++ st ++ rest) it bel = Some (it + len body + len st).
Proof.
  induction body as [|c body IH]; intros st rest it bel Hbody Hbel Hst.
  - cbn [app]. rewrite len_nil, Z.add_0_r.
    destruct Hst as [-> | [-> | [-> ->]]];
      first [destruct bel; reflexivity | reflexivity].
  - cbn [forallb] in Hbody. apply andb_true_iff in Hbody.
    destruct Hbody as [Hc Hbody]. destruct (noST_cases c Hc) as [H1 H2].
    assert (H0 : bel && (c =? 0x07) = false).
    { destruct bel; [|reflexivity]. cbn [andb].
      specialize (Hbel eq_refl). cbn [forallb] in Hbel.
      apply andb_true_iff in Hbel. destruct Hbel as [Hp _].
      apply (plain_cases c Hp). }
    cbn [app scanST]. rewrite H0, H1, H2. cbn [andb].
    rewrite IH; [rewrite len_cons; f_equal; lia | exact Hbody | | exact Hst].
    intros Hb. specialize (Hbel Hb). cbn [forallb] in Hbel.
    apply andb_true_iff in Hbel. apply Hbel.
Qed.

Lemma scanST_unterminated : forall body it bel,
  forallb noST body = true ->
  (bel = true -> forallb plain body = true) ->
  scanST body it bel = None.
Proof.
  induction body as [|c body IH]; intros it bel Hbody Hbel; [reflexivity|].
  cbn [forallb] in Hbody. apply andb_true_iff in Hbody.
  destruct Hbody as [Hc Hbody]. destruct (noST_cases c Hc) as [H1 H2].
  assert (H0 : bel && (c =? 0x07) = false).
  { destruct bel; [|reflexivity]. cbn [andb].
    specialize (Hbel eq_refl). cbn [forallb] in Hbel.
    apply andb_true_iff in Hbel. destruct Hbel as [Hp _].
    apply (plain_cases c Hp). }
  cbn [scanST]. rewrite H0, H1, H2. cbn [andb]. apply IH; [exact Hbody|].
  intros Hb. specialize (Hbel Hb). cbn [forallb] in Hbel.
  apply andb_true_iff in Hbel. apply Hbel.
Qed.

Lemma findTerminator_plain : forall l q,
  forallb plain l = true -> findTerminator l q = None.
Proof.
  induction l as [|c l IH]; intros q H; [reflexivity|].
  cbn [forallb] in H. apply andb_true_iff in H. destruct H as [Hc Hl].
  destruct (plain_cases c Hc) as [H0 [H1 H2]].
  cbn [findTerminator]. rewrite H0, H1, H2. cbn [andb]. apply IH. exact Hl.
Qed.

Lemma findUriStart_plain : forall l q u rest,
  findUriStart l q = Some (u, rest) ->
  forallb plain l = true -> forallb plain rest = true.
Proof.
  induction l as [|c l IH]; intros q u rest H Hl; [discriminate|].
  cbn [forallb] in Hl. apply andb_true_iff in Hl. destruct Hl as [_ Hl].
  cbn [findUriStart] in H. destruct (c =? 0x3b).
  - injection H as _ <-. exact Hl.
  - apply (IH _ _ _ H Hl).
Qed.

Lemma parseHyperlink_body_plain : forall l isEsc it rest,
  forallb plain rest = true -> parseHyperlink_body l isEsc it rest = None.
Proof.
  intros l isEsc it rest H. unfold parseHyperlink_body.
  destruct (findUriStart rest it) as [[u uri]|] eqn:Hu; [|reflexivity].
  rewrite (findTerminator_plain uri u (findUriStart_plain _ _ _ _ Hu H)).
  reflexivity.
Qed.

Lemma parseHyperlink_plain : forall c0 tl,
  forallb plain tl = true -> parseHyperlink (c0 :: tl) = None.
Proof.
  intros c0 tl H. destruct tl as [|c1 [|c2 [|c3 l4]]]; try reflexivity.
  - cbn [parseHyperlink].
    destruct ((c0 =? 0x9d) && (c1 =? 0x38) && (c2 =? 0x3b));
      [apply parseHyperlink_body_plain|]; reflexivity.
  - cbn [forallb] in H. apply andb_true_iff in H. destruct H as [_ H].
    apply andb_true_iff in H. destruct H as [_ H].
    assert (H4 : forallb plain l4 = true).
    { cbn [forallb] in H. apply andb_true_iff in H. apply H. }
    cbn [parseHyperlink].
    destruct ((c0 =? 0x1b) && (c1 =? 0x5d) && (c2 =? 0x38) && (c3 =? 0x3b));
      [apply parseHyperlink_body_plain; exact H4|].
    destruct ((c0 =? 0x9d) && (c1 =? 0x38) && (c2 =? 0x3b));
      [apply parseHyperlink_body_plain; exact H|reflexivity].
Qed.

Lemma parseHyperlink_not_osc : forall c0 c1 tl,
  c0 <> 0x9d -> c1 <> 0x5d -> parseHyperlink (c0 :: c1 :: tl) = None.
Proof.
  intros c0 c1 tl H0 H1.
  apply Z.eqb_neq in H0. apply Z.eqb_neq in H1.
  destruct tl as [|c2 [|c3 l4]]; cbn [parseHyperlink]; try reflexivity;
    rewrite ?H0, ?H1, ?andb_false_r; cbn [andb]; reflexivity.
Qed.

Lemma parseHyperlink_c1_other : forall c0 tl,
  c0 <> 0x1b -> c0 <> 0x9d -> parseHyperlink (c0 :: tl) = None.
Proof.
  intros c0 tl H0 H1.
  apply Z.eqb_neq in H0. apply Z.eqb_neq in H1.
  destruct tl as [|c1 [|c2 [|c3 l4]]]; cbn [parseHyperlink]; try reflexivity;
    rewrite ?H0, ?H1; cbn [andb]; reflexivity.
Qed.

(** The control-string parse of a string that ST ends. *)
Lemma parseControlString_st : forall intro tl,
  stStringIntro intro ->
  parseControlString (intro ++ tl) = scanST tl (len intro) false.
Proof.
  intros intro tl H. unfold stStringIntro in H. cbn [In] in H.
  destruct H as [<-|[<-|[<-|[<-|[<-|[<-|[<-|[<-|[]]]]]]]]]; reflexivity.
Qed.

Lemma parseControlString_osc : forall intro tl,
  oscIntro intro ->
  parseControlString (intro ++ tl) = scanST tl (len intro) true.
Proof. intros intro tl [-> | ->]; reflexivity. Qed.

Lemma tryParseAnsi_st : forall intro tl,
  stStringIntro intro ->
  tryParseAnsi (intro ++ tl)
  = match scanST tl (len intro) false with
    | Some e => Some (mkToken Control e false [] [] [])
    | None => None
    end.
Proof.
  intros intro tl H. pose proof (parseControlString_st intro tl H) as Hp.
  unfold stStringIntro in H. cbn [In] in H.
  destruct H as [<-|[<-|[<-|[<-|[<-|[<-|[<-|[<-|[]]]]]]]]];
    cbn [app] in *; unfold tryParseAnsi;
    match goal with
    | |- context [parseHyperlink (0x1b :: ?c :: ?t)] =>
        rewrite (parseHyperlink_not_osc 0x1b c t) by discriminate
    | |- _ => idtac
    end;
    unfold tryControl; rewrite Hp;
    destruct (scanST tl _ false); reflexivity.
Qed.

(** X8: a DCS, SOS, PM or APC string, in its two-unit or its C1 form, is
    one Control token that runs through the first string terminator, ESC
    backslash or 0x9c; a BEL in the string does not end it. *)
Theorem st_string_token :
  forall (intro body st rest : list Z),
    stStringIntro intro ->
    forallb noST body = true ->
    st = [0x1b; 0x5c] \/ st = [0x9c] ->
    tryParseAnsi (intro ++ body ++ st ++ rest)
    = Some (mkToken Control (len (intro ++ body ++ st)) false [] [] []).
Proof.
  intros intro body st rest Hintro Hbody Hst.
  rewrite (tryParseAnsi_st intro _ Hintro).
  rewrite (scanST_terminated body st rest (len intro) false Hbody).
  - rewrite !len_app, Z.add_assoc. reflexivity.
  - discriminate.
  - destruct Hst as [-> | ->]; [left | right; left]; reflexivity.
Qed.

Lemma st_string_token_witness :
  tryParseAnsi ([0x1b; 0x50] ++ [0x41; 0x07; 0x42] ++ [0x1b; 0x5c] ++ [0x43])
  = Some (mkToken Control (len ([0x1b; 0x50] ++ [0x41; 0x07; 0x42]
                                  ++ [0x1b; 0x5c])) false [] [] []).
Proof.
  apply (st_string_token [0x1b; 0x50] [0x41; 0x07; 0x42] [0x1b; 0x5c] [0x43]).
  - unfold stStringIntro. simpl. tauto.
  - reflexivity.
  - left. reflexivity.
Defined.

(** X9: a control string that no terminator ends is no token: the
    tokenizer does not consume the input to its end, and the caller is
    left to treat the introducer as a character.  For DCS, SOS, PM and APC
    the string has no ESC and no 0x9c; for OSC it has no BEL either. *)
Theorem unterminated_string_no_token :
  forall (intro body : list Z),
    (stStringIntro intro /\ forallb noST body = true)
    \/ (oscIntro intro /\ forallb plain body = true) ->
    tryParseAnsi (intro ++ body) = None.
Proof.
  intros intro body [[Hintro Hbody] | [Hintro Hbody]].
  - rewrite (tryParseAnsi_st intro _ Hintro).
    rewrite scanST_unterminated; [reflexivity | exact Hbody | discriminate].
  - pose proof (parseControlString_osc intro body Hintro) as Hp.
    rewrite (scanST_unterminated body _ true (plain_noST _ Hbody)
               (fun _ => Hbody)) in Hp.
    destruct Hintro as [-> | ->]; cbn [app] in *; unfold tryParseAnsi.
    + rewrite parseHyperlink_plain by exact Hbody.
      unfold tryControl. rewrite Hp. reflexivity.
    + rewrite parseHyperlink_plain by exact Hbody.
      unfold tryControl. rewrite Hp. reflexivity.
Qed.

Lemma unterminated_string_no_token_witness :
  tryParseAnsi ([0x90] ++ [0x41; 0x07; 0x42]) = None.
Proof.
  apply (unterminated_string_no_token [0x90] [0x41; 0x07; 0x42]).
  left. split; [unfold stStringIntro; simpl; tauto | reflexivity].
Defined.

End StringTokens.

Module HyperlinkTokens.

Import Sgr Ansi Shape SpanFacts TokenizerBounds TokenizerFacts.

Lemma findUriStart_params : forall params tl q,
  forallb noSemicolon params = true ->
  findUriStart (params ++ 0x3b :: tl) q = Some (q + len params + 1, tl).
Proof.
  induction params as [|c params IH]; intros tl q H.
  - cbn [app findUriStart]. change (0x3b =? 0x3b) with true. cbn iota.
    rewrite len_nil, Z.add_0_r. reflexivity.
  - cbn [forallb] in H. apply andb_true_iff in H. destruct H as [Hc H].
    unfold noSemicolon in Hc. apply negb_true_iff in Hc.
    cbn [app findUriStart]. rewrite Hc, (IH tl (q + 1) H), len_cons.
    f_equal. f_equal. lia.
Qed.

Lemma findTerminator_uri : forall uri t rest q,
  forallb plain uri = true ->
  findTerminator (uri ++ terminatorBytes t ++ rest) q = Some (q + len uri, t).
Proof.
  induction uri as [|c uri IH]; intros t rest q H.
  - cbn [app]. rewrite len_nil, Z.add_0_r. destruct t; reflexivity.
  - cbn [forallb] in H. apply andb_true_iff in H. destruct H as [Hc H].
    unfold plain in Hc. apply andb_true_iff in Hc. destruct Hc as [Hc H3].
    apply andb_true_iff in Hc. destruct Hc as [H1 H2].
    apply negb_true_iff in H1. apply negb_true_iff in H2.
    apply negb_true_iff in H3.
    cbn [app findTerminator]. rewrite H1, H2, H3. cbn [andb].
    rewrite (IH t rest (q + 1) H), len_cons. f_equal. f_equal. lia.
Qed.

Lemma subspan_prefix : forall a b : list Z, subspan (a ++ b) 0 (len a) = a.
Proof.
  intros a b. unfold subspan, len. rewrite Z.sub_0_r, Nat2Z.id.
  cbn [Z.to_nat skipn]. rewrite <- (Nat.add_0_r (length a)).
  rewrite firstn_app_2. cbn [firstn]. apply app_nil_r.
Qed.

Lemma parseHyperlink_body_wellformed : forall l isEsc it params uri t rest,
  forallb noSemicolon params = true ->
  forallb plain uri = true ->
  parseHyperlink_body l isEsc it
    (params ++ 0x3b :: uri ++ terminatorBytes t ++ rest)
  = Some (mkHl (it + len params + 1 + len uri + len (terminatorBytes t))
               (0 <? len uri)
               (subspan l 0 (it + len params + 1 + len uri
                             + len (terminatorBytes t)))
               (closePrefixOf isEsc) (terminatorBytes t)).
Proof.
  intros l isEsc it params uri t rest Hp Hu. unfold parseHyperlink_body.
  rewrite (findUriStart_params params _ it Hp).
  rewrite (findTerminator_uri uri t rest _ Hu).
  assert (Ho : (it + len params + 1 <? it + len params + 1 + len uri)
               = (0 <? len uri)).
  { destruct (0 <? len uri) eqn:H0;
      [apply Z.ltb_lt in H0; apply Z.ltb_lt | apply Z.ltb_ge in H0;
                                               apply Z.ltb_ge]; lia. }
  rewrite Ho. destruct t; cbn [terminatorBytes]; reflexivity.
Qed.

Lemma parseHyperlink_wellformed : forall isEsc params uri t rest,
  forallb noSemicolon params = true ->
  forallb plain uri = true ->
  let code :=
    hyperlinkIntro isEsc ++ params ++ [0x3b] ++ uri ++ terminatorBytes t in
  parseHyperlink (code ++ rest)
  = Some (mkHl (len code) (0 <? len uri) code (closePrefixOf isEsc)
               (terminatorBytes t)).
Proof.
  intros isEsc params uri t rest Hp Hu code.
  assert (Hshape : code ++ rest
                   = hyperlinkIntro isEsc
                     ++ (params ++ 0x3b :: uri ++ terminatorBytes t ++ rest)).
  { unfold code. rewrite <- !app_assoc. reflexivity. }
  assert (Hlen : len code
                 = len (hyperlinkIntro isEsc) + len params + 1 + len uri
                   + len (terminatorBytes t)).
  { unfold code. rewrite !len_app. change (len [0x3b]) with 1. lia. }
  pose proof (subspan_prefix code rest) as Hsub.
  rewrite Hshape in *. rewrite Hlen in *. clear Hshape Hlen.
  destruct isEsc; cbn [hyperlinkIntro app] in *.
  - set (tl := params ++ 0x3b :: uri ++ terminatorBytes t ++ rest) in *.
    set (l := 0x1b :: 0x5d :: 0x38 :: 0x3b :: tl) in *.
    change (parseHyperlink l) with (parseHyperlink_body l true 4 tl).
    unfold tl at 1.
    rewrite (parseHyperlink_body_wellformed l true 4 params uri t rest Hp Hu).
    change (len [0x1b; 0x5d; 0x38; 0x3b]) with 4 in *.
    rewrite Hsub. reflexivity.
  - set (tl := params ++ 0x3b :: uri ++ terminatorBytes t ++ rest) in *.
    set (l := 0x9d :: 0x38 :: 0x3b :: tl) in *.
    assert (Hb : parseHyperlink l = parseHyperlink_body l false 3 tl).
    { unfold l. destruct tl as [|c3 l4]; reflexivity. }
    rewrite Hb. unfold tl at 1.
    rewrite (parseHyperlink_body_wellformed l false 3 params uri t rest Hp Hu).
    change (len [0x9d; 0x38; 0x3b]) with 3 in *.
    rewrite Hsub. reflexivity.
Qed.

Lemma hyperlinkIntro_head : forall isEsc tl,
  exists c tl', hyperlinkIntro isEsc ++ tl = c :: tl'
                /\ (c =? 0x1b) || (c =? 0x9d) = true.
Proof.
  intros [|] tl; cbn [hyperlinkIntro app]; eexists; eexists;
    (split; [reflexivity|reflexivity]).
Qed.

Lemma tryParseAnsi_hyperlink : forall isEsc params uri t rest,
  forallb noSemicolon params = true ->
  forallb plain uri = true ->
  let code :=
    hyperlinkIntro isEsc ++ params ++ [0x3b] ++ uri ++ terminatorBytes t in
  tryParseAnsi (code ++ rest)
  = Some (mkToken Hyperlink (len code) (0 <? len uri) code
                  (closePrefixOf isEsc) (terminatorBytes t)).
Proof.
  intros isEsc params uri t rest Hp Hu code.
  pose proof (parseHyperlink_wellformed isEsc params uri t rest Hp Hu) as H.
  cbv zeta in H. fold code in H.
  assert (Hhead : exists c tl', code ++ rest = c :: tl'
                                /\ (c =? 0x1b) || (c =? 0x9d) = true).
  { unfold code. rewrite <- app_assoc. apply hyperlinkIntro_head. }
  destruct Hhead as [c [tl' [Heq Hc]]].
  unfold tryParseAnsi. rewrite Heq in *. rewrite Hc, H. reflexivity.
Qed.

(** X10: an OSC 8 hyperlink, that is [ESC ] 8 ;] or its C1 form, params
    without a semicolon, a semicolon, a URI without BEL, ESC and 0x9c, and
    one of the three terminators, is one Hyperlink token: its code is the
    whole sequence as read, its close prefix has the flavour of its
    introducer, its terminator is the one read, and it is an open exactly
    when the URI is not empty. *)
Theorem hyperlink_token :
  forall (isEscOsc : bool) (params uri rest : list Z) (t : Terminator),
    forallb noSemicolon params = true ->
    forallb plain uri = true ->
    let code :=
      hyperlinkIntro isEscOsc ++ params ++ [0x3b] ++ uri
      ++ terminatorBytes t in
    exists tok,
      tryParseAnsi (code ++ rest) = Some tok
      /\ tokType tok = Hyperlink
      /\ tokEnd tok = len code
      /\ tokHlCode tok = code
      /\ tokHlClosePrefix tok = closePrefixOf isEscOsc
      /\ tokHlTerminator tok = terminatorBytes t
      /\ (tokHlOpen tok = true <-> uri <> []).
Proof.
  intros isEscOsc params uri rest t Hp Hu code.
  eexists. split; [apply tryParseAnsi_hyperlink; assumption|].
  cbn [tokType tokEnd tokHlCode tokHlClosePrefix tokHlTerminator tokHlOpen].
  repeat (split; [reflexivity|]).
  destruct uri as [|c uri].
  - split; [discriminate | intros H; contradiction H; reflexivity].
  - rewrite len_cons. pose proof (len_nonneg uri).
    split; [discriminate | intros _; apply Z.ltb_lt; lia].
Qed.

Lemma hyperlink_token_witness :
  exists tok,
    tryParseAnsi ((hyperlinkIntro true ++ [0x69] ++ [0x3b] ++ [0x75; 0x76]
                   ++ terminatorBytes BEL) ++ [0x41]) = Some tok
    /\ tokType tok = Hyperlink
    /\ tokEnd tok = len (hyperlinkIntro true ++ [0x69] ++ [0x3b]
                         ++ [0x75; 0x76] ++ terminatorBytes BEL)
    /\ tokHlCode tok = hyperlinkIntro true ++ [0x69] ++ [0x3b]
                       ++ [0x75; 0x76] ++ terminatorBytes BEL
    /\ tokHlClosePrefix tok = closePrefixOf true
    /\ tokHlTerminator tok = terminatorBytes BEL
    /\ (tokHlOpen tok = true <-> [0x75; 0x76] <> []).
Proof.
  apply (hyperlink_token true [0x69] [0x75; 0x76] [0x41] BEL); reflexivity.
Defined.

(** What a Hyperlink token records: a close prefix of one of the two
    flavours and the bytes of one of the three terminators. *)
Lemma hyperlink_records : forall l tok,
  tryParseAnsi l = Some tok ->
  tokType tok = Hyperlink ->
  exists isEsc t,
    tokHlClosePrefix tok = closePrefixOf isEsc
    /\ tokHlTerminator tok = terminatorBytes t.
Proof.
  intros l tok H Ht.
  assert (Hctl : forall c tok',
             tryControl l c = Some tok' -> tokType tok' <> Hyperlink).
  { intros c tok' Hc. unfold tryControl, tryCsi in Hc.
    repeat match type of Hc with
           | (if ?b then _ else _) = _ => destruct b
           | match ?o with Some _ => _ | None => _ end = _ => destruct o
           end; try discriminate;
      injection Hc as <-; cbn [tokType];
      try discriminate;
      match goal with |- (if ?b then _ else _) <> _ => destruct b end;
      discriminate. }
  assert (Hbody : forall isEsc it rest h,
             parseHyperlink_body l isEsc it rest = Some h ->
             exists isEsc t,
               hlClosePrefix h = closePrefixOf isEsc
               /\ hlTerminator h = terminatorBytes t).
  { intros isEsc it rest h Hh. unfold parseHyperlink_body in Hh.
    destruct (findUriStart rest it) as [[u uri]|]; [|discriminate].
    destruct (findTerminator uri u) as [[q t]|]; [|discriminate].
    injection Hh as <-. exists isEsc, t. cbn [hlClosePrefix hlTerminator].
    split; [reflexivity | destruct t; reflexivity]. }
  destruct l as [|c l1]; [discriminate|]. unfold tryParseAnsi in H.
  destruct ((c =? 0x1b) || (c =? 0x9d));
    [|exfalso; exact (Hctl _ _ H Ht)].
  destruct (parseHyperlink (c :: l1)) as [h|] eqn:Hh;
    [|exfalso; exact (Hctl _ _ H Ht)].
  injection H as <-. cbn [tokHlClosePrefix tokHlTerminator].
  unfold parseHyperlink in Hh.
  destruct l1 as [|c1 [|c2 l3]]; try discriminate.
  destruct l3 as [|c3 l4];
    repeat match type of Hh with
           | (if ?b then _ else _) = _ => destruct b
           end; try discriminate; exact (Hbody _ _ _ _ Hh).
Qed.

(** X11: the hyperlink close that the slicer writes at the end of its
    output, the recorded close prefix followed by the recorded terminator,
    is itself read as a Hyperlink token that is a close, spans exactly
    these units and records the same prefix and terminator: an output that
    is sliced again closes its hyperlink the same way. *)
Theorem written_hyperlink_close_is_close :
  forall (l rest : list Z) (tok : Token),
    tryParseAnsi l = Some tok ->
    tokType tok = Hyperlink ->
    let close := tokHlClosePrefix tok ++ tokHlTerminator tok in
    tryParseAnsi (close ++ rest)
    = Some (mkToken Hyperlink (len close) false close
                    (tokHlClosePrefix tok) (tokHlTerminator tok)).
Proof.
  intros l rest tok H Ht close.
  destruct (hyperlink_records l tok H Ht) as [isEsc [t [Hc Hterm]]].
  unfold close. rewrite Hc, Hterm.
  pose proof (tryParseAnsi_hyperlink isEsc [] [] t rest eq_refl eq_refl) as Hp.
  cbv zeta in Hp. cbn [len length Z.of_nat Z.ltb Z.compare] in Hp.
  assert (Hshape : hyperlinkIntro isEsc ++ [] ++ [0x3b] ++ []
                   ++ terminatorBytes t
                   = closePrefixOf isEsc ++ terminatorBytes t)
    by (destruct isEsc; reflexivity).
  rewrite Hshape in Hp. exact Hp.
Qed.

Lemma written_hyperlink_close_is_close_witness :
  let tok := mkToken Hyperlink 6 true [0x9d; 0x38; 0x3b; 0x3b; 0x75; 0x9c]
                     (closePrefixOf false) [0x9c] in
  let close := tokHlClosePrefix tok ++ tokHlTerminator tok in
  tryParseAnsi (close ++ [0x41])
  = Some (mkToken Hyperlink (len close) false close
                  (tokHlClosePrefix tok) (tokHlTerminator tok)).
Proof.
  apply (written_hyperlink_close_is_close
           [0x9d; 0x38; 0x3b; 0x3b; 0x75; 0x9c; 0x41; 0x42] [0x41]
           (mkToken Hyperlink 6 true [0x9d; 0x38; 0x3b; 0x3b; 0x75; 0x9c]
                    (closePrefixOf false) [0x9c])).
  - reflexivity.
  - reflexivity.
Defined.

Lemma tryParseAnsi_head : forall l tok,
  tryParseAnsi l = Some tok -> introducer (hd 0 l) = true.
Proof.
  intros l tok H. destruct l as [|c l1]; [discriminate|]. cbn [hd].
  unfold introducer, isEscapeCharacter. cbn [existsb].
  unfold tryParseAnsi, tryControl, tryCsi in H.
  destruct (c =? 0x1b) eqn:E1; [reflexivity|].
  destruct (c =? 0x9b) eqn:E2; [reflexivity|].
  destruct (c =? 0x9d) eqn:E3; [reflexivity|].
  destruct (c =? 0x90) eqn:E4; [reflexivity|].
  destruct (c =? 0x98) eqn:E5; [reflexivity|].
  destruct (c =? 0x9e) eqn:E6; [reflexivity|].
  destruct (c =? 0x9f) eqn:E7; [reflexivity|].
  destruct (c =? 0x9c) eqn:E8; [reflexivity|].
  cbn [orb] in H. discriminate.
Qed.

Lemma tryParseAnsi_not_character : forall l tok,
  tryParseAnsi l = Some tok -> tokType tok <> Character.
Proof.
  intros l tok H. destruct l as [|c l1]; [discriminate|].
  unfold tryParseAnsi, tryControl, tryCsi in H.
  repeat match type of H with
         | (if ?b then _ else _) = _ => destruct b
         | match ?o with Some _ => _ | None => _ end = _ => destruct o
         end; try discriminate;
    injection H as <-; cbn [tokType]; try discriminate;
    match goal with |- (if ?b then _ else _) <> _ => destruct b end;
    discriminate.
Qed.

(** X12: the tokenizer gives a token only at a unit that the escape scan
    stops at (an introducer or 0x9c); the token is never a Character, is
    at least one unit long and ends inside the input. *)
Theorem token_only_at_introducer :
  forall (l : list Z) (tok : Token),
    tryParseAnsi l = Some tok ->
    introducer (hd 0 l) = true
    /\ tokType tok <> Character
    /\ 1 <= tokEnd tok <= len l.
Proof.
  intros l tok H. split; [|split].
  - apply (tryParseAnsi_head l tok H).
  - apply (tryParseAnsi_not_character l tok H).
  - apply (tryParseAnsi_bounds l tok H).
Qed.

Lemma token_only_at_introducer_witness :
  introducer (hd 0 [0x1b; 0x5b; 0x6d; 0x41]) = true
  /\ tokType (mkToken SgrTok 3 false [] [] []) <> Character
  /\ 1 <= tokEnd (mkToken SgrTok 3 false [] [] [])
     <= len [0x1b; 0x5b; 0x6d; 0x41].
Proof.
  apply (token_only_at_introducer [0x1b; 0x5b; 0x6d; 0x41]
           (mkToken SgrTok 3 false [] [] [])).
  reflexivity.
Defined.

End HyperlinkTokens.

Module HelperFacts.

Import Sgr Ansi Shape Consume SpanFacts TokenizerBounds TokenizerFacts.
Import TokenShapes StringTokens HyperlinkTokens.

(** *** firstNonAsciiPrintable *)

(** The wrapping subtraction and unsigned comparison of a lane decide the
    range [[0x20, 0x7E]]. *)
Lemma lane_range_check : forall bits c,
  bits = 8 \/ bits = 16 ->
  inLane bits c = true ->
  ((c - 0x20) mod 2 ^ bits >? 0x5E) = negb (printable c).
Proof.
  intros bits c Hbits Hc. unfold inLane in Hc. apply andb_true_iff in Hc.
  destruct Hc as [H0 H1]. apply Z.leb_le in H0. apply Z.ltb_lt in H1.
  assert (Hpow : 256 <= 2 ^ bits).
  { destruct Hbits as [-> | ->]; [change (2 ^ 8) with 256
                                 | change (2 ^ 16) with 65536]; lia. }
  unfold printable.
  destruct (0x20 <=? c) eqn:Hlo.
  - apply Z.leb_le in Hlo. rewrite Z.mod_small by lia. cbn [andb].
    destruct (c <=? 0x7E) eqn:Hhi; cbn [negb].
    + apply Z.leb_le in Hhi. rewrite Z.gtb_ltb. apply Z.ltb_ge. lia.
    + apply Z.leb_gt in Hhi. rewrite Z.gtb_ltb. apply Z.ltb_lt. lia.
  - apply Z.leb_gt in Hlo. cbn [andb negb].
    assert (Hm : (c - 0x20) mod 2 ^ bits = c - 0x20 + 2 ^ bits).
    { symmetry. apply Z.mod_unique with (q := -1); lia. }
    rewrite Hm, Z.gtb_ltb. apply Z.ltb_lt. lia.
Qed.

(** X13: on code units of the lane (8 or 16 bits) the index that
    [firstNonAsciiPrintable] returns is the length of the longest prefix
    of units in [[0x20, 0x7E]]: every unit before it is in the range, the
    unit at it, if there is one, is not, and it is the size of the span
    exactly when all units are in the range. *)
Theorem firstNonAsciiPrintable_prefix :
  forall (bits : Z) (l : list Z),
    bits = 8 \/ bits = 16 ->
    forallb (inLane bits) l = true ->
    let r := firstNonAsciiPrintable bits l in
    forallb printable (firstn (Z.to_nat r) l) = true
    /\ (r < len l -> printable (nth (Z.to_nat r) l 0) = false)
    /\ (r = len l <-> forallb printable l = true).
Proof.
  intros bits l Hbits. induction l as [|c l IH]; intros Hl r.
  - unfold r. cbn. repeat split; intros; try reflexivity; try lia.
  - cbn [forallb] in Hl. apply andb_true_iff in Hl. destruct Hl as [Hc Hl].
    specialize (IH Hl). cbv zeta in IH. destruct IH as [IH1 [IH2 IH3]].
    pose proof (firstNonAsciiPrintable_bounds bits l) as Hb.
    unfold r. cbn [firstNonAsciiPrintable].
    rewrite (lane_range_check bits c Hbits Hc).
    destruct (printable c) eqn:Hp; cbn [negb].
    + set (k := firstNonAsciiPrintable bits l) in *.
      replace (Z.to_nat (1 + k)) with (S (Z.to_nat k)) by lia.
      cbn [firstn forallb nth]. rewrite Hp, len_cons. cbn [andb].
      split; [exact IH1|]. split.
      * intros H. apply IH2. lia.
      * split; intros H; [apply IH3; lia | apply IH3 in H; lia].
    + cbn [Z.to_nat firstn forallb nth]. rewrite Hp, len_cons. cbn [andb].
      split; [reflexivity|]. split; [reflexivity|].
      pose proof (len_nonneg l). split; [lia | discriminate].
Qed.

Lemma firstNonAsciiPrintable_prefix_witness :
  let r := firstNonAsciiPrintable 8 [0x41; 0x42; 0x1b; 0x43] in
  forallb printable (firstn (Z.to_nat r) [0x41; 0x42; 0x1b; 0x43]) = true
  /\ (r < len [0x41; 0x42; 0x1b; 0x43] ->
      printable (nth (Z.to_nat r) [0x41; 0x42; 0x1b; 0x43] 0) = false)
  /\ (r = len [0x41; 0x42; 0x1b; 0x43]
      <-> forallb printable [0x41; 0x42; 0x1b; 0x43] = true).
Proof.
  apply (firstNonAsciiPrintable_prefix 8 [0x41; 0x42; 0x1b; 0x43]).
  - left. reflexivity.
  - reflexivity.
Defined.

(** *** findEscapeCharacter *)

Lemma findEscapeCharacter_spec : forall l,
  match findEscapeCharacter l with
  | Some i =>
      0 <= i < len l
      /\ introducer (nth (Z.to_nat i) l 0) = true
      /\ forall j, 0 <= j < i -> introducer (nth (Z.to_nat j) l 0) = false
  | None => forall j, 0 <= j < len l -> introducer (nth (Z.to_nat j) l 0) = false
  end.
Proof.
  induction l as [|c l IH].
  - cbn [findEscapeCharacter]. intros j Hj. rewrite len_nil in Hj. lia.
  - cbn [findEscapeCharacter]. fold (introducer c).
    destruct (introducer c) eqn:Hc.
    + rewrite len_cons. pose proof (len_nonneg l).
      split; [lia|]. split; [exact Hc|]. intros j Hj. lia.
    + destruct (findEscapeCharacter l) as [i|].
      * destruct IH as [Hi [Hin Hbefore]]. rewrite len_cons.
        split; [lia|].
        replace (Z.to_nat (i + 1)) with (S (Z.to_nat i)) by lia.
        cbn [nth]. split; [exact Hin|]. intros j Hj.
        destruct (Z.eq_dec j 0) as [-> | Hne]; [exact Hc|].
        replace (Z.to_nat j) with (S (Z.to_nat (j - 1))) by lia.
        cbn [nth]. apply Hbefore. lia.
      * intros j Hj. rewrite len_cons in Hj.
        destruct (Z.eq_dec j 0) as [-> | Hne]; [exact Hc|].
        replace (Z.to_nat j) with (S (Z.to_nat (j - 1))) by lia.
        cbn [nth]. apply IH. lia.
Qed.

Lemma hd_skipn_nth : forall (l : list Z) n, hd 0 (skipn n l) = nth n l 0.
Proof.
  induction l as [|c l IH]; intros [|n]; try reflexivity.
  cbn [skipn nth]. apply IH.
Qed.



(** *** consumeANSI *)

Lemma consumeANSI_loop_shift : forall l it state,
  consumeANSI_loop l it state = it + consumeANSI_loop l 0 state.
Proof.
  induction l as [|c l IH]; intros it state; cbn [consumeANSI_loop].
  - lia.
  - destruct (step state c) as [s'|]; [|lia].
    rewrite (IH (it + 1)), (IH (0 + 1)). lia.
Qed.

Lemma consumeANSI_loop_run : forall a b it state state',
  run a state = Some state' ->
  consumeANSI_loop (a ++ b) it state
  = consumeANSI_loop b (it + len a) state'.
Proof.
  induction a as [|c a IH]; intros b it state state' H.
  - cbn [run] in H. injection H as <-. cbn [app].
    rewrite len_nil, Z.add_0_r. reflexivity.
  - cbn [run] in H. cbn [app consumeANSI_loop].
    destruct (step state c) as [s1|]; [|discriminate].
    rewrite (IH b (it + 1) s1 state' H), len_cons. f_equal. lia.
Qed.

Lemma run_app : forall a b s s',
  run a s = Some s' -> run (a ++ b) s = run b s'.
Proof.
  induction a as [|c a IH]; intros b s s' H.
  - cbn [run] in H. injection H as <-. reflexivity.
  - cbn [run] in H. cbn [app run].
    destruct (step s c) as [s1|]; [|discriminate]. apply (IH b s1 s' H).
Qed.

Lemma run_csi_body : forall body,
  forallb csiInterior body = true -> run body inCsi = Some inCsi.
Proof.
  induction body as [|c body IH]; intros H; [reflexivity|].
  cbn [forallb] in H. apply andb_true_iff in H. destruct H as [Hc H].
  unfold csiInterior in Hc. apply andb_true_iff in Hc. destruct Hc as [_ Hc].
  apply Z.leb_le in Hc.
  cbn [run step].
  assert (H1 : (0x40 <=? c) = false) by (apply Z.leb_gt; lia).
  rewrite H1. cbn [andb]. apply IH. exact H.
Qed.

Lemma run_st_body : forall body,
  forallb noST body = true -> run body needSt = Some needSt.
Proof.
  induction body as [|c body IH]; intros H; [reflexivity|].
  cbn [forallb] in H. apply andb_true_iff in H. destruct H as [Hc H].
  destruct (noST_cases c Hc) as [H1 H2].
  cbn [run step]. rewrite H1, H2. apply IH. exact H.
Qed.

Lemma run_osc_body : forall body,
  forallb plain body = true -> run body inOsc = Some inOsc.
Proof.
  induction body as [|c body IH]; intros H; [reflexivity|].
  cbn [forallb] in H. apply andb_true_iff in H. destruct H as [Hc H].
  destruct (plain_cases c Hc) as [H0 [H1 H2]].
  cbn [run step]. rewrite H0, H1, H2. cbn [orb]. apply IH. exact H.
Qed.

Lemma run_csi_intro : forall intro, csiIntro intro -> run intro start = Some inCsi.
Proof. intros intro [-> | ->]; reflexivity. Qed.

Lemma run_st_intro : forall intro,
  stStringIntro intro -> run intro start = Some needSt.
Proof.
  intros intro H. unfold stStringIntro in H. cbn [In] in H.
  destruct H as [<-|[<-|[<-|[<-|[<-|[<-|[<-|[<-|[]]]]]]]]]; reflexivity.
Qed.

Lemma run_osc_intro : forall intro, oscIntro intro -> run intro start = Some inOsc.
Proof. intros intro [-> | ->]; reflexivity. Qed.

Lemma run_CsiSequence : forall seq, CsiSequence seq -> run seq start = Some start.
Proof.
  intros seq [intro body final Hi Hb Hf].
  rewrite (run_app intro _ start inCsi (run_csi_intro intro Hi)).
  rewrite (run_app body _ inCsi inCsi (run_csi_body body Hb)).
  cbn [run step]. unfold csiFinal in Hf. rewrite Hf. reflexivity.
Qed.

Lemma run_StString : forall seq, StString seq -> run seq start = Some start.
Proof.
  intros seq [intro body st Hi Hb Hst].
  rewrite (run_app intro _ start needSt (run_st_intro intro Hi)).
  rewrite (run_app body _ needSt needSt (run_st_body body Hb)).
  destruct Hst as [-> | ->]; reflexivity.
Qed.

Lemma run_OscString : forall seq, OscString seq -> run seq start = Some start.
Proof.
  intros seq [intro body t Hi Hb].
  rewrite (run_app intro _ start inOsc (run_osc_intro intro Hi)).
  rewrite (run_app body _ inOsc inOsc (run_osc_body body Hb)).
  destruct t; reflexivity.
Qed.

Lemma consumeANSI_run : forall seq rest,
  run seq start = Some start ->
  consumeANSI (seq ++ rest) = len seq + consumeANSI rest.
Proof.
  intros seq rest H. unfold consumeANSI.
  rewrite (consumeANSI_loop_run seq rest 0 start start H).
  rewrite consumeANSI_loop_shift. lia.
Qed.

(** X15: [consumeANSI] consumes a whole escape sequence (a CSI sequence,
    a DCS, SOS, PM or APC string through its ST, an OSC string through its
    BEL or ST) and goes on with what follows it: the sequences that follow
    one another without a gap are consumed together. *)
Theorem consumeANSI_chains :
  forall (seq rest : list Z),
    CsiSequence seq \/ StString seq \/ OscString seq ->
    consumeANSI (seq ++ rest) = len seq + consumeANSI rest.
Proof.
  intros seq rest [H | [H | H]]; apply consumeANSI_run;
    [apply run_CsiSequence | apply run_StString | apply run_OscString];
    exact H.
Qed.

Lemma consumeANSI_chains_witness :
  consumeANSI (([0x1b; 0x5b] ++ [0x33; 0x31] ++ [0x6d])
               ++ [0x9b; 0x6d; 0x41])
  = len ([0x1b; 0x5b] ++ [0x33; 0x31] ++ [0x6d])
    + consumeANSI [0x9b; 0x6d; 0x41].
Proof.
  apply (consumeANSI_chains ([0x1b; 0x5b] ++ [0x33; 0x31] ++ [0x6d])
           [0x9b; 0x6d; 0x41]).
  left. apply (csi_sequence [0x1b; 0x5b] [0x33; 0x31] 0x6d).
  - left. reflexivity.
  - reflexivity.
  - reflexivity.
Defined.

Lemma consumeANSI_loop_stops : forall l it state,
  it <= consumeANSI_loop l it state <= it + len l
  /\ (consumeANSI_loop l it state < it + len l ->
      isEscapeCharacter
        (nth (Z.to_nat (consumeANSI_loop l it state - it)) l 0) = false).
Proof.
  induction l as [|c l IH]; intros it state; cbn [consumeANSI_loop].
  - rewrite len_nil. split; [lia|]. intros H. lia.
  - rewrite len_cons. pose proof (len_nonneg l).
    destruct (step state c) as [s'|] eqn:Hs.
    + destruct (IH (it + 1) s') as [Hb Hstop]. split; [lia|].
      intros H1.
      replace (Z.to_nat (consumeANSI_loop l (it + 1) s' - it))
        with (S (Z.to_nat (consumeANSI_loop l (it + 1) s' - (it + 1))))
        by lia.
      cbn [nth]. apply Hstop. lia.
    + split; [lia|]. intros _. rewrite Z.sub_diag. cbn [Z.to_nat nth].
      destruct state; cbn [step] in Hs;
        repeat match type of Hs with
               | (if ?b then _ else _) = _ => destruct b eqn:?
               end; try discriminate.
      unfold isEscapeCharacter. cbn [existsb].
      repeat match goal with
             | H : _ || _ = false |- _ =>
                 apply orb_false_iff in H; destruct H
             end.
      repeat match goal with
             | H : (c =? _) = false |- _ => rewrite H; clear H
             end.
      reflexivity.
Qed.


(** X17: on a CSI sequence and on a string that ST ends, followed by a
    unit that is no escape introducer (or by nothing), [consumeANSI] ends
    where the token of [tryParseAnsi] ends. *)
Theorem consumeANSI_agrees_with_tokenizer :
  forall (seq rest : list Z),
    CsiSequence seq \/ StString seq ->
    isEscapeCharacter (hd 0 rest) = false ->
    exists tok,
      tryParseAnsi (seq ++ rest) = Some tok
      /\ consumeANSI (seq ++ rest) = tokEnd tok.
Proof.
  intros seq rest Hseq Hrest.
  assert (Hr : consumeANSI rest = 0).
  { unfold consumeANSI. destruct rest as [|c rest]; [reflexivity|].
    cbn [hd] in Hrest. unfold isEscapeCharacter in Hrest.
    cbn [existsb] in Hrest.
    repeat match goal with
           | H : _ || _ = false |- _ =>
               apply orb_false_iff in H; destruct H
           end.
    cbn [consumeANSI_loop step].
    repeat match goal with
           | H : (c =? _) = false |- _ => rewrite H; clear H
           end.
    reflexivity. }
  destruct Hseq as [H | H].
  - rewrite (consumeANSI_run seq rest (run_CsiSequence seq H)), Hr.
    destruct H as [intro body final Hi Hb Hf]. eexists. split.
    + rewrite <- !app_assoc. cbn [app].
      apply (tryParseAnsi_wellformed intro body final rest Hi Hb Hf).
    + cbn [tokEnd]. rewrite !len_app. change (len [final]) with 1. lia.
  - rewrite (consumeANSI_run seq rest (run_StString seq H)), Hr.
    destruct H as [intro body st Hi Hb Hst]. eexists. split.
    + rewrite <- !app_assoc. rewrite (tryParseAnsi_st intro _ Hi).
      rewrite (scanST_terminated body st rest (len intro) false Hb);
        [reflexivity | discriminate |].
      destruct Hst as [-> | ->]; [left | right; left]; reflexivity.
    + cbn [tokEnd]. rewrite !len_app. lia.
Qed.

Lemma consumeANSI_agrees_with_tokenizer_witness :
  exists tok,
    tryParseAnsi (([0x90] ++ [0x41; 0x07] ++ [0x9c]) ++ [0x42]) = Some tok
    /\ consumeANSI (([0x90] ++ [0x41; 0x07] ++ [0x9c]) ++ [0x42])
       = tokEnd tok.
Proof.
  apply (consumeANSI_agrees_with_tokenizer
           ([0x90] ++ [0x41; 0x07] ++ [0x9c]) [0x42]).
  - right. apply (st_string [0x90] [0x41; 0x07] [0x9c]).
    + unfold stStringIntro. simpl. tauto.
    + reflexivity.
    + right. reflexivity.
  - reflexivity.
Defined.

(** X18: a sequence that the input ends before its end (a CSI sequence
    without its final byte, a control string without its terminator) is
    consumed by [consumeANSI] to the end of the input. *)
Theorem consumeANSI_unterminated :
  forall (intro body : list Z),
    (csiIntro intro /\ forallb csiInterior body = true)
    \/ (stStringIntro intro /\ forallb noST body = true)
    \/ (oscIntro intro /\ forallb plain body = true) ->
    consumeANSI (intro ++ body) = len (intro ++ body).
Proof.
  intros intro body H.
  assert (Hrun : exists s, run (intro ++ body) start = Some s).
  { destruct H as [[Hi Hb] | [[Hi Hb] | [Hi Hb]]].
    - exists inCsi.
      rewrite (run_app intro _ start inCsi (run_csi_intro intro Hi)).
      apply run_csi_body. exact Hb.
    - exists needSt.
      rewrite (run_app intro _ start needSt (run_st_intro intro Hi)).
      apply run_st_body. exact Hb.
    - exists inOsc.
      rewrite (run_app intro _ start inOsc (run_osc_intro intro Hi)).
      apply run_osc_body. exact Hb. }
  destruct Hrun as [s Hs]. unfold consumeANSI.
  rewrite <- (app_nil_r (intro ++ body)) at 1.
  rewrite (consumeANSI_loop_run (intro ++ body) [] 0 start s Hs).
  reflexivity.
Qed.

Lemma consumeANSI_unterminated_witness :
  consumeANSI ([0x1b; 0x5d] ++ [0x30; 0x3b; 0x41])
  = len ([0x1b; 0x5d] ++ [0x30; 0x3b; 0x41]).
Proof.
  apply (consumeANSI_unterminated [0x1b; 0x5d] [0x30; 0x3b; 0x41]).
  right. right. split; [left; reflexivity | reflexivity].
Defined.

End HelperFacts.

Module WindowFacts.

Import Sgr Ansi Num Slice Shape SpanFacts.

(** *** resolveSliceBounds *)

Ltac num_case :=
  match goal with
  | |- context [?a <? ?b] =>
      lazymatch a with
      | context [if _ then _ else _] => fail
      | _ => idtac
      end;
      lazymatch b with
      | context [if _ then _ else _] => fail
      | _ => idtac
      end;
      let H := fresh "H" in
      destruct (a <? b) eqn:H;
      [apply Z.ltb_lt in H | apply Z.ltb_ge in H];
      cbn [lt add to_size negb]
  end.

Lemma resolveSliceBounds_eq :
  forall (startD endD : JSNumber) (totalW : Z),
    0 <= totalW ->
    let from := jsRelativeIndex startD totalW in
    let to := jsRelativeIndex endD totalW in
    resolveSliceBounds startD endD totalW
    = if from <? to then mkBounds from to (0 <? from) (to <? totalW) false
      else mkBounds 0 0 false false true.
Proof.
  intros startD endD totalW Ht from to. unfold from, to.
  destruct startD as [s| |], endD as [e| |];
    unfold resolveSliceBounds, jsRelativeIndex;
    cbn [lt add to_size negb]; repeat num_case;
    try reflexivity; try lia;
    repeat match goal with
           | |- context [Z.max ?a ?b] =>
               first [rewrite (Z.max_l a b) by lia
                     | rewrite (Z.max_r a b) by lia]
           | |- context [Z.min ?a ?b] =>
               first [rewrite (Z.min_l a b) by lia
                     | rewrite (Z.min_r a b) by lia]
           | H : context [Z.max ?a ?b] |- _ =>
               first [rewrite (Z.max_l a b) in H by lia
                     | rewrite (Z.max_r a b) in H by lia]
           | H : context [Z.min ?a ?b] |- _ =>
               first [rewrite (Z.min_l a b) in H by lia
                     | rewrite (Z.min_r a b) in H by lia]
           end;
    try reflexivity; try lia.
Qed.


(** X19: the bounds that [resolveSliceBounds] gives are those of
    [String.prototype.slice] on a string of [totalW] units: the window is
    empty exactly when the resolved start is not before the resolved end,
    and otherwise it runs from the one to the other, with a side cut when
    the window does not reach it. *)
Theorem resolveSliceBounds_js_slice :
  forall (startD endD : JSNumber) (totalW : Z),
    0 <= totalW ->
    let from := jsRelativeIndex startD totalW in
    let to := jsRelativeIndex endD totalW in
    resolveSliceBounds startD endD totalW
    = if from <? to then mkBounds from to (0 <? from) (to <? totalW) false
      else mkBounds 0 0 false false true.
Proof. exact resolveSliceBounds_eq. Qed.

Lemma resolveSliceBounds_js_slice_witness :
  let from := jsRelativeIndex (Finite (-3)) 5 in
  let to := jsRelativeIndex PosInf 5 in
  resolveSliceBounds (Finite (-3)) PosInf 5
  = if from <? to then mkBounds from to (0 <? from) (to <? 5) false
    else mkBounds 0 0 false false true.
Proof.
  apply (resolveSliceBounds_js_slice (Finite (-3)) PosInf 5). lia.
Defined.

(** *** The ellipsis budget *)

Lemma wrap64_small : forall x, 0 <= x <= SIZE_MAX -> wrap64 x = x.
Proof.
  intros x H. unfold wrap64, SIZE_MAX in *. apply Z.mod_small. lia.
Qed.

Ltac unwrap_in H :=
  repeat match type of H with
         | context [wrap64 ?x] =>
             rewrite (wrap64_small x) in H by lia
         end.

(** X20: the ellipsis budget of the streaming path.  For a window
    [[start, end)] that is not empty, the columns left to the text and the
    columns of the ellipses that are planned add up to the window; the text
    keeps at least one column; a start ellipsis is planned only when the
    start is cut, and an end ellipsis under a known end cut only when the
    end is cut. *)
Theorem ellipsis_budget :
  forall (start end_ W : Z) (cutStart cutEndKnown cutEndHint : bool)
         (plan : EllipsisPlan),
    0 <= start < end_ -> end_ <= SIZE_MAX -> 0 <= W ->
    resolveEllipsis start end_ W cutStart cutEndKnown cutEndHint = Some plan ->
    (e_end plan - e_start plan)
    + W * (Z.b2z (e_needStartEllipsis plan) + Z.b2z (e_needEndEllipsis plan))
    = end_ - start
    /\ start <= e_start plan /\ e_start plan < e_end plan <= end_
    /\ (e_needStartEllipsis plan = true -> cutStart = true)
    /\ (e_needEndEllipsis plan = true -> cutEndKnown = true ->
        cutEndHint = true).
Proof.
  intros start end_ W cs cek ceh plan Hs He HW H.
  unfold resolveEllipsis in H. rewrite BoundsFacts.window_unbounded in H.
  rewrite (wrap64_small (end_ - start)) in H by lia.
  destruct (0 <? W) eqn:HW0;
    [apply Z.ltb_lt in HW0
    | injection H as <-;
      cbn [e_start e_end e_needStartEllipsis e_needEndEllipsis Z.b2z];
      repeat split; try lia; discriminate].
  destruct (W <? end_ - start) eqn:Hfit;
    [apply Z.ltb_lt in Hfit | apply Z.ltb_ge in Hfit];
    destruct cs; cbn [andb] in H; unwrap_in H;
    match type of H with
    | context [W <? ?x] =>
        destruct (W <? x) eqn:Hfit2;
        [apply Z.ltb_lt in Hfit2 | apply Z.ltb_ge in Hfit2]
    end;
    destruct cek, ceh, (end_ =? SIZE_MAX);
    cbn [andb orb negb e_needStartEllipsis e_needEndEllipsis] in H;
    try discriminate; injection H as <-; unwrap_in Hfit2;
    cbn [e_start e_end e_needStartEllipsis e_needEndEllipsis Z.b2z];
    rewrite ?wrap64_small by lia;
    repeat split; try lia; try discriminate; try reflexivity.
Qed.

Lemma ellipsis_budget_witness :
  (e_end (mkPlan 3 7 true true 0) - e_start (mkPlan 3 7 true true 0))
  + 1 * (Z.b2z (e_needStartEllipsis (mkPlan 3 7 true true 0))
         + Z.b2z (e_needEndEllipsis (mkPlan 3 7 true true 0)))
  = 8 - 2
  /\ 2 <= e_start (mkPlan 3 7 true true 0)
  /\ e_start (mkPlan 3 7 true true 0) < e_end (mkPlan 3 7 true true 0) <= 8
  /\ (e_needStartEllipsis (mkPlan 3 7 true true 0) = true -> true = true)
  /\ (e_needEndEllipsis (mkPlan 3 7 true true 0) = true -> true = true ->
      true = true).
Proof.
  apply (ellipsis_budget 2 8 1 true true true (mkPlan 3 7 true true 0)).
  - lia.
  - unfold SIZE_MAX. simpl. lia.
  - lia.
  - reflexivity.
Defined.

(** X21: the ellipsis budget of the printable-ASCII path.  When the path
    returns a substring, the units of the substring and the columns of the
    ellipses put around it add up to the window, the substring is not
    empty, and an ellipsis is put only on a side that is cut. *)
Theorem ascii_budget :
  forall (b : SliceBounds) (cutEnd : bool) (W st en : Z) (doStart doEnd : bool),
    0 <= b_start b < b_end b -> b_end b <= SIZE_MAX -> 0 <= W ->
    asciiDecide b cutEnd W = AsciiSlice st en doStart doEnd ->
    (en - st) + W * (Z.b2z doStart + Z.b2z doEnd) = b_end b - b_start b
    /\ b_start b <= st /\ st < en <= b_end b
    /\ (doStart = true -> b_cutStart b = true)
    /\ (doEnd = true -> cutEnd = true).
Proof.
  intros b cutEnd W st en ds de Hs He HW H.
  unfold asciiDecide in H.
  destruct (negb (b_cutStart b) && negb cutEnd) eqn:Hid; [discriminate|].
  destruct (0 <? W) eqn:HW0;
    [apply Z.ltb_lt in HW0
    | injection H as <- <- <- <-; cbn [Z.b2z];
      repeat split; try lia; discriminate].
  rewrite (wrap64_small (b_end b - b_start b)) in H by lia.
  destruct (W <? b_end b - b_start b) eqn:Hfit;
    [apply Z.ltb_lt in Hfit | apply Z.ltb_ge in Hfit];
    destruct (b_cutStart b); cbn [andb] in H; unwrap_in H;
    match type of H with
    | context [W <? ?x] =>
        destruct (W <? x) eqn:Hfit2;
        [apply Z.ltb_lt in Hfit2 | apply Z.ltb_ge in Hfit2]
    end;
    destruct cutEnd; cbn [andb orb negb] in H;
    try discriminate; injection H as <- <- <- <-; unwrap_in Hfit2;
    cbn [Z.b2z]; rewrite ?wrap64_small by lia;
    repeat split; try lia; try discriminate; try reflexivity.
Qed.

Lemma ascii_budget_witness :
  (7 - 3) + 1 * (Z.b2z true + Z.b2z true)
  = b_end (mkBounds 2 8 true true false)
    - b_start (mkBounds 2 8 true true false)
  /\ b_start (mkBounds 2 8 true true false) <= 3
  /\ 3 < 7 <= b_end (mkBounds 2 8 true true false)
  /\ (true = true -> b_cutStart (mkBounds 2 8 true true false) = true)
  /\ (true = true -> true = true).
Proof.
  apply (ascii_budget (mkBounds 2 8 true true false) true 1 3 7
           true true).
  - simpl. lia.
  - unfold SIZE_MAX. simpl. lia.
  - lia.
  - reflexivity.
Defined.

End WindowFacts.

Module FastPathFacts.

Import Sgr Ansi Num Slice Shape SpanFacts TokenizerBounds WindowFacts.

Lemma printable_in_range : forall bits c,
  bits = 8 \/ bits = 16 ->
  printable c = true -> ((c - 0x20) mod 2 ^ bits >? 0x5E) = false.
Proof.
  intros bits c Hbits Hc. unfold printable in Hc.
  apply andb_true_iff in Hc. destruct Hc as [H0 H1].
  apply Z.leb_le in H0. apply Z.leb_le in H1.
  assert (Hpow : 256 <= 2 ^ bits).
  { destruct Hbits as [-> | ->]; [change (2 ^ 8) with 256
                                 | change (2 ^ 16) with 65536]; lia. }
  rewrite Z.mod_small by lia. rewrite Z.gtb_ltb. apply Z.ltb_ge. lia.
Qed.

Lemma firstNonAsciiPrintable_all : forall bits l,
  bits = 8 \/ bits = 16 ->
  forallb printable l = true -> firstNonAsciiPrintable bits l = len l.
Proof.
  intros bits l Hbits. induction l as [|c l IH]; intros H; [reflexivity|].
  cbn [forallb] in H. apply andb_true_iff in H. destruct H as [Hc Hl].
  cbn [firstNonAsciiPrintable].
  rewrite (printable_in_range bits c Hbits Hc), (IH Hl), len_cons.
  reflexivity.
Qed.

Lemma forallb_firstn : forall (f : Z -> bool) n l,
  forallb f l = true -> forallb f (firstn n l) = true.
Proof.
  intros f n. induction n as [|n IH]; intros [|c l] H; try reflexivity.
  cbn [forallb firstn] in *. apply andb_true_iff in H.
  destruct H as [Hc Hl]. rewrite Hc, (IH l Hl). reflexivity.
Qed.

Lemma subspan_from_0 : forall l k,
  subspan l 0 k = firstn (Z.to_nat k) l.
Proof. intros l k. unfold subspan. rewrite Z.sub_0_r. reflexivity. Qed.

Lemma len_subspan_from_0 : forall l k,
  0 <= k <= len l -> len (subspan l 0 k) = k.
Proof.
  intros l k H. rewrite subspan_from_0. unfold len in *.
  rewrite length_firstn. lia.
Qed.

Lemma subspan_all : forall l e, len l <= e -> subspan l 0 e = l.
Proof.
  intros l e H. rewrite subspan_from_0. apply firstn_all2.
  unfold len in H. lia.
Qed.

Lemma subspan_empty : forall l s e, e <= s -> subspan l s e = [].
Proof.
  intros l s e H. unfold subspan.
  replace (Z.to_nat (e - s)) with 0%nat by lia. reflexivity.
Qed.

Lemma laneBits_cases : forall is16, laneBits is16 = 8 \/ laneBits is16 = 16.
Proof. intros [|]; [right | left]; reflexivity. Qed.

(** The three stages of [sliceAnsiImpl] on a non-empty input, named as in
    the source. *)
Lemma sliceAnsiImpl_stages :
  forall W EP GB (is16 : bool) (fuel : nat) (inp : list Z)
         (startD endD : JSNumber) (ellipsis : list Z) (ew : Z) (amb : bool),
    inp <> [] ->
    let size := len inp in
    let prefixScanLen :=
      if le (Finite 0) startD && le (Finite 0) endD && isfinite endD then
        if lt (add 2 endD) (Finite size) then to_size (add 2 endD) else size
      else size in
    let asciiPrefix :=
      firstNonAsciiPrintable (laneBits is16) (subspan inp 0 prefixScanLen) in
    let wholeStringAscii :=
      (prefixScanLen =? size) && (asciiPrefix =? size) in
    let sliceInsidePrefix :=
      le (Finite 0) startD && le (Finite 0) endD
      && lt endD (Finite asciiPrefix) in
    sliceAnsiImpl W EP GB is16 fuel inp startD endD ellipsis ew amb
    = if eq0 startD && negb (isfinite endD) && lt (Finite 0) endD
         && (ew =? 0)
      then Ok Null
      else if wholeStringAscii || sliceInsidePrefix then
        let totalW := if wholeStringAscii then size else asciiPrefix in
        let b := resolveSliceBounds startD endD totalW in
        if b_empty b then Ok (Str [])
        else
          let cutEnd := if wholeStringAscii then b_cutEnd b else true in
          Ok (asciiRender inp ellipsis (asciiDecide b cutEnd ew))
      else if le (Finite 0) startD && negb (lt endD (Finite 0)) then
        if negb (isfinite startD) || lt (Finite (size * 2)) startD
        then Ok (Str [])
        else
          let start := to_size startD in
          if negb (isfinite endD) || lt (Finite (size * 2)) endD then
            emitSliceStreaming W EP GB is16 fuel inp asciiPrefix start
              SIZE_MAX ellipsis ew (0 <? start) true false amb
          else
            let end_ := to_size endD in
            if end_ <=? start then Ok (Str [])
            else
              emitSliceStreaming W EP GB is16 fuel inp asciiPrefix start end_
                ellipsis ew (0 <? start) false false amb
      else
        totalW <- computeTotalWidth W EP GB is16 fuel inp asciiPrefix amb ;;
        let b := resolveSliceBounds startD endD totalW in
        if b_empty b then Ok (Str [])
        else
          emitSliceStreaming W EP GB is16 fuel inp asciiPrefix (b_start b)
            (b_end b) ellipsis ew (0 <? b_start b) true (b_cutEnd b) amb.
Proof.
  intros W EP GB is16 fuel inp startD endD ellipsis ew amb Hne.
  destruct inp as [|c0 inp0]; [contradiction Hne; reflexivity|].
  reflexivity.
Qed.

Lemma printable_prefix : forall is16 inp k,
  forallb printable inp = true ->
  0 <= k <= len inp ->
  firstNonAsciiPrintable (laneBits is16) (subspan inp 0 k) = k.
Proof.
  intros is16 inp k Hp Hk.
  rewrite (firstNonAsciiPrintable_all _ _ (laneBits_cases is16)).
  - apply len_subspan_from_0. exact Hk.
  - rewrite subspan_from_0. apply forallb_firstn. exact Hp.
Qed.

Lemma jsRelativeIndex_range : forall d n,
  0 <= n -> 0 <= jsRelativeIndex d n <= n.
Proof.
  intros [z| |] n Hn; cbn [jsRelativeIndex]; try lia.
  destruct (z <? 0) eqn:Hz;
    [apply Z.ltb_lt in Hz | apply Z.ltb_ge in Hz]; lia.
Qed.

(** The window against a longer total is the same, when the end index is
    inside the shorter one. *)
Lemma resolveSliceBounds_inside : forall startD e n,
  0 <= e -> e + 2 <= n ->
  le (Finite 0) startD = true ->
  resolveSliceBounds startD (Finite e) (e + 2)
  = resolveSliceBounds startD (Finite e) n.
Proof.
  intros startD e n He Hn Hs.
  rewrite !resolveSliceBounds_eq by lia. cbv zeta.
  destruct startD as [s| |]; cbn [le lt negb] in Hs; try discriminate.
  - apply negb_true_iff, Z.ltb_ge in Hs. cbn [jsRelativeIndex].
    assert (H1 : (s <? 0) = false) by (apply Z.ltb_ge; lia).
    assert (H2 : (e <? 0) = false) by (apply Z.ltb_ge; lia).
    rewrite H1, H2, (Z.min_l e (e + 2)), (Z.min_l e n) by lia.
    destruct (Z.lt_ge_cases s e) as [Hlt | Hge].
    + rewrite (Z.min_l s (e + 2)), (Z.min_l s n) by lia.
      assert (H3 : (e <? e + 2) = true) by (apply Z.ltb_lt; lia).
      assert (H4 : (e <? n) = true) by (apply Z.ltb_lt; lia).
      rewrite H3, H4. reflexivity.
    + assert (H3 : (Z.min s (e + 2) <? e) = false)
        by (apply Z.ltb_ge; lia).
      assert (H4 : (Z.min s n <? e) = false) by (apply Z.ltb_ge; lia).
      rewrite H3, H4. reflexivity.
  - cbn [jsRelativeIndex].
    assert (H2 : (e <? 0) = false) by (apply Z.ltb_ge; lia).
    rewrite H2, (Z.min_l e (e + 2)), (Z.min_l e n) by lia.
    assert (H3 : (e + 2 <? e) = false) by (apply Z.ltb_ge; lia).
    assert (H4 : (n <? e) = false) by (apply Z.ltb_ge; lia).
    rewrite H3, H4. reflexivity.
Qed.

(** What the bounds of a window are, read off the two cases of the
    resolution. *)
Lemma resolveSliceBounds_cases : forall startD endD n,
  0 <= n ->
  let b := resolveSliceBounds startD endD n in
  (b_empty b = true /\ b_start b = 0 /\ b_end b = 0)
  \/ (b_empty b = false
      /\ 0 <= b_start b < b_end b /\ b_end b <= n
      /\ b_cutStart b = (0 <? b_start b)
      /\ b_cutEnd b = (b_end b <? n)).
Proof.
  intros startD endD n Hn b. unfold b.
  rewrite resolveSliceBounds_eq by exact Hn. cbv zeta.
  pose proof (jsRelativeIndex_range startD n Hn).
  pose proof (jsRelativeIndex_range endD n Hn).
  destruct (jsRelativeIndex startD n <? jsRelativeIndex endD n) eqn:Hlt;
    [apply Z.ltb_lt in Hlt; right | left];
    cbn [b_empty b_start b_end b_cutStart b_cutEnd];
    repeat split; try reflexivity; lia.
Qed.

(** The substring path without ellipsis returns the units of the window. *)
Lemma asciiRender_no_ellipsis : forall inp ellipsis startD endD cutEnd,
  let b := resolveSliceBounds startD endD (len inp) in
  b_empty b = false ->
  (cutEnd = false -> b_cutEnd b = false) ->
  unitsOf inp (asciiRender inp ellipsis (asciiDecide b cutEnd 0))
  = subspan inp (b_start b) (b_end b).
Proof.
  intros inp ellipsis startD endD cutEnd b Hne Hcut.
  pose proof (resolveSliceBounds_cases startD endD (len inp)
                (len_nonneg inp)) as Hc.
  cbv zeta in Hc. change (resolveSliceBounds startD endD (len inp)) with b in Hc.
  destruct Hc as [[He _] | (_ & Hr & Hn & Hcs & Hce)]; [congruence|].
  unfold asciiDecide. change (0 <? 0) with false. cbn iota.
  destruct (b_cutStart b) eqn:Hs; cbn [negb andb asciiRender unitsOf];
    [reflexivity|].
  destruct cutEnd; cbn [negb asciiRender unitsOf]; [reflexivity|].
  specialize (Hcut eq_refl). rewrite Hce in Hcut.
  apply Z.ltb_ge in Hcut. symmetry in Hcs. apply Z.ltb_ge in Hcs.
  replace (b_start b) with 0 by lia. symmetry. apply subspan_all. lia.
Qed.

(** X22: on an input of printable ASCII units and with an ellipsis of
    width 0 the slicer is [String.prototype.slice]: whatever the indices,
    the flags and the iteration budget, it returns, without walking the
    input, the units of the window that [resolveSliceBounds] gives on the
    length of the input, the null string standing for the whole input. *)
Theorem printable_ascii_slice :
  forall W EP GB (is16 : bool) (fuel : nat) (inp : list Z)
         (startD endD : JSNumber) (ellipsis : list Z) (amb : bool),
    forallb printable inp = true ->
    let b := resolveSliceBounds startD endD (len inp) in
    exists r,
      sliceAnsiImpl W EP GB is16 fuel inp startD endD ellipsis 0 amb = Ok r
      /\ unitsOf inp r = subspan inp (b_start b) (b_end b).
Proof.
  intros W EP GB is16 fuel inp startD endD ellipsis amb Hp. cbv zeta.
  destruct inp as [|c0 inp0] eqn:Hinp.
  { exists (Str []). split; [reflexivity|]. unfold subspan.
    rewrite skipn_nil, firstn_nil. reflexivity. }
  rewrite <- Hinp in *.
  assert (Hne : inp <> []) by (rewrite Hinp; discriminate).
  assert (Hsize : 0 < len inp).
  { rewrite Hinp, len_cons. pose proof (len_nonneg inp0). lia. }
  clear Hinp.
  rewrite (sliceAnsiImpl_stages W EP GB is16 fuel inp startD endD ellipsis 0
             amb Hne).
  cbv zeta. change (0 =? 0) with true. rewrite andb_true_r.
  destruct (eq0 startD && negb (isfinite endD) && lt (Finite 0) endD)
    eqn:Hid.
  { exists Null. split; [reflexivity|]. cbn [unitsOf].
    destruct startD as [s| |], endD as [e| |];
      cbn [eq0 isfinite negb lt andb] in Hid;
      rewrite ?andb_false_r, ?andb_true_r in Hid; try discriminate.
    apply Z.eqb_eq in Hid. subst s.
    rewrite resolveSliceBounds_eq by lia. cbv zeta.
    cbn [jsRelativeIndex]. change (0 <? 0) with false. cbn iota.
    rewrite Z.min_l by lia.
    assert (H0 : (0 <? len inp) = true) by (apply Z.ltb_lt; lia).
    rewrite H0. cbn [b_start b_end]. symmetry. apply subspan_all. lia. }
  set (psl := if le (Finite 0) startD && le (Finite 0) endD && isfinite endD
              then if lt (add 2 endD) (Finite (len inp))
                   then to_size (add 2 endD) else len inp
              else len inp).
  assert (Hpsl : psl = len inp
                 \/ exists e, endD = Finite e /\ 0 <= e /\ psl = e + 2
                              /\ e + 2 < len inp
                              /\ le (Finite 0) startD = true).
  { unfold psl. destruct (le (Finite 0) startD) eqn:Hs; [|left; reflexivity].
    destruct endD as [e| |]; unfold le;
      cbn [lt negb isfinite andb add to_size]; try (left; reflexivity).
    destruct (e <? 0) eqn:He; cbn [negb andb]; [left; reflexivity|].
    apply Z.ltb_ge in He.
    destruct (2 + e <? len inp) eqn:Hc; [|left; reflexivity].
    apply Z.ltb_lt in Hc. right. exists e. repeat split; lia. }
  clearbody psl.
  destruct Hpsl as [-> | (e & -> & He & -> & Hlt & Hs)].
  - rewrite (printable_prefix is16 inp (len inp) Hp) by lia.
    rewrite Z.eqb_refl. cbn [andb orb].
    set (b := resolveSliceBounds startD endD (len inp)).
    destruct (b_empty b) eqn:Hb.
    + exists (Str []). split; [reflexivity|]. cbn [unitsOf].
      pose proof (resolveSliceBounds_cases startD endD (len inp)
                    (len_nonneg inp)) as Hc.
      cbv zeta in Hc.
      change (resolveSliceBounds startD endD (len inp)) with b in Hc.
      destruct Hc as [(_ & H1 & H2) | (H1 & _)]; [|congruence].
      rewrite H1, H2. symmetry. apply subspan_empty. lia.
    + eexists. split; [reflexivity|].
      apply (asciiRender_no_ellipsis inp ellipsis startD endD);
        [exact Hb | intros H; exact H].
  - rewrite (printable_prefix is16 inp (e + 2) Hp) by lia.
    assert (H1 : (e + 2 =? len inp) = false) by (apply Z.eqb_neq; lia).
    assert (H2 : le (Finite 0) (Finite e) = true).
    { cbn [le lt]. apply negb_true_iff, Z.ltb_ge. lia. }
    assert (H3 : lt (Finite e) (Finite (e + 2)) = true).
    { cbn [lt]. apply Z.ltb_lt. lia. }
    rewrite H1, Hs, H2, H3. cbn [andb orb].
    rewrite (resolveSliceBounds_inside startD e (len inp) He)
      by (lia || exact Hs).
    set (b := resolveSliceBounds startD (Finite e) (len inp)).
    destruct (b_empty b) eqn:Hb.
    + exists (Str []). split; [reflexivity|]. cbn [unitsOf].
      pose proof (resolveSliceBounds_cases startD (Finite e) (len inp)
                    (len_nonneg inp)) as Hc.
      cbv zeta in Hc.
      change (resolveSliceBounds startD (Finite e) (len inp)) with b in Hc.
      destruct Hc as [(_ & H4 & H5) | (H4 & _)]; [|congruence].
      rewrite H4, H5. symmetry. apply subspan_empty. lia.
    + eexists. split; [reflexivity|].
      apply (asciiRender_no_ellipsis inp ellipsis startD (Finite e));
        [exact Hb | discriminate].
Qed.

Lemma printable_ascii_slice_witness :
  let W := fun (_ : Z) (_ : bool) => 1 in
  let EP := fun _ : Z => false in
  let GB := fun (_ _ s : Z) => (true, s) in
  let inp := [0x61; 0x62; 0x63; 0x64; 0x65] in
  let b := resolveSliceBounds (Finite 1) (Finite (-1)) (len inp) in
  exists r,
    sliceAnsiImpl W EP GB false 0 inp (Finite 1) (Finite (-1)) [] 0 false
    = Ok r
    /\ unitsOf inp r = subspan inp (b_start b) (b_end b).
Proof.
  intros W EP GB inp.
  apply (printable_ascii_slice W EP GB false 0 inp (Finite 1) (Finite (-1))
           [] false).
  reflexivity.
Defined.

(** *** The empty window *)

Lemma resolveSliceBounds_empty : forall s e n,
  0 <= e <= s ->
  b_empty (resolveSliceBounds (Finite s) (Finite e) n) = true.
Proof.
  intros s e n H. unfold resolveSliceBounds. cbn [lt add to_size].
  assert (H1 : (s <? 0) = false) by (apply Z.ltb_ge; lia).
  assert (H2 : (e <? 0) = false) by (apply Z.ltb_ge; lia).
  rewrite H1, H2. cbn [lt]. rewrite H1.
  destruct (n <? e) eqn:Hn; cbn [lt].
  - apply Z.ltb_lt in Hn.
    assert (H3 : (s <? n) = false) by (apply Z.ltb_ge; lia).
    rewrite H3. reflexivity.
  - assert (H3 : (s <? e) = false) by (apply Z.ltb_ge; lia).
    rewrite H3. reflexivity.
Qed.

(** X23: a window whose end is not after its start, both counted from
    the start of the string, is empty: the slicer returns the empty string
    for every input, ellipsis and iteration budget, and walks nothing. *)
Theorem empty_window :
  forall W EP GB (is16 : bool) (fuel : nat) (inp : list Z) (s e : Z)
         (ellipsis : list Z) (ew : Z) (amb : bool),
    0 <= e <= s ->
    sliceAnsiImpl W EP GB is16 fuel inp (Finite s) (Finite e) ellipsis ew amb
    = Ok (Str []).
Proof.
  intros W EP GB is16 fuel inp s e ellipsis ew amb H.
  destruct inp as [|c0 inp0] eqn:Hinp; [reflexivity|].
  rewrite <- Hinp.
  assert (Hne : inp <> []) by (rewrite Hinp; discriminate).
  rewrite (sliceAnsiImpl_stages W EP GB is16 fuel inp (Finite s) (Finite e)
             ellipsis ew amb Hne).
  cbv zeta. cbn [isfinite negb]. rewrite andb_false_r. cbn [andb].
  match goal with
  | |- (if ?c then _ else _) = _ => destruct c
  end.
  - rewrite (resolveSliceBounds_empty s e _ H). reflexivity.
  - unfold le. cbn [lt negb orb].
    assert (H1 : (s <? 0) = false) by (apply Z.ltb_ge; lia).
    assert (H2 : (e <? 0) = false) by (apply Z.ltb_ge; lia).
    rewrite H1, H2. cbn [negb andb to_size].
    destruct (len inp * 2 <? s) eqn:Hs; [reflexivity|].
    apply Z.ltb_ge in Hs.
    assert (H3 : (len inp * 2 <? e) = false) by (apply Z.ltb_ge; lia).
    assert (H4 : (e <=? s) = true) by (apply Z.leb_le; lia).
    rewrite H3, H4. reflexivity.
Qed.

Lemma empty_window_witness :
  sliceAnsiImpl (fun _ _ => 1) (fun _ => false) (fun _ _ st => (true, st))
                false 0 [0x1b; 0x5b; 0x33; 0x31; 0x6d; 0x41; 0x42]
                (Finite 2) (Finite 1) [0x2e] 1 false
  = Ok (Str []).
Proof.
  apply (empty_window (fun _ _ => 1) (fun _ => false)
           (fun _ _ st => (true, st)) false 0
           [0x1b; 0x5b; 0x33; 0x31; 0x6d; 0x41; 0x42] 2 1 [0x2e] 1 false).
  lia.
Defined.

(** *** The null string *)

Lemma finishWalk_not_null : forall E needEndEllipsis w,
  finishWalk E needEndEllipsis w <> Ok Null.
Proof.
  intros E nee w. unfold finishWalk, bind.
  match goal with
  | |- match ?r with Ok _ => _ | Crash => _ | OutOfFuel => _ end <> _ =>
      destruct r as [w1| |]
  end; try discriminate.
  destruct (negb (include w1)); [discriminate|].
  destruct (0 <? ellipsisEndBudget E); [destruct (sawCutEnd w1)|];
    discriminate.
Qed.

Lemma emitSliceStreaming_not_null :
  forall W EP GB is16 fuel inp asciiPrefix st en ell ew cs cek ceh amb,
    emitSliceStreaming W EP GB is16 fuel inp asciiPrefix st en ell ew cs cek
                       ceh amb <> Ok Null.
Proof.
  intros W EP GB is16 fuel inp asciiPrefix st en ell ew cs cek ceh amb.
  unfold emitSliceStreaming.
  destruct (resolveEllipsis st en ew cs cek ceh) as [plan|];
    [|discriminate].
  cbv zeta. unfold bind.
  match goal with
  | |- match ?r with Ok _ => _ | Crash => _ | OutOfFuel => _ end <> _ =>
      destruct r as [w1| |]
  end; try discriminate.
  apply finishWalk_not_null.
Qed.

(** X24: the null string, the signal that the caller is to reuse the
    input, is returned only for a window that is the whole input: for the
    indices 0 and plus infinity with an ellipsis of width 0, or on an input
    of printable ASCII units only, for indices that resolve to 0 and to the
    length of the input.  The streaming path never returns it. *)
Theorem null_only_for_whole_input :
  forall W EP GB (is16 : bool) (fuel : nat) (inp : list Z)
         (startD endD : JSNumber) (ellipsis : list Z) (ew : Z) (amb : bool),
    sliceAnsiImpl W EP GB is16 fuel inp startD endD ellipsis ew amb = Ok Null ->
    inp <> []
    /\ ((startD = Finite 0 /\ endD = PosInf /\ ew = 0)
        \/ (firstNonAsciiPrintable (laneBits is16) inp = len inp
            /\ b_empty (resolveSliceBounds startD endD (len inp)) = false
            /\ b_start (resolveSliceBounds startD endD (len inp)) = 0
            /\ b_end (resolveSliceBounds startD endD (len inp)) = len inp)).
Proof.
  intros W EP GB is16 fuel inp startD endD ellipsis ew amb H.
  destruct inp as [|c0 inp0] eqn:Hinp; [discriminate|].
  rewrite <- Hinp in *.
  assert (Hne : inp <> []) by (rewrite Hinp; discriminate).
  split; [exact Hne|]. clear Hinp.
  rewrite (sliceAnsiImpl_stages W EP GB is16 fuel inp startD endD ellipsis ew
             amb Hne) in H.
  cbv zeta in H.
  destruct (eq0 startD && negb (isfinite endD) && lt (Finite 0) endD
            && (ew =? 0)) eqn:Hid.
  { left. apply andb_true_iff in Hid. destruct Hid as [Hid Hew].
    apply andb_true_iff in Hid. destruct Hid as [Hid Hpos].
    apply andb_true_iff in Hid. destruct Hid as [Hz Hinf].
    apply Z.eqb_eq in Hew.
    destruct startD as [s| |]; try discriminate.
    destruct endD as [e| |]; try discriminate.
    cbn [eq0] in Hz. apply Z.eqb_eq in Hz. subst s.
    split; [reflexivity | split; [reflexivity | exact Hew]]. }
  right.
  set (psl := if le (Finite 0) startD && le (Finite 0) endD && isfinite endD
              then if lt (add 2 endD) (Finite (len inp))
                   then to_size (add 2 endD) else len inp
              else len inp) in H.
  set (A := firstNonAsciiPrintable (laneBits is16) (subspan inp 0 psl)) in H.
  destruct ((psl =? len inp) && (A =? len inp)) eqn:Hwhole.
  - cbn [orb] in H.
    apply andb_true_iff in Hwhole. destruct Hwhole as [Hpsl HA].
    apply Z.eqb_eq in Hpsl. apply Z.eqb_eq in HA.
    assert (Hall : firstNonAsciiPrintable (laneBits is16) inp = len inp).
    { unfold A in HA. rewrite Hpsl, subspan_all in HA by lia. exact HA. }
    split; [exact Hall|].
    pose proof (resolveSliceBounds_cases startD endD (len inp)
                  (len_nonneg inp)) as Hc.
    cbv zeta in Hc.
    set (b := resolveSliceBounds startD endD (len inp)) in *.
    destruct (b_empty b) eqn:Hb; [discriminate|].
    destruct Hc as [(Hc & _) | (_ & Hr & Hn & Hcs & Hce)]; [discriminate|].
    split; [reflexivity|].
    unfold asciiDecide in H.
    destruct (b_cutStart b) eqn:Hs; destruct (b_cutEnd b) eqn:He;
      cbn [negb andb] in H;
      try (destruct (0 <? ew);
           [destruct (ew <? wrap64 (b_end b - b_start b));
            cbn [andb negb] in H;
            repeat match type of H with
                   | context [if ?c then _ else _] => destruct c
                   end; cbn [andb negb asciiRender] in H
           | cbn [andb negb asciiRender] in H]; discriminate).
    symmetry in Hcs. apply Z.ltb_ge in Hcs.
    symmetry in Hce. apply Z.ltb_ge in Hce. lia.
  - cbn [orb] in H.
    match type of H with
    | (if ?c then _ else _) = _ => destruct c
    end.
    + match type of H with
      | (if ?c then _ else _) = _ => destruct c
      end; [discriminate|].
      exfalso. unfold asciiDecide in H. rewrite andb_false_r in H.
      destruct (0 <? ew);
        repeat match type of H with
               | context [if ?c then _ else _] => destruct c
               end; cbn [andb negb asciiRender] in H; discriminate.
    + exfalso.
      repeat match type of H with
             | (if ?c then _ else _) = _ => destruct c
             end; try discriminate;
        try (eapply emitSliceStreaming_not_null; exact H).
      unfold bind in H.
      destruct (computeTotalWidth W EP GB is16 fuel inp A amb) as [tw| |];
        try discriminate.
      match type of H with
      | (if ?c then _ else _) = _ => destruct c
      end; [discriminate|].
      eapply emitSliceStreaming_not_null; exact H.
Qed.

Lemma null_only_for_whole_input_witness :
  [0x61; 0x62; 0x63] <> []
  /\ ((Finite (-3) = Finite 0 /\ Finite 3 = PosInf /\ 0 = 0)
      \/ (firstNonAsciiPrintable (laneBits false) [0x61; 0x62; 0x63]
          = len [0x61; 0x62; 0x63]
          /\ b_empty (resolveSliceBounds (Finite (-3)) (Finite 3)
                        (len [0x61; 0x62; 0x63])) = false
          /\ b_start (resolveSliceBounds (Finite (-3)) (Finite 3)
                        (len [0x61; 0x62; 0x63])) = 0
          /\ b_end (resolveSliceBounds (Finite (-3)) (Finite 3)
                      (len [0x61; 0x62; 0x63])) = len [0x61; 0x62; 0x63])).
Proof.
  apply (null_only_for_whole_input (fun _ _ => 1) (fun _ => false)
           (fun _ _ st => (true, st)) false 0 [0x61; 0x62; 0x63]
           (Finite (-3)) (Finite 3) [] 0 false).
  reflexivity.
Defined.

End FastPathFacts.

Module CloseOnlyFacts.

Import Sgr Ansi Slice Shape SpanFacts SgrFacts FilterFacts.

(** What one end code does to the tracker. *)
Lemma Subseq_trans : forall (A : Type) (a b c : list A),
  Subseq a b -> Subseq b c -> Subseq a c.
Proof.
  intros A a b c Hab Hbc. revert a Hab.
  induction Hbc as [|x b c Hbc IH|x b c Hbc IH]; intros a Hab.
  - exact Hab.
  - apply Subseq_skip. apply IH. exact Hab.
  - inversion Hab as [|y a' b' Hab'|y a' b' Hab']; subst.
    + apply Subseq_skip. apply IH. exact Hab'.
    + apply Subseq_keep. apply IH. exact Hab'.
Qed.

Lemma Subseq_length : forall (A : Type) (a b : list A),
  Subseq a b -> (length a <= length b)%nat.
Proof. induction 1; cbn [length]; lia. Qed.

Lemma Subseq_filter_both : forall (A : Type) (f : A -> bool) (a b : list A),
  Subseq a b -> Subseq (filter f a) (filter f b).
Proof.
  induction 1 as [|x a b H IH|x a b H IH]; cbn [filter].
  - apply Subseq_nil.
  - destruct (f x); [apply Subseq_skip|]; exact IH.
  - destruct (f x); [apply Subseq_keep|]; exact IH.
Qed.

Lemma filter_removes : forall (A : Type) (f : A -> bool) (l : list A),
  existsb f l = true ->
  (length (filter (fun x => negb (f x)) l) < length l)%nat.
Proof.
  induction l as [|x l IH]; intros H; [discriminate|].
  cbn [existsb] in H. cbn [filter length].
  pose proof (filter_length_le (fun x => negb (f x)) l) as Hle.
  destruct (f x) eqn:Hx; cbn [negb length].
  - lia.
  - cbn [orb] in H. specialize (IH H). lia.
Qed.

(** The effect of an end code, the reset included, on the tracker. *)
Lemma applySgrParams_end_code : forall isC1 code rest st,
  isSgrEndCode code = true ->
  applySgrParams isC1 (code :: rest) st
  = applySgrParams isC1 rest
      (if code =? 0 then applyReset st
       else applyEnd (makeSgrCode false code) st).
Proof.
  intros isC1 code rest st H. cbn [applySgrParams].
  destruct (code =? 0); [reflexivity|].
  destruct ((code =? 38) || (code =? 48)) eqn:Hext.
  - rewrite (isSgrEndCode_not_ext code Hext) in H. discriminate.
  - rewrite H. reflexivity.
Qed.

Lemma end_code_Subseq : forall code st,
  Subseq (if code =? 0 then applyReset st
          else applyEnd (makeSgrCode false code) st) st.
Proof.
  intros code st. destruct (code =? 0).
  - apply Subseq_nil_l.
  - unfold applyEnd, removeAllMatching. apply Subseq_filter, Subseq_refl.
Qed.

Lemma end_code_mono : forall code a b,
  Subseq a b ->
  Subseq (if code =? 0 then applyReset a
          else applyEnd (makeSgrCode false code) a)
         (if code =? 0 then applyReset b
          else applyEnd (makeSgrCode false code) b).
Proof.
  intros code a b H. destruct (code =? 0).
  - apply Subseq_nil.
  - unfold applyEnd, removeAllMatching. apply Subseq_filter_both. exact H.
Qed.

Lemma end_codes_Subseq : forall isC1 ps st,
  Forall (fun c => isSgrEndCode c = true) ps ->
  Subseq (applySgrParams isC1 ps st) st.
Proof.
  intros isC1 ps. induction ps as [|code rest IH]; intros st H.
  - apply Subseq_refl.
  - inversion H as [|? ? Hc Hrest]; subst.
    rewrite (applySgrParams_end_code isC1 code rest st Hc).
    eapply Subseq_trans; [apply IH; exact Hrest | apply end_code_Subseq].
Qed.

(** The state after a run of end codes is below the state after any one
    of them. *)
Lemma end_codes_below_each : forall isC1 ps st c,
  Forall (fun c => isSgrEndCode c = true) ps ->
  In c ps ->
  Subseq (applySgrParams isC1 ps st)
         (if c =? 0 then applyReset st
          else applyEnd (makeSgrCode false c) st).
Proof.
  intros isC1 ps. induction ps as [|code rest IH]; intros st c H Hin.
  - destruct Hin.
  - inversion H as [|? ? Hc Hrest]; subst.
    rewrite (applySgrParams_end_code isC1 code rest st Hc).
    destruct Hin as [-> | Hin].
    + apply end_codes_Subseq. exact Hrest.
    + eapply Subseq_trans; [apply (IH _ c Hrest Hin)|].
      apply end_code_mono, end_code_Subseq.
Qed.

Lemma closing_code_shrinks : forall st c,
  closesActive st c = true ->
  (length (if (c =? 0)%Z then applyReset st
           else applyEnd (makeSgrCode false c) st) < length st)%nat.
Proof.
  intros st c H. unfold closesActive in H. destruct (c =? 0).
  - destruct st; [discriminate|]. cbn [applyReset length]. lia.
  - apply andb_true_iff in H. destruct H as [_ H].
    unfold applyEnd, removeAllMatching.
    apply (filter_removes Entry
             (fun e => String_eqb (endCode e) (makeSgrCode false c)) st H).
Qed.

Lemma close_only_shrinks_aux :
  forall (styles : SgrStyleState) (seq : list Z),
    let isC1 := match seq with c :: _ => c =? 0x9b | [] => false end in
    let params :=
      parseSgrParams (subspan seq (if isC1 then 1 else 2) (len seq - 1)) in
    overflow params = false ->
    hasColon params = false ->
    shouldIncludeSgrAfterEnd params styles = true ->
    Subseq (applySgrToState styles seq) styles
    /\ (length (applySgrToState styles seq) < length styles)%nat.
Proof.
  intros styles seq isC1 params Ho Hc Hinc.
  apply shouldInclude_iff in Hinc. destruct Hinc as [Hall Hex].
  apply Exists_exists in Hex. destruct Hex as [c [Hin Hclose]].
  unfold applySgrToState. fold isC1. fold params. cbv zeta.
  rewrite Ho, Hc. cbn [orb].
  destruct (params_size params =? 0) eqn:Hsz.
  { apply Z.eqb_eq in Hsz. unfold params_size, len in Hsz.
    destruct (data params); [destruct Hin | cbn [length] in Hsz; lia]. }
  split.
  - apply end_codes_Subseq. exact Hall.
  - pose proof (end_codes_below_each isC1 (data params) styles c Hall Hin)
      as Hb.
    apply Subseq_length in Hb.
    pose proof (closing_code_shrinks styles c Hclose). lia.
Qed.


(** X25: an SGR sequence that the close-only filter lets through takes
    styles away and adds none: the tracker after it holds a part of the
    entries it held before, in their order, and at least one entry less. *)
Theorem close_only_sgr_shrinks :
  forall (styles : SgrStyleState) (seq : list Z),
    let isC1 := match seq with c :: _ => c =? 0x9b | [] => false end in
    let params :=
      parseSgrParams (subspan seq (if isC1 then 1 else 2) (len seq - 1)) in
    overflow params = false ->
    hasColon params = false ->
    shouldIncludeSgrAfterEnd params styles = true ->
    Subseq (applySgrToState styles seq) styles
    /\ (length (applySgrToState styles seq) < length styles)%nat.
Proof. exact close_only_shrinks_aux. Qed.

Lemma close_only_sgr_shrinks_witness :
  let styles := [mkEntry [0x1b; 0x5b; 0x33; 0x39; 0x6d]
                         [0x1b; 0x5b; 0x33; 0x31; 0x6d];
                 mkEntry [0x1b; 0x5b; 0x32; 0x32; 0x6d]
                         [0x1b; 0x5b; 0x31; 0x6d]] in
  let seq := [0x1b; 0x5b; 0x33; 0x39; 0x6d] in
  Subseq (applySgrToState styles seq) styles
  /\ (length (applySgrToState styles seq) < length styles)%nat.
Proof.
  intros styles seq.
  apply (close_only_sgr_shrinks styles seq); reflexivity.
Defined.

End CloseOnlyFacts.

Module FlushFacts.

Import Sgr Ansi Slice Shape SpanFacts SgrFacts FilterFacts WalkFacts.
Import CloseOnlyFacts.

Section Flush.

Variable E : Env.

(** *** Inside the window *)

Ltac flush_step IH idx :=
  match goal with
  | |- context [flushPending_loop _ _ _ idx ?w1] =>
      let w' := fresh "w'" in
      destruct (IH idx w1)
        as [w' (H0 & H1 & H2 & H3 & H4 & H5 & H6 & H7)];
      [walk_simpl; lia|];
      walk_simpl; exists w'; cbn [map concat fold_left];
      split; [exact H0|];
      split; [rewrite H1; unfold pendingUnits; rewrite <- ?app_assoc;
              reflexivity|];
      split; [rewrite H2; reflexivity|];
      repeat split; assumption
  end.

Lemma flush_all_loop : forall pas hlIdx w,
  (hlIdx + countHl pas <= length (pendingHl w))%nat ->
  exists w',
    flushPending_loop E false pas hlIdx w = Ok w'
    /\ result w'
       = result w ++ concat (map (pendingUnits E) (filter isToken pas))
    /\ activeStyles w'
       = fold_left applySgrToState
           (map (pendingUnits E) (filter isSgrPending pas)) (activeStyles w)
    /\ pendingHl w' = pendingHl w
    /\ pending w' = pending w
    /\ p w' = p w /\ position w' = position w /\ include w' = include w.
Proof.
  induction pas as [|pa pas IH]; intros hlIdx w Hidx.
  - exists w. cbn [flushPending_loop filter map concat fold_left].
    rewrite app_nil_r. repeat split; reflexivity.
  - rewrite countHl_cons in Hidx.
    cbn [flushPending_loop filter map]. unfold isToken, isSgrPending.
    destruct (pa_type pa) eqn:Ht; cbn [TokenType_eqb negb andb] in *.
    + destruct (IH hlIdx w) as [w' Hw']; [lia|]. exists w'. exact Hw'.
    + flush_step IH hlIdx.
    + destruct (pa_hlOpen pa) eqn:Ho.
      * destruct (nth_error (pendingHl w) hlIdx) as [[[code cp] term]|] eqn:Hn;
          [|apply nth_error_None in Hn; lia].
        flush_step IH (S hlIdx).
      * flush_step IH (S hlIdx).
    + flush_step IH hlIdx.
Qed.

(** X26: inside the window the flush writes every pending token to the
    output as it stands in the input, in the order of the input, applies
    the SGR tokens among them to the style tracker in that order, and
    empties the two pending buffers; the cursor, the column and the window
    flag stay as they are. *)
Theorem flush_in_window :
  forall (w : Walk),
    pendingOK w ->
    exists w',
      flushPending E false w = Ok w'
      /\ result w'
         = result w
           ++ concat (map (pendingUnits E) (filter isToken (pending w)))
      /\ activeStyles w'
         = fold_left applySgrToState
             (map (pendingUnits E) (filter isSgrPending (pending w)))
             (activeStyles w)
      /\ pending w' = [] /\ pendingHl w' = []
      /\ p w' = p w /\ position w' = position w /\ include w' = include w.
Proof.
  intros w Hok. unfold pendingOK in Hok.
  destruct (flush_all_loop (pending w) 0 w)
    as [w' (H0 & H1 & H2 & H3 & H4 & H5 & H6 & H7)]; [lia|].
  unfold flushPending, bind. rewrite H0.
  eexists. split; [reflexivity|]. walk_simpl.
  repeat split; assumption.
Qed.

(** *** Past the end *)

Lemma subspan_inner : forall inp s e k,
  0 <= s -> 0 <= k -> e <= len inp ->
  subspan (subspan inp s e) k (len (subspan inp s e) - 1)
  = subspan inp (s + k) (e - 1).
Proof.
  intros inp s e k Hs Hk He.
  destruct (Z_le_gt_dec (e - s) (k + 1)) as [Hshort | Hlong].
  - pose proof (len_subspan inp s e) as Hl.
    set (L := len (subspan inp s e)) in *. unfold subspan at 1.
    replace (Z.to_nat (L - 1 - k)) with 0%nat by lia. cbn [firstn].
    unfold subspan.
    replace (Z.to_nat (e - 1 - (s + k))) with 0%nat by lia.
    reflexivity.
  - assert (Hlen : len (subspan inp s e) = e - s).
    { unfold subspan, len in *. rewrite length_firstn, length_skipn. lia. }
    rewrite Hlen. unfold subspan.
    rewrite skipn_firstn_comm, firstn_firstn, skipn_skipn.
    replace (Z.to_nat k + Z.to_nat s)%nat with (Z.to_nat (s + k)) by lia.
    f_equal. lia.
Qed.

(** The parameters that the close-only filter parses are those that
    [applySgrToState] parses. *)
Lemma pendingSgrParams_agree : forall pa,
  pendingInside E pa ->
  let seq := pendingUnits E pa in
  let isC1 := match seq with c :: _ => c =? 0x9b | [] => false end in
  pendingSgrParams E pa
  = parseSgrParams (subspan seq (if isC1 then 1 else 2) (len seq - 1)).
Proof.
  intros pa [Hs He] seq isC1. unfold pendingSgrParams.
  fold (pendingUnits E pa). fold seq.
  assert (Hc : (hd 0 seq =? 0x9b) = isC1).
  { unfold isC1. destruct seq; reflexivity. }
  rewrite Hc. unfold seq, pendingUnits, span. unfold dataEnd in He.
  destruct isC1; rewrite subspan_inner by lia; reflexivity.
Qed.

Lemma closeOnlySgr_shrinks : forall pa styles,
  pendingInside E pa ->
  closeOnlySgr E pa styles = true ->
  Subseq (applySgrToState styles (pendingUnits E pa)) styles.
Proof.
  intros pa styles Hin H. unfold closeOnlySgr in H.
  rewrite (pendingSgrParams_agree pa Hin) in H. cbv zeta in H.
  match type of H with
  | (if overflow ?ps || hasColon ?ps then _ else _) = _ =>
      destruct (overflow ps) eqn:Ho; [discriminate|];
      destruct (hasColon ps) eqn:Hc; [discriminate|]
  end.
  cbn [orb] in H.
  apply (close_only_shrinks_aux styles (pendingUnits E pa) Ho Hc H).
Qed.

Lemma flush_close_loop : forall pas hlIdx w,
  Forall (pendingInside E) pas ->
  exists w' emitted,
    flushPending_loop E true pas hlIdx w = Ok w'
    /\ Subseq (activeStyles w') (activeStyles w)
    /\ (activeHyperlink w' = true -> activeHyperlink w = true)
    /\ Subseq emitted pas
    /\ Forall closingPending emitted
    /\ result w' = result w ++ concat (map (pendingUnits E) emitted)
    /\ activeHyperlinkCode w' = activeHyperlinkCode w
    /\ activeHyperlinkClosePrefix w' = activeHyperlinkClosePrefix w
    /\ activeHyperlinkTerminator w' = activeHyperlinkTerminator w
    /\ pendingHl w' = pendingHl w /\ pending w' = pending w
    /\ p w' = p w /\ position w' = position w /\ include w' = include w.
Proof.
  induction pas as [|pa pas IH]; intros hlIdx w Hin.
  - exists w, []. cbn [flushPending_loop map concat]. rewrite app_nil_r.
    split; [reflexivity|]. split; [apply Subseq_refl|].
    split; [auto|]. split; [apply Subseq_nil|]. split; [constructor|].
    repeat split; reflexivity.
  - inversion Hin as [|? ? Hpa Hpas]; subst.
    assert (Hskip : forall idx,
               exists w' emitted,
                 flushPending_loop E true pas idx w = Ok w'
                 /\ Subseq (activeStyles w') (activeStyles w)
                 /\ (activeHyperlink w' = true -> activeHyperlink w = true)
                 /\ Subseq emitted (pa :: pas)
                 /\ Forall closingPending emitted
                 /\ result w'
                    = result w ++ concat (map (pendingUnits E) emitted)
                 /\ activeHyperlinkCode w' = activeHyperlinkCode w
                 /\ activeHyperlinkClosePrefix w'
                    = activeHyperlinkClosePrefix w
                 /\ activeHyperlinkTerminator w'
                    = activeHyperlinkTerminator w
                 /\ pendingHl w' = pendingHl w /\ pending w' = pending w
                 /\ p w' = p w /\ position w' = position w
                 /\ include w' = include w).
    { intros idx.
      destruct (IH idx w Hpas)
        as [w' [em (H0 & H1 & H2 & H3 & H4 & H5 & Hrest)]].
      exists w', em. split; [exact H0|]. split; [exact H1|].
      split; [exact H2|]. split; [apply Subseq_skip; exact H3|].
      split; [exact H4|]. split; [exact H5|]. exact Hrest. }
    cbn [flushPending_loop]. destruct (pa_type pa) eqn:Ht; cbn [negb andb].
    + apply Hskip.
    + destruct (closeOnlySgr E pa (activeStyles w)) eqn:Hc; cbn [negb].
      2:{ apply Hskip. }
      match goal with
      | |- context [flushPending_loop E true pas hlIdx ?w1] =>
          destruct (IH hlIdx w1 Hpas)
            as [w' [em (H0 & H1 & H2 & H3 & H4 & H5 & Hrest)]]
      end.
      walk_simpl. exists w', (pa :: em). split; [exact H0|].
      split.
      { eapply Subseq_trans; [exact H1|].
        apply (closeOnlySgr_shrinks pa (activeStyles w) Hpa Hc). }
      split; [exact H2|]. split; [apply Subseq_keep; exact H3|].
      split; [constructor; [left; exact Ht | exact H4]|].
      split; [|exact Hrest].
      rewrite H5. cbn [map concat]. unfold pendingUnits at 2.
      rewrite <- app_assoc. reflexivity.
    + destruct (pa_hlOpen pa) eqn:Ho; cbn [negb orb].
      { apply Hskip. }
      destruct (activeHyperlink w) eqn:Ha; cbn [negb].
      2:{ apply Hskip. }
      match goal with
      | |- context [flushPending_loop E true pas (S hlIdx) ?w1] =>
          destruct (IH (S hlIdx) w1 Hpas)
            as [w' [em (H0 & H1 & H2 & H3 & H4 & H5 & Hrest)]]
      end.
      walk_simpl. exists w', (pa :: em). split; [exact H0|].
      split; [exact H1|]. split; [intros _; reflexivity|].
      split; [apply Subseq_keep; exact H3|].
      split; [constructor; [right; split; [exact Ht | exact Ho] | exact H4]|].
      split; [|exact Hrest].
      rewrite H5. cbn [map concat]. unfold pendingUnits at 2.
      rewrite <- app_assoc. reflexivity.
    + apply Hskip.
Qed.

(** X27: past the end the flush only closes.  Of the pending tokens it
    writes, in their order, only SGR tokens and hyperlink closes; the style
    tracker after it holds a part of the entries it held before, in their
    order; a hyperlink is active after it only if one was active before,
    with the same recorded code, close prefix and terminator; and the two
    pending buffers are empty. *)
Theorem flush_past_end :
  forall (w : Walk),
    Forall (pendingInside E) (pending w) ->
    exists w' emitted,
      flushPending E true w = Ok w'
      /\ Subseq emitted (pending w)
      /\ Forall closingPending emitted
      /\ result w' = result w ++ concat (map (pendingUnits E) emitted)
      /\ Subseq (activeStyles w') (activeStyles w)
      /\ (activeHyperlink w' = true ->
          activeHyperlink w = true
          /\ activeHyperlinkCode w' = activeHyperlinkCode w
          /\ activeHyperlinkClosePrefix w' = activeHyperlinkClosePrefix w
          /\ activeHyperlinkTerminator w' = activeHyperlinkTerminator w)
      /\ pending w' = [] /\ pendingHl w' = [].
Proof.
  intros w Hin.
  destruct (flush_close_loop (pending w) 0 w Hin)
    as [w' [em (H0 & H1 & H2 & H3 & H4 & H5 & H6 & H7 & H8 & _)]].
  unfold flushPending, bind. rewrite H0.
  eexists. exists em. split; [reflexivity|]. walk_simpl.
  split; [exact H3|]. split; [exact H4|]. split; [exact H5|].
  split; [exact H1|]. split; [|split; reflexivity].
  intros Ha. split; [exact (H2 Ha)|]. repeat split; assumption.
Qed.

End Flush.

Lemma flush_in_window_witness :
  let inp := [0x41; 0x1b; 0x5b; 0x31; 0x6d; 0x42] in
  let E := mkEnv inp 0 2 false 2 [] false 0 false in
  let w := set_pending [mkPending 1 5 SgrTok false]
             (set_include true (set_p 5 (initialWalk 1))) in
  exists w',
    flushPending E false w = Ok w'
    /\ result w'
       = result w
         ++ concat (map (pendingUnits E) (filter isToken (pending w)))
    /\ activeStyles w'
       = fold_left applySgrToState
           (map (pendingUnits E) (filter isSgrPending (pending w)))
           (activeStyles w)
    /\ pending w' = [] /\ pendingHl w' = []
    /\ p w' = p w /\ position w' = position w /\ include w' = include w.
Proof.
  intros inp E w. apply (flush_in_window E w). reflexivity.
Defined.

Lemma flush_past_end_witness :
  let inp := [0x41; 0x1b; 0x5b; 0x33; 0x39; 0x6d; 0x42] in
  let E := mkEnv inp 0 1 false 1 [] false 0 false in
  let w := set_pending [mkPending 1 6 SgrTok false]
             (set_activeStyles
                [mkEntry [0x1b; 0x5b; 0x33; 0x39; 0x6d]
                         [0x1b; 0x5b; 0x33; 0x31; 0x6d]]
                (set_include true (set_p 6 (initialWalk 1)))) in
  exists w' emitted,
    flushPending E true w = Ok w'
    /\ Subseq emitted (pending w)
    /\ Forall closingPending emitted
    /\ result w' = result w ++ concat (map (pendingUnits E) emitted)
    /\ Subseq (activeStyles w') (activeStyles w)
    /\ (activeHyperlink w' = true ->
        activeHyperlink w = true
        /\ activeHyperlinkCode w' = activeHyperlinkCode w
        /\ activeHyperlinkClosePrefix w' = activeHyperlinkClosePrefix w
        /\ activeHyperlinkTerminator w' = activeHyperlinkTerminator w)
    /\ pending w' = [] /\ pendingHl w' = [].
Proof.
  intros inp E w. apply (flush_past_end E w).
  constructor; [|constructor].
  unfold pendingInside, dataEnd, len. simpl. lia.
Defined.

End FlushFacts.

Module PendingInvariant.

Import Sgr Ansi Slice Shape SpanFacts TokenizerBounds WalkFacts.
Import HyperlinkTokens.

Section Engine.

Variable W : Z -> bool -> Z.
Variable EP : Z -> bool.
Variable GB : Z -> Z -> Z -> bool * Z.
Variable is16 : bool.
Variable E : Env.

Lemma flushPending_nil : forall f w w',
  flushPending E f w = Ok w' -> pending w' = [].
Proof.
  intros f w w' H. unfold flushPending, bind in H.
  destruct (flushPending_loop E f (pending w) 0 w); try discriminate.
  injection H as <-. reflexivity.
Qed.

Ltac flush_cases H :=
  repeat match type of H with
         | context [flushPending E ?f ?w] =>
             let Hf := fresh "Hf" in
             destruct (flushPending E f w) eqn:Hf;
             [apply flushPending_nil in Hf | |]
         end.

(** [processVisibleCp] leaves the pending buffer empty. *)
Lemma processVisibleCp_pending : forall cp charLen w w' b,
  processVisibleCp W EP GB E cp charLen w = Ok (w', b) -> pending w' = [].
Proof.
  intros cp n w w' b H. unfold processVisibleCp in H.
  destruct (shouldBreakAt GB (hasPrev w) (prevVisCp w) cp (breakState w))
    as [sb bs].
  destruct sb.
  - destruct (negb (endUnbounded E)
              && (specEnd E <=? position (commitWidth (set_breakState bs w)))).
    + unfold bind in H. flush_cases H; try discriminate.
      injection H as <- <-. assumption.
    + match type of H with
      | context [include ?w2] => destruct (include w2)
      end; unfold bind in H.
      * flush_cases H; try discriminate.
        match type of H with
        | context [if ?c then _ else _] => destruct c
        end; injection H as <- <-; walk_simpl; assumption.
      * injection H as <- <-. reflexivity.
  - destruct (include (set_breakState bs w)); unfold bind in H.
    + flush_cases H; try discriminate.
      match type of H with
      | context [if ?c then _ else _] => destruct c
      end; injection H as <- <-; walk_simpl; assumption.
    + injection H as <- <-. reflexivity.
Qed.

(** The bulk phase empties the pending buffer or leaves it as it is. *)
Lemma bulkPhase_pending : forall bulkN w flow,
  bulkPhase E bulkN w = Ok flow ->
  pending (stateOf flow) = [] \/ pending (stateOf flow) = pending w.
Proof.
  intros bulkN w flow H. unfold bulkPhase in H.
  destruct (0 <? bulkN); [|injection H as <-; right; reflexivity].
  set (w1 := if hasPrev w then set_hasPrev false (commitWidth w) else w) in H.
  assert (H1 : pending w1 = pending w).
  { unfold w1. destruct (hasPrev w); walk_simpl;
      [apply pending_commitWidth | reflexivity]. }
  clearbody w1.
  destruct (hasPrev w && negb (endUnbounded E) && (specEnd E <=? position w1)).
  { unfold bind in H. flush_cases H; try discriminate.
    injection H as <-. left. assumption. }
  match type of H with
  | context [let '(w, bulkN) := ?c in _] => set (st2 := c) in H
  end.
  assert (H2 : pending (fst st2) = pending w).
  { unfold st2. destruct (negb (include w1) && (position w1 <? start E));
      cbn [fst]; walk_simpl; exact H1. }
  destruct st2 as [w2 n2]. cbn [fst] in H2.
  set (w3 := if (0 <? n2) && negb (include w2) && (start E <=? position w2)
             then enterWindow E w2 else w2) in H.
  assert (H3 : pending w3 = pending w).
  { unfold w3.
    destruct ((0 <? n2) && negb (include w2) && (start E <=? position w2));
      [rewrite pending_enterWindow|]; exact H2. }
  clearbody w3.
  destruct ((0 <? n2) && include w3).
  2:{ injection H as <-. right. cbn [stateOf]. walk_simpl. exact H3. }
  unfold bind in H. flush_cases H; try discriminate.
  match type of H with
  | context [let '(w, bulkN) := ?c in _] => set (st5 := c) in H
  end.
  assert (H5 : pending (fst st5) = []).
  { unfold st5.
    repeat match goal with
           | |- context [if ?c then _ else _] => destruct c
           end; cbn [fst]; walk_simpl; assumption. }
  destruct st5 as [w5 n5]. cbn [fst] in H5.
  match type of H with
  | context [if ?c then _ else _] => destruct c
  end; injection H as <-; left; cbn [stateOf]; walk_simpl; exact H5.
Qed.

(** The per-unit loop empties the pending buffer or leaves it as it is. *)
Lemma perCharLoop_pending : forall fuel runEnd w flow,
  perCharLoop W EP GB is16 E fuel runEnd w = Ok flow ->
  pending (stateOf flow) = [] \/ pending (stateOf flow) = pending w.
Proof.
  induction fuel as [|fuel IH]; intros runEnd w flow H;
    cbn [perCharLoop] in H; destruct (p w <? runEnd);
    try discriminate; try (injection H as <-; right; reflexivity).
  destruct (decodeAt is16 (from E (p w))) as [cp n].
  unfold bind in H.
  destruct (processVisibleCp W EP GB E cp n w) as [[w' b]| |] eqn:Hv;
    try discriminate.
  apply processVisibleCp_pending in Hv. cbn [fst snd] in H. destruct b.
  - destruct (IH runEnd w' flow H) as [Hn | Hs]; left; congruence.
  - injection H as <-. left. exact Hv.
Qed.

(** The escape phase keeps the invariant: what it appends to the pending
    buffer is a token of the input. *)
Lemma escapePhase_tokens : forall w flow,
  0 <= p w < dataEnd E ->
  pendingTokens E w ->
  escapePhase W EP GB is16 E w = Ok flow ->
  pendingTokens E (stateOf flow).
Proof.
  intros w flow Hp [Hin Htok] H. unfold escapePhase in H.
  destruct (from_cons E (p w) Hp) as [c [l [Hfrom Hlen]]].
  rewrite Hfrom in H. cbn [hd] in H.
  destruct (if isEscapeCharacter c || (c =? 0x9c)
            then tryParseAnsi (c :: l) else None) as [tok|] eqn:Ht.
  - assert (Hparse : tryParseAnsi (c :: l) = Some tok).
    { destruct (isEscapeCharacter c || (c =? 0x9c)); [exact Ht|discriminate]. }
    pose proof (tryParseAnsi_bounds _ _ Hparse) as Hend.
    pose proof (tryParseAnsi_not_character _ _ Hparse) as Hty.
    injection H as <-. cbn [stateOf]. walk_simpl.
    destruct (include w); cbn [negb].
    + assert (Hnew : Forall (pendingInside E)
                       (pending w ++ [mkPending (p w) (p w + tokEnd tok)
                                        (tokType tok) (tokHlOpen tok)])
                     /\ Forall (fun pa => isToken pa = true)
                          (pending w ++ [mkPending (p w) (p w + tokEnd tok)
                                           (tokType tok) (tokHlOpen tok)])).
      { split; apply Forall_app; (split; [assumption|]);
          (apply Forall_cons; [|apply Forall_nil]).
        - unfold pendingInside. cbn [pa_start pa_end]. lia.
        - unfold isToken. cbn [pa_type].
          destruct (tokType tok); try reflexivity.
          contradiction Hty; reflexivity. }
      unfold pendingTokens.
      destruct (TokenType_eqb (tokType tok) Hyperlink); walk_simpl;
        exact Hnew.
    + unfold pendingTokens.
      destruct (tokType tok); walk_simpl; try (split; assumption).
      destruct (tokHlOpen tok); walk_simpl; split; assumption.
  - destruct (decodeAt is16 (c :: l)) as [cp n].
    unfold bind in H.
    destruct (processVisibleCp W EP GB E cp n w) as [[w' b]| |] eqn:Hv;
      try discriminate.
    apply processVisibleCp_pending in Hv. cbn [fst snd] in H.
    injection H as <-. unfold pendingTokens.
    destruct b; cbn [stateOf]; rewrite Hv; split; constructor.
Qed.

Lemma pendingTokens_kept : forall w w',
  pending w' = [] \/ pending w' = pending w ->
  pendingTokens E w -> pendingTokens E w'.
Proof.
  intros w w' [H | H] Hw; unfold pendingTokens; rewrite H;
    [split; constructor | exact Hw].
Qed.

(** An iteration of the main loop keeps the invariant. *)
Lemma walk_iter_tokens : forall fuel w,
  0 <= p w < dataEnd E -> pendingOK w -> pendingTokens E w ->
  dataEnd E - p w <= Z.of_nat fuel ->
  exists flow,
    walk_iter W EP GB is16 E fuel w = Ok flow
    /\ pendingOK (stateOf flow) /\ pendingTokens E (stateOf flow)
    /\ match flow with
       | Next w' => p w < p w' <= dataEnd E
       | Stop _ => True
       end.
Proof.
  intros fuel w Hp Hok Htok Hfuel. unfold walk_iter.
  set (scanEnd := if endUnbounded E then dataEnd E else _).
  assert (Hscan : scanEnd <= dataEnd E).
  { unfold scanEnd. destruct (endUnbounded E); [lia|].
    match goal with
    | |- context [dataEnd E - p w <=? ?b] =>
        destruct (dataEnd E - p w <=? b) eqn:Hb;
        [lia | apply Z.leb_gt in Hb; lia]
    end. }
  clearbody scanEnd.
  set (runEnd := match findEscapeCharacter (span E (p w) scanEnd) with
                 | Some i => p w + i
                 | None => scanEnd
                 end).
  assert (Hrun : runEnd <= dataEnd E).
  { unfold runEnd.
    destruct (findEscapeCharacter (span E (p w) scanEnd)) as [i|] eqn:Hi;
      [|assumption].
    apply findEscapeCharacter_bounds in Hi.
    pose proof (len_subspan (input E) (p w) scanEnd) as Hl.
    unfold span in Hi. lia. }
  clearbody runEnd.
  set (asciiLen := firstNonAsciiPrintable (laneBits is16) (span E (p w) runEnd)).
  assert (Hascii : 0 <= asciiLen <= Z.max 0 (runEnd - p w)).
  { pose proof (firstNonAsciiPrintable_bounds (laneBits is16)
                  (span E (p w) runEnd)) as Ha.
    pose proof (len_subspan (input E) (p w) runEnd) as Hl.
    unfold asciiLen, span in *. lia. }
  clearbody asciiLen.
  set (bulkN := if 1 <? asciiLen then asciiLen - 1 else 0).
  assert (Hbulk : 0 <= bulkN /\ p w + bulkN <= dataEnd E).
  { unfold bulkN. destruct (1 <? asciiLen) eqn:Ha; [|lia].
    apply Z.ltb_lt in Ha. lia. }
  clearbody bulkN. destruct Hbulk as [Hbulk Hbulk'].
  destruct (bulkPhase_ok E bulkN w Hok Hbulk) as [f1 [Hf1 Hres1]].
  pose proof (pendingTokens_kept w (stateOf f1) (bulkPhase_pending _ _ _ Hf1)
                Htok) as Htok1.
  rewrite Hf1. cbn [bind]. destruct f1 as [w1|w1]; cbn [stateOf] in Htok1.
  2:{ eexists. split; [reflexivity|]. cbn [stateOf].
      split; [exact Hres1 | split; [exact Htok1 | exact I]]. }
  destruct Hres1 as [Hp1 Hok1].
  destruct (perCharLoop_ok W EP GB is16 E fuel runEnd w1 Hok1)
    as [f2 [Hf2 Hres2]]; try lia.
  pose proof (pendingTokens_kept w1 (stateOf f2)
                (perCharLoop_pending _ _ _ _ Hf2) Htok1) as Htok2.
  rewrite Hf2. cbn [bind]. destruct f2 as [w2|w2]; cbn [stateOf] in Htok2.
  2:{ eexists. split; [reflexivity|]. cbn [stateOf].
      split; [exact Hres2 | split; [exact Htok2 | exact I]]. }
  destruct Hres2 as [Hp2 Hok2].
  destruct (dataEnd E <=? p w2) eqn:Hend.
  - eexists. split; [reflexivity|]. cbn [stateOf].
    split; [exact Hok2 | split; [exact Htok2 | exact I]].
  - apply Z.leb_gt in Hend.
    destruct (escapePhase_ok W EP GB is16 E w2) as [f3 [Hf3 Hres3]];
      [lia|assumption|].
    exists f3. split; [exact Hf3|].
    pose proof (escapePhase_tokens w2 f3 ltac:(lia) Htok2 Hf3) as Htok3.
    destruct f3 as [w3|w3]; cbn [stateOf] in *.
    + destruct Hres3 as [Hp3 Hok3].
      split; [exact Hok3 | split; [exact Htok3 | lia]].
    + split; [exact Hres3 | split; [exact Htok3 | exact I]].
Qed.

(** X28: the pending buffer holds tokens of the input, an invariant of
    the main loop.  It is empty when the loop is entered, and an iteration
    that starts with a buffer whose entries lie inside the input, none of
    them a Character, and with the parse state of every pending hyperlink
    at hand, returns and ends with such a buffer; when the loop goes on the
    cursor has moved forward inside the input. *)
Theorem pending_buffer_invariant :
  forall (fuel : nat) (w : Walk),
    0 <= p w < dataEnd E ->
    pendingOK w ->
    pendingTokens E w ->
    dataEnd E - p w <= Z.of_nat fuel ->
    (forall position0,
        pendingOK (initialWalk position0)
        /\ pendingTokens E (initialWalk position0))
    /\ exists flow,
         walk_iter W EP GB is16 E fuel w = Ok flow
         /\ pendingOK (stateOf flow)
         /\ pendingTokens E (stateOf flow)
         /\ match flow with
            | Next w' => p w < p w' <= dataEnd E
            | Stop _ => True
            end.
Proof.
  intros fuel w Hp Hok Htok Hfuel. split.
  - intros position0. split; [reflexivity | split; constructor].
  - apply walk_iter_tokens; assumption.
Qed.

End Engine.

Lemma pending_buffer_invariant_witness :
  let W := fun (_ : Z) (_ : bool) => 1 in
  let EP := fun _ : Z => false in
  let GB := fun (_ _ st : Z) => (true, st) in
  let E := mkEnv [0x41; 0x1b; 0x5b; 0x31; 0x6d; 0x42] 0 2 false 2 [] false 0
                 false in
  let w := initialWalk 0 in
  (forall position0,
      pendingOK (initialWalk position0)
      /\ pendingTokens E (initialWalk position0))
  /\ exists flow,
       walk_iter W EP GB false E 6 w = Ok flow
       /\ pendingOK (stateOf flow)
       /\ pendingTokens E (stateOf flow)
       /\ match flow with
          | Next w' => p w < p w' <= dataEnd E
          | Stop _ => True
          end.
Proof.
  intros W EP GB E w.
  apply (pending_buffer_invariant W EP GB false E 6 w).
  - unfold dataEnd, len. simpl. lia.
  - reflexivity.
  - split; constructor.
  - unfold dataEnd, len. simpl. lia.
Defined.

End PendingInvariant.

Module ReopenFacts.

Import Sgr Shape SpanFacts SgrFacts SgrRoundTrip.

Lemma written_applies : forall isC1 codes s,
  codes <> [] ->
  Forall paramOk codes ->
  (length codes <= 5)%nat ->
  applySgrToState s (makeSgrCodeMulti isC1 codes)
  = applySgrParams isC1 codes s.
Proof.
  intros isC1 codes s Hne Hok Hlen.
  apply (written_codes_round_trip isC1 codes s Hne Hok).
  unfold kMax, len. lia.
Qed.

Lemma makeSgrCode_multi : forall isC1 code,
  makeSgrCode isC1 code = makeSgrCodeMulti isC1 [code].
Proof. reflexivity. Qed.

(** The entries that [applySgrParams] starts. *)
Lemma reopens_ext_alone : forall isC1 code,
  paramOk code -> (code =? 38) || (code =? 48) = true ->
  reopens (mkEntry (makeSgrCode false (if code =? 38 then 39 else 49))
                   (makeSgrCode isC1 code)).
Proof.
  intros isC1 code Hok Hext s. cbn [openCode endCode].
  rewrite makeSgrCode_multi, written_applies;
    [|discriminate | constructor; [exact Hok | constructor] | cbn; lia].
  cbn [applySgrParams]. rewrite Hext.
  assert (H0 : (code =? 0) = false).
  { apply orb_true_iff in Hext.
    destruct Hext as [H | H]; apply Z.eqb_eq in H; subst; reflexivity. }
  rewrite H0. reflexivity.
Qed.

Lemma reopens_ext_256 : forall isC1 code n,
  paramOk code -> paramOk n -> (code =? 38) || (code =? 48) = true ->
  reopens (mkEntry (makeSgrCode false (if code =? 38 then 39 else 49))
                   (makeSgrCodeMulti isC1 [code; 5; n])).
Proof.
  intros isC1 code n Hok Hn Hext s. cbn [openCode endCode].
  rewrite written_applies;
    [|discriminate
     | apply Forall_cons; [exact Hok|];
       apply Forall_cons; [unfold paramOk; lia|];
       apply Forall_cons; [exact Hn | apply Forall_nil]
     | cbn; lia].
  cbn [applySgrParams]. rewrite Hext.
  assert (H0 : (code =? 0) = false).
  { apply orb_true_iff in Hext.
    destruct Hext as [H | H]; apply Z.eqb_eq in H; subst; reflexivity. }
  rewrite H0. change (5 =? 5) with true. reflexivity.
Qed.

Lemma reopens_ext_rgb : forall isC1 code n g b,
  paramOk code -> paramOk n -> paramOk g -> paramOk b ->
  (code =? 38) || (code =? 48) = true ->
  reopens (mkEntry (makeSgrCode false (if code =? 38 then 39 else 49))
                   (makeSgrCodeMulti isC1 [code; 2; n; g; b])).
Proof.
  intros isC1 code n g b Hok Hn Hg Hb Hext s. cbn [openCode endCode].
  rewrite written_applies;
    [|discriminate
     | apply Forall_cons; [exact Hok|];
       apply Forall_cons; [unfold paramOk; lia|];
       apply Forall_cons; [exact Hn|];
       apply Forall_cons; [exact Hg|];
       apply Forall_cons; [exact Hb | apply Forall_nil]
     | cbn; lia].
  cbn [applySgrParams]. rewrite Hext.
  assert (H0 : (code =? 0) = false).
  { apply orb_true_iff in Hext.
    destruct Hext as [H | H]; apply Z.eqb_eq in H; subst; reflexivity. }
  rewrite H0. change (2 =? 5) with false. change (2 =? 2) with true.
  reflexivity.
Qed.

Lemma reopens_simple : forall isC1 code,
  paramOk code ->
  (code =? 0) = false -> (code =? 38) || (code =? 48) = false ->
  isSgrEndCode code = false ->
  reopens (mkEntry (if negb (sgrCloseCode code =? 0)
                    then makeSgrCode false (sgrCloseCode code)
                    else resetCode)
                   (makeSgrCode isC1 code)).
Proof.
  intros isC1 code Hok H0 Hext Hend s. cbn [openCode endCode].
  rewrite makeSgrCode_multi, written_applies;
    [|discriminate | constructor; [exact Hok | constructor] | cbn; lia].
  cbn [applySgrParams]. rewrite H0, Hext, Hend. cbv zeta.
  destruct (negb (sgrCloseCode code =? 0)); reflexivity.
Qed.

(** The entry that a sequence with a colon or too many parameters
    starts. *)
Lemma reopens_opaque : forall seq,
  let isC1 := match seq with c :: _ => c =? 0x9b | [] => false end in
  let params :=
    parseSgrParams (subspan seq (if isC1 then 1 else 2) (len seq - 1)) in
  hasColon params || overflow params = true ->
  reopens (mkEntry
             (if negb (sgrCloseCode
                         match data params with [] => 0 | v :: _ => v end
                       =? 0)
              then makeSgrCode false
                     (sgrCloseCode
                        match data params with [] => 0 | v :: _ => v end)
              else resetCode)
             seq).
Proof.
  intros seq isC1 params H s. cbn [openCode endCode].
  unfold applySgrToState. fold isC1. fold params. cbv zeta.
  rewrite H. reflexivity.
Qed.

Lemma kept_applyStart : forall o e st,
  NoDup (map endCode st) /\ Forall reopens st ->
  reopens (mkEntry e o) ->
  NoDup (map endCode (applyStart o e st))
  /\ Forall reopens (applyStart o e st).
Proof.
  intros o e st [Hnd Hall] Hnew. split.
  - apply applyStart_NoDup. exact Hnd.
  - unfold applyStart, removeAllMatching. apply Forall_app. split.
    + apply Forall_forall. intros x Hx. apply filter_In in Hx.
      rewrite Forall_forall in Hall. apply Hall. tauto.
    + constructor; [exact Hnew | constructor].
Qed.

Lemma kept_applyEnd : forall e st,
  NoDup (map endCode st) /\ Forall reopens st ->
  NoDup (map endCode (applyEnd e st)) /\ Forall reopens (applyEnd e st).
Proof.
  intros e st [Hnd Hall]. unfold applyEnd, removeAllMatching. split.
  - apply NoDup_map_filter. exact Hnd.
  - apply Forall_forall. intros x Hx. apply filter_In in Hx.
    rewrite Forall_forall in Hall. apply Hall. tauto.
Qed.

Lemma kept_nil : NoDup (map endCode []) /\ Forall reopens [].
Proof. split; constructor. Qed.

Lemma kept_applySgrParams : forall n isC1 ps st,
  (length ps <= n)%nat ->
  Forall paramOk ps ->
  NoDup (map endCode st) /\ Forall reopens st ->
  NoDup (map endCode (applySgrParams isC1 ps st))
  /\ Forall reopens (applySgrParams isC1 ps st).
Proof.
  induction n as [|n IH]; intros isC1 ps st Hlen Hps Hst.
  - destruct ps; [exact Hst | simpl in Hlen; lia].
  - destruct ps as [|code rest]; [exact Hst|].
    assert (Hin : forall x, In x (code :: rest) -> paramOk x)
      by (apply Forall_forall; exact Hps).
    clear Hps.
    cbn [length] in Hlen. cbn [applySgrParams].
    assert (Hc : paramOk code) by (apply Hin; left; reflexivity).
    destruct (code =? 0) eqn:H0.
    { apply IH; [lia | | apply kept_nil].
      apply Forall_forall. intros x Hx. apply Hin. right. exact Hx. }
    destruct ((code =? 38) || (code =? 48)) eqn:Hext.
    { cbv zeta.
      destruct rest as [|colorType [|n0 r3]].
      - apply IH; [simpl in *; lia | constructor|].
        apply kept_applyStart; [exact Hst|].
        apply reopens_ext_alone; assumption.
      - apply IH; [simpl in *; lia | |].
        + apply Forall_forall. intros x Hx. apply Hin. right. exact Hx.
        + apply kept_applyStart; [exact Hst|].
          apply reopens_ext_alone; assumption.
      - assert (Hn0 : paramOk n0) by (apply Hin; cbn [In]; tauto).
        destruct (colorType =? 5).
        + apply IH; [simpl in *; lia | |].
          * apply Forall_forall. intros x Hx. apply Hin. cbn [In]. tauto.
          * apply kept_applyStart; [exact Hst|].
            apply reopens_ext_256; assumption.
        + destruct r3 as [|g [|b r5]].
          * apply IH; [simpl in *; lia | |].
            -- apply Forall_forall. intros x Hx. apply Hin. right. exact Hx.
            -- apply kept_applyStart; [exact Hst|].
               apply reopens_ext_alone; assumption.
          * apply IH; [simpl in *; lia | |].
            -- apply Forall_forall. intros x Hx. apply Hin. right. exact Hx.
            -- apply kept_applyStart; [exact Hst|].
               apply reopens_ext_alone; assumption.
          * assert (Hg : paramOk g) by (apply Hin; cbn [In]; tauto).
            assert (Hb : paramOk b) by (apply Hin; cbn [In]; tauto).
            destruct (colorType =? 2).
            -- apply IH; [simpl in *; lia | |].
               ++ apply Forall_forall. intros x Hx. apply Hin. cbn [In]. tauto.
               ++ apply kept_applyStart; [exact Hst|].
                  apply reopens_ext_rgb; assumption.
            -- apply IH; [simpl in *; lia | |].
               ++ apply Forall_forall. intros x Hx. apply Hin. right. exact Hx.
               ++ apply kept_applyStart; [exact Hst|].
                  apply reopens_ext_alone; assumption. }
    assert (Hrest : Forall paramOk rest).
    { apply Forall_forall. intros x Hx. apply Hin. right. exact Hx. }
    destruct (isSgrEndCode code) eqn:Hend.
    { apply IH; [lia | exact Hrest|]. apply kept_applyEnd. exact Hst. }
    cbv zeta.
    pose proof (reopens_simple isC1 code Hc H0 Hext Hend) as Hre.
    destruct (negb (sgrCloseCode code =? 0));
      (apply IH; [lia | exact Hrest|]);
      (apply kept_applyStart; [exact Hst | exact Hre]).
Qed.

Lemma kept_applySgrToState : forall st seq,
  NoDup (map endCode st) /\ Forall reopens st ->
  NoDup (map endCode (applySgrToState st seq))
  /\ Forall reopens (applySgrToState st seq).
Proof.
  intros st seq Hst.
  pose proof (reopens_opaque seq) as Hop. cbv zeta in Hop.
  unfold applySgrToState. cbv zeta.
  set (params := parseSgrParams _) in *.
  assert (Hok : Forall paramOk (data params)).
  { unfold params, parseSgrParams. apply parseSgrParams_loop_ok.
    - constructor.
    - unfold paramOk. lia. }
  clearbody params.
  destruct (hasColon params || overflow params).
  - apply kept_applyStart; [exact Hst|]. apply Hop. reflexivity.
  - destruct (params_size params =? 0); [apply kept_nil|].
    apply (kept_applySgrParams (length (data params)));
      [lia | exact Hok | exact Hst].
Qed.

Lemma filter_none : forall (k : list Z) (st : SgrStyleState),
  ~ In k (map endCode st) ->
  removeAllMatching (fun e => String_eqb (endCode e) k) st = st.
Proof.
  intros k st. unfold removeAllMatching.
  induction st as [|x st IH]; intros Hnot; [reflexivity|].
  cbn [filter map In] in *.
  destruct (String_eqb (endCode x) k) eqn:Hx.
  - apply String_eqb_eq in Hx. contradiction Hnot. left. exact Hx.
  - cbn [negb]. f_equal. apply IH. tauto.
Qed.

Lemma reopen_all : forall l s0,
  NoDup (map endCode (s0 ++ l)) ->
  Forall reopens l ->
  fold_left applySgrToState (map openCode l) s0 = s0 ++ l.
Proof.
  induction l as [|e l IH]; intros s0 Hnd Hall.
  - cbn [map fold_left]. symmetry. apply app_nil_r.
  - inversion Hall as [|? ? He Hl]; subst.
    cbn [map fold_left]. rewrite (He s0). unfold applyStart.
    rewrite filter_none.
    + assert (Heta : mkEntry (endCode e) (openCode e) = e)
        by (destruct e; reflexivity).
      rewrite Heta, IH.
      * rewrite <- app_assoc. reflexivity.
      * rewrite <- app_assoc. exact Hnd.
      * exact Hl.
    + rewrite map_app in Hnd. cbn [map] in Hnd.
      apply NoDup_remove_2 in Hnd. intros Hin. apply Hnd.
      apply in_or_app. left. exact Hin.
Qed.

(** X29: the open codes rebuild the tracker.  For the style state that
    any run of SGR sequences leaves, applying the open codes of its
    entries, in their order, to the empty state gives this state again:
    the opens that the slicer writes when it enters the window carry the
    whole style state into its output. *)
Theorem open_codes_rebuild_tracker :
  forall seqs : list (list Z),
    let st := fold_left applySgrToState seqs [] in
    fold_left applySgrToState (map openCode st) [] = st.
Proof.
  intros seqs st.
  assert (H : NoDup (map endCode st) /\ Forall reopens st).
  { unfold st. clear st.
    induction seqs as [|seq seqs IH] using rev_ind.
    - apply kept_nil.
    - rewrite fold_left_app. cbn [fold_left].
      apply kept_applySgrToState. exact IH. }
  destruct H as [Hnd Hall].
  apply (reopen_all st [] Hnd Hall).
Qed.

End ReopenFacts.

Module WidthPrePass.

Import Grapheme Sgr Ansi Num Slice Shape SpanFacts TokenizerBounds WalkFacts.
Import TotalityFacts WindowFacts.

Lemma printable_bounds : forall c, printable c = true -> 0x20 <= c <= 0x7E.
Proof.
  intros c H. unfold printable in H. apply andb_true_iff in H.
  destruct H as [H0 H1]. apply Z.leb_le in H0. apply Z.leb_le in H1. lia.
Qed.

Lemma printable_not_escape : forall c,
  printable c = true -> isEscapeCharacter c || (c =? 0x9c) = false.
Proof.
  intros c H. apply printable_bounds in H.
  unfold isEscapeCharacter. cbn [existsb].
  repeat match goal with
         | |- context [c =? ?k] =>
             let E := fresh "E" in
             assert (E : (c =? k) = false) by (apply Z.eqb_neq; lia);
             rewrite E; clear E
         end.
  reflexivity.
Qed.

Lemma printable_no_surrogate : forall c,
  printable c = true -> (Z.land c 0xfffffc00 =? 0xd800) = false.
Proof.
  intros c H. apply printable_bounds in H.
  assert (Hall : forallb (fun n => negb (Z.land (0x20 + Z.of_nat n) 0xfffffc00
                                         =? 0xd800)) (seq 0 95) = true)
    by (vm_compute; reflexivity).
  rewrite forallb_forall in Hall.
  specialize (Hall (Z.to_nat (c - 0x20))).
  replace (0x20 + Z.of_nat (Z.to_nat (c - 0x20))) with c in Hall by lia.
  apply negb_true_iff. apply Hall. apply in_seq. lia.
Qed.

Section Engine.

Variable W : Z -> bool -> Z.
Variable EP : Z -> bool.
Variable GB : Z -> Z -> Z -> bool * Z.
Variable is16 : bool.

Lemma printable_decodeAt : forall c l,
  printable c = true -> decodeAt is16 (c :: l) = (c, 1).
Proof.
  intros c l H. unfold decodeAt. destruct is16.
  - unfold decodeUTF16. rewrite (printable_no_surrogate c H). reflexivity.
  - cbn [hd]. apply printable_bounds in H. unfold wrap8.
    rewrite Z.mod_small; [reflexivity|].
    change (2 ^ 8) with 256. lia.
Qed.

Lemma printable_width : forall c amb,
  printable c = true -> W c amb = 1 ->
  width (Grapheme.reset W EP c amb) = 1.
Proof.
  intros c amb H HW. apply printable_bounds in H.
  unfold width, Grapheme.reset.
  cbn [count regionalIndicator keycap emojiBase skinTone zwj vs15 vs16
       nonEmojiWidth].
  change (1 =? 0) with false. cbn iota.
  assert (H1 : (0x1F1E6 <=? c) = false) by (apply Z.leb_gt; lia).
  assert (H2 : (c =? 0x20E3) = false) by (apply Z.eqb_neq; lia).
  assert (H3 : (0x1F3FB <=? c) = false) by (apply Z.leb_gt; lia).
  assert (H4 : (c =? 0x200D) = false) by (apply Z.eqb_neq; lia).
  rewrite H1, H2, H3, H4, HW. cbn [andb orb].
  rewrite andb_false_r. reflexivity.
Qed.

Lemma computeTotalWidth_seed : forall fuel inp k amb,
  computeTotalWidth W EP GB is16 fuel inp k amb
  = (s <- totalWidth_loop W EP GB is16 fuel inp amb
            (widthSeed W EP inp k amb) ;;
     Ok (if tw_hasPrev s then wrap64 (tw_totalW s + width (tw_gs s))
         else tw_totalW s)).
Proof.
  intros fuel inp k amb. unfold computeTotalWidth, widthSeed.
  destruct (0 <? k); reflexivity.
Qed.

Lemma skipn_nth_cons : forall (l : list Z) n,
  (n < length l)%nat -> skipn n l = nth n l 0 :: skipn (S n) l.
Proof.
  induction l as [|c l IH]; intros n H; [cbn [length] in H; lia|].
  destruct n as [|n]; [reflexivity|].
  cbn [skipn nth]. cbn [length] in H. rewrite IH by lia. reflexivity.
Qed.

Lemma nth_firstn_printable : forall (l : list Z) k j,
  forallb printable (firstn k l) = true ->
  (j < k)%nat -> (j < length l)%nat ->
  printable (nth j l 0) = true.
Proof.
  induction l as [|c l IH]; intros k j H Hj Hl; [cbn [length] in Hl; lia|].
  destruct k as [|k]; [lia|].
  cbn [firstn forallb] in H. apply andb_true_iff in H. destruct H as [Hc H].
  destruct j as [|j]; [exact Hc|].
  cbn [nth]. cbn [length] in Hl. apply (IH k j H); lia.
Qed.

Section Oracles.

Variable inp : list Z.
Variable k : Z.
Variable amb : bool.

Hypothesis W_ascii : forall c, printable c = true -> W c amb = 1.
Hypothesis GB_ascii : forall a b,
  printable a = true -> printable b = true -> GB a b 0 = (true, 0).
Hypothesis k_range : 0 <= k <= len inp.
Hypothesis size_range : len inp <= SIZE_MAX.
Hypothesis prefix_printable :
  forallb printable (firstn (Z.to_nat k) inp) = true.

Lemma printable_at : forall j, 0 <= j < k -> printable (nth (Z.to_nat j) inp 0) = true.
Proof.
  intros j Hj. apply (nth_firstn_printable inp (Z.to_nat k));
    [exact prefix_printable | lia | unfold len in k_range; lia].
Qed.

(** One iteration over a unit of the prefix: the locals are those of the
    entry with one more unit taken. *)
Lemma totalWidth_iter_seed : forall j,
  0 <= j < k ->
  totalWidth_iter W EP GB is16 inp amb (widthSeed W EP inp j amb)
  = widthSeed W EP inp (j + 1) amb.
Proof.
  intros j Hj. pose proof (printable_at j Hj) as Hc.
  unfold totalWidth_iter.
  assert (Hp : tw_p (widthSeed W EP inp j amb) = j).
  { unfold widthSeed. destruct (0 <? j); reflexivity. }
  rewrite Hp. rewrite (skipn_nth_cons inp (Z.to_nat j))
    by (unfold len in k_range; lia).
  cbn [hd]. set (c := nth (Z.to_nat j) inp 0) in *.
  rewrite (printable_not_escape c Hc), (printable_decodeAt c _ Hc).
  assert (Hrhs : widthSeed W EP inp (j + 1) amb
                 = mkWidthWalk (j + 1) j c true 0 (Grapheme.reset W EP c amb)).
  { unfold widthSeed.
    assert (H1 : (0 <? j + 1) = true) by (apply Z.ltb_lt; lia).
    rewrite H1. replace (j + 1 - 1) with j by lia. reflexivity. }
  rewrite Hrhs. clear Hrhs Hp.
  unfold widthSeed. destruct (0 <? j) eqn:H0.
  - apply Z.ltb_lt in H0.
    pose proof (printable_at (j - 1) ltac:(lia)) as Hprev.
    set (prev := nth (Z.to_nat (j - 1)) inp 0) in *.
    cbn [tw_p tw_totalW tw_prevCp tw_hasPrev tw_breakState tw_gs].
    unfold shouldBreakAt. cbn [negb].
    pose proof (printable_bounds prev Hprev) as Hb.
    pose proof (printable_bounds c Hc) as Hbc.
    assert (E1 : (prev =? 0x0D) = false) by (apply Z.eqb_neq; lia).
    assert (E2 : (prev =? 0x0A) = false) by (apply Z.eqb_neq; lia).
    assert (E3 : (c =? 0x0D) = false) by (apply Z.eqb_neq; lia).
    assert (E4 : (c =? 0x0A) = false) by (apply Z.eqb_neq; lia).
    rewrite E1, E2, E3, E4. cbn [andb orb].
    rewrite (GB_ascii prev c Hprev Hc).
    rewrite (printable_width prev amb Hprev (W_ascii prev Hprev)).
    replace (j - 1 + 1) with j by lia.
    rewrite wrap64_small by lia. reflexivity.
  - cbn [tw_p tw_totalW tw_prevCp tw_hasPrev tw_breakState tw_gs].
    unfold shouldBreakAt. cbn [negb].
    apply Z.ltb_ge in H0. replace j with 0 by lia. reflexivity.
Qed.

(** The iterations over the units of the prefix. *)
Lemma totalWidth_loop_prefix : forall n fuel j,
  0 <= j -> j + Z.of_nat n <= k ->
  totalWidth_loop W EP GB is16 (n + fuel) inp amb (widthSeed W EP inp j amb)
  = totalWidth_loop W EP GB is16 fuel inp amb
      (widthSeed W EP inp (j + Z.of_nat n) amb).
Proof.
  induction n as [|n IH]; intros fuel j Hj Hk.
  - cbn [Nat.add]. replace (j + Z.of_nat 0) with j by lia. reflexivity.
  - cbn [Nat.add totalWidth_loop].
    assert (Hp : tw_p (widthSeed W EP inp j amb) = j).
    { unfold widthSeed. destruct (0 <? j); reflexivity. }
    rewrite Hp.
    assert (Hlt : (j <? len inp) = true) by (apply Z.ltb_lt; lia).
    rewrite Hlt, totalWidth_iter_seed by lia.
    rewrite IH by lia. f_equal. f_equal. lia.
Qed.

End Oracles.

Lemma totalWidth_loop_more_fuel : forall f n inp amb s r,
  totalWidth_loop W EP GB is16 f inp amb s = Ok r ->
  totalWidth_loop W EP GB is16 (f + n) inp amb s = Ok r.
Proof.
  induction f as [|f IH]; intros n inp amb s r H.
  - cbn [totalWidth_loop] in H.
    destruct (tw_p s <? len inp) eqn:Hlt; [discriminate|].
    cbn [Nat.add]. destruct n; cbn [totalWidth_loop]; rewrite Hlt; exact H.
  - cbn [Nat.add totalWidth_loop] in *.
    destruct (tw_p s <? len inp); [apply IH; exact H | exact H].
Qed.

(** X30: the fast-forward of the width pre-pass is sound.  When every
    unit of the prefix is printable ASCII, the width oracle gives such a
    unit one column, and the break oracle, called in break state 0 on two
    such units, breaks and leaves the break state 0, then entering the
    loop after the prefix, with all its units but the last counted as one
    column each and the break state 0, gives the total that walking the
    input from its first unit gives. *)
Theorem width_prepass_fast_forward :
  forall (fuel : nat) (inp : list Z) (k : Z) (amb : bool),
    (forall c, printable c = true -> W c amb = 1) ->
    (forall a b, printable a = true -> printable b = true ->
                 GB a b 0 = (true, 0)) ->
    0 <= k <= len inp ->
    len inp <= SIZE_MAX ->
    forallb printable (firstn (Z.to_nat k) inp) = true ->
    len inp <= Z.of_nat fuel ->
    exists t,
      computeTotalWidth W EP GB is16 fuel inp k amb = Ok t
      /\ computeTotalWidth W EP GB is16 fuel inp 0 amb = Ok t.
Proof.
  intros fuel inp k amb HW HGB Hk Hsize Hp Hfuel.
  rewrite !computeTotalWidth_seed.
  assert (Hpk : tw_p (widthSeed W EP inp k amb) = k).
  { unfold widthSeed. destruct (0 <? k); reflexivity. }
  destruct (totalWidth_loop_ok W EP GB is16 (fuel - Z.to_nat k) inp amb
              (widthSeed W EP inp k amb)) as [s Hs];
    [rewrite Hpk; lia | rewrite Hpk; lia |].
  assert (Hfrom_k : totalWidth_loop W EP GB is16 fuel inp amb
                      (widthSeed W EP inp k amb) = Ok s).
  { replace fuel with ((fuel - Z.to_nat k) + Z.to_nat k)%nat at 1 by lia.
    apply totalWidth_loop_more_fuel. exact Hs. }
  assert (Hfrom_0 : totalWidth_loop W EP GB is16 fuel inp amb
                      (widthSeed W EP inp 0 amb) = Ok s).
  { replace fuel with (Z.to_nat k + (fuel - Z.to_nat k))%nat at 1 by lia.
    rewrite (totalWidth_loop_prefix inp k amb HW HGB Hk Hsize Hp
               (Z.to_nat k) (fuel - Z.to_nat k)%nat 0) by lia.
    replace (0 + Z.of_nat (Z.to_nat k)) with k by lia. exact Hs. }
  rewrite Hfrom_k, Hfrom_0. cbn [bind]. eexists. split; reflexivity.
Qed.

End Engine.

Lemma width_prepass_fast_forward_witness :
  let W := fun (_ : Z) (_ : bool) => 1 in
  let EP := fun _ : Z => false in
  let GB := fun (_ _ st : Z) => (true, st) in
  let inp := [0x61; 0x62; 0x63; 0x1b; 0x5b; 0x6d; 0x64] in
  exists t,
    computeTotalWidth W EP GB false 7 inp 3 false = Ok t
    /\ computeTotalWidth W EP GB false 7 inp 0 false = Ok t.
Proof.
  intros W EP GB inp.
  apply (width_prepass_fast_forward W EP GB false 7 inp 3 false).
  - intros c _. reflexivity.
  - intros a b _ _. reflexivity.
  - unfold len. simpl. lia.
  - unfold len, SIZE_MAX. simpl. lia.
  - reflexivity.
  - unfold len. simpl. lia.
Defined.

End WidthPrePass.

(** ** The ellipsis alone *)

Module EllipsisAloneFacts.

Import Grapheme Sgr Ansi Num Slice Shape SpanFacts TokenizerBounds.
Import WalkFacts TotalityFacts WindowFacts FastPathFacts FilterFacts.
Import BoundsFacts.

(** *** Lengths *)

Lemma wrap64_range : forall x, 0 <= wrap64 x <= SIZE_MAX.
Proof.
  intros x. unfold wrap64, SIZE_MAX.
  pose proof (Z.mod_pos_bound x (2 ^ 64) ltac:(lia)). lia.
Qed.

Lemma len_fold_app : forall (f : Entry -> list Z) l r,
  len r <= len (fold_left (fun r e => r ++ f e) l r).
Proof.
  intros f l. induction l as [|e l IH]; intros r; cbn [fold_left]; [lia|].
  specialize (IH (r ++ f e)). rewrite len_app in IH.
  pose proof (len_nonneg (f e)). lia.
Qed.

Lemma len_emitOpenCodes : forall st r, len r <= len (emitOpenCodes st r).
Proof. intros st r. apply len_fold_app. Qed.

Lemma len_emitCloseCodes : forall st r, len r <= len (emitCloseCodes st r).
Proof. intros st r. apply len_fold_app. Qed.

Lemma len_span : forall E a n,
  0 <= a -> 0 <= n -> a + n <= dataEnd E -> len (span E a (a + n)) = n.
Proof.
  intros E a n Ha Hn He. unfold span, subspan, len, dataEnd, len in *.
  rewrite length_firstn, length_skipn. lia.
Qed.

(** *** What the walk keeps

    For the locals of a planned window the main loop keeps [walkInv]: what
    is written inside the window is more than the start ellipsis. *)

Section Invariant.

Variable W : Z -> bool -> Z.
Variable EP : Z -> bool.
Variable GB : Z -> Z -> Z -> bool * Z.
Variable is16 : bool.
Variable E : Env.

Hypothesis HE : plannedEnv E.

(** A flush leaves the cursor, the position and the flags, and the output
    only grows. *)
Lemma flushPending_frame : forall f w w',
  flushPending E f w = Ok w' ->
  p w' = p w /\ position w' = position w /\ include w' = include w
  /\ hasPrev w' = hasPrev w /\ specZone w' = specZone w
  /\ inSpecZone w' = inSpecZone w /\ sawCutEnd w' = sawCutEnd w
  /\ len (result w) <= len (result w').
Proof.
  intros f w w' H. unfold flushPending in H.
  destruct (flushPending_loop E f (pending w) 0 w) as [w1| |] eqn:Hl;
    cbn [bind] in H; try discriminate.
  injection H as <-. apply flushPending_loop_frame in Hl.
  destruct Hl as (H1 & H2 & H3 & _ & H5 & _ & _ & _ & _ & H10 & H11 & H12
                  & (s & H13)).
  walk_simpl. repeat (split; [assumption|]).
  rewrite H13, len_app. pose proof (len_nonneg s). lia.
Qed.

(** The invariant passes to a state that has written no less. *)
Lemma hasContent_of : forall w w',
  include w' = include w ->
  len (result w) <= len (result w') ->
  (specZone w <> [] -> specZone w' <> []) ->
  hasContent E w -> hasContent E w'.
Proof.
  intros w w' Hi Hr Hs H Hinc. rewrite Hi in Hinc.
  destruct (H Hinc) as [H1 | (H1 & H2 & H3 & H4)]; [left; lia|].
  right. repeat split; auto. lia.
Qed.

Lemma walkInv_of : forall w w',
  position w' = position w -> include w' = include w ->
  (include w = false -> hasPrev w' = hasPrev w) ->
  inSpecZone w' = inSpecZone w ->
  len (result w) <= len (result w') ->
  (specZone w <> [] -> specZone w' <> []) ->
  walkInv E w -> walkInv E w'.
Proof.
  intros w w' Hpos Hi Hh Hz Hr Hs (H1 & H2 & H3 & H4).
  unfold walkInv, beforeWindow. rewrite Hpos, Hi, Hz.
  split; [exact H1|]. split.
  - intros Hinc. rewrite (Hh Hinc). apply H2. exact Hinc.
  - split; [exact H3|]. apply (hasContent_of w); assumption.
Qed.

Lemma ellipsisBase_nonneg : 0 <= ellipsisBase E.
Proof.
  unfold ellipsisBase. destruct (needStartEllipsis E); [apply len_nonneg|lia].
Qed.

Lemma enterWindow_facts : forall w,
  include (enterWindow E w) = true
  /\ position (enterWindow E w) = position w
  /\ hasPrev (enterWindow E w) = hasPrev w
  /\ specZone (enterWindow E w) = specZone w
  /\ inSpecZone (enterWindow E w) = inSpecZone w
  /\ p (enterWindow E w) = p w
  /\ ellipsisBase E <= len (result (enterWindow E w)).
Proof.
  intros w. unfold enterWindow, ellipsisBase.
  pose proof (len_emitOpenCodes (activeStyles w) (result w)) as Ho.
  pose proof (len_nonneg (result w)) as Hr.
  pose proof (len_nonneg (ellipsis E)) as Hl.
  pose proof (len_nonneg (activeHyperlinkCode w)) as Hc.
  destruct (needStartEllipsis E); walk_simpl;
    destruct (activeHyperlink w); walk_simpl;
    repeat (split; [reflexivity|]); rewrite ?len_app; lia.
Qed.

Lemma commitWidth_facts : forall w,
  include (commitWidth w) = include w
  /\ hasPrev (commitWidth w) = hasPrev w
  /\ specZone (commitWidth w) = specZone w
  /\ inSpecZone (commitWidth w) = inSpecZone w
  /\ result (commitWidth w) = result w
  /\ sawCutEnd (commitWidth w) = sawCutEnd w
  /\ p (commitWidth w) = p w
  /\ (hasPrev w = false -> position (commitWidth w) = position w)
  /\ (0 <= position w <= SIZE_MAX -> 0 <= position (commitWidth w) <= SIZE_MAX).
Proof.
  intros w. unfold commitWidth. destruct (hasPrev w) eqn:Hh; walk_simpl;
    rewrite ?Hh.
  - do 7 (split; [reflexivity|]). split; [discriminate|].
    intros _. apply wrap64_range.
  - do 7 (split; [reflexivity|]). split; [reflexivity|]. intros H. exact H.
Qed.

Lemma join_hasPrev : forall hp prevCp cp bs bs',
  shouldBreakAt GB hp prevCp cp bs = (false, bs') -> hp = true.
Proof.
  intros hp prevCp cp bs bs' H. unfold shouldBreakAt in H.
  destruct hp; [reflexivity|]. cbn [negb] in H. discriminate.
Qed.

Lemma app_not_nil : forall (a u : list Z), 1 <= len u -> a ++ u <> [].
Proof.
  intros a u Hu H. apply (f_equal len) in H. rewrite len_app, len_nil in H.
  pose proof (len_nonneg a). lia.
Qed.

Lemma walkInv_inside : forall w',
  0 <= position w' <= SIZE_MAX -> include w' = true ->
  (inSpecZone w' = true -> 0 < ellipsisEndBudget E) ->
  hasContent E w' -> walkInv E w'.
Proof.
  intros w' H1 H2 H3 H4. unfold walkInv, beforeWindow.
  split; [exact H1|]. split; [intros H; congruence|]. split; assumption.
Qed.

Lemma walkInv_before : forall w',
  0 <= position w' <= SIZE_MAX -> include w' = false ->
  position w' < start E \/ (hasPrev w' = false /\ position w' <= start E) ->
  (inSpecZone w' = true -> 0 < ellipsisEndBudget E) ->
  walkInv E w'.
Proof.
  intros w' H1 H2 H3 H4. unfold walkInv, beforeWindow, hasContent.
  split; [exact H1|]. split; [intros _; exact H3|].
  split; [exact H4|]. intros H; congruence.
Qed.

Lemma hasContent_result : forall w',
  ellipsisBase E < len (result w') -> hasContent E w'.
Proof. intros w' H _. left. exact H. Qed.

Lemma hasContent_spec : forall w',
  ellipsisBase E <= len (result w') -> needStartEllipsis E = true ->
  0 < ellipsisEndBudget E -> specZone w' <> [] -> hasContent E w'.
Proof. intros w' H1 H2 H3 H4 _. right. repeat split; assumption. Qed.

(** A unit that enters the window at the start of the speculative zone
    comes after a start ellipsis. *)
Lemma spec_entry_needs_start : forall w,
  0 <= position w -> include w = false -> hasPrev w = false ->
  position w <= start E -> endUnbounded E = false ->
  end_ E <= position w -> 0 < ellipsisEndBudget E ->
  needStartEllipsis E = true.
Proof.
  intros w H0 Hi Hh Hs Hu He Hb.
  pose proof HE as (E1 & E2 & E3 & E4 & E5).
  destruct (needStartEllipsis E) eqn:Hns; [reflexivity|].
  specialize (E5 eq_refl Hb). specialize (E2 Hu). lia.
Qed.

(** A visible codepoint: the unit that enters the window is written to
    the output, or after a start ellipsis to the speculative zone. *)
Lemma processVisibleCp_inv : forall cp n w w' b,
  0 <= p w -> 1 <= n -> p w + n <= dataEnd E ->
  walkInv E w ->
  processVisibleCp W EP GB E cp n w = Ok (w', b) ->
  if b then walkInv E w' else hasContent E w'.
Proof.
  intros cp n w w' b Hp Hn Hend Hinv H.
  pose proof HE as (E1 & E2 & E3 & E4 & E5).
  assert (Hu : 1 <= len (span E (p w) (p w + n))) by (rewrite len_span; lia).
  unfold processVisibleCp in H.
  destruct (shouldBreakAt GB (hasPrev w) (prevVisCp w) cp (breakState w))
    as [sb bs] eqn:Hsb.
  cbv zeta in H.
  change (p (set_breakState bs w)) with (p w) in H.
  set (u := span E (p w) (p w + n)) in *.
  set (w0 := set_breakState bs w) in H.
  assert (Hinv0 : walkInv E w0)
    by (apply (walkInv_of w); try reflexivity; auto; lia).
  assert (Hh0 : hasPrev w0 = hasPrev w) by reflexivity.
  clearbody w0. clear Hinv.
  destruct Hinv0 as (I1 & I2 & I3 & I4).
  destruct sb.
  - destruct (commitWidth_facts w0)
      as (C1 & C2 & C3 & C4 & C5 & C6 & C7 & C8 & C9).
    specialize (C9 I1).
    set (w1 := commitWidth w0) in *. clearbody w1.
    destruct (negb (endUnbounded E) && (specEnd E <=? position w1)) eqn:Hpast.
    + destruct (flushPending E true (set_sawCutEnd true w1)) as [w2| |] eqn:Hf;
        cbn [bind] in H; try discriminate.
      injection H as <- <-. apply flushPending_frame in Hf. walk_simpl.
      destruct Hf as (F1 & F2 & F3 & F4 & F5 & F6 & F7 & F8).
      apply (hasContent_of w0);
        [congruence | rewrite <- C5; exact F8 | rewrite F5, C3; auto
        | exact I4].
    + destruct (include w1) eqn:Hinc1.
      * cbn [negb andb] in H. rewrite Hinc1 in H.
        destruct (flushPending E false w1) as [w3| |] eqn:Hf;
          cbn [bind] in H; try discriminate.
        injection H as <- <-. apply flushPending_frame in Hf.
        destruct Hf as (F1 & F2 & F3 & F4 & F5 & F6 & F7 & F8).
        destruct (negb (endUnbounded E) && (end_ E <=? position w3)
                  && (0 <? ellipsisEndBudget E)) eqn:Hz.
        -- apply walkInv_inside; walk_simpl.
           ++ rewrite F2. exact C9.
           ++ congruence.
           ++ intros _. apply andb_true_iff in Hz. destruct Hz as [_ Hz].
              apply Z.ltb_lt in Hz. exact Hz.
           ++ apply (hasContent_of w0); walk_simpl;
                [congruence | rewrite <- C5; exact F8
                | intros _; apply app_not_nil; exact Hu | exact I4].
        -- apply walkInv_inside; walk_simpl.
           ++ rewrite F2. exact C9.
           ++ congruence.
           ++ rewrite F6, C4. exact I3.
           ++ apply (hasContent_of w0); walk_simpl;
                [congruence
                | rewrite len_app, <- C5; pose proof (len_nonneg u); lia
                | rewrite F5, C3; auto | exact I4].
      * cbn [negb andb] in H.
        destruct (start E <=? position w1) eqn:Hst.
        -- destruct (enterWindow_facts w1)
             as (N1 & N2 & N3 & N4 & N5 & N6 & N7).
           set (w2 := enterWindow E w1) in *. clearbody w2.
           rewrite N1 in H.
           destruct (flushPending E false w2) as [w3| |] eqn:Hf;
             cbn [bind] in H; try discriminate.
           injection H as <- <-. apply flushPending_frame in Hf.
           destruct Hf as (F1 & F2 & F3 & F4 & F5 & F6 & F7 & F8).
           destruct (negb (endUnbounded E) && (end_ E <=? position w3)
                     && (0 <? ellipsisEndBudget E)) eqn:Hz.
           ++ apply andb_true_iff in Hz. destruct Hz as [Hz Hb].
              apply andb_true_iff in Hz. destruct Hz as [Hunb Hge].
              apply negb_true_iff in Hunb. apply Z.leb_le in Hge.
              apply Z.ltb_lt in Hb.
              assert (Hns : needStartEllipsis E = true).
              { symmetry in C1. specialize (I2 C1).
                specialize (E2 Hunb). apply Z.leb_le in Hst.
                destruct I2 as [I2 | [I2 I2']].
                - destruct (needStartEllipsis E) eqn:Hns; [reflexivity|].
                  specialize (E5 eq_refl Hb). lia.
                - apply (spec_entry_needs_start w0); try assumption; try lia.
                  rewrite <- (C8 I2), <- N2, <- F2. exact Hge. }
              apply walkInv_inside; walk_simpl.
              ** rewrite F2, N2. exact C9.
              ** congruence.
              ** intros _. exact Hb.
              ** apply hasContent_spec; walk_simpl;
                   [lia | exact Hns | exact Hb | apply app_not_nil; exact Hu].
           ++ apply walkInv_inside; walk_simpl.
              ** rewrite F2, N2. exact C9.
              ** congruence.
              ** rewrite F6, N5, C4. exact I3.
              ** apply hasContent_result. walk_simpl. rewrite len_app. lia.
        -- rewrite Hinc1 in H. cbn [bind] in H. injection H as <- <-.
           apply Z.leb_gt in Hst.
           apply walkInv_before; walk_simpl;
             [exact C9 | exact Hinc1 | left; exact Hst
             | rewrite C4; exact I3].
  - destruct (include w0) eqn:Hinc0.
    + destruct (flushPending E false w0) as [w3| |] eqn:Hf;
        cbn [bind] in H; try discriminate.
      injection H as <- <-. apply flushPending_frame in Hf.
      destruct Hf as (F1 & F2 & F3 & F4 & F5 & F6 & F7 & F8).
      destruct (inSpecZone w3) eqn:Hz.
      * apply walkInv_inside; walk_simpl.
        -- rewrite F2. exact I1.
        -- congruence.
        -- intros _. apply I3. congruence.
        -- apply (hasContent_of w0); walk_simpl;
             [congruence | exact F8
             | intros _; apply app_not_nil; exact Hu | exact I4].
      * apply walkInv_inside; walk_simpl.
        -- rewrite F2. exact I1.
        -- congruence.
        -- intros Hc. congruence.
        -- apply (hasContent_of w0); walk_simpl;
             [congruence
             | rewrite len_app; pose proof (len_nonneg u); lia
             | rewrite F5; auto | exact I4].
    + cbn [bind] in H. injection H as <- <-.
      apply join_hasPrev in Hsb. rewrite <- Hh0 in Hsb.
      apply walkInv_before; walk_simpl;
        [exact I1 | exact Hinc0 | | exact I3].
      destruct (I2 Hinc0) as [I | [I _]]; [left; exact I | congruence].
Qed.

(** The emission step of the bulk phase, inside the window. *)
Lemma bulk_emit_inv : forall w bulkN flow,
  0 <= p w -> 0 < bulkN -> p w + bulkN <= dataEnd E ->
  0 <= position w <= SIZE_MAX -> include w = true ->
  (inSpecZone w = true -> 0 < ellipsisEndBudget E) ->
  ellipsisBase E <= len (result w) ->
  (hasContent E w
   \/ ((endUnbounded E = false -> position w < specEnd E)
       /\ (needStartEllipsis E = false -> 0 < ellipsisEndBudget E ->
           position w < end_ E))) ->
  (let emitN :=
     if endUnbounded E then bulkN
     else Z.min (if position w <? specEnd E
                 then wrap64 (specEnd E - position w) else 0) bulkN in
   let '(w, bulkN) :=
     if 0 <? emitN then
       let w :=
         if (0 <? ellipsisEndBudget E) && (position w <? end_ E)
            && negb (endUnbounded E)
         then
           let toMain := Z.min (wrap64 (end_ E - position w)) emitN in
           let w := append_result (span E (p w) (p w + toMain)) w in
           if toMain <? emitN then
             append_specZone (span E (p w + toMain) (p w + emitN))
                             (set_inSpecZone true w)
           else w
         else if inSpecZone w
                 || (negb (endUnbounded E) && (end_ E <=? position w))
         then append_specZone (span E (p w) (p w + emitN))
                              (set_inSpecZone true w)
         else append_result (span E (p w) (p w + emitN)) w in
       (set_position (wrap64 (position w + emitN)) (set_p (p w + emitN) w),
        bulkN - emitN)
     else (w, bulkN) in
   if negb (endUnbounded E) && (specEnd E <=? position w) then
     Ok (Stop (set_sawCutEnd true w))
   else
     Ok (Next (set_position (wrap64 (position w + bulkN))
                            (set_p (p w + bulkN) w)))) = Ok flow ->
  match flow with
  | Next w' => walkInv E w'
  | Stop w' => hasContent E w'
  end.
Proof.
  intros w bulkN flow Hp Hn Hend Hpos Hinc HZ Hbase Hcase H.
  pose proof HE as (E1 & E2 & E3 & E4 & E5).
  cbv zeta in H.
  set (emitN := if endUnbounded E then bulkN
                else Z.min (if position w <? specEnd E
                            then wrap64 (specEnd E - position w) else 0)
                           bulkN) in H.
  assert (Hemit : 0 <= emitN <= bulkN).
  { unfold emitN. destruct (endUnbounded E); [lia|].
    destruct (position w <? specEnd E); [|lia].
    pose proof (wrap64_nonneg (specEnd E - position w)). lia. }
  assert (Hlt : 0 < emitN -> endUnbounded E = false ->
                position w < specEnd E).
  { unfold emitN. intros H0 Hu. rewrite Hu in H0.
    destruct (position w <? specEnd E) eqn:Hl;
      [apply Z.ltb_lt in Hl; exact Hl | lia]. }
  assert (Hfresh : (endUnbounded E = false -> position w < specEnd E) ->
                   1 <= emitN).
  { unfold emitN. intros Hf. destruct (endUnbounded E) eqn:Hu; [lia|].
    specialize (E2 eq_refl). specialize (Hf eq_refl).
    assert (Hl : (position w <? specEnd E) = true) by (apply Z.ltb_lt; lia).
    rewrite Hl, wrap64_small by lia. lia. }
  clearbody emitN.
  assert (Hfin : forall w5 n5,
             include w5 = true -> hasContent E w5 ->
             (inSpecZone w5 = true -> 0 < ellipsisEndBudget E) ->
             (if negb (endUnbounded E) && (specEnd E <=? position w5)
              then Ok (Stop (set_sawCutEnd true w5))
              else Ok (Next (set_position (wrap64 (position w5 + n5))
                                          (set_p (p w5 + n5) w5)))) = Ok flow ->
             match flow with
             | Next w' => walkInv E w'
             | Stop w' => hasContent E w'
             end).
  { intros w5 n5 Hi5 Hc5 Hz5 H5.
    destruct (negb (endUnbounded E) && (specEnd E <=? position w5));
      injection H5 as <-.
    - apply (hasContent_of w5); walk_simpl; auto; lia.
    - apply walkInv_inside; walk_simpl;
        [apply wrap64_range | exact Hi5 | exact Hz5 |].
      apply (hasContent_of w5); walk_simpl; auto; lia. }
  destruct (0 <? emitN) eqn:Hpe.
  2:{ apply Z.ltb_ge in Hpe. cbv beta iota in H.
      apply (Hfin w bulkN); try assumption.
      destruct Hcase as [Hc | [Hf _]]; [exact Hc|].
      specialize (Hfresh Hf). lia. }
  apply Z.ltb_lt in Hpe. specialize (Hlt Hpe).
  match type of H with
  | context [set_p (p ?x + emitN) ?x] => set (w5 := x) in H
  end.
  cbv beta iota in H.
  assert (H5 : include w5 = true
               /\ (inSpecZone w5 = true -> 0 < ellipsisEndBudget E)
               /\ hasContent E w5).
  { unfold w5.
    destruct ((0 <? ellipsisEndBudget E) && (position w <? end_ E)
              && negb (endUnbounded E)) eqn:Hb1.
    - apply andb_true_iff in Hb1. destruct Hb1 as [Hb1 Hunb].
      apply andb_true_iff in Hb1. destruct Hb1 as [Hb Hpe1].
      apply Z.ltb_lt in Hb. apply Z.ltb_lt in Hpe1.
      apply negb_true_iff in Hunb. specialize (E2 Hunb).
      set (toMain := Z.min (wrap64 (end_ E - position w)) emitN).
      assert (HtM : 1 <= toMain <= emitN).
      { unfold toMain. rewrite wrap64_small by lia. lia. }
      clearbody toMain.
      assert (Hs : len (span E (p w) (p w + toMain)) = toMain)
        by (apply len_span; lia).
      destruct (toMain <? emitN); walk_simpl;
        (split; [exact Hinc|]);
        (split; [intros _; exact Hb|]);
        apply hasContent_result; walk_simpl; rewrite len_app, Hs; lia.
    - assert (Hs : len (span E (p w) (p w + emitN)) = emitN)
        by (apply len_span; lia).
      destruct (inSpecZone w
                || negb (endUnbounded E) && (end_ E <=? position w)) eqn:Hb2.
      + assert (Hb : 0 < ellipsisEndBudget E).
        { apply orb_true_iff in Hb2. destruct Hb2 as [Hz | Hz];
            [apply HZ; exact Hz|].
          apply andb_true_iff in Hz. destruct Hz as [Hunb Hge].
          apply negb_true_iff in Hunb. apply Z.leb_le in Hge.
          specialize (Hlt Hunb).
          destruct (Z.lt_ge_cases 0 (ellipsisEndBudget E)) as [Hb | Hb];
            [exact Hb|].
          specialize (E4 ltac:(lia)). lia. }
        walk_simpl. split; [exact Hinc|]. split; [intros _; exact Hb|].
        destruct Hcase as [Hc | [_ Hf]].
        * apply (hasContent_of w); walk_simpl; auto; [lia|].
          intros _. apply app_not_nil. lia.
        * assert (Hns : needStartEllipsis E = true).
          { destruct (needStartEllipsis E) eqn:Hns; [reflexivity|].
            specialize (Hf eq_refl Hb). specialize (E3 Hb).
            assert (Hb' : (0 <? ellipsisEndBudget E) = true)
              by (apply Z.ltb_lt; exact Hb).
            assert (Hp' : (position w <? end_ E) = true)
              by (apply Z.ltb_lt; exact Hf).
            rewrite Hb', Hp', E3 in Hb1. discriminate. }
          apply hasContent_spec; walk_simpl;
            [exact Hbase | exact Hns | exact Hb | apply app_not_nil; lia].
      + walk_simpl. split; [exact Hinc|]. split; [exact HZ|].
        apply hasContent_result. walk_simpl. rewrite len_app, Hs. lia. }
  destruct H5 as (Hi5 & Hz5 & Hc5). clearbody w5.
  match type of H with
  | (if negb (endUnbounded E) && (specEnd E <=? position ?x) then _ else _) = _ =>
      apply (Hfin x (bulkN - emitN))
  end; walk_simpl; assumption.
Qed.

Lemma include_enterWindow : forall w, include (enterWindow E w) = true.
Proof. intros w. apply enterWindow_facts. Qed.

(** The bulk phase: a run that enters the window writes its first unit
    to the output. *)
Lemma bulkPhase_inv : forall bulkN w flow,
  0 <= p w -> 0 <= bulkN -> p w + bulkN <= dataEnd E ->
  walkInv E w ->
  bulkPhase E bulkN w = Ok flow ->
  match flow with
  | Next w' => walkInv E w'
  | Stop w' => hasContent E w'
  end.
Proof.
  intros bulkN w flow Hp Hn Hend Hinv H.
  pose proof HE as (E1 & E2 & E3 & E4 & E5).
  unfold bulkPhase in H.
  destruct (0 <? bulkN) eqn:Hpos;
    [apply Z.ltb_lt in Hpos | injection H as <-; exact Hinv].
  cbv zeta in H.
  destruct Hinv as (I1 & I2 & I3 & I4).
  set (w1 := if hasPrev w then set_hasPrev false (commitWidth w) else w) in H.
  assert (P : include w1 = include w /\ result w1 = result w
              /\ specZone w1 = specZone w /\ inSpecZone w1 = inSpecZone w
              /\ p w1 = p w /\ hasPrev w1 = false
              /\ 0 <= position w1 <= SIZE_MAX
              /\ (hasPrev w = false -> position w1 = position w)).
  { unfold w1.
    destruct (commitWidth_facts w)
      as (C1 & C2 & C3 & C4 & C5 & C6 & C7 & C8 & C9).
    destruct (hasPrev w) eqn:Hh; walk_simpl.
    - repeat (split; [assumption|]). split; [reflexivity|].
      split; [apply C9; exact I1 | discriminate].
    - repeat (split; [reflexivity|]). split; [exact Hh|].
      split; [exact I1 | reflexivity]. }
  destruct P as (P1 & P2 & P3 & P4 & P5 & P6 & P7 & P8). clearbody w1.
  destruct (hasPrev w && negb (endUnbounded E) && (specEnd E <=? position w1))
    eqn:Hcut.
  { destruct (flushPending E true (set_sawCutEnd true w1)) as [w2| |] eqn:Hf;
      cbn [bind] in H; try discriminate.
    injection H as <-. apply flushPending_frame in Hf. walk_simpl.
    destruct Hf as (F1 & F2 & F3 & F4 & F5 & F6 & F7 & F8).
    apply (hasContent_of w);
      [congruence | rewrite <- P2; exact F8 | rewrite F5, P3; auto
      | exact I4]. }
  assert (Hlt : include w = false -> endUnbounded E = false ->
                position w1 < specEnd E).
  { intros Hi Hu. specialize (E2 Hu). destruct (hasPrev w) eqn:Hh.
    - rewrite Hu in Hcut. cbn [negb andb] in Hcut.
      apply Z.leb_gt in Hcut. exact Hcut.
    - rewrite (P8 eq_refl). destruct (I2 Hi) as [I | [_ I]]; lia. }
  assert (Hb : (0 <? bulkN) = true) by (apply Z.ltb_lt; exact Hpos).
  assert (HZ1 : inSpecZone w1 = true -> 0 < ellipsisEndBudget E)
    by (rewrite P4; exact I3).
  destruct (include w1) eqn:Hinc1.
  - cbn [negb andb] in H. cbv beta iota in H.
    rewrite Hb, Hinc1 in H. cbn [negb andb] in H. rewrite ?Hinc1 in H.
    destruct (flushPending E false w1) as [w4| |] eqn:Hf;
      cbn [bind] in H; try discriminate.
    apply flushPending_frame in Hf.
    destruct Hf as (F1 & F2 & F3 & F4 & F5 & F6 & F7 & F8).
    assert (Hc4 : hasContent E w4).
    { apply (hasContent_of w);
        [congruence | rewrite <- P2; exact F8 | rewrite F5, P3; auto
        | exact I4]. }
    apply (bulk_emit_inv w4 bulkN flow); try lia; try congruence.
    + rewrite F6. exact HZ1.
    + pose proof ellipsisBase_nonneg.
      destruct (Hc4 ltac:(congruence)) as [Hc | (Hc & _)]; lia.
    + left. exact Hc4.
    + exact H.
  - symmetry in P1. cbn [negb andb] in H.
    assert (Henter : forall w2 bulkN2,
               include w2 = false -> 0 < bulkN2 -> 0 <= p w2 ->
               p w2 + bulkN2 <= dataEnd E ->
               0 <= position w2 <= SIZE_MAX ->
               inSpecZone w2 = inSpecZone w1 ->
               start E <= position w2 ->
               (endUnbounded E = false -> position w2 < specEnd E) ->
               (needStartEllipsis E = false -> 0 < ellipsisEndBudget E ->
                position w2 < end_ E) ->
               (w <- flushPending E false (enterWindow E w2) ;;
                let emitN :=
                  if endUnbounded E then bulkN2
                  else Z.min (if position w <? specEnd E
                              then wrap64 (specEnd E - position w) else 0)
                             bulkN2 in
                let '(w, bulkN) :=
                  if 0 <? emitN then
                    let w :=
                      if (0 <? ellipsisEndBudget E) && (position w <? end_ E)
                         && negb (endUnbounded E)
                      then
                        let toMain :=
                          Z.min (wrap64 (end_ E - position w)) emitN in
                        let w := append_result (span E (p w) (p w + toMain)) w in
                        if toMain <? emitN then
                          append_specZone
                            (span E (p w + toMain) (p w + emitN))
                            (set_inSpecZone true w)
                        else w
                      else if inSpecZone w
                              || (negb (endUnbounded E)
                                  && (end_ E <=? position w))
                      then append_specZone (span E (p w) (p w + emitN))
                                           (set_inSpecZone true w)
                      else append_result (span E (p w) (p w + emitN)) w in
                    (set_position (wrap64 (position w + emitN))
                                  (set_p (p w + emitN) w),
                     bulkN2 - emitN)
                  else (w, bulkN2) in
                if negb (endUnbounded E) && (specEnd E <=? position w) then
                  Ok (Stop (set_sawCutEnd true w))
                else
                  Ok (Next (set_position (wrap64 (position w + bulkN))
                                         (set_p (p w + bulkN) w)))) = Ok flow ->
               match flow with
               | Next w' => walkInv E w'
               | Stop w' => hasContent E w'
               end).
    { intros w2 bulkN2 Hi2 Hn2 Hp2 He2 Hpos2 Hz2 Hst2 Hlt2 Hns2 H2.
      destruct (enterWindow_facts w2) as (N1 & N2 & N3 & N4 & N5 & N6 & N7).
      set (w3 := enterWindow E w2) in *. clearbody w3.
      destruct (flushPending E false w3) as [w4| |] eqn:Hf;
        cbn [bind] in H2; try discriminate.
      apply flushPending_frame in Hf.
      destruct Hf as (F1 & F2 & F3 & F4 & F5 & F6 & F7 & F8).
      apply (bulk_emit_inv w4 bulkN2 flow); try lia; try congruence.
      - rewrite F6, N5, Hz2. exact HZ1.
      - right. rewrite F2, N2. split; assumption.
      - exact H2. }
    destruct (position w1 <? start E) eqn:Hps.
    + apply Z.ltb_lt in Hps. cbv beta iota in H.
      rewrite (wrap64_small (start E - position w1)) in H by lia.
      set (skipN := Z.min (start E - position w1) bulkN) in H.
      assert (Hskip : 0 <= skipN <= bulkN /\ skipN <= start E - position w1
                      /\ (skipN < bulkN -> skipN = start E - position w1))
        by (unfold skipN; lia).
      destruct Hskip as (Hs1 & Hs2 & Hs3). clearbody skipN.
      rewrite (wrap64_small (position w1 + skipN)) in H by lia.
      walk_simpl. rewrite Hinc1 in H. cbn [negb andb] in H.
      destruct (0 <? bulkN - skipN) eqn:Hrem.
      * apply Z.ltb_lt in Hrem. specialize (Hs3 ltac:(lia)).
        assert (Hge : (start E <=? position w1 + skipN) = true)
          by (apply Z.leb_le; lia).
        rewrite Hge in H. cbn [andb] in H.
        rewrite include_enterWindow in H.
        match type of H with
        | context [enterWindow E ?x] =>
            apply (Henter x (bulkN - skipN)); walk_simpl; try assumption;
              try lia; try reflexivity
        end.
        -- intros Hu. specialize (E2 Hu). lia.
        -- intros Hns Hbud. specialize (E5 Hns Hbud).
           specialize (E2 (E3 Hbud)). lia.
      * cbn [andb] in H. walk_simpl. injection H as <-.
        apply Z.ltb_ge in Hrem.
        apply walkInv_before; walk_simpl;
          [apply wrap64_range | exact Hinc1 | | exact HZ1].
        right. split; [exact P6|].
        rewrite wrap64_small by lia. lia.
    + apply Z.ltb_ge in Hps. cbv beta iota in H.
      assert (Hge : (start E <=? position w1) = true)
        by (apply Z.leb_le; lia).
      rewrite Hb, Hinc1, Hge in H. cbn [negb andb] in H.
      rewrite include_enterWindow in H.
      apply (Henter w1 bulkN); try assumption; try lia.
      * reflexivity.
      * apply Hlt. exact P1.
      * intros Hns Hbud. specialize (E5 Hns Hbud).
        specialize (E2 (E3 Hbud)).
        destruct (I2 P1) as [I | [Ih I]]; [lia|].
        rewrite (P8 Ih). lia.
Qed.

(** The loops. *)
Lemma perCharLoop_inv : forall fuel runEnd w flow,
  pendingOK w -> 0 <= p w -> runEnd <= dataEnd E ->
  walkInv E w ->
  perCharLoop W EP GB is16 E fuel runEnd w = Ok flow ->
  flowInv E flow.
Proof.
  induction fuel as [|fuel IH]; intros runEnd w flow Hok Hp Hrun Hinv H;
    cbn [perCharLoop] in H; destruct (p w <? runEnd) eqn:Hlt;
    try (apply Z.ltb_lt in Hlt); try (apply Z.ltb_ge in Hlt).
  - discriminate.
  - injection H as <-. exact Hinv.
  - destruct (from_cons E (p w)) as [c [l [Hfrom Hlen]]]; [lia|].
    rewrite Hfrom in H.
    destruct (decodeAt is16 (c :: l)) as [cp n] eqn:Hdec.
    apply decodeAt_bounds in Hdec.
    destruct (processVisibleCp_ok W EP GB E cp n w Hok)
      as [w' [b [Hw' [Hok' Hp']]]].
    rewrite Hw' in H. cbn [bind fst snd] in H.
    pose proof (processVisibleCp_inv cp n w w' b Hp ltac:(lia) ltac:(lia)
                  Hinv Hw') as Hi.
    destruct b.
    + apply (IH runEnd w'); try assumption. lia.
    + injection H as <-. exact Hi.
  - injection H as <-. exact Hinv.
Qed.

Lemma escapePhase_inv : forall w flow,
  0 <= p w < dataEnd E -> pendingOK w -> walkInv E w ->
  escapePhase W EP GB is16 E w = Ok flow ->
  flowInv E flow.
Proof.
  intros w flow Hp Hok Hinv H. unfold escapePhase in H.
  destruct (from_cons E (p w) Hp) as [c [l [Hfrom Hlen]]].
  rewrite Hfrom in H. cbn [hd] in H.
  destruct (if isEscapeCharacter c || (c =? 0x9c)
            then tryParseAnsi (c :: l) else None) as [tok|] eqn:Htok.
  - injection H as <-. cbn [flowInv].
    apply (walkInv_of w); [| | | | | | exact Hinv];
      destruct (include w) eqn:Hi; cbn [negb];
      try destruct (tokType tok); try destruct (tokHlOpen tok);
      try destruct (TokenType_eqb _ _);
      walk_simpl; rewrite ?Hi; try reflexivity; try discriminate;
      try (intros H; exact H); lia.
  - destruct (decodeAt is16 (c :: l)) as [cp n] eqn:Hdec.
    apply decodeAt_bounds in Hdec.
    destruct (processVisibleCp W EP GB E cp n w) as [[w' b]| |] eqn:Hw';
      cbn [bind fst snd] in H; try discriminate.
    pose proof (processVisibleCp_inv cp n w w' b ltac:(lia) ltac:(lia)
                  ltac:(lia) Hinv Hw') as Hi.
    injection H as <-. destruct b; exact Hi.
Qed.

Lemma walk_iter_inv : forall fuel w flow,
  0 <= p w < dataEnd E -> pendingOK w ->
  dataEnd E - p w <= Z.of_nat fuel ->
  walkInv E w ->
  walk_iter W EP GB is16 E fuel w = Ok flow ->
  flowInv E flow.
Proof.
  intros fuel w flow Hp Hok Hfuel Hinv H. unfold walk_iter in H.
  cbv zeta in H.
  set (scanEnd := if endUnbounded E then dataEnd E else _) in H.
  assert (Hscan : scanEnd <= dataEnd E).
  { unfold scanEnd. destruct (endUnbounded E); [lia|].
    match goal with
    | |- context [dataEnd E - p w <=? ?b] =>
        destruct (dataEnd E - p w <=? b) eqn:Hb;
        [lia | apply Z.leb_gt in Hb; lia]
    end. }
  clearbody scanEnd.
  set (runEnd := match findEscapeCharacter (span E (p w) scanEnd) with
                 | Some i => p w + i
                 | None => scanEnd
                 end) in H.
  assert (Hrun : runEnd <= dataEnd E).
  { unfold runEnd.
    destruct (findEscapeCharacter (span E (p w) scanEnd)) as [i|] eqn:Hi;
      [|assumption].
    apply findEscapeCharacter_bounds in Hi.
    pose proof (len_subspan (input E) (p w) scanEnd) as Hl.
    unfold span in Hi. lia. }
  clearbody runEnd.
  set (asciiLen := firstNonAsciiPrintable (laneBits is16) (span E (p w) runEnd))
    in H.
  assert (Hascii : 0 <= asciiLen <= Z.max 0 (runEnd - p w)).
  { pose proof (firstNonAsciiPrintable_bounds (laneBits is16)
                  (span E (p w) runEnd)) as Ha.
    pose proof (len_subspan (input E) (p w) runEnd) as Hl.
    unfold asciiLen, span in *. lia. }
  clearbody asciiLen.
  set (bulkN := if 1 <? asciiLen then asciiLen - 1 else 0) in H.
  assert (Hbulk : 0 <= bulkN /\ p w + bulkN <= dataEnd E).
  { unfold bulkN. destruct (1 <? asciiLen) eqn:Ha; [|lia].
    apply Z.ltb_lt in Ha. lia. }
  clearbody bulkN. destruct Hbulk as [Hbulk Hbulk'].
  destruct (bulkPhase_ok E bulkN w Hok Hbulk) as [f1 [Hf1 Hres1]].
  pose proof (bulkPhase_inv bulkN w f1 ltac:(lia) Hbulk Hbulk' Hinv Hf1)
    as Hi1.
  rewrite Hf1 in H. cbn [bind] in H. destruct f1 as [w1|w1].
  2:{ injection H as <-. exact Hi1. }
  destruct Hres1 as [Hp1 Hok1]. cbn [flowInv] in Hi1.
  destruct (perCharLoop_ok W EP GB is16 E fuel runEnd w1 Hok1)
    as [f2 [Hf2 Hres2]]; try lia.
  pose proof (perCharLoop_inv fuel runEnd w1 f2 Hok1 ltac:(lia) Hrun Hi1 Hf2)
    as Hi2.
  rewrite Hf2 in H. cbn [bind] in H. destruct f2 as [w2|w2].
  2:{ injection H as <-. exact Hi2. }
  destruct Hres2 as [Hp2 Hok2]. cbn [flowInv] in Hi2.
  destruct (dataEnd E <=? p w2) eqn:Hend.
  - injection H as <-. cbn [flowInv]. apply Hi2.
  - apply Z.leb_gt in Hend.
    apply (escapePhase_inv w2 flow); try assumption. lia.
Qed.

Lemma walk_inv : forall fuel w w',
  0 <= p w -> pendingOK w -> dataEnd E - p w <= Z.of_nat fuel ->
  walkInv E w ->
  walk W EP GB is16 E fuel w = Ok w' -> hasContent E w'.
Proof.
  induction fuel as [|fuel IH]; intros w w' Hp Hok Hfuel Hinv H;
    cbn [walk] in H; destruct (p w <? dataEnd E) eqn:Hlt;
    try (apply Z.ltb_lt in Hlt); try (apply Z.ltb_ge in Hlt).
  - discriminate.
  - injection H as <-. apply Hinv.
  - destruct (walk_iter_ok W EP GB is16 E (S fuel) w) as [flow [Hflow Hres]];
      [lia|assumption|lia|].
    pose proof (walk_iter_inv (S fuel) w flow ltac:(lia) Hok ltac:(lia)
                  Hinv Hflow) as Hi.
    rewrite Hflow in H. cbn [bind] in H. destruct flow as [w1|w1].
    + destruct Hres as [Hp' Hok'].
      apply (IH w1 w'); try assumption; lia.
    + injection H as <-. exact Hi.
  - injection H as <-. apply Hinv.
Qed.

End Invariant.

(** The locals that the budget resolution leaves, for a window that is not
    empty and the start cut as [sliceAnsiImpl] passes it. *)
Lemma plan_env : forall inp st en ew cek ceh amb ell plan,
  0 <= st < en -> en <= SIZE_MAX ->
  resolveEllipsis st en ew (0 <? st) cek ceh = Some plan ->
  plannedEnv
    (mkEnv inp (e_start plan) (e_end plan) (en =? SIZE_MAX)
           (if 0 <? e_ellipsisEndBudget plan
            then wrap64 (e_end plan + e_ellipsisEndBudget plan)
            else e_end plan)
           ell (e_needStartEllipsis plan) (e_ellipsisEndBudget plan) amb)
  /\ (0 < e_ellipsisEndBudget plan -> e_needEndEllipsis plan = true).
Proof.
  intros inp st en ew cek ceh amb ell plan Hs He H.
  unfold resolveEllipsis in H. rewrite window_unbounded in H.
  rewrite (wrap64_small (en - st)) in H by lia.
  unfold plannedEnv.
  cbn [start end_ endUnbounded specEnd needStartEllipsis ellipsisEndBudget].
  destruct (0 <? ew) eqn:HW0.
  2:{ injection H as <-.
      cbn [e_start e_end e_needStartEllipsis e_needEndEllipsis
           e_ellipsisEndBudget].
      change (0 <? 0) with false. cbn iota.
      repeat split; intros; try lia; try discriminate. }
  apply Z.ltb_lt in HW0.
  assert (HW1 : (0 <? ew) = true) by (apply Z.ltb_lt; exact HW0).
  destruct (ew <? en - st) eqn:Hfit;
    [apply Z.ltb_lt in Hfit | apply Z.ltb_ge in Hfit];
    destruct (0 <? st) eqn:Hcs;
    [apply Z.ltb_lt in Hcs | apply Z.ltb_ge in Hcs
    | apply Z.ltb_lt in Hcs | apply Z.ltb_ge in Hcs];
    cbn [andb] in H; unwrap_in H;
    match type of H with
    | context [ew <? ?x] =>
        destruct (ew <? x) eqn:Hfit2;
        [apply Z.ltb_lt in Hfit2 | apply Z.ltb_ge in Hfit2]
    end;
    destruct cek, ceh, (en =? SIZE_MAX) eqn:Hunb;
    cbn [andb orb negb e_needStartEllipsis e_needEndEllipsis] in H;
    try discriminate; injection H as <-; unwrap_in Hfit2;
    cbn [e_start e_end e_needStartEllipsis e_needEndEllipsis
         e_ellipsisEndBudget];
    rewrite ?HW1; try (change (0 <? 0) with false); cbn iota;
    try (apply Z.eqb_neq in Hunb);
    rewrite ?wrap64_small by lia;
    repeat split; intros; try lia; try discriminate; try reflexivity.
Qed.

Section Engine.

Variable W : Z -> bool -> Z.
Variable EP : Z -> bool.
Variable GB : Z -> Z -> Z -> bool * Z.
Variable is16 : bool.

(** Without a start ellipsis the walk does not read the ellipsis. *)
Lemma walk_ellipsis_unread :
  forall inp st en unb spec ell1 ell2 budget amb fuel w,
    walk W EP GB is16 (mkEnv inp st en unb spec ell1 false budget amb) fuel w
    = walk W EP GB is16 (mkEnv inp st en unb spec ell2 false budget amb) fuel w.
Proof. reflexivity. Qed.

(** What [finishWalk] returns: the empty string outside the window, and
    inside it a string longer than the start ellipsis, or one that holds the
    ellipsis on both sides. *)
Lemma finishWalk_content : forall E ne w r,
  hasContent E w -> (0 < ellipsisEndBudget E -> ne = true) ->
  finishWalk E ne w = Ok r ->
  (include w = false /\ r = Str [])
  \/ (include w = true
      /\ exists s, r = Str s
           /\ (ellipsisBase E < len s
               \/ (needStartEllipsis E = true
                   /\ ellipsisBase E + len (ellipsis E) <= len s))).
Proof.
  intros E ne w r Hc Hne H. unfold finishWalk in H.
  assert (H1 : exists w1,
             (if negb (sawCutEnd w)
              then if include (commitWidth w)
                   then flushPending E
                          (negb (endUnbounded E)
                           && (specEnd E <=? position (commitWidth w)))
                          (commitWidth w)
                   else Ok (commitWidth w)
              else Ok w) = Ok w1
             /\ include w1 = include w /\ sawCutEnd w1 = sawCutEnd w
             /\ hasContent E w1).
  { destruct (commitWidth_facts w)
      as (C1 & C2 & C3 & C4 & C5 & C6 & C7 & C8 & C9).
    assert (Hc0 : hasContent E (commitWidth w)).
    { apply (hasContent_of E w); [exact C1 | rewrite C5; lia
                                 | rewrite C3; auto | exact Hc]. }
    destruct (negb (sawCutEnd w)).
    2:{ exists w. split; [reflexivity|]. split; [reflexivity|].
        split; [reflexivity | exact Hc]. }
    destruct (include (commitWidth w)) eqn:Hi.
    2:{ exists (commitWidth w). split; [reflexivity|]. split; [congruence|].
        split; [exact C6 | exact Hc0]. }
    match type of H with
    | context [flushPending E ?f ?w0] =>
        destruct (flushPending E f w0) as [w1| |] eqn:Hf
    end.
    - exists w1. split; [reflexivity|].
      apply flushPending_frame in Hf.
      destruct Hf as (F1 & F2 & F3 & F4 & F5 & F6 & F7 & F8).
      split; [congruence|]. split; [congruence|].
      apply (hasContent_of E (commitWidth w));
        [exact F3 | exact F8 | rewrite F5; auto | exact Hc0].
    - cbn [bind] in H. discriminate.
    - cbn [bind] in H. discriminate. }
  destruct H1 as (w1 & Hw1 & Hi1 & Hs1 & Hc1).
  cbv zeta in H. rewrite Hw1 in H. cbn [bind] in H.
  rewrite <- Hi1. clear Hw1 Hi1 Hs1 Hc w. 
  destruct (include w1) eqn:Hinc; cbn [negb] in H.
  2:{ injection H as <-. left. split; reflexivity. }
  right. split; [reflexivity|].
  pose proof (len_nonneg (result w1)) as Lr.
  pose proof (len_nonneg (specZone w1)) as Ls.
  pose proof (len_nonneg (activeHyperlinkClosePrefix w1)) as L1.
  pose proof (len_nonneg (activeHyperlinkTerminator w1)) as L2.
  pose proof (len_nonneg (ellipsis E)) as Le.
  assert (Hspec : specZone w1 <> [] -> 1 <= len (specZone w1)).
  { intros Hn. destruct (specZone w1) as [|c l]; [contradiction|].
    rewrite len_cons. pose proof (len_nonneg l). lia. }
  specialize (Hc1 Hinc).
  destruct (0 <? ellipsisEndBudget E) eqn:Hb;
    [apply Z.ltb_lt in Hb | apply Z.ltb_ge in Hb].
  - destruct (sawCutEnd w1).
    + rewrite (Hne Hb) in H.
      destruct (activeHyperlink w1); injection H as <-;
        (eexists; split; [reflexivity|]);
        match goal with
        | |- context [emitCloseCodes ?st ?res] =>
            pose proof (len_emitCloseCodes st res) as Hcl
        end;
        rewrite ?len_app in Hcl;
        (destruct Hc1 as [Hc1 | (Hc1 & Hns & _ & _)];
         [left; lia | right; split; [exact Hns | lia]]).
    + destruct (activeHyperlink w1); injection H as <-;
        (eexists; split; [reflexivity|]);
        match goal with
        | |- context [emitCloseCodes ?st ?res] =>
            pose proof (len_emitCloseCodes st res) as Hcl
        end;
        rewrite ?len_app in Hcl;
        (destruct Hc1 as [Hc1 | (Hc1 & Hns & _ & Hz)];
         [left; lia | left; specialize (Hspec Hz); lia]).
  - destruct Hc1 as [Hc1 | (_ & _ & Hb' & _)]; [|lia].
    destruct (activeHyperlink w1), ne; injection H as <-;
      (eexists; split; [reflexivity|]);
      match goal with
      | |- context [emitCloseCodes ?st ?res] =>
          pose proof (len_emitCloseCodes st res) as Hcl
      end;
      rewrite ?len_app in Hcl; left; lia.
Qed.

(** The state the loop is entered in, after the fast-forward. *)
Lemma initialWalk_inv : forall E ffTo,
  0 <= ffTo <= start E -> start E <= SIZE_MAX ->
  walkInv E (initialWalk ffTo).
Proof.
  intros E ffTo H1 H2. unfold walkInv, beforeWindow, hasContent, initialWalk.
  walk_simpl. split; [lia|]. split; [intros _; right; split; [reflexivity|lia]|].
  split; intros H; discriminate.
Qed.

(** When the budget resolution makes a plan, some text of the ellipsis is
    not what the streaming path returns: the text of one unit when the plan
    has a start ellipsis or the walk ends outside the window, and the empty
    text when it ends inside. *)
Lemma streaming_not_alone :
  forall fuel inp asciiPrefix st en ew cek ceh amb plan,
    0 <= st < en -> en <= SIZE_MAX -> len inp <= Z.of_nat fuel ->
    resolveEllipsis st en ew (0 <? st) cek ceh = Some plan ->
    exists ell,
      emitSliceStreaming W EP GB is16 fuel inp asciiPrefix st en ell ew
                         (0 <? st) cek ceh amb <> Ok (Str ell).
Proof.
  intros fuel inp asciiPrefix st en ew cek ceh amb plan Hs He Hfuel Hplan.
  set (ffTo := Z.min (e_start plan)
                     (if 0 <? asciiPrefix then asciiPrefix - 1 else 0)).
  set (Eof := fun ell =>
         mkEnv inp (e_start plan) (e_end plan) (en =? SIZE_MAX)
               (if 0 <? e_ellipsisEndBudget plan
                then wrap64 (e_end plan + e_ellipsisEndBudget plan)
                else e_end plan)
               ell (e_needStartEllipsis plan) (e_ellipsisEndBudget plan)
               amb).
  assert (Hne : 0 < e_ellipsisEndBudget plan -> e_needEndEllipsis plan = true)
    by apply (plan_env inp st en ew cek ceh amb [] plan Hs He Hplan).
  assert (Hrun : forall ell, exists w,
             walk W EP GB is16 (Eof ell) fuel (initialWalk ffTo) = Ok w
             /\ hasContent (Eof ell) w
             /\ emitSliceStreaming W EP GB is16 fuel inp asciiPrefix st en ell
                                   ew (0 <? st) cek ceh amb
                = finishWalk (Eof ell) (e_needEndEllipsis plan) w).
  { intros ell. unfold emitSliceStreaming. rewrite Hplan. cbv zeta.
    fold ffTo.
    change (mkEnv inp (e_start plan) (e_end plan) (en =? SIZE_MAX)
              (if 0 <? e_ellipsisEndBudget plan
               then wrap64 (e_end plan + e_ellipsisEndBudget plan)
               else e_end plan)
              ell (e_needStartEllipsis plan) (e_ellipsisEndBudget plan) amb)
      with (Eof ell).
    destruct (plan_env inp st en ew cek ceh amb ell plan Hs He Hplan)
      as [HE _].
    fold (Eof ell) in HE.
    assert (Hff : 0 <= ffTo <= e_start plan).
    { destruct HE as (E1 & _). cbn [Eof start] in E1. unfold ffTo.
      destruct (0 <? asciiPrefix) eqn:Ha; [apply Z.ltb_lt in Ha|]; lia. }
    destruct (walk_ok W EP GB is16 (Eof ell) fuel (initialWalk ffTo))
      as [w [Hw Hok]].
    - cbn [initialWalk p]. lia.
    - reflexivity.
    - cbn [initialWalk p]. unfold dataEnd. cbn [Eof input]. lia.
    - rewrite Hw. cbn [bind]. exists w.
      split; [reflexivity|]. split; [|reflexivity].
      apply (walk_inv W EP GB is16 (Eof ell) HE fuel (initialWalk ffTo) w);
        try assumption.
      + cbn [initialWalk p]. lia.
      + reflexivity.
      + cbn [initialWalk p]. unfold dataEnd. cbn [Eof input]. lia.
      + apply initialWalk_inv; [exact Hff|].
        destruct HE as (E1 & _). cbn [Eof start] in E1. cbn [Eof start].
        lia. }
  destruct (e_needStartEllipsis plan) eqn:Hns.
  - destruct (Hrun [0]) as (w & Hw & Hc & Hf).
    exists [0]. rewrite Hf. intros Heq.
    apply finishWalk_content in Heq; [|exact Hc|exact Hne].
    destruct Heq as [[_ Hr] | (_ & s & Hr & Hlen)]; [discriminate|].
    injection Hr as <-. unfold ellipsisBase in Hlen.
    cbn [Eof needStartEllipsis ellipsis] in Hlen.
    change (len [0]) with 1 in Hlen. lia.
  - destruct (Hrun []) as (w1 & Hw1 & Hc1 & Hf1).
    destruct (Hrun [0]) as (w2 & Hw2 & Hc2 & Hf2).
    assert (Heq : w1 = w2).
    { unfold Eof in Hw1, Hw2.
      rewrite (walk_ellipsis_unread inp (e_start plan) (e_end plan)
                 (en =? SIZE_MAX) _ [] [0]) in Hw1.
      congruence. }
    subst w2.
    destruct (include w1) eqn:Hinc.
    + exists []. rewrite Hf1. intros Heq.
      apply finishWalk_content in Heq; [|exact Hc1|exact Hne].
      unfold ellipsisBase in Heq.
      cbn [Eof needStartEllipsis ellipsis] in Heq.
      destruct Heq as [[Hi1 _] | (_ & s & Hr & Hlen)]; [congruence|].
      injection Hr as <-. change (len []) with 0 in Hlen.
      destruct Hlen as [Hlen | [Hlen _]]; [lia | discriminate].
    + exists [0]. rewrite Hf2. intros Heq.
      apply finishWalk_content in Heq; [|exact Hc2|exact Hne].
      destruct Heq as [[_ Hr] | (Hi2 & _)]; [discriminate | congruence].
Qed.

(** The streaming path returns the ellipsis, whatever its text, exactly on
    the early return of the budget resolution. *)
Lemma streaming_alone_iff :
  forall fuel inp asciiPrefix st en ew cek ceh amb,
    0 <= st < en -> en <= SIZE_MAX -> len inp <= Z.of_nat fuel ->
    (forall ell,
        emitSliceStreaming W EP GB is16 fuel inp asciiPrefix st en ell ew
                           (0 <? st) cek ceh amb = Ok (Str ell))
    <-> 0 < ew /\ cek = true /\ (0 < st \/ ceh = true) /\ en - st <= ew.
Proof.
  intros fuel inp asciiPrefix st en ew cek ceh amb Hs He Hfuel.
  pose proof (resolveEllipsis_none_iff st en ew (0 <? st) cek ceh) as Hiff.
  cbv zeta in Hiff.
  rewrite window_unbounded, wrap64_small in Hiff by lia.
  split.
  - intros Hall.
    destruct (resolveEllipsis st en ew (0 <? st) cek ceh) as [plan|] eqn:Hplan.
    + destruct (streaming_not_alone fuel inp asciiPrefix st en ew cek ceh amb
                  plan Hs He Hfuel Hplan) as [ell Hn].
      contradiction (Hn (Hall ell)).
    + destruct (proj1 Hiff eq_refl) as (A & B & C & D).
      split; [exact A|]. split; [exact B|]. split; [|exact D].
      destruct C as [C | C]; [left; apply Z.ltb_lt; exact C | right; exact C].
  - intros (A & B & C & D) ell. unfold emitSliceStreaming.
    assert (Hnone : resolveEllipsis st en ew (0 <? st) cek ceh = None).
    { apply Hiff. split; [exact A|]. split; [exact B|]. split; [|exact D].
      destruct C as [C | C]; [left; apply Z.ltb_lt; exact C | right; exact C]. }
    rewrite Hnone. reflexivity.
Qed.

(** With the end cut unknown, or no side cut, or a window that the
    ellipsis fits, the budget resolution makes a plan. *)
Lemma streaming_plan : forall st en ew cek ceh,
  0 <= st < en -> en <= SIZE_MAX ->
  cek = false \/ (st = 0 /\ ceh = false) \/ ew < en - st ->
  exists plan, resolveEllipsis st en ew (0 <? st) cek ceh = Some plan.
Proof.
  intros st en ew cek ceh Hs He Hc.
  pose proof (resolveEllipsis_none_iff st en ew (0 <? st) cek ceh) as Hiff.
  cbv zeta in Hiff.
  rewrite window_unbounded, wrap64_small in Hiff by lia.
  destruct (resolveEllipsis st en ew (0 <? st) cek ceh) as [plan|];
    [exists plan; reflexivity|].
  exfalso. destruct (proj1 Hiff eq_refl) as (A & B & C & D).
  destruct Hc as [Hc | [[Hc1 Hc2] | Hc]]; [congruence | | lia].
  destruct C as [C | C]; [apply Z.ltb_lt in C; lia | congruence].
Qed.

(** *** The printable-ASCII path *)

Lemma len_subspan_exact : forall l a b,
  0 <= a <= b -> b <= len l -> len (subspan l a b) = b - a.
Proof.
  intros l a b Ha Hb. unfold subspan, len in *.
  rewrite length_firstn, length_skipn. lia.
Qed.

(** The substring that the printable-ASCII path takes is not empty. *)
Lemma asciiDecide_slice_window :
  forall (b : SliceBounds) (cutEnd : bool) (ew st en : Z)
         (doStart doEnd : bool),
    0 <= b_start b < b_end b -> b_end b <= SIZE_MAX ->
    asciiDecide b cutEnd ew = AsciiSlice st en doStart doEnd ->
    b_start b <= st /\ st < en <= b_end b.
Proof.
  intros b cutEnd ew st en ds de Hs He H.
  unfold asciiDecide in H.
  destruct (negb (b_cutStart b) && negb cutEnd) eqn:Hid; [discriminate|].
  destruct (0 <? ew) eqn:HW0;
    [apply Z.ltb_lt in HW0 | injection H as <- <- <- <-; lia].
  rewrite (wrap64_small (b_end b - b_start b)) in H by lia.
  destruct (ew <? b_end b - b_start b) eqn:Hfit;
    [apply Z.ltb_lt in Hfit | apply Z.ltb_ge in Hfit];
    destruct (b_cutStart b); cbn [andb] in H; unwrap_in H;
    match type of H with
    | context [ew <? ?x] =>
        destruct (ew <? x) eqn:Hfit2;
        [apply Z.ltb_lt in Hfit2 | apply Z.ltb_ge in Hfit2]
    end;
    destruct cutEnd; cbn [andb orb negb] in H;
    try discriminate; injection H as <- <- <- <-; unwrap_in Hfit2;
    rewrite ?wrap64_small by lia; lia.
Qed.

(** The printable-ASCII path returns the ellipsis, whatever its text,
    exactly when it decides for the ellipsis alone. *)
Lemma ascii_alone_iff : forall inp b cutEnd ew,
  0 <= b_start b < b_end b -> b_end b <= len inp -> len inp <= SIZE_MAX ->
  (forall ell, asciiRender inp ell (asciiDecide b cutEnd ew) = Str ell)
  <-> 0 < ew /\ (b_cutStart b = true \/ cutEnd = true)
      /\ b_end b - b_start b <= ew.
Proof.
  intros inp b cutEnd ew Hs He Hsize.
  pose proof (asciiDecide_alone_iff b cutEnd ew) as Hiff.
  rewrite wrap64_small in Hiff by lia.
  split.
  - intros Hall. apply Hiff.
    destruct (asciiDecide b cutEnd ew) as [| |st en ds de] eqn:Hd.
    + specialize (Hall []). discriminate.
    + reflexivity.
    + exfalso.
      apply asciiDecide_slice_window in Hd; [|lia|lia].
      assert (Hl : len (subspan inp st en) = en - st)
        by (apply len_subspan_exact; lia).
      specialize (Hall []). cbn [asciiRender] in Hall.
      assert (Hc : subspan inp st en = []).
      { destruct ds, de; cbn [andb app] in Hall; injection Hall as Hall;
          rewrite ?app_nil_r in Hall; exact Hall. }
      rewrite Hc, len_nil in Hl. lia.
  - intros HR ell. rewrite (proj2 Hiff HR). reflexivity.
Qed.

(** The total of the width pre-pass is a [size_t]. *)
Lemma totalWidth_loop_range : forall fuel inp amb s s',
  0 <= tw_totalW s <= SIZE_MAX ->
  totalWidth_loop W EP GB is16 fuel inp amb s = Ok s' ->
  0 <= tw_totalW s' <= SIZE_MAX.
Proof.
  induction fuel as [|fuel IH]; intros inp amb s s' Hr H;
    cbn [totalWidth_loop] in H; destruct (tw_p s <? len inp).
  - discriminate.
  - injection H as <-. exact Hr.
  - apply IH in H; [exact H|]. unfold totalWidth_iter.
    destruct (if isEscapeCharacter (hd 0 (skipn (Z.to_nat (tw_p s)) inp))
                 || (hd 0 (skipn (Z.to_nat (tw_p s)) inp) =? 0x9c)
              then tryParseAnsi (skipn (Z.to_nat (tw_p s)) inp) else None);
      [exact Hr|].
    destruct (decodeAt is16 (skipn (Z.to_nat (tw_p s)) inp)) as [cp n].
    destruct (shouldBreakAt GB (tw_hasPrev s) (tw_prevCp s) cp
                            (tw_breakState s)) as [sb bs].
    destruct sb; cbn [tw_totalW]; [|exact Hr].
    destruct (tw_hasPrev s); [apply wrap64_range | exact Hr].
  - injection H as <-. exact Hr.
Qed.

Lemma computeTotalWidth_range : forall fuel inp asciiPrefix amb t,
  0 <= asciiPrefix <= SIZE_MAX ->
  computeTotalWidth W EP GB is16 fuel inp asciiPrefix amb = Ok t ->
  0 <= t <= SIZE_MAX.
Proof.
  intros fuel inp asciiPrefix amb t Ha H. unfold computeTotalWidth in H.
  match type of H with
  | context [totalWidth_loop W EP GB is16 fuel inp amb ?s0] =>
      destruct (totalWidth_loop W EP GB is16 fuel inp amb s0) as [s| |] eqn:Hs;
      cbn [bind] in H; try discriminate;
      apply totalWidth_loop_range in Hs
  end.
  - injection H as <-. destruct (tw_hasPrev s); [apply wrap64_range|exact Hs].
  - destruct (0 <? asciiPrefix) eqn:H0; cbn [tw_totalW];
      [apply Z.ltb_lt in H0|]; lia.
Qed.

(** *** The slicer *)

Lemma len_subspan_le : forall l a b, len (subspan l a b) <= len l.
Proof.
  intros l a b. unfold subspan, len.
  rewrite length_firstn, length_skipn. lia.
Qed.

(** Off the printable-ASCII path and for indices that are not negative,
    some text of the ellipsis is not what the slicer returns. *)
Lemma nonnegative_not_alone :
  forall fuel inp startD endD ew amb,
    len inp <= Z.of_nat fuel -> 0 <= ew -> 2 * len inp + ew < SIZE_MAX ->
    let size := len inp in
    let prefixScanLen :=
      if le (Finite 0) startD && le (Finite 0) endD && isfinite endD then
        if lt (add 2 endD) (Finite size) then to_size (add 2 endD) else size
      else size in
    let asciiPrefix :=
      firstNonAsciiPrintable (laneBits is16) (subspan inp 0 prefixScanLen) in
    let wholeStringAscii :=
      (prefixScanLen =? size) && (asciiPrefix =? size) in
    let sliceInsidePrefix :=
      le (Finite 0) startD && le (Finite 0) endD
      && lt endD (Finite asciiPrefix) in
    wholeStringAscii || sliceInsidePrefix = false ->
    le (Finite 0) startD && negb (lt endD (Finite 0)) = true ->
    exists ell,
      sliceAnsiImpl W EP GB is16 fuel inp startD endD ell ew amb
      <> Ok (Str ell).
Proof.
  intros fuel inp startD endD ew amb Hfuel Hew Hsize. cbv zeta.
  destruct inp as [|c0 inp0] eqn:Hinp.
  { intros _ _. exists [0]. discriminate. }
  rewrite <- Hinp in *.
  assert (Hne : inp <> []) by (rewrite Hinp; discriminate).
  clear Hinp c0 inp0.
  pose proof (fun ell => sliceAnsiImpl_stages W EP GB is16 fuel inp startD
                           endD ell ew amb Hne) as Hst.
  cbv zeta in Hst.
  set (psl := if le (Finite 0) startD && le (Finite 0) endD && isfinite endD
              then if lt (add 2 endD) (Finite (len inp))
                   then to_size (add 2 endD) else len inp
              else len inp) in *.
  set (ap := firstNonAsciiPrintable (laneBits is16) (subspan inp 0 psl)) in *.
  clearbody ap. clearbody psl.
  set (whole := (psl =? len inp) && (ap =? len inp)) in *. clearbody whole.
  set (inside := le (Finite 0) startD && le (Finite 0) endD
                 && lt endD (Finite ap)) in *. clearbody inside.
  pose proof (len_nonneg inp) as Hlen.
  intros Hfast Hnn.
  destruct (eq0 startD && negb (isfinite endD) && lt (Finite 0) endD
            && (ew =? 0)) eqn:Hid.
  { exists []. rewrite Hst. discriminate. }
  rewrite Hfast, Hnn in Hst.
  apply andb_true_iff in Hnn. destruct Hnn as [Hs0 He0].
  destruct (negb (isfinite startD) || lt (Finite (len inp * 2)) startD)
    eqn:Hbig.
  { exists [0]. rewrite Hst. discriminate. }
  apply orb_false_iff in Hbig. destruct Hbig as [Hfin Hbig].
  destruct startD as [s| |]; try discriminate.
  unfold le in Hs0. cbn [lt negb] in Hs0, Hbig.
  apply negb_true_iff, Z.ltb_ge in Hs0. apply Z.ltb_ge in Hbig.
  cbn [to_size] in Hst.
  destruct (negb (isfinite endD) || lt (Finite (len inp * 2)) endD)
    eqn:Hunb.
  - destruct (streaming_plan s SIZE_MAX ew true false) as [plan Hplan];
      [lia | lia | right; right; lia |].
    destruct (streaming_not_alone fuel inp ap s SIZE_MAX ew true false amb
                plan) as [ell Hn]; [lia | lia | exact Hfuel | exact Hplan |].
    exists ell. rewrite Hst. exact Hn.
  - apply orb_false_iff in Hunb. destruct Hunb as [Hfe Hbe].
    destruct endD as [e| |]; try discriminate.
    cbn [lt negb] in He0, Hbe.
    apply negb_true_iff, Z.ltb_ge in He0. apply Z.ltb_ge in Hbe.
    cbn [to_size] in Hst.
    destruct (e <=? s) eqn:Hes.
    + exists [0]. rewrite Hst. discriminate.
    + apply Z.leb_gt in Hes.
      destruct (streaming_plan s e ew false false) as [plan Hplan];
        [lia | lia | left; reflexivity |].
      destruct (streaming_not_alone fuel inp ap s e ew false false amb
                  plan) as [ell Hn]; [lia | lia | exact Hfuel | exact Hplan |].
      exists ell. rewrite Hst. exact Hn.
Qed.

(** The slicer returns the ellipsis, whatever its text, exactly on the
    printable-ASCII path or for a negative index, with a side cut and a
    window that the ellipsis does not fit. *)
Lemma slicer_alone_iff :
  forall fuel inp startD endD ew amb,
    len inp <= Z.of_nat fuel -> 0 <= ew -> 2 * len inp + ew < SIZE_MAX ->
    let size := len inp in
    let prefixScanLen :=
      if le (Finite 0) startD && le (Finite 0) endD && isfinite endD then
        if lt (add 2 endD) (Finite size) then to_size (add 2 endD) else size
      else size in
    let asciiPrefix :=
      firstNonAsciiPrintable (laneBits is16) (subspan inp 0 prefixScanLen) in
    let wholeStringAscii :=
      (prefixScanLen =? size) && (asciiPrefix =? size) in
    let sliceInsidePrefix :=
      le (Finite 0) startD && le (Finite 0) endD
      && lt endD (Finite asciiPrefix) in
    (forall ell,
        sliceAnsiImpl W EP GB is16 fuel inp startD endD ell ew amb
        = Ok (Str ell))
    <-> inp <> [] /\ 0 < ew
        /\ ((wholeStringAscii || sliceInsidePrefix = true
             /\ let b := resolveSliceBounds startD endD
                           (if wholeStringAscii then size else asciiPrefix) in
                b_empty b = false
                /\ (b_cutStart b = true
                    \/ (if wholeStringAscii then b_cutEnd b else true) = true)
                /\ b_end b - b_start b <= ew)
            \/ (wholeStringAscii || sliceInsidePrefix = false
                /\ le (Finite 0) startD && negb (lt endD (Finite 0)) = false
                /\ exists totalW,
                     computeTotalWidth W EP GB is16 fuel inp asciiPrefix amb
                     = Ok totalW
                     /\ let b := resolveSliceBounds startD endD totalW in
                        b_empty b = false
                        /\ (b_cutStart b = true \/ b_cutEnd b = true)
                        /\ b_end b - b_start b <= ew)).
Proof.
  intros fuel inp startD endD ew amb Hfuel Hew Hsize. cbv zeta.
  destruct inp as [|c0 inp0] eqn:Hinp.
  { split.
    - intros Hall. specialize (Hall [0]). discriminate Hall.
    - intros [Hne _]. contradiction Hne. reflexivity. }
  rewrite <- Hinp in *.
  assert (Hne : inp <> []) by (rewrite Hinp; discriminate).
  clear Hinp c0 inp0.
  pose proof (fun ell => sliceAnsiImpl_stages W EP GB is16 fuel inp startD
                           endD ell ew amb Hne) as Hst.
  cbv zeta in Hst.
  set (psl := if le (Finite 0) startD && le (Finite 0) endD && isfinite endD
              then if lt (add 2 endD) (Finite (len inp))
                   then to_size (add 2 endD) else len inp
              else len inp) in *.
  set (ap := firstNonAsciiPrintable (laneBits is16) (subspan inp 0 psl)) in *.
  assert (Hap : 0 <= ap <= len inp).
  { pose proof (firstNonAsciiPrintable_bounds (laneBits is16)
                  (subspan inp 0 psl)).
    pose proof (len_subspan_le inp 0 psl). unfold ap. lia. }
  clearbody ap. clearbody psl.
  set (whole := (psl =? len inp) && (ap =? len inp)) in *. clearbody whole.
  set (inside := le (Finite 0) startD && le (Finite 0) endD
                 && lt endD (Finite ap)) in *. clearbody inside.
  pose proof (len_nonneg inp) as Hlen.
  destruct (eq0 startD && negb (isfinite endD) && lt (Finite 0) endD
            && (ew =? 0)) eqn:Hid.
  { apply andb_true_iff in Hid. destruct Hid as [_ Hid].
    apply Z.eqb_eq in Hid. split.
    - intros Hall. specialize (Hall []). rewrite Hst in Hall. discriminate.
    - intros (_ & H0 & _). lia. }
  destruct (whole || inside) eqn:Hfast.
  { set (totalW := if whole then len inp else ap) in *.
    assert (Ht : 0 <= totalW <= len inp) by (unfold totalW; destruct whole; lia).
    clearbody totalW.
    pose proof (resolveSliceBounds_cases startD endD totalW ltac:(lia)) as Hc.
    cbv zeta in Hc.
    set (b := resolveSliceBounds startD endD totalW) in *. clearbody b.
    destruct Hc as [(Hemp & _) | (Hemp & Hr & Hn & Hcs & Hce)];
      rewrite Hemp in Hst.
    - split.
      + intros Hall. specialize (Hall [0]). rewrite Hst in Hall.
        discriminate.
      + intros (_ & _ & [(_ & Hb & _) | (Hf & _)]); congruence.
    - pose proof (ascii_alone_iff inp b (if whole then b_cutEnd b else true)
                    ew Hr ltac:(lia) ltac:(lia)) as Hiff.
      split.
      + intros Hall. split; [exact Hne|].
        assert (HR : 0 < ew
                     /\ (b_cutStart b = true
                         \/ (if whole then b_cutEnd b else true) = true)
                     /\ b_end b - b_start b <= ew).
        { apply Hiff. intros ell. specialize (Hall ell). rewrite Hst in Hall.
          injection Hall as Hall. exact Hall. }
        destruct HR as (A & B & C). split; [exact A|]. left.
        split; [reflexivity|]. split; [exact Hemp|]. split; assumption.
      + intros (_ & A & [(_ & _ & B & C) | (Hf & _)]); [|discriminate].
        intros ell. rewrite Hst. f_equal. apply Hiff.
        split; [exact A|]. split; assumption. }
  destruct (le (Finite 0) startD && negb (lt endD (Finite 0))) eqn:Hnn.
  { split; [|intros (_ & _ & [(Hf & _) | (_ & Hn & _)]); discriminate].
    intros Hall. exfalso.
    apply andb_true_iff in Hnn. destruct Hnn as [Hs0 He0].
    destruct (negb (isfinite startD) || lt (Finite (len inp * 2)) startD)
      eqn:Hbig.
    { specialize (Hall [0]). rewrite Hst in Hall. discriminate. }
    apply orb_false_iff in Hbig. destruct Hbig as [Hfin Hbig].
    destruct startD as [s| |]; try discriminate.
    unfold le in Hs0. cbn [lt negb] in Hs0, Hbig.
    apply negb_true_iff, Z.ltb_ge in Hs0. apply Z.ltb_ge in Hbig.
    cbn [to_size] in Hst.
    destruct (negb (isfinite endD) || lt (Finite (len inp * 2)) endD)
      eqn:Hunb.
    - assert (HR : 0 < ew /\ true = true /\ (0 < s \/ false = true)
                   /\ SIZE_MAX - s <= ew).
      { apply (streaming_alone_iff fuel inp ap s SIZE_MAX ew true false amb);
          [lia | lia | exact Hfuel |].
        intros ell. rewrite <- Hst. apply Hall. }
      lia.
    - apply orb_false_iff in Hunb. destruct Hunb as [Hfe Hbe].
      destruct endD as [e| |]; try discriminate.
      cbn [lt negb] in He0, Hbe.
      apply negb_true_iff, Z.ltb_ge in He0. apply Z.ltb_ge in Hbe.
      cbn [to_size] in Hst.
      destruct (e <=? s) eqn:Hes.
      + specialize (Hall [0]). rewrite Hst in Hall. discriminate.
      + apply Z.leb_gt in Hes.
        assert (HR : 0 < ew /\ false = true /\ (0 < s \/ false = true)
                     /\ e - s <= ew).
        { apply (streaming_alone_iff fuel inp ap s e ew false false amb);
            [lia | lia | exact Hfuel |].
          intros ell. rewrite <- Hst. apply Hall. }
        destruct HR as (_ & HR & _). discriminate. }
  destruct (computeTotalWidth W EP GB is16 fuel inp ap amb) as [t| |] eqn:Ht;
    cbn [bind] in Hst.
  2,3: (split;
        [ intros Hall; specialize (Hall []); rewrite Hst in Hall;
          discriminate
        | intros (_ & _ & [(Hf & _) | (_ & _ & (t & Ht' & _))]);
          discriminate ]).
  pose proof (computeTotalWidth_range fuel inp ap amb t ltac:(lia) Ht) as Htr.
  pose proof (resolveSliceBounds_cases startD endD t ltac:(lia)) as Hc.
  cbv zeta in Hc.
  set (b := resolveSliceBounds startD endD t) in *.
  destruct Hc as [(Hemp & _) | (Hemp & Hr & Hn & Hcs & Hce)];
    rewrite Hemp in Hst.
  - split.
    + intros Hall. specialize (Hall [0]). rewrite Hst in Hall. discriminate.
    + intros (_ & _ & [(Hf & _) | (_ & _ & (t' & Ht' & Hb & _))]);
        [discriminate|].
      injection Ht' as <-. fold b in Hb. congruence.
  - pose proof (streaming_alone_iff fuel inp ap (b_start b) (b_end b) ew true
                  (b_cutEnd b) amb Hr ltac:(lia) Hfuel) as Hiff.
    split.
    + intros Hall. split; [exact Hne|].
      assert (HR : 0 < ew /\ true = true
                   /\ (0 < b_start b \/ b_cutEnd b = true)
                   /\ b_end b - b_start b <= ew).
      { apply Hiff. intros ell. rewrite <- Hst. apply Hall. }
      destruct HR as (A & _ & B & C). split; [exact A|]. right.
      split; [reflexivity|]. split; [reflexivity|].
      exists t. split; [reflexivity|]. fold b. split; [exact Hemp|].
      split; [|exact C].
      destruct B as [B | B]; [left | right; exact B].
      rewrite Hcs. apply Z.ltb_lt. exact B.
    + intros (_ & A & [(Hf & _) | (_ & _ & (t' & Ht' & _ & B & C))]);
        [discriminate|].
      injection Ht' as <-. fold b in B, C.
      intros ell. rewrite Hst. apply Hiff.
      split; [exact A|]. split; [reflexivity|]. split; [|exact C].
      destruct B as [B | B]; [left | right; exact B].
      rewrite Hcs in B. apply Z.ltb_lt in B. exact B.
Qed.

End Engine.


(** A slice can be the text of an ellipsis without the ellipsis being
    returned alone: ESC[0m "." sliced at [0, 5) with the ellipsis "." has no
    cut, and its content is ".". *)
Lemma content_is_ellipsis_text :
  Toy.slice [0x1b; 0x5b; 0x30; 0x6d; 0x2e] (Finite 0) (Finite 5) [0x2e] 1
  = Ok (Str [0x2e])
  /\ Toy.slice [0x1b; 0x5b; 0x30; 0x6d; 0x2e] (Finite 0) (Finite 5) [] 1
     = Ok (Str [0x2e]).
Proof. vm_compute. split; reflexivity. Qed.


End EllipsisAloneFacts.
